(** * Verification of the step execution engine and the synchronization pipeline

    Shallow embedding of
    - [packages/integration-sdk-runtime/src/execution/dependencyGraph.ts]
      (the step scheduler), and
    - [packages/integration-sdk-runtime/src/synchronization/index.ts]
      (chunk upload with retry, payload shrinking, job lifecycle), and
    - [packages/integration-sdk-runtime/src/execution/config.ts]
      (the configuration read from environment variables),
    together with the parts of the third-party packages they are written
    against ([dependency-graph], [p-queue], [@lifeomic/attempt]).

    Layout: definitions first (one module per source unit), then the
    lemmas about them. *)

From stdpp Require Import gmap strings list relations pretty.
From Stdlib Require Import ZArith.

(** ** JavaScript values and the operators used by the scheduler *)

Module Js.

(** The run-time values a start-state field can hold. Numbers are
    restricted to integers; [NaN] is not represented. *)
Inductive value :=
| VUndefined
| VNull
| VBool (b : bool)
| VNum (z : Z)
| VStr (s : string).

#[global] Instance value_eq_dec : EqDecision value.
Proof. solve_decision. Defined.

(** [ToBoolean]. *)
Definition truthy (v : value) : bool :=
  match v with
  | VUndefined | VNull => false
  | VBool b => b
  | VNum z => negb (z =? 0)%Z
  | VStr s => negb (String.eqb s "")
  end.

(** Unary [!]. *)
Definition not (v : value) : value := VBool (negb (truthy v)).

(** Nullish coalescing [a ?? b]. *)
Definition nullish (a b : value) : value :=
  match a with
  | VUndefined | VNull => b
  | _ => a
  end.

(** Strict equality [a === b] on these values. *)
Definition strict_eq (a b : value) : bool := bool_decide (a = b).

Definition is_boolean (v : value) : Prop :=
  match v with VBool _ => True | _ => False end.

(** The members of [Object.prototype]. A lookup [o[name]] on a plain
    object [o] finds the member of that name when [o] has no property
    [name] of its own; each of them is truthy (they are functions, and
    [__proto__] reads as the prototype itself). *)
Definition objectPrototype : list string :=
  ["constructor"; "__defineGetter__"; "__defineSetter__"; "hasOwnProperty";
   "__lookupGetter__"; "__lookupSetter__"; "isPrototypeOf";
   "propertyIsEnumerable"; "toString"; "valueOf"; "__proto__";
   "toLocaleString"].

(** The names an empty plain object [{}] answers a lookup for. The
    packages below use plain objects as sets and maps keyed by step id,
    and read an object that inherits a name as one that holds it. *)
Class Prototype := inherited : list string.

End Js.

(** The two readings of a plain object. [javascript] is the language's:
    [{}] inherits the members of [Object.prototype]. [ownProperties] has
    objects hold what was put in them and nothing else; it is the reading
    taken where none is named, and the engine behaves the same under both
    on a graph none of whose nodes is named like a member of
    [Object.prototype] (lemma [run_javascript] below). *)
Definition javascript : Js.Prototype := Js.objectPrototype.
#[global] Instance ownProperties : Js.Prototype := [].

(** ** Errors

    What the engine looks at in a thrown value: its [code] and whether it
    carries a truthy [fatal] marker. Any value can be thrown; [undefined]
    and [null] have no property, and reading one of theirs is a
    [TypeError]. *)

Inductive Err :=
| mkErr (err_code : string) (err_fatal : bool)
| Nullish.

#[global] Instance Err_eq_dec : EqDecision Err.
Proof. solve_decision. Defined.

Definition err_code (err : Err) : string :=
  match err with mkErr code _ => code | Nullish => "" end.

(** The thrown value is marked fatal. *)
Definition err_fatal (err : Err) : bool :=
  match err with mkErr _ fatal => fatal | Nullish => false end.

(** [err.fatal], as the truth value an [if] tests; [None] is the
    [TypeError] of reading it on [undefined] or [null]. *)
Definition fatal (err : Err) : option bool :=
  match err with mkErr _ fatal => Some fatal | Nullish => None end.

Definition TypeError : Err := mkErr "TypeError" false.
Definition DepGraphCycleError : Err := mkErr "DepGraphCycleError" false.

(** The sequential fold the [forEach] loops below are: stop at the first
    [None]. *)
Fixpoint foldM {A S : Type} (f : A → S → option S) (l : list A) (s : S)
  : option S :=
  match l with
  | [] => Some s
  | a :: l' => match f a s with
               | Some s' => foldM f l' s'
               | None => None
               end
  end.

(** [Array.prototype.indexOf] followed by [splice(idx, 1)]: drop the first
    occurrence. *)
Fixpoint remove_first (x : string) (l : list string) : list string :=
  match l with
  | [] => []
  | y :: l' => if decide (x = y) then l' else y :: remove_first x l'
  end.

(** ** The [dependency-graph] package

    [DepGraph] keeps three objects keyed by node name ([nodes],
    [outgoingEdges], [incomingEdges]) that are always updated together; a
    graph is modelled as the list of its entries in [Object.keys] order
    (the order of insertion, for names that are not array indices).
    A [None] result stands for a thrown error (cycle, or a node that does
    not exist). *)

Module DepGraph.

Section Graph.
Context {A : Type} {reading : Js.Prototype}.

Record node := mkNode {
  name : string;
  data : A;
  outgoing : list string;
  incoming : list string;
}.

Local Abbreviation t := (list node).

Definition keys (g : t) : list string := name <$> g.

Fixpoint getNode (g : t) (n : string) : option node :=
  match g with
  | [] => None
  | e :: g' => if decide (name e = n) then Some e else getNode g' n
  end.

(** [this.nodes.hasOwnProperty(node)]. The method is looked up on
    [nodes] itself, so the call is what is written here as long as no
    node is named [hasOwnProperty]. *)
Definition hasNode (g : t) (n : string) : bool :=
  bool_decide (is_Some (getNode g n)).

Definition getNodeData (g : t) (n : string) : option A :=
  data <$> getNode g n.

Definition outgoingEdges (g : t) (n : string) : option (list string) :=
  outgoing <$> getNode g n.

Definition incomingEdges (g : t) (n : string) : option (list string) :=
  incoming <$> getNode g n.

Definition clone (g : t) : t := g.

(** [createDFS(edges, leavesOnly, result, circular = false)]: the state
    is the pair of the [visited] set and the [result] array; [path] is
    [currentPath]. A node is visited after its edges, so the result is
    a post-order. [fuel] bounds the depth of the walk.

    [visited] is a plain object, [visited[node]] the test: the state
    lists the names the test is truthy for, which are, for the [{}]
    every search starts from, the names [{}] inherits. ([inCurrentPath]
    is a plain object too, and is only looked at for a node that is not
    visited.) *)
Fixpoint DFS (fuel : nat) (edges : string → option (list string))
    (leavesOnly : bool) (path : list string) (n : string)
    (st : list string * list string) : option (list string * list string) :=
  match fuel with
  | O => None
  | S fuel' =>
      if decide (n ∈ st.1) then Some st
      else if decide (n ∈ path) then None
      else
        match edges n with
        | None => None
        | Some es =>
            match foldM (DFS fuel' edges leavesOnly (n :: path)) es st with
            | None => None
            | Some st' =>
                Some (n :: st'.1,
                      if leavesOnly && negb (bool_decide (es = []))
                      then st'.2 else st'.2 ++ [n])
            end
        end
  end.

Definition fuelOf (g : t) : nat := S (length g).

(** [overallOrder(leavesOnly)]: a first walk from every key looks for
    cycles, the second one starts at the nodes nothing depends on. *)
Definition overallOrder (g : t) (leavesOnly : bool) : option (list string) :=
  match keys g with
  | [] => Some []
  | ks =>
      match foldM (DFS (fuelOf g) (outgoingEdges g) false []) ks
              (Js.inherited, []) with
      | None => None
      | Some _ =>
          snd <$> foldM (DFS (fuelOf g) (outgoingEdges g) leavesOnly [])
                    (filter (λ n, incomingEdges g n = Some []) ks)
                    (Js.inherited, [])
      end
  end.

(** [dependenciesOf(name)]: every transitive dependency. *)
Definition dependenciesOf (g : t) (n : string) : option (list string) :=
  if hasNode g n
  then remove_first n ∘ snd
         <$> DFS (fuelOf g) (outgoingEdges g) false [] n (Js.inherited, [])
  else None.

(** [dependantsOf(name)]: every transitive dependant. *)
Definition dependantsOf (g : t) (n : string) : option (list string) :=
  if hasNode g n
  then remove_first n ∘ snd
         <$> DFS (fuelOf g) (incomingEdges g) false [] n (Js.inherited, [])
  else None.

(** [addNode(name, data)]: the three assignments [this.nodes[node] =
    data] and so on make the entry, for every name but [__proto__]. *)
Definition addNode (g : t) (n : string) (d : A) : t :=
  if hasNode g n then g else g ++ [mkNode n d [] []].

Definition addDependency (g : t) (from to : string) : option t :=
  if hasNode g from && hasNode g to then
    Some ((λ e,
             let e1 := if decide (name e = from)
                       then mkNode (name e) (data e)
                              (if decide (to ∈ outgoing e) then outgoing e
                               else outgoing e ++ [to])
                              (incoming e)
                       else e in
             if decide (name e1 = to)
             then mkNode (name e1) (data e1) (outgoing e1)
                    (if decide (from ∈ incoming e1) then incoming e1
                     else incoming e1 ++ [from])
             else e1) <$> g)
  else None.

Definition removeDependency (g : t) (from to : string) : t :=
  (λ e,
     let e1 := if decide (name e = from)
               then mkNode (name e) (data e) (remove_first to (outgoing e)) (incoming e)
               else e in
     if decide (name e1 = to)
     then mkNode (name e1) (data e1) (outgoing e1) (remove_first from (incoming e1))
     else e1) <$> g.

Definition removeNode (g : t) (n : string) : t :=
  if hasNode g n
  then (λ e, mkNode (name e) (data e)
               (remove_first n (outgoing e)) (remove_first n (incoming e)))
         <$> filter (λ e, name e ≠ n) g
  else g.

End Graph.

Arguments node : clear implicits.

(** The graph type, as an abbreviation so that list lemmas apply as is. *)
Abbreviation t A := (list (node A)).

End DepGraph.

(** ** The step scheduler ([execution/dependencyGraph.ts]) *)

Module Scheduler.

(** [StepResultStatus]. *)
Inductive StepResultStatus :=
| DISABLED
| PENDING_EVALUATION
| SUCCESS
| FAILURE
| PARTIAL_SUCCESS_DUE_TO_DEPENDENCY_FAILURE
| CACHED
| SKIPPED
| NOT_EXECUTED.

#[global] Instance StepResultStatus_eq_dec : EqDecision StepResultStatus.
Proof. solve_decision. Defined.

(** Declared output type of a step: [{ _type, partial }]. *)
Record GraphObjectSchema := mkSchema { _type : string; partial : bool }.

(** [Step], without its [executionHandler]: what a handler does when it
    is run is supplied by the [Event] that reports its completion. *)
Record Step := mkStep {
  id : string;
  name : string;
  dependsOn : option (list string);
  entities : list GraphObjectSchema;
  relationships : list GraphObjectSchema;
  mappedRelationships : option (list GraphObjectSchema);
}.

Record IntegrationStepResult := mkResult {
  r_id : string;
  r_name : string;
  r_dependsOn : option (list string);
  declaredTypes : list string;
  partialTypes : list string;
  encounteredTypes : list string;
  status : StepResultStatus;
}.

(** [StepStartState]: both fields hold whatever the caller put there. *)
Record StepStartState := mkStartState {
  disabled : Js.value;
  stepCachePath : Js.value;
}.

(** *** The [Map] of step results: entries in insertion order *)

Abbreviation ResultsMap := (list (string * IntegrationStepResult)).

Fixpoint map_get (m : ResultsMap) (k : string) : option IntegrationStepResult :=
  match m with
  | [] => None
  | (k', v) :: m' => if decide (k' = k) then Some v else map_get m' k
  end.

(** [Map.prototype.set]: an existing key keeps its position. *)
Fixpoint map_set (m : ResultsMap) (k : string) (v : IntegrationStepResult)
  : ResultsMap :=
  match m with
  | [] => [(k, v)]
  | (k', v') :: m' =>
      if decide (k' = k) then (k, v) :: m' else (k', v') :: map_set m' k v
  end.

(** [new Map(entries)]. *)
Definition map_of_entries (es : list (string * IntegrationStepResult)) : ResultsMap :=
  foldl (λ m e, map_set m e.1 e.2) [] es.

(** [[...map.values()]]. *)
Definition map_values (m : ResultsMap) : list IntegrationStepResult := snd <$> m.

(** *** The type tracker

    Modelled from the spec: the [TypeTracker] class of [./jobState] is
    not part of the sources at hand; it "records, per step id, the set of
    entity/relationship [_type] values observed during execution". *)
Abbreviation TypeTracker := (gmap string (list string)).

Definition getEncounteredTypesForStep (tt : TypeTracker)
    (stepId : string) : list string :=
  default [] (tt !! stepId).

Definition registerTypes (tt : TypeTracker) (stepId : string)
    (types : list string) : TypeTracker :=
  <[stepId := foldl (λ seen ty, if decide (ty ∈ seen) then seen else seen ++ [ty])
                (getEncounteredTypesForStep tt stepId) types]> tt.

(** *** What the collaborators of a step do

    The cache directory iteration, the handler, the flush and the upload
    wait are effects of the environment; an execution supplies their
    outcome. Types are the [_type]s of the objects added through
    [jobState] during the effect. *)

(** Batches handed to the two callbacks of [loadCacheForStep], then
    possibly an error raised by the iteration or by [jobState]. *)
Record CacheRun := mkCacheRun {
  entityBatches : list (list string);
  relationshipBatches : list (list string);
  cacheError : option Err;
}.

Record HandlerRun := mkHandlerRun {
  handlerTypes : list string;
  handlerError : option Err;
}.

Record BodyRun := mkBodyRun { cacheRun : CacheRun; handlerRun : HandlerRun }.

(** [waitUntilUploadsComplete] is [None] when the job state has no such
    method. *)
Record FinishRun := mkFinishRun {
  flushError : option Err;
  waitUntilUploadsComplete : option (option Err);
}.

Inductive LogEvent :=
| LStepStart (stepId : string)
| LCacheLoad (stepId : string) (path : Js.value)
| LCacheLoaded (stepId : string) (entitiesCount relationshipCount : nat)
| LCacheEmpty (stepId : string)
| LHandler (stepId : string)
| LUndeclaredTypes (stepId : string) (undeclaredTypes : list string)
| LStepSuccess (stepId : string)
| LStepSummary (stepId : string)
| LFailedStepSummary (stepId : string)
| LStepFailure (stepId : string) (err : Err)
| LFlush (stepId : string)
| LWaitUploads (stepId : string).

#[global] Instance LogEvent_eq_dec : EqDecision LogEvent.
Proof. solve_decision. Defined.

(** How the returned promise ended. *)
Inductive Settlement :=
| Resolved (results : list IntegrationStepResult)
| Rejected (err : Err).

(** Where an [executeStep] call is suspended. *)
Inductive Phase :=
| AwaitingHandler
| AwaitingFlush (status : StepResultStatus).

Record State := mkState {
  workingGraph : DepGraph.t Step;
  stepResultsMap : ResultsMap;
  typeTracker : TypeTracker;
  queued : list Step;
  inFlight : list (Step * Phase);
  isPaused : bool;
  settled : option Settlement;
  log : list LogEvent;
}.

(** What the completion of an awaited effect, or the queue, does next.
    [EvStart] is the queue taking its next task: [p-queue] does so as
    soon as its concurrency allows, inside [add] when it has no limit;
    here it may come at any time after the task was added, which covers
    every limit. *)
Inductive Event :=
| EvStart
| EvHandlerDone (stepId : string) (run : BodyRun)
| EvFlushDone (stepId : string) (run : FinishRun)
| EvIdle.

Definition getDeclaredTypesInStep (step : Step) : list string * list string :=
  let all := entities step ++ relationships step
             ++ default [] (mappedRelationships step) in
  (_type <$> all, _type <$> filter (λ e, partial e = true) all).

Definition is_failure (s : StepResultStatus) : bool :=
  bool_decide (s = FAILURE ∨ s = PARTIAL_SUCCESS_DUE_TO_DEPENDENCY_FAILURE).

Definition set_settled (st : State) (o : Settlement) : State :=
  mkState (workingGraph st) (stepResultsMap st) (typeTracker st) (queued st)
    (inFlight st) (isPaused st)
    (match settled st with Some s => Some s | None => Some o end) (log st).

Definition add_log (st : State) (l : list LogEvent) : State :=
  mkState (workingGraph st) (stepResultsMap st) (typeTracker st) (queued st)
    (inFlight st) (isPaused st) (settled st) (log st ++ l).

Definition set_inFlight (st : State) (r : list (Step * Phase)) : State :=
  mkState (workingGraph st) (stepResultsMap st) (typeTracker st) (queued st)
    r (isPaused st) (settled st) (log st).

(** The in-flight call for [stepId], and the other ones. *)
Fixpoint take_task (stepId : string) (r : list (Step * Phase))
  : option (Step * Phase * list (Step * Phase)) :=
  match r with
  | [] => None
  | (s, p) :: r' =>
      if decide (id s = stepId) then Some (s, p, r')
      else '(t, r'') ← take_task stepId r'; Some (t, (s, p) :: r'')
  end.

(** [buildStepDependencyGraph(steps)]; [None] when it throws (a
    dependency on a step that is not there, a circular dependency). *)
Definition buildStepDependencyGraph {reading : Js.Prototype} (steps : list Step)
  : option (DepGraph.t Step) :=
  let withNodes := foldl (λ g step, DepGraph.addNode g (id step) step) [] steps in
  g ← foldM (λ step g,
               foldM (λ dependency g', DepGraph.addDependency g' (id step) dependency)
                 (default [] (dependsOn step)) g)
         steps withNodes;
  _ ← DepGraph.overallOrder g false;
  Some g.

Section Run.
(** The arguments of [executeStepDependencyGraph] its inner functions
    close over. *)
Context {reading : Js.Prototype}.
Variable inputGraph : DepGraph.t Step.
Variable stepStartStates : gmap string StepStartState.

(** [stepStartStates[stepId].disabled === false]; [None] is the
    [TypeError] of reading a field of [undefined]. *)
Definition isStepEnabled (stepId : string) : option bool :=
  ss ← stepStartStates !! stepId;
  Some (Js.strict_eq (disabled ss) (Js.VBool false)).

(** [!!stepStartStates[stepId].stepCachePath ?? false]. *)
Definition hasCachePath (stepId : string) : option Js.value :=
  ss ← stepStartStates !! stepId;
  Some (Js.nullish (Js.not (Js.not (stepCachePath ss))) (Js.VBool false)).

Definition updateStepResultStatus (m : ResultsMap) (stepId : string)
    (status : StepResultStatus) (tt : TypeTracker) : ResultsMap :=
  match map_get m stepId with
  | Some existingResult =>
      map_set m stepId
        (mkResult (r_id existingResult) (r_name existingResult)
           (r_dependsOn existingResult) (declaredTypes existingResult)
           (partialTypes existingResult)
           (getEncounteredTypesForStep tt stepId) status)
  | None => m
  end.

(** The [find] result, as the truth value the caller tests. *)
Definition stepHasDependencyFailure (m : ResultsMap) (stepId : string)
  : option bool :=
  deps ← DepGraph.dependenciesOf inputGraph stepId;
  Some (existsb (λ r, match r with
                      | Some res => is_failure (status res)
                      | None => false
                      end) (map_get m <$> deps)).

Definition stepDependenciesAreComplete (m : ResultsMap) (stepId : string)
  : option bool :=
  deps ← DepGraph.dependenciesOf inputGraph stepId;
  let executingDependencies :=
    filter (λ r, status <$> r = Some PENDING_EVALUATION) (map_get m <$> deps) in
  Some (bool_decide (length executingDependencies = 0)).

Definition removeStepFromWorkingGraph (wg : DepGraph.t Step) (stepId : string)
  : option (DepGraph.t Step) :=
  dependants ← DepGraph.dependantsOf wg stepId;
  Some (DepGraph.removeNode
          (foldl (λ g dependent, DepGraph.removeDependency g dependent stepId)
             wg dependants)
          stepId).

Definition maybeLogUndeclaredTypes (tt : TypeTracker)
    (step : Step) : list LogEvent :=
  let encountered := getEncounteredTypesForStep tt (id step) in
  let declared := (getDeclaredTypesInStep step).1 in
  let undeclaredTypes := filter (λ ty, ty ∉ declared) encountered in
  if bool_decide (undeclaredTypes = []) then []
  else [LUndeclaredTypes (id step) undeclaredTypes].

(** [handleUnexpectedError]: pause the queue, reject. *)
Definition handleUnexpectedError (st : State) (err : Err) : State :=
  set_settled
    (mkState (workingGraph st) (stepResultsMap st) (typeTracker st)
       (queued st) (inFlight st) true (settled st) (log st))
    (Rejected err).

(** One iteration of the [forEach] of [enqueueLeafSteps]; [inr] carries
    the state reached when the iteration throws. *)
Definition enqueueLeafStep (st : State) (stepId : string) : State + State :=
  match DepGraph.getNodeData (workingGraph st) stepId with
  | None => inr st
  | Some step =>
      match isStepEnabled stepId with
      | None => inr st
      | Some false => inl st
      | Some true =>
          match stepDependenciesAreComplete (stepResultsMap st) stepId with
          | None => inr st
          | Some false => inl st
          | Some true =>
              match removeStepFromWorkingGraph (workingGraph st) stepId with
              | None => inr st
              | Some wg' =>
                  inl (mkState wg' (stepResultsMap st) (typeTracker st)
                         (queued st ++ [step]) (inFlight st) (isPaused st)
                         (settled st) (log st))
              end
          end
      end
  end.

Fixpoint enqueueLeaves (st : State) (leaves : list string) : State + State :=
  match leaves with
  | [] => inl st
  | stepId :: rest =>
      match enqueueLeafStep st stepId with
      | inl st' => enqueueLeaves st' rest
      | inr st' => inr st'
      end
  end.

Definition enqueueLeafSteps (st : State) : State + State :=
  if isPaused st then inl st
  else
    match DepGraph.overallOrder (workingGraph st) true with
    | None => inr st
    | Some leaves => enqueueLeaves st leaves
    end.

(** [loadCacheForStep]: the status it returns (or the error it lets
    through), the tracker after the additions, what it logs. *)
Definition loadCacheForStep (tt : TypeTracker) (stepId : string)
    (run : CacheRun)
  : (Err + StepResultStatus) * TypeTracker * list LogEvent :=
  let batches := entityBatches run ++ relationshipBatches run in
  let status := if bool_decide (batches = []) then FAILURE else CACHED in
  let tt' := foldl (λ t b, registerTypes t stepId b) tt batches in
  match cacheError run with
  | Some e => (inl e, tt', [])
  | None =>
      let entitiesCount := length (concat (entityBatches run)) in
      let relationshipCount := length (concat (relationshipBatches run)) in
      (inr status, tt',
       if bool_decide (entitiesCount = 0 ∧ relationshipCount = 0)
       then [LCacheEmpty stepId]
       else [LCacheLoaded stepId entitiesCount relationshipCount])
  end.

(** The body of the [try] of [executeStep]: either the status reached
    at its end or the error thrown inside it. *)
Definition executeStepTry (m : ResultsMap) (tt : TypeTracker)
    (step : Step) (run : BodyRun)
  : (Err + StepResultStatus) * TypeTracker * list LogEvent :=
  let stepId := id step in
  match hasCachePath stepId with
  | None => (inl TypeError, tt, [])
  | Some cached =>
      let '(loaded, tt1, log1) :=
        if Js.truthy cached then
          let '(r, tt1, l) := loadCacheForStep tt stepId (cacheRun run) in
          (match r with inl e => inl e | inr s => inr (Some s) end, tt1,
           LCacheLoad stepId
             (default Js.VUndefined (stepCachePath <$> stepStartStates !! stepId))
           :: l)
        else (inr None, tt, []) in
      match loaded with
      | inl e => (inl e, tt1, log1)
      | inr (Some CACHED) =>
          (inr CACHED, tt1, log1 ++ [LStepSuccess stepId; LStepSummary stepId])
      | inr _ =>
          let tt2 := registerTypes tt1 stepId (handlerTypes (handlerRun run)) in
          match handlerError (handlerRun run) with
          | Some e => (inl e, tt2, log1 ++ [LHandler stepId])
          | None =>
              match stepHasDependencyFailure m stepId with
              | None => (inl TypeError, tt2, log1 ++ [LHandler stepId])
              | Some true =>
                  (inr PARTIAL_SUCCESS_DUE_TO_DEPENDENCY_FAILURE, tt2,
                   log1 ++ [LHandler stepId; LStepSuccess stepId;
                            LStepSummary stepId])
              | Some false =>
                  (inr SUCCESS, tt2,
                   log1 ++ [LHandler stepId] ++ maybeLogUndeclaredTypes tt2 step
                     ++ [LStepSuccess stepId; LStepSummary stepId])
              end
          end
      end
  end.

(** [executeStep] up to its [await context.jobState.flush()]: [inl] is
    the error its [catch] block ends with, the fatal error it rethrows
    or the [TypeError] of the test [err.fatal] itself. *)
Definition executeStepHandlerPhase (m : ResultsMap)
    (tt : TypeTracker) (step : Step) (run : BodyRun)
  : (Err + StepResultStatus) * TypeTracker * list LogEvent :=
  let '(r, tt', l) := executeStepTry m tt step run in
  match r with
  | inr s => (inr s, tt', l)
  | inl err =>
      let l' := l ++ [LFailedStepSummary (id step); LStepFailure (id step) err] in
      match fatal err with
      | None => (inl TypeError, tt', l')
      | Some true => (inl err, tt', l')
      | Some false => (inr FAILURE, tt', l')
      end
  end.

(** [executeStep] from the flush on, up to the status handed to
    [updateStepResultStatus]: [inl] is the error of a failed flush. *)
Definition executeStepFlushPhase (step : Step) (status : StepResultStatus)
    (run : FinishRun) : (Err + StepResultStatus) * list LogEvent :=
  match flushError run with
  | Some e => (inl e, [LFlush (id step)])
  | None =>
      match waitUntilUploadsComplete run with
      | None => (inr status, [LFlush (id step)])
      | Some None => (inr status, [LFlush (id step); LWaitUploads (id step)])
      | Some (Some err) =>
          (inr FAILURE,
           [LFlush (id step); LWaitUploads (id step); LStepFailure (id step) err])
      end
  end.

(** One transition; [None] when the event cannot happen in [st]. *)
Definition next (st : State) (ev : Event) : option State :=
  match ev with
  | EvStart =>
      match queued st with
      | step :: q =>
          if isPaused st then None
          else
            Some (mkState (workingGraph st) (stepResultsMap st) (typeTracker st)
                    q (inFlight st ++ [(step, AwaitingHandler)]) (isPaused st)
                    (settled st) (log st ++ [LStepStart (id step)]))
      | [] => None
      end
  | EvHandlerDone stepId run =>
      '(step, p, rest) ← take_task stepId (inFlight st);
      match p with
      | AwaitingFlush _ => None
      | AwaitingHandler =>
          let '(r, tt', l) :=
            executeStepHandlerPhase (stepResultsMap st) (typeTracker st)
              step run in
          let st1 := mkState (workingGraph st) (stepResultsMap st) tt'
                       (queued st) rest (isPaused st) (settled st)
                       (log st ++ l) in
          match r with
          | inl err => Some (handleUnexpectedError st1 err)
          | inr s => Some (set_inFlight st1 (rest ++ [(step, AwaitingFlush s)]))
          end
      end
  | EvFlushDone stepId run =>
      '(step, p, rest) ← take_task stepId (inFlight st);
      match p with
      | AwaitingHandler => None
      | AwaitingFlush s =>
          let '(r, l) := executeStepFlushPhase step s run in
          let st1 := add_log (set_inFlight st rest) l in
          match r with
          | inl err => Some (handleUnexpectedError st1 err)
          | inr s' =>
              let st2 :=
                mkState (workingGraph st1)
                  (updateStepResultStatus (stepResultsMap st1) (id step) s'
                     (typeTracker st1))
                  (typeTracker st1) (queued st1) (inFlight st1) (isPaused st1)
                  (settled st1) (log st1) in
              match enqueueLeafSteps st2 with
              | inl st3 => Some st3
              | inr st3 => Some (handleUnexpectedError st3 TypeError)
              end
          end
      end
  | EvIdle =>
      match queued st, inFlight st with
      | [], [] =>
          Some (set_settled st (Resolved (map_values (stepResultsMap st))))
      | _, _ => None
      end
  end.

Definition exec (st : State) (evs : list Event) : option State :=
  foldM (λ ev s, next s ev) evs st.

(** [buildStepResultsMap(inputGraph, stepStartStates)]. *)
Definition buildStepResult (stepId : string) : option IntegrationStepResult :=
  step ← DepGraph.getNodeData inputGraph stepId;
  deps ← DepGraph.dependenciesOf inputGraph (id step);
  depStates ← mapM (λ d, stepStartStates !! d) deps;
  let hasDisabledDependencies :=
    bool_decide
      (0 < length (filter (λ ss, Js.truthy (disabled ss) = true) depStates)) in
  ss ← stepStartStates !! id step;
  let '(declared, partials) := getDeclaredTypesInStep step in
  Some (mkResult (id step) (name step) (dependsOn step) declared partials []
          (if Js.truthy (disabled ss) || hasDisabledDependencies
           then DISABLED else PENDING_EVALUATION)).

Definition buildStepResultsMap : option ResultsMap :=
  order ← DepGraph.overallOrder inputGraph false;
  results ← mapM buildStepResult order;
  Some (map_of_entries ((λ r, (r_id r, r)) <$> results)).

(** [executeStepDependencyGraph] up to the point where it returns its
    promise; [None] when it throws before that. *)
Definition executeStepDependencyGraph : option State :=
  m ← buildStepResultsMap;
  let st0 := mkState (DepGraph.clone inputGraph) m ∅ [] [] false None [] in
  match enqueueLeafSteps st0 with
  | inl st => Some st
  | inr st => Some (set_settled st (Rejected TypeError))
  end.

(** A whole run: the start, then the events in turn. *)
Definition run (evs : list Event) : option State :=
  st0 ← executeStepDependencyGraph; exec st0 evs.

End Run.

End Scheduler.

(** ** JSON values and the size of their serialization *)

Module Json.
Local Open Scope Z_scope.

(** A parsed JSON document. Numbers are restricted to integers. *)
#[local] Unset Elimination Schemes.
Inductive value :=
| JNull
| JBool (b : bool)
| JNum (z : Z)
| JStr (s : string)
| JArr (items : list value)
| JObj (members : list (string * value)).
#[local] Set Elimination Schemes.

(** [ToBoolean], as in [data[item] ? ... : 0]. *)
Definition truthy (v : value) : bool :=
  match v with
  | JNull => false
  | JBool b => b
  | JNum z => negb (z =? 0)%Z
  | JStr s => negb (String.eqb s "")
  | JArr _ | JObj _ => true
  end.

(** Bytes one character of a string takes inside a JSON string literal;
    the string is given by its UTF-8 bytes. *)
Definition escapedLength (c : Ascii.ascii) : Z :=
  let n := Ascii.N_of_ascii c in
  if ((n =? 34) || (n =? 92))%N then 2
  else if (n <? 32)%N then
    if ((n =? 8) || (n =? 9) || (n =? 10) || (n =? 12) || (n =? 13))%N then 2
    else 6
  else 1.

Fixpoint escapedBytes (s : string) : Z :=
  match s with
  | EmptyString => 0
  | String c s' => escapedLength c + escapedBytes s'
  end.

(** [Buffer.byteLength(JSON.stringify(s))] for a string. *)
Definition stringLength (s : string) : Z := 2 + escapedBytes s.

Definition sum (sizes : list Z) : Z := foldr Z.add 0%Z sizes.

(** Brackets, the items and the commas between them. *)
Definition sequenceLength (sizes : list Z) : Z :=
  2 + sum sizes + Z.max 0 (Z.of_nat (length sizes) - 1).

(** [Buffer.byteLength(JSON.stringify(v))]. *)
Fixpoint byteLength (v : value) : Z :=
  match v with
  | JNull => 4
  | JBool true => 4
  | JBool false => 5
  | JNum z => Z.of_nat (String.length (pretty z))
  | JStr s => stringLength s
  | JArr items => sequenceLength (map byteLength items)
  | JObj members =>
      sequenceLength
        (map (λ m, stringLength (fst m) + 1 + byteLength (snd m)) members)
  end.

Definition memberLength (m : string * value) : Z :=
  stringLength m.1 + 1 + byteLength m.2.

(** [obj[key]]. *)
Fixpoint get (members : list (string * value)) (key : string) : option value :=
  match members with
  | [] => None
  | (k, v) :: rest => if decide (k = key) then Some v else get rest key
  end.

(** [obj[key] = v]: an own property keeps its place, a new one goes
    last. *)
Fixpoint set (members : list (string * value)) (key : string) (v : value)
  : list (string * value) :=
  match members with
  | [] => [(key, v)]
  | (k, v') :: rest =>
      if decide (k = key) then (k, v) :: rest else (k, v') :: set rest key v
  end.

End Json.

(** ** The synchronization pipeline ([synchronization/index.ts]) *)

Module Sync.
Local Open Scope Z_scope.

Definition UPLOAD_BATCH_SIZE : Z := 250.
Definition UPLOAD_CONCURRENCY : Z := 6.
Definition UPLOAD_SIZE_MAX : Z := 6275072.

(** [EntityRawData]: [{ name, rawData }]. *)
Record EntityRawData := mkRawData {
  rd_name : string;
  rawData : list (string * Json.value);
}.

(** An element of an upload batch: an entity, or a relationship (which
    has no [_rawData]). [properties] are its other members. *)
Record Entity := mkEntity {
  properties : list (string * Json.value);
  _rawData : option (list EntityRawData);
}.

Definition rawDataEntryLength (e : EntityRawData) : Z :=
  Json.sequenceLength
    [Json.stringLength "name" + 1 + Json.stringLength (rd_name e);
     Json.stringLength "rawData" + 1
     + Json.sequenceLength (Json.memberLength <$> rawData e)].

(** [Buffer.byteLength(JSON.stringify(item))] for a batch element. *)
Definition entityLength (e : Entity) : Z :=
  Json.sequenceLength
    ((Json.memberLength <$> properties e)
     ++ match _rawData e with
        | Some entries =>
            [Json.stringLength "_rawData" + 1
             + Json.sequenceLength (rawDataEntryLength <$> entries)]
        | None => []
        end).

(** [Buffer.byteLength(JSON.stringify(data))] for a batch. *)
Definition batchLength (data : list Entity) : Z :=
  Json.sequenceLength (entityLength <$> data).

(** [SystemErrorResponseData]. *)
Record SystemErrorResponseData := mkSystemError {
  se_code : string;
  se_message : string;
}.

(** What the code reads from an error thrown by the HTTP client:
    [err.code], [err.response?.status], [err.response?.data?.error],
    [err.message]. *)
Record ApiError := mkApiError {
  code : option string;
  responseStatus : option Z;
  responseError : option SystemErrorResponseData;
  message : string;
}.

Inductive Thrown :=
| ThrownApi (err : ApiError)
| IntegrationError (errCode : string) (fatal : bool) (errMessage : string)
    (cause : option ApiError)
| ThrownTypeError.

Definition messageOf (e : Thrown) : string :=
  match e with
  | ThrownApi err => message err
  | IntegrationError _ _ m _ => m
  | ThrownTypeError => "TypeError"
  end.

Record ShrinkRawDataResults := mkShrinkResults {
  initialSize : Z;
  totalSize : Z;
  itemsRemoved : Z;
  totalTime : Z;
}.

(** The loops of the three [getLargest...] helpers: the first item whose
    size is strictly above every size before it, starting from 0; the
    position is kept so that the item can be written back. *)
Fixpoint largestFrom {A : Type} (size : A → Z) (items : list A) (pos : nat)
    (largestItem : option (nat * A)) (largestItemSize : Z) : option (nat * A) :=
  match items with
  | [] => largestItem
  | item :: rest =>
      let length := size item in
      if (length >? largestItemSize)%Z
      then largestFrom size rest (S pos) (Some (pos, item)) length
      else largestFrom size rest (S pos) largestItem largestItemSize
  end.

Definition getLargestEntityFromBatch (data : list Entity) : option (nat * Entity) :=
  largestFrom entityLength data 0%nat None 0.

Definition getLargestRawDataEntryFromEntity (data : list EntityRawData)
  : option (nat * EntityRawData) :=
  largestFrom rawDataEntryLength data 0%nat None 0.

(** [data[item] ? Buffer.byteLength(JSON.stringify(data[item])) : 0]. *)
Definition itemLength (data : list (string * Json.value)) (item : string) : Z :=
  match Json.get data item with
  | Some v => if Json.truthy v then Json.byteLength v else 0
  | None => 0
  end.

(** [getLargestItemKeyAndByteSize]: the [for ... in] over the keys. *)
Definition getLargestItemKeyAndByteSize (data : list (string * Json.value))
  : string * Z :=
  foldl (λ largestItem item,
           let length := itemLength data item in
           if (length >? largestItem.2)%Z then (item, length) else largestItem)
    ("", 0%Z) (data.*1).

Definition sizeOfTruncated : Z := Z.of_nat (String.length "'TRUNCATED'").

Inductive ShrinkOutcome :=
| ShrinkReturned (results : ShrinkRawDataResults) (data : list Entity)
| ShrinkThrew (err : Thrown) (data : list Entity)
| ShrinkOutOfFuel.

Definition cannotShrink : Thrown :=
  IntegrationError "INTEGRATION_UPLOAD_FAILED" false
    "Failed to upload integration data because payload is too large and cannot shrink"
    None.

(** The [while] loop of [shrinkRawData]; the batch is passed along
    because the loop writes into it. *)
Fixpoint shrinkLoop (fuel : nat) (maxSize : Z) (data : list Entity)
    (totalSize itemsRemoved : Z) : option (list Entity * Z * Z) + Thrown * list Entity :=
  match fuel with
  | O => inl None
  | S fuel' =>
      if (totalSize >? maxSize)%Z then
        match getLargestEntityFromBatch data with
        | None => inr (cannotShrink, data)
        | Some (i, largestEntity) =>
            match _rawData largestEntity with
            | None => inr (cannotShrink, data)
            | Some entries =>
                match getLargestRawDataEntryFromEntity entries with
                | None => inr (ThrownTypeError, data)
                | Some (j, largestRawDataEntry) =>
                    let largestItemLookup :=
                      getLargestItemKeyAndByteSize (rawData largestRawDataEntry) in
                    let entry' :=
                      mkRawData (rd_name largestRawDataEntry)
                        (Json.set (rawData largestRawDataEntry)
                           largestItemLookup.1 (Json.JStr "TRUNCATED")) in
                    let entity' :=
                      mkEntity (properties largestEntity)
                        (Some (<[j := entry']> entries)) in
                    shrinkLoop fuel' maxSize (<[i := entity']> data)
                      (totalSize - largestItemLookup.2 + sizeOfTruncated)
                      (itemsRemoved + 1)
                end
            end
        end
      else inl (Some (data, totalSize, itemsRemoved))
  end.

(** [shrinkRawData(data, maxSize)]; [now] are the two readings of
    [Date.now()]. *)
Definition shrinkRawData (fuel : nat) (now : Z * Z) (data : list Entity)
    (maxSize : Z) : ShrinkOutcome :=
  let totalSize := batchLength data in
  match shrinkLoop fuel maxSize data totalSize 0 with
  | inl None => ShrinkOutOfFuel
  | inl (Some (data', totalSize', itemsRemoved')) =>
      ShrinkReturned
        (mkShrinkResults totalSize totalSize' itemsRemoved' (now.2 - now.1)) data'
  | inr (err, data') => ShrinkThrew err data'
  end.

(** *** [retry] of [@lifeomic/attempt]

    With [maxAttempts > 0], no timeout, no jitter, no [maxDelay]. *)

Record AttemptOptions := mkOptions {
  maxAttempts : nat;
  delay : Z;
  factor : Z * Z;   (* numerator and denominator *)
}.

Record AttemptContext := mkContext {
  attemptNum : nat;
  attemptsRemaining : nat;
}.

Inductive Event :=
| Post (attempt : nat) (batch : list Entity)
| Sleep (ms : Z)
| LogInfo (msg : string)
| LogShrink (results : ShrinkRawDataResults)
| LogWarn (attempt : nat) (err : ApiError).

(** [Math.round(delay * Math.pow(factor, attemptNum - 1))], in exact
    arithmetic. *)
Definition calculateDelay (o : AttemptOptions) (attemptNum : nat) : Z :=
  let n := Z.of_nat (attemptNum - 1) in
  let numerator := delay o * (factor o).1 ^ n in
  let denominator := (factor o).2 ^ n in
  (2 * numerator + denominator) / (2 * denominator).

(** What [handleError] did: it returned, threw, or did not come back. *)
Inductive Handled (B : Type) :=
| HandlerReturned (b : B)
| HandlerThrew (err : Thrown) (b : B)
| HandlerOutOfFuel.
Arguments HandlerReturned {B}.
Arguments HandlerThrew {B}.
Arguments HandlerOutOfFuel {B}.

Inductive RetryOutcome (B : Type) :=
| RetryResolved (b : B)
| RetryRejected (err : Thrown) (b : B)
| RetryOutOfFuel.
Arguments RetryResolved {B}.
Arguments RetryRejected {B}.
Arguments RetryOutOfFuel {B}.

Section Retry.
Context {B : Type}.
(** The attempt reads the shared value [B], the handler may write it. *)
Variable attemptFunc : AttemptContext → B → option ApiError * list Event.
Variable handleError :
  ApiError → AttemptContext → B → Handled B * list Event.
Variable options : AttemptOptions.

Fixpoint makeAttempt (remaining attemptNum : nat) (b : B)
  : RetryOutcome B * list Event :=
  match remaining with
  | O => (RetryOutOfFuel, [])
  | S remaining' =>
      let context := mkContext attemptNum remaining' in
      let '(result, evs) := attemptFunc context b in
      match result with
      | None => (RetryResolved b, evs)
      | Some err =>
          let '(handled, evs') := handleError err context b in
          match handled with
          | HandlerOutOfFuel => (RetryOutOfFuel, evs ++ evs')
          | HandlerThrew e b' => (RetryRejected e b', evs ++ evs')
          | HandlerReturned b' =>
              match remaining' with
              | O => (RetryRejected (ThrownApi err) b', evs ++ evs')
              | S _ =>
                  let ms := calculateDelay options (S attemptNum) in
                  let '(outcome, rest) :=
                    makeAttempt remaining' (S attemptNum) b' in
                  (outcome,
                   evs ++ evs' ++ (if (ms =? 0) then [] else [Sleep ms]) ++ rest)
              end
          end
      end
  end.

Definition retry (b : B) : RetryOutcome B * list Event :=
  makeAttempt (maxAttempts options) 0%nat b.
End Retry.

(** *** Uploading one chunk *)

Definition isRequestUploadTooLargeError (err : ApiError) : bool :=
  bool_decide (code err = Some "RequestEntityTooLargeException")
  || bool_decide (responseStatus err = Some 413).

Definition getSystemErrorResponseData (err : ApiError)
  : option SystemErrorResponseData :=
  responseError err.

Definition uploadAfterJobEnded (err : ApiError) : Thrown :=
  IntegrationError "INTEGRATION_UPLOAD_AFTER_JOB_ENDED" true
    "Failed to upload integration data because job has already ended" (Some err).

(** [fuel] and [now] are handed to [shrinkRawData]. *)
Definition handleUploadDataChunkError (fuel : nat) (now : Z * Z) (err : ApiError)
    (attemptContext : AttemptContext) (batch : list Entity)
  : Handled (list Entity) * list Event :=
  let systemErrorResponseData := getSystemErrorResponseData err in
  let '(handled, evs) :=
    if isRequestUploadTooLargeError err then
      match shrinkRawData fuel now batch UPLOAD_SIZE_MAX with
      | ShrinkReturned shrinkResults batch' =>
          (HandlerReturned batch',
           [LogInfo "Attempting to shrink rawData"; LogShrink shrinkResults])
      | ShrinkThrew e batch' =>
          (HandlerThrew e batch', [LogInfo "Attempting to shrink rawData"])
      | ShrinkOutOfFuel =>
          (HandlerOutOfFuel, [LogInfo "Attempting to shrink rawData"])
      end
    else if bool_decide (se_code <$> systemErrorResponseData
                         = Some "JOB_NOT_AWAITING_UPLOADS")
    then (HandlerThrew (uploadAfterJobEnded err) batch, [])
    else (HandlerReturned batch, []) in
  match handled with
  | HandlerReturned _ =>
      if negb (attemptsRemaining attemptContext =? 0)%nat
         && negb (bool_decide (code err = Some "CredentialsError"))
      then (handled, evs ++ [LogWarn (attemptNum attemptContext) err])
      else (handled, evs)
  | _ => (handled, evs)
  end.

Definition uploadOptions : AttemptOptions := mkOptions 5 200 (105, 100).

(** [uploadDataChunk]; [server] is what the POST of the given attempt
    with the given body is answered with ([None]: success). *)
Definition uploadDataChunk (fuel : nat) (now : Z * Z)
    (server : nat → list Entity → option ApiError) (batch : list Entity)
  : RetryOutcome (list Entity) * list Event :=
  retry
    (λ ctx b, (server (attemptNum ctx) b,
               [LogInfo "Uploading data..."; Post (attemptNum ctx) b]))
    (handleUploadDataChunkError fuel now)
    uploadOptions batch.

(** *** Batching ([uploadData]) *)

(** [chunk(array, size)] of lodash, for an integer [size]:
    [Math.ceil(length / size)] slices of [size] elements, none when the
    array is empty or [size < 1]. *)
Definition chunk {A : Type} (array : list A) (size : Z) : list (list A) :=
  let size := Z.to_nat (Z.max size 0) in
  let length := length array in
  if (length =? 0)%nat || (size <? 1)%nat then []
  else
    (λ resIndex, take size (drop (resIndex * size) array))
      <$> seq 0 ((length + size - 1) / size)%nat.

(** [uploadBatchSize || UPLOAD_BATCH_SIZE]; [None] is an argument left
    out. *)
Definition uploadBatchSizeOrDefault (uploadBatchSize : option Z) : Z :=
  match uploadBatchSize with
  | Some n => if (n =? 0)%Z then UPLOAD_BATCH_SIZE else n
  | None => UPLOAD_BATCH_SIZE
  end.

(** The batches the mapper of [uploadData] hands to [uploadDataChunk]
    ([if (batch.length)]), in the order of [batches]. *)
Definition uploadDataBatches {A : Type} (data : list A)
    (uploadBatchSize : option Z) : list (list A) :=
  List.filter (λ batch, negb (length batch =? 0)%nat)
    (chunk data (uploadBatchSizeOrDefault uploadBatchSize)).

(** *** The upload phase ([uploadData], [uploadGraphObjectData],
    [uploadCollectedData]) *)

Module Upload.

(** What awaiting a promise of the upload phase does: it is fulfilled,
    rejected, or never settles (a [shrinkRawData] that does not come
    back). *)
Inductive Await :=
| Fulfilled
| RejectedWith (err : Thrown)
| Pending.

Definition settle (outcome : RetryOutcome (list Entity)) : Await :=
  match outcome with
  | RetryResolved _ => Fulfilled
  | RetryRejected err _ => RejectedWith err
  | RetryOutOfFuel => Pending
  end.

Fixpoint firstUnfulfilled (outcomes : list Await) : Await :=
  match outcomes with
  | [] => Fulfilled
  | Fulfilled :: rest => firstUnfulfilled rest
  | unfulfilled :: _ => unfulfilled
  end.

(** [pMap(batches, mapper, { concurrency })] of [p-map], as far as its
    own promise goes: it is fulfilled when every mapper is, and ends
    like the mapper that is the first not to be fulfilled. Mappers run
    side by side, so which one that is depends on the timing of the
    requests: [first] names it. *)
Definition pMap (outcomes : list Await) (first : nat) : Await :=
  match outcomes !! first with
  | Some Fulfilled | None => firstUnfulfilled outcomes
  | Some unfulfilled => unfulfilled
  end.

(** [FlushedGraphObjectData]: [None] is a field that is not an
    array. *)
Record FlushedGraphObjectData := mkFlushed {
  entities : option (list Entity);
  relationships : option (list Entity);
}.

Section File.
(** [synchronizationApiError] of [./error], which is not among the
    sources: any function of the error and the message. *)
Variable synchronizationApiError : Thrown → string → Thrown.
Variables (fuel : nat) (now : Z * Z).
(** What the POST of the given attempt for the batch of the given
    number of the array [type] is answered with, and the batch of
    that array which is the first not to be uploaded. *)
Variable server : string → nat → nat → list Entity → option ApiError.
Variable first : string → nat.

Definition uploadData (type : string) (data : list Entity)
    (uploadBatchSize : option Z) : Await :=
  pMap (imap (λ i batch,
                settle (uploadDataChunk fuel now (server type i) batch).1)
          (uploadDataBatches data uploadBatchSize))
    (first type).

(** The [try] block of [uploadGraphObjectData] (without its log
    lines). *)
Definition uploadGraphObjectDataTry (graphObjectData : FlushedGraphObjectData)
    (uploadBatchSize : option Z) : Await :=
  match
    match entities graphObjectData with
    | Some (e :: es) => uploadData "entities" (e :: es) uploadBatchSize
    | _ => Fulfilled
    end
  with
  | Fulfilled =>
      match relationships graphObjectData with
      | Some (r :: rs) => uploadData "relationships" (r :: rs) uploadBatchSize
      | _ => Fulfilled
      end
  | unfulfilled => unfulfilled
  end.

Definition uploadGraphObjectData (graphObjectData : FlushedGraphObjectData)
    (uploadBatchSize : option Z) : Await :=
  match uploadGraphObjectDataTry graphObjectData uploadBatchSize with
  | RejectedWith err =>
      RejectedWith
        (synchronizationApiError err "Error uploading collected data")
  | settled => settled
  end.
End File.

(** [uploadCollectedData]. Neither [iterateParsedGraphFiles] nor
    [timeOperation] is among the sources; after the spec, the first
    "iterates every persisted graph-object file and calls
    [uploadGraphObjectData] for each": the files are taken in turn, and
    a call that is not fulfilled ends the iteration. [server] and
    [first] are given for each file. *)
Fixpoint iterateParsedGraphFiles (iteratee : nat → FlushedGraphObjectData → Await)
    (file : nat) (files : list FlushedGraphObjectData) : Await :=
  match files with
  | [] => Fulfilled
  | parsedData :: rest =>
      match iteratee file parsedData with
      | Fulfilled => iterateParsedGraphFiles iteratee (S file) rest
      | unfulfilled => unfulfilled
      end
  end.

Definition uploadCollectedData
    (synchronizationApiError : Thrown → string → Thrown)
    (fuel : nat) (now : Z * Z)
    (server : nat → string → nat → nat → list Entity → option ApiError)
    (first : nat → string → nat)
    (files : list FlushedGraphObjectData) : Await :=
  iterateParsedGraphFiles
    (λ file parsedData,
       uploadGraphObjectData synchronizationApiError fuel now
         (server file) (first file) parsedData None)
    0%nat files.

End Upload.

(** *** The job lifecycle *)

Record SynchronizationJob := mkJob { job_id : string }.

(** What the collaborators of [synchronizeCollectedData] do when called:
    [uploadCollectedData] returns ([None]) or throws, and so on.
    ([Upload.uploadCollectedData] above tells which errors the upload
    phase can throw.) *)
Record SyncEnv := mkSyncEnv {
  initiateSynchronization : Thrown + SynchronizationJob;
  uploadCollectedData : option Thrown;
  getPartialDatasets : option Thrown;
  finalizeSynchronization : Thrown + SynchronizationJob;
  abortSynchronization : Thrown + SynchronizationJob;
  onIdle : option Thrown;
}.

Inductive Call :=
| CallInitiate
| CallUpload
| CallGetPartialDatasets
| CallFinalize
| CallAbort (reason : string)
| CallLogError (err : Thrown) (msg : string)
| CallOnIdle.

(** The [try] block: upload, then finalize. *)
Definition synchronizeTry (env : SyncEnv)
  : (Thrown + SynchronizationJob) * list Call :=
  match uploadCollectedData env with
  | Some e => (inl e, [CallUpload])
  | None =>
      match getPartialDatasets env with
      | Some e => (inl e, [CallUpload; CallGetPartialDatasets])
      | None =>
          (finalizeSynchronization env,
           [CallUpload; CallGetPartialDatasets; CallFinalize])
      end
  end.

Definition synchronizeCollectedData (env : SyncEnv)
  : (Thrown + SynchronizationJob) * list Call :=
  match initiateSynchronization env with
  | inl e => (inl e, [CallInitiate])
  | inr _ =>
      let '(r, calls) := synchronizeTry env in
      let '(r', calls') :=
        match r with
        | inr job => (inr job, calls)
        | inl err =>
            let calls1 :=
              calls ++ [CallLogError err
                          "Error occurred while synchronizing collected data";
                        CallAbort (messageOf err)] in
            match abortSynchronization env with
            | inl abortError =>
                (inl abortError,
                 calls1 ++ [CallLogError abortError
                              "Error occurred while aborting synchronization job."])
            | inr _ => (inl err, calls1)
            end
        end in
      match onIdle env with
      | Some e => (inl e, CallInitiate :: calls' ++ [CallOnIdle])
      | None => (r', CallInitiate :: calls' ++ [CallOnIdle])
      end
  end.

End Sync.

(** ** Configuration from the environment ([execution/config.ts]) *)

Module Config.

(** What the code reads of an [IntegrationInstanceConfigField]: its
    [type], [None] when the field has none. *)
Record IntegrationInstanceConfigField := mkField {
  type : option string;
}.

(** A converted value: [string | boolean]. *)
Inductive ConfigValue :=
| CString (s : string)
| CBoolean (b : bool).

#[global] Instance ConfigValue_eq_dec : EqDecision ConfigValue.
Proof. solve_decision. Defined.

(** The two errors, with what their messages are made of: the field and
    the name of the variable, the field and the value received. *)
Inductive ConfigError :=
| IntegrationLocalConfigFieldMissingError
    (field environmentVariableName : string)
| IntegrationLocalConfigFieldTypeMismatchError
    (field environmentVariableValue : string).

(** [String.prototype.toLowerCase] on a string given by its UTF-8 bytes:
    the letters A to Z change. No other character becomes a letter of
    ['true'] or ['false'], the only strings the result is compared
    with. *)
Definition lowerCaseByte (c : Ascii.ascii) : Ascii.ascii :=
  let n := Ascii.N_of_ascii c in
  if ((65 <=? n) && (n <=? 90))%N then Ascii.ascii_of_N (n + 32) else c.

Fixpoint toLowerCase (s : string) : string :=
  match s with
  | EmptyString => EmptyString
  | String c s' => String (lowerCaseByte c) (toLowerCase s')
  end.

Definition convertEnvironmentVariableValueForField (field : string)
    (fieldConfig : IntegrationInstanceConfigField)
    (environmentVariableValue : string) : ConfigError + ConfigValue :=
  if decide (type fieldConfig = Some "boolean") then
    let rawString := toLowerCase environmentVariableValue in
    if decide (rawString = "true") then inr (CBoolean true)
    else if decide (rawString = "false") then inr (CBoolean false)
    else inl (IntegrationLocalConfigFieldTypeMismatchError field
                environmentVariableValue)
  else inr (CString environmentVariableValue).

Section Load.
(** [snakeCase(field).toUpperCase()], and [process.env] once the
    [.env] file was read. *)
Variable environmentVariableName : string → string.
Variable env : gmap string string.

(** The callback of the [map]. *)
Definition loadField (entry : string * IntegrationInstanceConfigField)
  : ConfigError + string * ConfigValue :=
  let '(field, config) := entry in
  match env !! environmentVariableName field with
  | None =>
      inl (IntegrationLocalConfigFieldMissingError field
             (environmentVariableName field))
  | Some environmentVariableValue =>
      match convertEnvironmentVariableValueForField field config
              environmentVariableValue with
      | inl e => inl e
      | inr convertedValue => inr (field, convertedValue)
      end
  end.

(** [Array.prototype.map] with a callback that may throw. *)
Fixpoint mapFields (entries : list (string * IntegrationInstanceConfigField))
  : ConfigError + list (string * ConfigValue) :=
  match entries with
  | [] => inr []
  | entry :: rest =>
      match loadField entry with
      | inl e => inl e
      | inr converted =>
          match mapFields rest with
          | inl e => inl e
          | inr convertedRest => inr (converted :: convertedRest)
          end
      end
  end.

(** [loadConfigFromEnvironmentVariables(configMap)], on
    [Object.entries(configMap)]. *)
Definition loadConfigFromEnvironmentVariables
    (entries : list (string * IntegrationInstanceConfigField))
  : ConfigError + gmap string ConfigValue :=
  match mapFields entries with
  | inl e => inl e
  | inr converted => inr (foldl (λ acc fv, <[fv.1 := fv.2]> acc) ∅ converted)
  end.
End Load.

End Config.

(** * Specification-level definitions *)

(** ** Graphs *)

Module GraphSpec.
Section Edges.
Variable E : string → option (list string).

Definition edge (a b : string) : Prop := ∃ es, E a = Some es ∧ b ∈ es.

Definition closed (V : list string) : Prop :=
  ∀ a b, a ∈ V → edge a b → b ∈ V.

Definition topo (l : list string) : Prop :=
  ∀ l1 a l2 b, l = l1 ++ a :: l2 → edge a b → b ∈ l1.

Definition good (leavesOnly : bool) (st : list string * list string) : Prop :=
  closed st.1 ∧ NoDup st.2 ∧ (∀ x, x ∈ st.1 → is_Some (E x)) ∧
  (∀ x, x ∈ st.2 ↔ x ∈ st.1 ∧ (leavesOnly = true → E x = Some [])) ∧
  (leavesOnly = false → topo st.2).

(** What a visit of [roots] below [path] adds to the visited set. *)
Definition dfs_post (lo : bool) (path roots : list string)
    (st st' : list string * list string) : Prop :=
  (good lo st → good lo st') ∧
  st.1 ⊆ st'.1 ∧
  (∀ r, r ∈ roots → r ∈ st'.1) ∧
  (∀ x, x ∈ st'.1 → x ∈ st.1 ∨ ((∃ r, r ∈ roots ∧ rtc edge r x) ∧ x ∉ path)).
End Edges.
End GraphSpec.

(** ** Well-formed graphs *)

Module GraphWf.
Import DepGraph GraphSpec.
Section Wf.
Context {A : Type}.
Implicit Types g : DepGraph.t A.

Definition wf g : Prop :=
  NoDup (keys g) ∧
  Forall (λ e,
    NoDup (outgoing e) ∧ NoDup (incoming e) ∧
    Forall (λ d, Exists (λ e', name e' = d ∧ name e ∈ incoming e') g) (outgoing e) ∧
    Forall (λ d, Exists (λ e', name e' = d ∧ name e ∈ outgoing e') g) (incoming e)) g.

#[global] Instance wf_dec g : Decision (wf g).
Proof. unfold wf. apply _. Defined.

Definition dag (E : string → option (list string)) : Prop :=
  ∃ m : string → nat, ∀ a b, edge E a b → m b < m a.

(** No node is named like a member of [Object.prototype]. *)
Definition ordinary g : Prop :=
  Forall (λ n, n ∉ Js.objectPrototype) (keys g).

#[global] Instance ordinary_dec g : Decision (ordinary g).
Proof. unfold ordinary. apply _. Defined.

(** Neither a node nor the other end of one of its edges is so named. *)
Definition ordinary_names g : Prop :=
  Forall (λ e,
    (name e ∉ Js.objectPrototype) ∧
    Forall (λ d, d ∉ Js.objectPrototype) (outgoing e) ∧
    Forall (λ d, d ∉ Js.objectPrototype) (incoming e)) g.

Fixpoint index_of (x : string) (l : list string) : nat :=
  match l with
  | [] => 0
  | y :: l' => if decide (y = x) then 0 else S (index_of x l')
  end.

(** The working graph after the steps in [R] were taken out. *)
Definition restrict_node (R : list string) (e : node A) : node A :=
  mkNode (name e) (data e)
    (filter (λ d, d ∉ R) (outgoing e)) (filter (λ d, d ∉ R) (incoming e)).

Definition restrict g (R : list string) : DepGraph.t A :=
  restrict_node R <$> filter (λ e, name e ∉ R) g.
End Wf.
End GraphWf.

(** ** The scheduler *)

Module SchedulerSpec.
Import GraphSpec GraphWf Scheduler.
Section Spec.
Variable inputGraph : DepGraph.t Step.
Variable stepStartStates : gmap string StepStartState.

(** Nodes are keyed by the id of the step they hold, as
    [buildStepDependencyGraph] makes them. *)
Definition keyed_by_id : Prop :=
  Forall (λ e, id (DepGraph.data e) = DepGraph.name e) inputGraph.

#[global] Instance keyed_by_id_dec : Decision keyed_by_id.
Proof. unfold keyed_by_id. apply _. Defined.

Definition status_of (m : ResultsMap) (s : string) : option StepResultStatus :=
  status <$> map_get m s.

Definition disabled_truthy (s : string) : bool :=
  match stepStartStates !! s with
  | Some ss => Js.truthy (disabled ss)
  | None => false
  end.

(** Ids of the [executeStep] calls that are queued or suspended. *)
Definition active (st : State) : list string :=
  (id <$> queued st) ++ ((λ t, id t.1) <$> inFlight st).

Definition log_step (ev : LogEvent) : string :=
  match ev with
  | LStepStart s | LCacheLoad s _ | LCacheLoaded s _ _ | LCacheEmpty s
  | LHandler s | LUndeclaredTypes s _ | LStepSuccess s | LStepSummary s
  | LFailedStepSummary s | LStepFailure s _ | LFlush s | LWaitUploads s => s
  end.

Definition executed (x : StepResultStatus) : Prop :=
  x = SUCCESS ∨ x = FAILURE ∨ x = PARTIAL_SUCCESS_DUE_TO_DEPENDENCY_FAILURE
  ∨ x = CACHED.

(** A leaf of the working graph that [enqueueLeafSteps] would take. *)
Definition ready (m : ResultsMap) (R : list string) (n : string) : Prop :=
  n ∈ DepGraph.keys inputGraph ∧ (n ∉ R) ∧
  (∀ d, edge (DepGraph.outgoingEdges inputGraph) n d → d ∈ R) ∧
  isStepEnabled stepStartStates n = Some true ∧
  stepDependenciesAreComplete inputGraph m n = Some true.

(** The scheduler invariant; [R] lists the steps taken out of the
    working graph so far, [m0] is the map [buildStepResultsMap] made. *)
Record PreInv (m0 : ResultsMap) (st : State) (R : list string) : Prop := {
  inv_wg : workingGraph st = restrict inputGraph R;
  inv_R_keys : ∀ s, s ∈ R → s ∈ DepGraph.keys inputGraph;
  inv_R_nodup : NoDup R;
  inv_R_enabled : ∀ s, s ∈ R → isStepEnabled stepStartStates s = Some true;
  inv_R_closed :
    ∀ s d, s ∈ R → edge (DepGraph.outgoingEdges inputGraph) s d → d ∈ R;
  inv_map_keys : (stepResultsMap st).*1 = m0.*1;
  inv_map_ids : ∀ k r, (k, r) ∈ stepResultsMap st → r_id r = k;
  inv_seed : ∀ s, s ∉ R → map_get (stepResultsMap st) s = map_get m0 s;
  inv_active :
    ∀ s, s ∈ active st →
         s ∈ R ∧ status_of (stepResultsMap st) s = Some PENDING_EVALUATION;
  inv_active_nodup : NoDup (active st);
  inv_active_data :
    ∀ step, step ∈ queued st ++ (inFlight st).*1 →
            DepGraph.getNodeData inputGraph (id step) = Some step;
  inv_done :
    isPaused st = false →
    ∀ s, s ∈ R → s ∉ active st →
         ∃ x, status_of (stepResultsMap st) s = Some x ∧ executed x;
  inv_paused : isPaused st = true ↔ ∃ e, settled st = Some (Rejected e);
  inv_resolved :
    ∀ v, settled st = Some (Resolved v) →
         queued st = [] ∧ inFlight st = [] ∧
         v = map_values (stepResultsMap st);
  inv_log : ∀ ev, ev ∈ log st → log_step ev ∈ R;
  inv_phase : ∀ step x, (step, AwaitingFlush x) ∈ inFlight st → executed x;
}.

(** Between two transitions no leaf is left waiting, unless the queue
    was paused. *)
Definition Inv (m0 : ResultsMap) (st : State) (R : list string) : Prop :=
  PreInv m0 st R ∧
  (isPaused st = false → ∀ n, ¬ ready (stepResultsMap st) R n).
(** The status [buildStepResultsMap] gives a step with the transitive
    dependencies [deps]. *)
Definition seed (deps : list string) (s : string) : StepResultStatus :=
  if disabled_truthy s || existsb disabled_truthy deps
  then DISABLED else PENDING_EVALUATION.

(** The start state of [s] has [disabled = true]. *)
Definition is_disabled (s : string) : Prop :=
  ∃ ss, stepStartStates !! s = Some ss ∧ disabled ss = Js.VBool true.
End Spec.

(** The check the spec asks for instead of [hasCachePath]: the plain
    truthiness test [!!stepStartStates[stepId].stepCachePath]. *)
Definition hasCachePath_truthiness (stepStartStates : gmap string StepStartState)
    (stepId : string) : option Js.value :=
  ss ← stepStartStates !! stepId;
  Some (Js.VBool (Js.truthy (stepCachePath ss))).

(** The cache loader reports [CACHED]: a cache path is set, some batch was
    handed to a callback and nothing was thrown. *)
Definition cache_hit (stepStartStates : gmap string StepStartState)
    (stepId : string) (c : CacheRun) : Prop :=
  (∃ v, hasCachePath stepStartStates stepId = Some v ∧ Js.truthy v = true) ∧
  entityBatches c ++ relationshipBatches c ≠ [] ∧ cacheError c = None.

(** The step goes through its handler: no cache path, or a cache directory
    without a batch, read without an error. *)
Definition cache_miss (stepStartStates : gmap string StepStartState)
    (stepId : string) (c : CacheRun) : Prop :=
  ∃ v, hasCachePath stepStartStates stepId = Some v ∧
       (Js.truthy v = true →
        entityBatches c ++ relationshipBatches c = [] ∧ cacheError c = None).

(** Some dependency has a result in [FAILURE] or
    [PARTIAL_SUCCESS_DUE_TO_DEPENDENCY_FAILURE]. *)
Definition dependency_failed (m : ResultsMap) (deps : list string) : Prop :=
  ∃ d r, d ∈ deps ∧ map_get m d = Some r ∧
         (status r = FAILURE ∨ status r = PARTIAL_SUCCESS_DUE_TO_DEPENDENCY_FAILURE).

(** Entries still in [PENDING_EVALUATION]. *)
Fixpoint pending (m : ResultsMap) : nat :=
  match m with
  | [] => 0
  | (_, r) :: m' =>
      match status r with
      | PENDING_EVALUATION => S (pending m')
      | _ => pending m'
      end
  end.

(** Calls whose handler has not returned yet. *)
Fixpoint handlers_pending (r : list (Step * Phase)) : nat :=
  match r with
  | [] => 0
  | (_, AwaitingHandler) :: r' => S (handlers_pending r')
  | (_, AwaitingFlush _) :: r' => handlers_pending r'
  end.

(** A handler that adds nothing and returns, with an empty cache; a
    flush and an upload wait that return. *)
Definition quiet_body : BodyRun :=
  mkBodyRun (mkCacheRun [] [] None) (mkHandlerRun [] None).
Definition quiet_finish : FinishRun := mkFinishRun None (Some None).

(** The step was taken out of the working graph: [enqueueLeafSteps] has
    handed it to the queue at some time. *)
Definition dispatched (inputGraph : DepGraph.t Step) (st : State)
    (s : string) : Prop :=
  s ∈ DepGraph.keys inputGraph ∧ s ∉ DepGraph.keys (workingGraph st).

(** The steps whose [executeStep] call began, and those whose
    [executionHandler] was invoked, in the order of the log. *)
Definition started (l : list LogEvent) : list string :=
  omap (λ ev, match ev with LStepStart s => Some s | _ => None end) l.
Definition invoked (l : list LogEvent) : list string :=
  omap (λ ev, match ev with LHandler s => Some s | _ => None end) l.

(** [b] is listed in the [dependsOn] of a step with the id [a]. *)
Definition depends (steps : list Step) (a b : string) : Prop :=
  ∃ step, step ∈ steps ∧ id step = a ∧ b ∈ default [] (dependsOn step).

(** No step has the name of a member of [Object.prototype] as its id. *)
Definition ordinary_ids (steps : list Step) : Prop :=
  Forall (λ step, id step ∉ Js.objectPrototype) steps.

#[global] Instance ordinary_ids_dec steps : Decision (ordinary_ids steps).
Proof. unfold ordinary_ids. apply _. Defined.

(** The [dependsOn] lists have no cycle: the ids can be ranked so that
    every step is above the ones it lists. *)
Definition acyclic (steps : list Step) : Prop :=
  ∃ m : string → nat, ∀ a b, depends steps a b → m b < m a.

(** What a status says about the transitive dependencies of its step:
    behind [SUCCESS] every one succeeded or was loaded from its cache,
    behind [PARTIAL_SUCCESS_DUE_TO_DEPENDENCY_FAILURE] one failed. *)
Definition caused (inputGraph : DepGraph.t Step) (m : ResultsMap)
    (s : string) (x : StepResultStatus) : Prop :=
  (x = SUCCESS →
   ∀ d, tc (edge (DepGraph.outgoingEdges inputGraph)) s d →
        status_of m d = Some SUCCESS ∨ status_of m d = Some CACHED) ∧
  (x = PARTIAL_SUCCESS_DUE_TO_DEPENDENCY_FAILURE →
   ∃ d, tc (edge (DepGraph.outgoingEdges inputGraph)) s d ∧
        (status_of m d = Some FAILURE ∨
         status_of m d = Some PARTIAL_SUCCESS_DUE_TO_DEPENDENCY_FAILURE)).
End SchedulerSpec.

(** ** Shrinking and uploading *)

Module ShrinkSpec.
Import Sync.
Local Open Scope Z_scope.
(** A batch on which an iteration of the loop writes what is already
    there: the largest item is the ["TRUNCATED"] under the key [""]. *)
Definition fixed (data : list Entity) : Prop :=
  ∃ i ent entries j entry,
    getLargestEntityFromBatch data = Some (i, ent) ∧
    _rawData ent = Some entries ∧
    getLargestRawDataEntryFromEntity entries = Some (j, entry) ∧
    getLargestItemKeyAndByteSize (rawData entry) = ("", sizeOfTruncated) ∧
    Json.get (rawData entry) "" = Some (Json.JStr "TRUNCATED").

(** A batch on which an iteration of the loop writes what is already
    there, under any key: the largest item is a ["TRUNCATED"]. *)
Definition stuck (data : list Entity) : Prop :=
  ∃ i ent entries j entry k,
    getLargestEntityFromBatch data = Some (i, ent) ∧
    _rawData ent = Some entries ∧
    getLargestRawDataEntryFromEntity entries = Some (j, entry) ∧
    getLargestItemKeyAndByteSize (rawData entry) = (k, sizeOfTruncated) ∧
    Json.get (rawData entry) k = Some (Json.JStr "TRUNCATED").

(** [ms'] is [ms] with some values replaced by ["TRUNCATED"]: the same
    keys in the same order. *)
Definition truncatedMembers (ms ms' : list (string * Json.value)) : Prop :=
  Forall2 (λ m m', m'.1 = m.1 ∧ (m'.2 = m.2 ∨ m'.2 = Json.JStr "TRUNCATED")) ms ms'.

Definition truncatedEntry (e e' : EntityRawData) : Prop :=
  rd_name e' = rd_name e ∧ truncatedMembers (rawData e) (rawData e').

(** The same properties; the same raw data entries, up to truncated
    values. *)
Definition truncatedEntity (ent ent' : Entity) : Prop :=
  properties ent' = properties ent ∧
  match _rawData ent, _rawData ent' with
  | None, None => True
  | Some entries, Some entries' => Forall2 truncatedEntry entries entries'
  | _, _ => False
  end.

(** The same elements in the same order, up to truncated raw data
    values. *)
Definition truncatedBatch (data data' : list Entity) : Prop :=
  Forall2 truncatedEntity data data'.

(** The batch after [largestRawDataEntry.rawData] was replaced. *)
Definition write (data : list Entity) (i : nat) (ent : Entity)
    (entries : list EntityRawData) (j : nat) (entry : EntityRawData)
    (members : list (string * Json.value)) : list Entity :=
  <[i := mkEntity (properties ent)
           (Some (<[j := mkRawData (rd_name entry) members]> entries))]> data.
End ShrinkSpec.

Module ConfigSpec.
Import Config.

(** The upper-case letter of a lower-case one. *)
Definition upperCaseByte (c : Ascii.ascii) : Ascii.ascii :=
  Ascii.ascii_of_N (Ascii.N_of_ascii c - 32).

(** The spellings of a lower-case word that differ by the case of their
    letters. *)
Fixpoint spellings (word : string) : list string :=
  match word with
  | EmptyString => [EmptyString]
  | String c word' =>
      rest ← spellings word'; [String c rest; String (upperCaseByte c) rest]
  end.

Definition lowerCaseLetter (c : Ascii.ascii) : Prop :=
  (97 ≤ Ascii.N_of_ascii c ≤ 122)%N.

Fixpoint lowerCaseWord (word : string) : Prop :=
  match word with
  | EmptyString => True
  | String c word' => lowerCaseLetter c ∧ lowerCaseWord word'
  end.
End ConfigSpec.

Module UploadSpec.
Import Sync.
Local Open Scope Z_scope.
(** The POST requests of a trace, in order. *)
Definition posts (evs : list Event) : list (nat * list Entity) :=
  omap (λ e, match e with Post n b => Some (n, b) | _ => None end) evs.

(** The pauses of a trace, in order. *)
Definition sleeps (evs : list Event) : list Z :=
  omap (λ e, match e with Sleep ms => Some ms | _ => None end) evs.

Definition jobNotAwaitingUploads (err : ApiError) : Prop :=
  se_code <$> getSystemErrorResponseData err = Some "JOB_NOT_AWAITING_UPLOADS".

(** What the error handler leaves in the batch when it returns. *)
Definition handled (fuel : nat) (now : Z * Z) (err : ApiError)
    (b b' : list Entity) : Prop :=
  if isRequestUploadTooLargeError err
  then ∃ results, shrinkRawData fuel now b UPLOAD_SIZE_MAX = ShrinkReturned results b'
  else b' = b ∧ ¬ jobNotAwaitingUploads err.

Definition attempts (fuel : nat) (now : Z * Z)
    (server : nat → list Entity → option ApiError) :=
  makeAttempt
    (λ ctx b, (server (attemptNum ctx) b,
               [LogInfo "Uploading data..."; Post (attemptNum ctx) b]))
    (handleUploadDataChunkError fuel now) uploadOptions.
End UploadSpec.

(** * Scenarios *)

Module SchedulerExamples.
Import Scheduler.

Definition step (i : string) (d : list string) : Step :=
  mkStep i i (Some d) [mkSchema "t" false] [] None.

Definition enabled : StepStartState := mkStartState (Js.VBool false) Js.VUndefined.
Definition off : StepStartState := mkStartState (Js.VBool true) Js.VUndefined.
Definition cached : StepStartState :=
  mkStartState (Js.VBool false) (Js.VStr "/cache/b").

Definition idle : State := mkState [] [] ∅ [] [] false None [].

Definition handler_ok (types : list string) : BodyRun :=
  mkBodyRun (mkCacheRun [] [] None) (mkHandlerRun types None).
Definition handler_throws (e : Err) : BodyRun :=
  mkBodyRun (mkCacheRun [] [] None) (mkHandlerRun [] (Some e)).
Definition cache_loaded : BodyRun :=
  mkBodyRun (mkCacheRun [["t"; "t"; "t"]] [["r"; "r"]] None) (mkHandlerRun [] None).
Definition flush_fine : FinishRun := mkFinishRun None None.
Definition upload_fails : FinishRun :=
  mkFinishRun None (Some (Some (mkErr "UPLOAD" false))).
Definition flush_fails : FinishRun := mkFinishRun (Some (mkErr "FLUSH" false)) None.

(** Diamond with a failure: b and c depend on a, d on both; b throws. *)
Definition diamond : DepGraph.t Step :=
  Eval vm_compute in
    default [] (buildStepDependencyGraph
                  [step "d" ["b"; "c"]; step "a" []; step "b" ["a"]; step "c" ["a"]]).

Definition diamond_states : gmap string StepStartState :=
  list_to_map [("a", enabled); ("b", enabled); ("c", enabled); ("d", enabled)].

Definition diamond_events : list Event :=
  [EvStart; EvHandlerDone "a" (handler_ok ["t"]); EvFlushDone "a" flush_fine;
   EvStart; EvStart;
   EvHandlerDone "c" (handler_ok ["t"; "u"]);
   EvHandlerDone "b" (handler_throws (mkErr "boom" false));
   EvFlushDone "c" flush_fine; EvFlushDone "b" flush_fine;
   EvStart; EvHandlerDone "d" (handler_ok []); EvFlushDone "d" flush_fine; EvIdle].

Definition diamond_final : State :=
  Eval vm_compute in default idle (run diamond diamond_states diamond_events).

Definition diamond_results : list IntegrationStepResult :=
  Eval vm_compute in
    match settled diamond_final with Some (Resolved v) => v | _ => [] end.

(** The diamond when the handler of a has returned and its flush is
    pending. *)
Definition diamond_flushing : State :=
  Eval vm_compute in
    default idle (run diamond diamond_states
                    [EvStart; EvHandlerDone "a" (handler_ok ["t"])]).

(** The diamond when d has been started: b has failed, c has
    succeeded. *)
Definition diamond_d_running : State :=
  Eval vm_compute in
    default idle (run diamond diamond_states (take 10 diamond_events)).

Definition diamond_dependencies_of_d : list string :=
  Eval vm_compute in default [] (DepGraph.dependenciesOf diamond "d").

(** Disabled barrier: a chain a, b, c, d in which b is disabled. *)
Definition barrier : DepGraph.t Step :=
  Eval vm_compute in
    default [] (buildStepDependencyGraph
                  [step "a" []; step "b" ["a"]; step "c" ["b"]; step "d" ["c"]]).

Definition barrier_states : gmap string StepStartState :=
  list_to_map [("a", enabled); ("b", off); ("c", enabled); ("d", enabled)].

Definition barrier_events : list Event :=
  [EvStart; EvHandlerDone "a" (handler_ok ["t"]); EvFlushDone "a" flush_fine; EvIdle].

Definition barrier_final : State :=
  Eval vm_compute in default idle (run barrier barrier_states barrier_events).

(** A cached step b whose dependency a has failed. *)
Definition pair : DepGraph.t Step :=
  Eval vm_compute in
    default [] (buildStepDependencyGraph [step "a" []; step "b" ["a"]]).

Definition pair_states : gmap string StepStartState :=
  list_to_map [("a", enabled); ("b", cached)].

Definition pair_events : list Event :=
  [EvStart; EvHandlerDone "a" (handler_throws (mkErr "boom" false));
   EvFlushDone "a" flush_fine; EvStart].

(** b is dispatched, a has the status FAILURE. *)
Definition pair_dispatched : State :=
  Eval vm_compute in default idle (run pair pair_states pair_events).

Definition pair_loaded : State :=
  Eval vm_compute in
    default idle (next pair pair_states pair_dispatched (EvHandlerDone "b" cache_loaded)).

(** The diamond when b and c are running. *)
Definition diamond_bc_running : State :=
  Eval vm_compute in
    default idle (run diamond diamond_states (take 5 diamond_events)).

(** A start state whose [disabled] was never set. *)
Definition unset : StepStartState := mkStartState Js.VUndefined Js.VUndefined.

Definition unset_states : gmap string StepStartState :=
  list_to_map [("a", unset); ("b", enabled)].

(** The pair with the start states above, at the end of its run. *)
Definition unset_final : State :=
  Eval vm_compute in default idle (run pair unset_states [EvIdle]).

(** The steps of the diamond, as handed to [buildStepDependencyGraph]. *)
Definition diamond_steps : list Step :=
  [step "d" ["b"; "c"]; step "a" []; step "b" ["a"]; step "c" ["a"]].

(** The results map the barrier starts from. *)
Definition barrier_seed : ResultsMap :=
  Eval vm_compute in default [] (buildStepResultsMap barrier barrier_states).

(** The diamond when [executeStepDependencyGraph] has returned its
    promise. *)
Definition diamond_start : State :=
  Eval vm_compute in default idle (run diamond diamond_states []).

(** Two steps, the first of which is named like a member of
    [Object.prototype]; the second depends on it. *)
Definition namesake_steps : list Step :=
  [step "constructor" []; step "a" ["constructor"]].

Definition namesake : DepGraph.t Step :=
  Eval vm_compute in
    default [] (buildStepDependencyGraph (reading := javascript) namesake_steps).

Definition namesake_states : gmap string StepStartState :=
  list_to_map [("constructor", enabled); ("a", enabled)].

Definition namesake_off_states : gmap string StepStartState :=
  list_to_map [("constructor", off); ("a", enabled)].

(** What the two runs resolve with when the queue is idle. *)
Definition namesake_final : State :=
  Eval vm_compute in
    default idle (run (reading := javascript) namesake namesake_states [EvIdle]).

Definition namesake_off_final : State :=
  Eval vm_compute in
    default idle (run (reading := javascript) namesake namesake_off_states [EvIdle]).

(** A handler that throws [undefined]. *)
Definition handler_throws_undefined : BodyRun := handler_throws Nullish.
End SchedulerExamples.

Module SyncExamples.
Import Sync.
Local Open Scope Z_scope.

(** One entity with a large and a small raw data value. *)
Definition bulky : list Entity :=
  [mkEntity [("_key", Json.JStr "k1")]
     (Some [mkRawData "default"
              [("payload",
                Json.JStr "xxxxxxxxxxxxxxxxxxxxxxxxxxxxxxxxxxxxxxxxxxxxxxxxxxxxxxxxxxxxxxxxxxxxxxxxxxxxxxxx");
               ("small", Json.JStr "ok")]])].

Definition bulky_results : ShrinkRawDataResults :=
  Eval vm_compute in
    match shrinkRawData 10 (0, 5) bulky 100 with
    | ShrinkReturned results _ => results
    | _ => mkShrinkResults 0 0 0 0
    end.

Definition bulky_shrunk : list Entity :=
  Eval vm_compute in
    match shrinkRawData 10 (0, 5) bulky 100 with
    | ShrinkReturned _ data => data
    | _ => []
    end.

Definition tiny : list Entity :=
  [mkEntity [("_key", Json.JStr "k1")]
     (Some [mkRawData "default" [("small", Json.JStr "ok")]])].

Definition jobEnded : SystemErrorResponseData :=
  mkSystemError "JOB_NOT_AWAITING_UPLOADS" "job is not awaiting uploads".

Definition err_ended : ApiError := mkApiError None (Some 400) (Some jobEnded) "bad request".
Definition err_large : ApiError := mkApiError None (Some 413) None "too large".
Definition err_both : ApiError := mkApiError None (Some 413) (Some jobEnded) "too large".
Definition err_server : ApiError := mkApiError None (Some 500) None "oops".

(** The job ends between the first and the second attempt. *)
Definition server_ended (attempt : nat) (_ : list Entity) : option ApiError :=
  match attempt with O => Some err_server | _ => Some err_ended end.

Definition ended_run : RetryOutcome (list Entity) * list Event :=
  Eval vm_compute in uploadDataChunk 5 (0, 0) server_ended tiny.

(** The first answer is a 413 whose body says the job has ended. *)
Definition server_both (attempt : nat) (_ : list Entity) : option ApiError :=
  match attempt with O => Some err_both | _ => None end.

(** Too large, then a server error, then accepted. *)
Definition server_large (attempt : nat) (_ : list Entity) : option ApiError :=
  match attempt with
  | O => Some err_large
  | S O => Some err_server
  | _ => None
  end.

Definition large_run : RetryOutcome (list Entity) * list Event :=
  Eval vm_compute in uploadDataChunk 5 (0, 0) server_large tiny.

Definition job : SynchronizationJob := mkJob "job-1".

(** A wrapper for the scenarios: an error with a code of its own and
    the message it is given. *)
Definition wrap (err : Thrown) (errorMessage : string) : Thrown :=
  IntegrationError "UNEXPECTED_SYNCRONIZATION_ERROR" false errorMessage None.

(** One file of entities, uploaded in one batch while the job ends. *)
Definition ended_files : list Upload.FlushedGraphObjectData :=
  [Upload.mkFlushed (Some tiny) None].

Definition ended_upload : Upload.Await :=
  Eval vm_compute in
    Upload.uploadCollectedData wrap 5 (0, 0) (λ _ _ _, server_ended)
      (λ _ _, 0%nat) ended_files.

(** What [uploadCollectedData] throws when the upload phase ends so. *)
Definition thrownBy (upload : Upload.Await) : option Thrown :=
  match upload with
  | Upload.RejectedWith err => Some err
  | _ => None
  end.

Definition env_ended : SyncEnv :=
  mkSyncEnv (inr job) (thrownBy ended_upload) None (inr job) (inr job) None.

(** An entity with a large raw data value, and a relationship (no
    [_rawData]) that is larger than what is left of the entity once that
    value is truncated. *)
Definition mixed : list Entity :=
  [mkEntity [("_key", Json.JStr "k1")]
     (Some [mkRawData "default"
              [("payload",
                Json.JStr "xxxxxxxxxxxxxxxxxxxxxxxxxxxxxxxxxxxxxxxxxxxxxxxxxxxxxxxxxxxxxxxxxxxxxxxxxxxxxxxx")]]);
   mkEntity [("_key", Json.JStr "k1|has|k2");
             ("_class", Json.JStr "HAS");
             ("displayName", Json.JStr "a relationship between two entities")]
     None].

Definition mixed_left : list Entity :=
  Eval vm_compute in
    match shrinkRawData 10 (0, 5) mixed 100 with
    | ShrinkThrew _ data => data
    | _ => []
    end.

Definition env_fine : SyncEnv :=
  mkSyncEnv (inr job) None None (inr (mkJob "job-1-finalized")) (inr job) None.

Definition many : list nat := seq 0 7.
End SyncExamples.

Module ConfigExamples.
Import Config.

Definition fields : list (string * IntegrationInstanceConfigField) :=
  [("apiKey", mkField (Some "string")); ("verbose", mkField (Some "boolean"))].

(** [snakeCase(field).toUpperCase()] on these fields. *)
Definition variableName (field : string) : string :=
  if decide (field = "apiKey") then "API_KEY"
  else if decide (field = "verbose") then "VERBOSE"
  else field.

Definition environment : gmap string string :=
  list_to_map [("API_KEY", "secret"); ("VERBOSE", "TRUE"); ("HOME", "/root")].
End ConfigExamples.

(** * Facts about the graph library *)

Module GraphFacts.
Import GraphSpec GraphWf.

Lemma remove_first_notin x l : x ∉ l → remove_first x l = l.
Proof.
  induction l as [|y l IH]; simpl; [done|].
  intros Hx. apply not_elem_of_cons in Hx as [? ?].
  rewrite decide_False by done. by rewrite IH.
Qed.

Lemma remove_first_NoDup x l : NoDup l → remove_first x l = filter (λ y, y ≠ x) l.
Proof.
  induction 1 as [|y l Hy Hl IH]; simpl; [done|].
  destruct (decide (x = y)) as [->|Hne].
  - rewrite filter_cons_False by naive_solver.
    symmetry. rewrite <- (remove_first_notin y l) at 2 by done.
    rewrite IH. done.
  - rewrite filter_cons_True by naive_solver. by rewrite IH.
Qed.

Lemma foldM_app {A S} (f : A → S → option S) l1 l2 s :
  foldM f (l1 ++ l2) s = foldM f l1 s ≫= foldM f l2.
Proof.
  revert s. induction l1 as [|a l1 IH]; intros s; simpl; [done|].
  destruct (f a s); simpl; [apply IH|done].
Qed.

(** An invariant carried through a [foldM]. *)
Lemma foldM_ind {A S} (f : A → S → option S) (P : list A → S → Prop) l s s' :
  P [] s →
  (∀ done a t t', P done t → a ∈ l → f a t = Some t' → P (done ++ [a]) t') →
  foldM f l s = Some s' → P l s'.
Proof.
  intros H0 Hstep.
  assert (∀ rest done t, done ++ rest = l → P done t →
            foldM f rest t = Some s' → P l s') as Hgen.
  { induction rest as [|a rest IH]; intros done t Hl HP Hf; simpl in Hf.
    - rewrite app_nil_r in Hl. by simplify_eq.
    - destruct (f a t) as [t'|] eqn:Hfa; [|done].
      apply (IH (done ++ [a]) t'); [by rewrite <- app_assoc| |done].
      apply Hstep with t; [done| |done]. subst l. set_solver. }
  apply (Hgen l [] s); done.
Qed.

Section DFS_facts.
Variable E : string → option (list string).
Variable lo : bool.

Local Abbreviation DFS := (@DepGraph.DFS).
Local Abbreviation dfs_post := (GraphSpec.dfs_post E lo).

Lemma dfs_post_nil path st : dfs_post path [] st st.
Proof. unfold GraphSpec.dfs_post. set_solver. Qed.

Lemma dfs_post_snoc path done a st st1 st2 :
  dfs_post path done st st1 → dfs_post path [a] st1 st2 →
  dfs_post path (done ++ [a]) st st2.
Proof.
  intros (G1 & S1 & R1 & N1) (G2 & S2 & R2 & N2).
  split_and!; [tauto|set_solver| |].
  - intros r [Hr|Hr]%elem_of_app; [set_solver|].
    apply R2. done.
  - intros x Hx. destruct (N2 x Hx) as [Hx1|[(r & Hr & Hrx) Hp]].
    + destruct (N1 x Hx1) as [?|[(r & Hr & Hrx) Hp]]; [by left|].
      right. split; [|done]. exists r. set_solver.
    + right. split; [|done]. exists r. set_solver.
Qed.

Lemma topo_snoc l n es :
  topo E l → E n = Some es → (∀ b, b ∈ es → b ∈ l) → topo E (l ++ [n]).
Proof.
  intros Ht Hn Hes l1 a l2 b Heq (es' & Ha & Hb).
  destruct (decide (l2 = [])) as [->|Hl2].
  - apply app_inj_tail in Heq as [-> ->]. simplify_eq. by apply Hes.
  - destruct (exists_last Hl2) as (l2' & z & ->).
    rewrite app_comm_cons, app_assoc in Heq.
    apply app_inj_tail in Heq as [-> ->].
    eapply Ht; [done|]. by exists es'.
Qed.

Lemma DFS_post fuel : ∀ path n st st',
  DFS fuel E lo path n st = Some st' → dfs_post path [n] st st'.
Proof.
  induction fuel as [|fuel IH]; intros path n st st' H; simpl in H; [done|].
  destruct (decide (n ∈ st.1)) as [Hv|Hv].
  { simplify_eq. unfold GraphSpec.dfs_post. set_solver. }
  destruct (decide (n ∈ path)) as [Hp|Hp]; [done|].
  destruct (E n) as [es|] eqn:HE; [|done].
  destruct (foldM _ es st) as [st1|] eqn:Hf; [|done].
  simplify_eq.
  assert (dfs_post (n :: path) es st st1) as (G1 & S1 & R1 & N1).
  { revert Hf. apply (foldM_ind _ (λ done t, dfs_post (n :: path) done st t)).
    - apply dfs_post_nil.
    - intros done a t t' Hd _ Ha. eapply dfs_post_snoc; [done|]. by apply IH. }
  assert (n ∉ st1.1) as Hn1.
  { intros Hn. destruct (N1 n Hn) as [?|[_ ?]]; set_solver. }
  split_and!; simpl.
  - intros Hg. destruct (G1 Hg) as (Hc & Hnd & Hdom & Hres & Htopo).
    split_and!; simpl.
    + intros a b [->|Ha]%elem_of_cons (es' & Ha' & Hb).
      * simplify_eq. right. by apply R1.
      * right. apply (Hc a b); [done|]. by exists es'.
    + destruct (lo && negb (bool_decide (es = []))); [done|].
      apply NoDup_app. split_and!; [done| |apply NoDup_singleton].
      intros x Hx ->%list_elem_of_singleton. apply Hres in Hx. tauto.
    + intros x [->|Hx]%elem_of_cons; [by rewrite HE|by apply Hdom].
    + intros x. destruct lo; simpl.
      * destruct (decide (es = [])) as [->|Hes].
        -- rewrite bool_decide_eq_true_2 by done. simpl.
           rewrite elem_of_app, list_elem_of_singleton, elem_of_cons, Hres.
           split; [intros [?| ->]; naive_solver|]. intros [[->|?] ?]; naive_solver.
        -- rewrite bool_decide_eq_false_2 by done. simpl.
           rewrite elem_of_cons, Hres.
           split; [naive_solver|]. intros [[->|?] Hx]; [|naive_solver].
           specialize (Hx eq_refl). congruence.
      * rewrite elem_of_app, list_elem_of_singleton, elem_of_cons, Hres. naive_solver.
    + intros ->. simpl. eapply topo_snoc; [by apply Htopo|done|].
      intros b Hb. apply Hres. split; [by apply R1|done].
  - set_solver.
  - intros r ->%list_elem_of_singleton. set_solver.
  - intros x [->|Hx]%elem_of_cons.
    + right. split; [|done]. exists n. split; [set_solver|done].
    + destruct (N1 x Hx) as [?|[(r & Hr & Hrx) Hxp]]; [by left|].
      right. split; [|set_solver]. exists n. split; [set_solver|].
      eapply rtc_l; [|done]. by exists es.
Qed.

Lemma foldM_DFS_post fuel path roots st st' :
  foldM (DFS fuel E lo path) roots st = Some st' → dfs_post path roots st st'.
Proof.
  apply (foldM_ind _ (λ done t, dfs_post path done st t)).
  - apply dfs_post_nil.
  - intros done a t t' Hd _ Ha. eapply dfs_post_snoc; [done|]. by apply DFS_post in Ha.
Qed.

Lemma good_init : good E lo ([], []).
Proof.
  split_and!; simpl.
  - intros a b Ha. set_solver.
  - apply NoDup_nil_2.
  - set_solver.
  - set_solver.
  - intros _ l1 a l2 b Heq. by destruct l1.
Qed.
End DFS_facts.

Lemma foldM_is_Some {A S} (f : A → S → option S) l s :
  (∀ a t, a ∈ l → is_Some (f a t)) → is_Some (foldM f l s).
Proof.
  revert s. induction l as [|a l IH]; intros s H; simpl; [done|].
  destruct (H a s) as [t ->]; [set_solver|]. apply IH. set_solver.
Qed.

Section DFS_total.
Variable E : string → option (list string).
Variable lo : bool.
Variable m : string → nat.
Variable dom : list string.
Hypothesis m_decr : ∀ a b, edge E a b → m b < m a.
Hypothesis dom_spec : ∀ x, is_Some (E x) → x ∈ dom.
Hypothesis edge_dom : ∀ a b, edge E a b → is_Some (E b).

Lemma DFS_total fuel : ∀ path n st,
  is_Some (E n) → NoDup path → (∀ p, p ∈ path → p ∈ dom ∧ m n < m p) →
  length dom < fuel + length path →
  is_Some (DepGraph.DFS fuel E lo path n st).
Proof.
  induction fuel as [|fuel IH]; intros path n st Hn Hnd Hp Hlen.
  { exfalso. assert (length path ≤ length dom); [|lia].
    apply submseteq_length, NoDup_submseteq; [done|]. intros x Hx. by apply Hp. }
  simpl. destruct (decide (n ∈ st.1)); [done|].
  destruct (decide (n ∈ path)) as [Hin|Hnin].
  { apply Hp in Hin. lia. }
  destruct Hn as [es HE]. rewrite HE.
  destruct (foldM_is_Some (DepGraph.DFS fuel E lo (n :: path)) es st) as [st' ->];
    [|done].
  intros c t Hc. assert (edge E n c) as Hedge by by exists es.
  apply IH.
  - by eapply edge_dom.
  - by apply NoDup_cons.
  - intros p [->|Hpp]%elem_of_cons.
    + split; [apply dom_spec; by rewrite HE|by apply m_decr].
    + destruct (Hp p Hpp). split; [done|]. specialize (m_decr _ _ Hedge). lia.
  - simpl. lia.
Qed.
End DFS_total.

Section Graph_facts.
Context {A : Type}.
Implicit Types g : DepGraph.t A.
Import DepGraph.

Lemma getNode_Some g n e : getNode g n = Some e → e ∈ g ∧ name e = n.
Proof.
  induction g as [|e' g IH]; simpl; [done|].
  destruct (decide (name e' = n)); [intros; simplify_eq; set_solver|].
  intros H. apply IH in H. set_solver.
Qed.

Lemma getNode_None g n : getNode g n = None ↔ n ∉ keys g.
Proof.
  unfold keys. induction g as [|e' g IH]; simpl; [set_solver|].
  destruct (decide (name e' = n)); [set_solver|].
  rewrite IH. set_solver.
Qed.

Lemma getNode_is_Some g n : is_Some (getNode g n) ↔ n ∈ keys g.
Proof.
  rewrite <- not_eq_None_Some, getNode_None.
  destruct (decide (n ∈ keys g)); tauto.
Qed.

Lemma getNode_elem g e : NoDup (keys g) → e ∈ g → getNode g (name e) = Some e.
Proof.
  unfold keys. induction g as [|e' g IH]; simpl; [set_solver|].
  intros [Hn Hnd]%NoDup_cons [->|He]%elem_of_cons.
  - by rewrite decide_True.
  - rewrite decide_False; [by apply IH|].
    intros Heq. apply Hn. rewrite Heq. by apply list_elem_of_fmap_2.
Qed.

Lemma hasNode_true g n : hasNode g n = true ↔ n ∈ keys g.
Proof. unfold hasNode. rewrite bool_decide_eq_true. apply getNode_is_Some. Qed.

Lemma outgoingEdges_is_Some g n : is_Some (outgoingEdges g n) ↔ n ∈ keys g.
Proof. unfold outgoingEdges. rewrite fmap_is_Some. apply getNode_is_Some. Qed.

Lemma incomingEdges_is_Some g n : is_Some (incomingEdges g n) ↔ n ∈ keys g.
Proof. unfold incomingEdges. rewrite fmap_is_Some. apply getNode_is_Some. Qed.

Lemma wf_out g a b :
  wf g → edge (outgoingEdges g) a b → edge (incomingEdges g) b a.
Proof.
  intros [Hnd Hwf] (es & Ha & Hb). unfold outgoingEdges in Ha.
  destruct (getNode g a) as [e|] eqn:He; simplify_eq/=.
  apply getNode_Some in He as [He <-].
  rewrite Forall_forall in Hwf. destruct (Hwf e He) as (_ & _ & Ho & _).
  rewrite Forall_forall in Ho. specialize (Ho b Hb).
  apply Exists_exists in Ho as (e' & He' & <- & Hin).
  exists (incoming e'). unfold incomingEdges. by rewrite (getNode_elem g e').
Qed.

Lemma wf_in g a b :
  wf g → edge (incomingEdges g) a b → edge (outgoingEdges g) b a.
Proof.
  intros [Hnd Hwf] (es & Ha & Hb). unfold incomingEdges in Ha.
  destruct (getNode g a) as [e|] eqn:He; simplify_eq/=.
  apply getNode_Some in He as [He <-].
  rewrite Forall_forall in Hwf. destruct (Hwf e He) as (_ & _ & _ & Hi).
  rewrite Forall_forall in Hi. specialize (Hi b Hb).
  apply Exists_exists in Hi as (e' & He' & <- & Hin).
  exists (outgoing e'). unfold outgoingEdges. by rewrite (getNode_elem g e').
Qed.

Lemma edge_out_keys g a b :
  wf g → edge (outgoingEdges g) a b → a ∈ keys g ∧ b ∈ keys g.
Proof.
  intros Hwf Hab. split.
  - destruct Hab as (es & Ha & _). apply outgoingEdges_is_Some. by rewrite Ha.
  - apply wf_out in Hab as (es & Hb & _); [|done].
    apply incomingEdges_is_Some. by rewrite Hb.
Qed.

Lemma index_of_app_notin x l1 l2 : x ∉ l1 → index_of x (l1 ++ x :: l2) = length l1.
Proof.
  induction l1 as [|y l1 IH]; simpl; intros Hx.
  - by rewrite decide_True.
  - apply not_elem_of_cons in Hx as [? ?]. rewrite decide_False by done. by rewrite IH.
Qed.

Lemma index_of_app_in x l1 l2 :
  x ∈ l1 → index_of x (l1 ++ l2) = index_of x l1 ∧ index_of x l1 < length l1.
Proof.
  induction l1 as [|y l1 IH]; simpl; intros Hx; [set_solver|].
  destruct (decide (y = x)); [lia|].
  destruct IH as [-> ?]; [set_solver|]. lia.
Qed.

Lemma topo_dag (E : string → option (list string)) l :
  topo E l → NoDup l → (∀ x, is_Some (E x) → x ∈ l) →
  ∀ a b, edge E a b → index_of b l < index_of a l ∧ index_of a l < length l.
Proof.
  intros Ht Hnd Hall a b Hab.
  assert (a ∈ l) as Ha.
  { apply Hall. destruct Hab as (es & -> & _). done. }
  apply list_elem_of_split in Ha as (l1 & l2 & ->).
  pose proof (Ht l1 a l2 b eq_refl Hab) as Hb.
  apply NoDup_app in Hnd as (_ & Hdisj & Hnd2).
  rewrite index_of_app_notin.
  - destruct (index_of_app_in b l1 (a :: l2) Hb) as [-> ?].
    rewrite length_app. simpl. lia.
  - intros Hin. apply (Hdisj a Hin). set_solver.
Qed.
End Graph_facts.

Section Order_facts.
Context {A : Type}.
Implicit Types g : DepGraph.t A.
Import DepGraph.

Lemma overallOrder_unfold g lo l :
  overallOrder g lo = Some l →
  (keys g = [] ∧ l = []) ∨
  ∃ st1 st2,
    foldM (DFS (fuelOf g) (outgoingEdges g) false []) (keys g) ([], []) = Some st1 ∧
    foldM (DFS (fuelOf g) (outgoingEdges g) lo [])
      (filter (λ n, incomingEdges g n = Some []) (keys g)) ([], []) = Some st2 ∧
    l = st2.2.
Proof.
  unfold overallOrder. destruct (keys g) as [|k ks] eqn:Hk.
  { intros; simplify_eq. by left. }
  destruct (foldM _ (k :: ks) _) as [st1|] eqn:H1; [|done].
  destruct (foldM _ (filter _ (k :: ks)) _) as [st2|] eqn:H2; [|done].
  intros; simplify_eq/=. right. by exists st1, st2.
Qed.

(** A successful first walk yields a rank that decreases along the
    dependency edges. *)
Lemma overallOrder_rank g lo l :
  overallOrder g lo = Some l →
  ∃ m : string → nat,
    (∀ a b, edge (outgoingEdges g) a b → m b < m a) ∧
    (∀ a, a ∈ keys g → m a < length g).
Proof.
  intros [[Hk _]|(st1 & _ & H1 & _)]%overallOrder_unfold.
  { exists (λ _, 0). split.
    - intros a b (es & Ha & _).
      assert (a ∈ keys g) as Hin by (apply outgoingEdges_is_Some; by rewrite Ha).
      rewrite Hk in Hin. set_solver.
    - rewrite Hk. set_solver. }
  apply foldM_DFS_post in H1 as (Hg & _ & Hroots & Hnew).
  destruct (Hg (good_init _ _)) as (_ & Hnd & Hdom & Hres & Htopo).
  specialize (Htopo eq_refl).
  assert (∀ x, x ∈ st1.2 ↔ x ∈ keys g) as Hall.
  { intros x. rewrite Hres. split.
    - intros [Hx _]. apply outgoingEdges_is_Some. by apply Hdom.
    - intros Hx. split; [by apply Hroots|done]. }
  assert (length st1.2 ≤ length g) as Hlen.
  { rewrite <- (length_fmap name g). fold (keys g).
    apply submseteq_length, NoDup_submseteq; [done|]. intros x. apply Hall. }
  exists (λ x, index_of x st1.2). split.
  - intros a b Hab. eapply topo_dag; [done|done| |done].
    intros x Hx. apply Hall. by apply outgoingEdges_is_Some.
  - intros a Ha. apply Hall in Ha.
    apply list_elem_of_split in Ha as (l1 & l2 & Heq).
    destruct (decide (a ∈ l1)) as [Hin|Hnin].
    + rewrite Heq in *. destruct (index_of_app_in a l1 (a :: l2) Hin) as [-> ?].
      rewrite length_app in Hlen. lia.
    + rewrite Heq in *. rewrite index_of_app_notin by done.
      rewrite length_app in Hlen. simpl in Hlen. lia.
Qed.

Lemma overallOrder_spec g lo l :
  wf g → overallOrder g lo = Some l →
  NoDup l ∧
  (∀ x, x ∈ l ↔ x ∈ keys g ∧ (lo = true → outgoingEdges g x = Some [])) ∧
  (lo = false → topo (outgoingEdges g) l).
Proof.
  intros Hwf Ho.
  destruct (overallOrder_rank g lo l Ho) as (m & Hm & Hbound).
  apply overallOrder_unfold in Ho as [[Hk ->]|(_ & st2 & _ & H2 & ->)].
  { split_and!; [apply NoDup_nil_2|rewrite Hk; set_solver|].
    intros _ l1 a l2 b Heq. by destruct l1. }
  apply foldM_DFS_post in H2 as (Hg & _ & Hroots & Hnew).
  destruct (Hg (good_init _ _)) as (Hcl & Hnd & Hdom & Hres & Htopo).
  assert (∀ k x, x ∈ keys g → length g - m x ≤ k → x ∈ st2.1) as Hall.
  { induction k as [|k IH]; intros x Hx Hk.
    { specialize (Hbound x Hx). lia. }
    apply incomingEdges_is_Some in Hx as Hi. destruct Hi as [ps Hps].
    destruct ps as [|p ps].
    - apply Hroots. apply list_elem_of_filter. done.
    - assert (edge (incomingEdges g) x p) as Hxp by (exists (p :: ps); set_solver).
      apply wf_in in Hxp; [|done].
      destruct (edge_out_keys g p x Hwf Hxp) as [Hp _].
      apply (Hcl p x); [|done]. apply IH; [done|].
      specialize (Hm _ _ Hxp). specialize (Hbound p Hp). lia. }
  split_and!; [done| |done].
  intros x. rewrite Hres. split.
  - intros [Hx ?]. split; [|done]. apply outgoingEdges_is_Some. by apply Hdom.
  - intros [Hx ?]. split; [|done]. by apply (Hall (length g)); [|lia].
Qed.
End Order_facts.

Section Deps_facts.
Context {A : Type}.
Implicit Types g : DepGraph.t A.
Import DepGraph.

Lemma closed_rtc (E : string → option (list string)) V a b :
  closed E V → a ∈ V → rtc (edge E) a b → b ∈ V.
Proof. intros Hc Ha Hab. induction Hab; [done|]. eauto. Qed.

Lemma DFS_single_spec (E : string → option (list string)) fuel n st l :
  DFS fuel E false [] n ([], []) = Some st → l = remove_first n st.2 →
  NoDup l ∧ ∀ x, x ∈ l ↔ rtc (edge E) n x ∧ x ≠ n.
Proof.
  intros (Hg & _ & Hroots & Hnew)%DFS_post ->.
  destruct (Hg (good_init _ _)) as (Hcl & Hnd & Hdom & Hres & _).
  rewrite remove_first_NoDup by done. split; [by apply NoDup_filter|].
  intros x. rewrite list_elem_of_filter, Hres. split.
  - intros (Hne & Hx & _). split; [|done].
    destruct (Hnew x Hx) as [?|[(r & ->%list_elem_of_singleton & ?) _]]; [set_solver|done].
  - intros [Hr Hne]. split_and!; [done| |done].
    eapply closed_rtc; [done| |done]. apply Hroots. set_solver.
Qed.

Lemma dependenciesOf_spec g n l :
  dependenciesOf g n = Some l →
  n ∈ keys g ∧ NoDup l ∧ ∀ x, x ∈ l ↔ rtc (edge (outgoingEdges g)) n x ∧ x ≠ n.
Proof.
  unfold dependenciesOf. destruct (hasNode g n) eqn:Hn; [|done].
  apply hasNode_true in Hn.
  destruct (DFS _ _ _ _ _ _) as [st|] eqn:Hd; [|done]. intros [= <-].
  split; [done|]. eapply DFS_single_spec; [exact Hd|done].
Qed.

Lemma dependantsOf_spec g n l :
  dependantsOf g n = Some l →
  n ∈ keys g ∧ NoDup l ∧ ∀ x, x ∈ l ↔ rtc (edge (incomingEdges g)) n x ∧ x ≠ n.
Proof.
  unfold dependantsOf. destruct (hasNode g n) eqn:Hn; [|done].
  apply hasNode_true in Hn.
  destruct (DFS _ _ _ _ _ _) as [st|] eqn:Hd; [|done]. intros [= <-].
  split; [done|]. eapply DFS_single_spec; [exact Hd|done].
Qed.

Lemma dag_incoming g :
  wf g → dag (outgoingEdges g) → dag (incomingEdges g).
Proof.
  intros Hwf [m Hm]. set (B := max_list (m <$> keys g)).
  exists (λ x, B - m x). intros a b Hab.
  apply wf_in in Hab; [|done]. specialize (Hm _ _ Hab).
  destruct (edge_out_keys g b a Hwf Hab) as [Hb _].
  assert (m b ≤ B); [|lia].
  apply max_list_elem_of_le. by apply list_elem_of_fmap_2.
Qed.

Lemma overallOrder_dag g lo l : overallOrder g lo = Some l → dag (outgoingEdges g).
Proof. intros (m & Hm & _)%overallOrder_rank. by exists m. Qed.

Lemma length_keys g : length (keys g) = length g.
Proof. apply length_fmap. Qed.

Lemma DFS_out_total g lo n st :
  wf g → dag (outgoingEdges g) → n ∈ keys g →
  is_Some (DFS (fuelOf g) (outgoingEdges g) lo [] n st).
Proof.
  intros Hwf [m Hm] Hn. apply (DFS_total _ lo m (keys g)).
  - done.
  - intros x. apply outgoingEdges_is_Some.
  - intros a b Hab. apply outgoingEdges_is_Some.
    by destruct (edge_out_keys g a b Hwf Hab).
  - by apply outgoingEdges_is_Some.
  - apply NoDup_nil_2.
  - set_solver.
  - unfold fuelOf. rewrite length_keys. simpl. lia.
Qed.

Lemma DFS_in_total g lo n st :
  wf g → dag (outgoingEdges g) → n ∈ keys g →
  is_Some (DFS (fuelOf g) (incomingEdges g) lo [] n st).
Proof.
  intros Hwf Hdag Hn. destruct (dag_incoming g Hwf Hdag) as [m Hm].
  apply (DFS_total _ lo m (keys g)).
  - done.
  - intros x. apply incomingEdges_is_Some.
  - intros a b Hab. apply incomingEdges_is_Some.
    apply wf_in in Hab; [|done]. by destruct (edge_out_keys g b a Hwf Hab).
  - by apply incomingEdges_is_Some.
  - apply NoDup_nil_2.
  - set_solver.
  - unfold fuelOf. rewrite length_keys. simpl. lia.
Qed.

Lemma overallOrder_total g lo :
  wf g → dag (outgoingEdges g) → is_Some (overallOrder g lo).
Proof.
  intros Hwf Hdag. unfold overallOrder. change (@Js.inherited ownProperties) with (@nil string).
  destruct (keys g) as [|k ks] eqn:Hk; [done|].
  rewrite <- Hk.
  destruct (foldM_is_Some (DFS (fuelOf g) (outgoingEdges g) false []) (keys g) ([], []))
    as [st1 ->].
  { intros a t Ha. by apply DFS_out_total. }
  destruct (foldM_is_Some (DFS (fuelOf g) (outgoingEdges g) lo [])
              (filter (λ n, incomingEdges g n = Some []) (keys g)) ([], []))
    as [st2 ->]; [|done].
  intros a t [_ Ha]%list_elem_of_filter. by apply DFS_out_total.
Qed.

Lemma dependenciesOf_total g n :
  wf g → dag (outgoingEdges g) → n ∈ keys g → is_Some (dependenciesOf g n).
Proof.
  intros Hwf Hdag Hn. unfold dependenciesOf. change (@Js.inherited ownProperties) with (@nil string).
  rewrite (proj2 (hasNode_true g n) Hn).
  destruct (DFS_out_total g false n ([], []) Hwf Hdag Hn) as [st ->]. done.
Qed.

Lemma dependantsOf_total g n :
  wf g → dag (outgoingEdges g) → n ∈ keys g → is_Some (dependantsOf g n).
Proof.
  intros Hwf Hdag Hn. unfold dependantsOf. change (@Js.inherited ownProperties) with (@nil string).
  rewrite (proj2 (hasNode_true g n) Hn).
  destruct (DFS_in_total g false n ([], []) Hwf Hdag Hn) as [st ->]. done.
Qed.
End Deps_facts.

Section Restrict_facts.
Context {A : Type}.
Implicit Types g : DepGraph.t A.
Import DepGraph.

Lemma keys_restrict g R : keys (restrict g R) = filter (λ n, n ∉ R) (keys g).
Proof.
  unfold keys, restrict. induction g as [|e g IH]; [done|].
  rewrite fmap_cons. destruct (decide (name e ∈ R)).
  - rewrite (filter_cons_False (λ e : node A, name e ∉ R)) by naive_solver.
    rewrite (filter_cons_False (λ n : string, n ∉ R)) by naive_solver. apply IH.
  - rewrite (filter_cons_True (λ e : node A, name e ∉ R)) by naive_solver.
    rewrite (filter_cons_True (λ n : string, n ∉ R)) by naive_solver.
    rewrite !fmap_cons. simpl. f_equal. apply IH.
Qed.

Lemma elem_of_restrict g R e' :
  e' ∈ restrict g R ↔ ∃ e, e ∈ g ∧ (name e ∉ R) ∧ e' = restrict_node R e.
Proof.
  unfold restrict. rewrite list_elem_of_fmap. split.
  - intros (e & -> & [? ?]%list_elem_of_filter). by exists e.
  - intros (e & ? & ? & ->). exists e. split; [done|]. by apply list_elem_of_filter.
Qed.

Lemma getNode_restrict g R n :
  getNode (restrict g R) n =
  if decide (n ∈ R) then None else restrict_node R <$> getNode g n.
Proof.
  unfold restrict. induction g as [|e g IH].
  { simpl. by destruct (decide (n ∈ R)). }
  destruct (decide (name e ∈ R)) as [HR|HR].
  - rewrite (filter_cons_False (λ e : node A, name e ∉ R)) by naive_solver.
    rewrite IH. simpl. destruct (decide (n ∈ R)); [done|].
    rewrite decide_False; [done|]. congruence.
  - rewrite (filter_cons_True (λ e : node A, name e ∉ R)) by naive_solver.
    rewrite fmap_cons. simpl.
    destruct (decide (name e = n)) as [<-|Hne].
    + by rewrite decide_False.
    + apply IH.
Qed.

Lemma restrict_nil g : restrict g [] = g.
Proof.
  unfold restrict. induction g as [|e g IH]; [done|].
  rewrite filter_cons_True by set_solver. rewrite fmap_cons, IH. f_equal.
  destruct e as [n d o i]. unfold restrict_node. simpl. f_equal.
  - induction o as [|x o IHo]; [done|].
    rewrite filter_cons_True by set_solver. by rewrite IHo.
  - induction i as [|x i IHi]; [done|].
    rewrite filter_cons_True by set_solver. by rewrite IHi.
Qed.

Lemma wf_restrict g R : wf g → wf (restrict g R).
Proof.
  intros [Hnd Hwf]. split.
  { rewrite keys_restrict. by apply NoDup_filter. }
  rewrite Forall_forall in Hwf. apply Forall_forall.
  intros e' (e & He & HR & ->)%elem_of_restrict.
  destruct (Hwf e He) as (Ho & Hi & Hout & Hin). simpl.
  split_and!; [by apply NoDup_filter|by apply NoDup_filter| |].
  - apply Forall_forall. intros d [Hd Hdo]%list_elem_of_filter.
    rewrite Forall_forall in Hout. specialize (Hout d Hdo).
    apply Exists_exists in Hout as (e0 & He0 & <- & Hback).
    apply Exists_exists. exists (restrict_node R e0).
    split_and!; [apply elem_of_restrict; by exists e0|done|].
    simpl. by apply list_elem_of_filter.
  - apply Forall_forall. intros d [Hd Hdo]%list_elem_of_filter.
    rewrite Forall_forall in Hin. specialize (Hin d Hdo).
    apply Exists_exists in Hin as (e0 & He0 & <- & Hback).
    apply Exists_exists. exists (restrict_node R e0).
    split_and!; [apply elem_of_restrict; by exists e0|done|].
    simpl. by apply list_elem_of_filter.
Qed.

Lemma outgoingEdges_restrict g R n :
  outgoingEdges (restrict g R) n =
  if decide (n ∈ R) then None else filter (λ d, d ∉ R) <$> outgoingEdges g n.
Proof.
  unfold outgoingEdges. rewrite getNode_restrict.
  destruct (decide (n ∈ R)); [done|]. by destruct (getNode g n).
Qed.

Lemma edge_restrict g R a b :
  edge (outgoingEdges (restrict g R)) a b ↔
  edge (outgoingEdges g) a b ∧ (a ∉ R) ∧ b ∉ R.
Proof.
  unfold edge. rewrite outgoingEdges_restrict. destruct (decide (a ∈ R)).
  { split; [by intros (? & ? & ?)|tauto]. }
  destruct (outgoingEdges g a) as [es|]; simpl.
  - split.
    + intros (? & [= <-] & [? ?]%list_elem_of_filter). split; [by exists es|done].
    + intros ((? & [= <-] & ?) & _ & ?). eexists. split; [done|].
      by apply list_elem_of_filter.
  - split; [by intros (? & ? & ?)|by intros ((? & ? & ?) & _)].
Qed.

Lemma dag_restrict g R :
  dag (outgoingEdges g) → dag (outgoingEdges (restrict g R)).
Proof.
  intros [m Hm]. exists m. intros a b [Hab _]%edge_restrict. by apply Hm.
Qed.

Lemma filter_remove_first (R : list string) n l :
  NoDup l →
  remove_first n (filter (λ d, d ∉ R) l) = filter (λ d, d ∉ n :: R) l.
Proof.
  intros Hnd. rewrite remove_first_NoDup by by apply NoDup_filter.
  rewrite list_filter_filter. apply list_filter_iff. set_solver.
Qed.

Lemma removeNode_restrict g R n :
  wf g → n ∈ keys g → n ∉ R →
  removeNode (restrict g R) n = restrict g (n :: R).
Proof.
  intros [Hnd Hwf] Hn HR. unfold removeNode.
  rewrite (proj2 (hasNode_true _ n)).
  2:{ rewrite keys_restrict. by apply list_elem_of_filter. }
  assert (Forall (λ e, NoDup (outgoing e) ∧ NoDup (incoming e)) g) as Hl.
  { eapply Forall_impl; [exact Hwf|]. naive_solver. }
  unfold restrict. clear Hn Hnd Hwf.
  induction g as [|e g IH]; [done|].
  apply Forall_cons in Hl as [(Ho & Hi) Hl].
  destruct (decide (name e ∈ R)) as [HeR|HeR].
  { rewrite (filter_cons_False (λ e : node A, name e ∉ R)) by naive_solver.
    rewrite (filter_cons_False (λ e : node A, name e ∉ n :: R)) by set_solver.
    by apply IH. }
  rewrite (filter_cons_True (λ e : node A, name e ∉ R)) by naive_solver.
  rewrite fmap_cons. destruct (decide (name e = n)) as [Hen|Hen].
  - rewrite filter_cons_False by (simpl; naive_solver).
    rewrite (filter_cons_False (λ e : node A, name e ∉ n :: R)) by set_solver.
    by apply IH.
  - rewrite filter_cons_True by (simpl; naive_solver).
    rewrite (filter_cons_True (λ e : node A, name e ∉ n :: R)) by set_solver.
    rewrite !fmap_cons. rewrite IH by done. f_equal.
    unfold restrict_node. simpl. by rewrite !filter_remove_first.
Qed.

Lemma removeDependency_keys g d n : keys (removeDependency g d n) = keys g.
Proof.
  unfold keys, removeDependency. rewrite <- list_fmap_compose.
  apply list_fmap_ext. intros _ e _. simpl.
  destruct (decide (name e = d)); simpl; destruct (decide (name e = n)); done.
Qed.

Lemma remove_first_NoDup_preserved x l : NoDup l → NoDup (remove_first x l).
Proof. intros H. rewrite remove_first_NoDup by done. by apply NoDup_filter. Qed.

Lemma remove_first_twice x l : NoDup l → remove_first x (remove_first x l) = remove_first x l.
Proof.
  intros H. apply remove_first_notin. rewrite remove_first_NoDup by done.
  rewrite list_elem_of_filter. naive_solver.
Qed.

Lemma removeDependency_NoDup g d n :
  Forall (λ e, NoDup (outgoing e)) g →
  Forall (λ e, NoDup (outgoing e)) (removeDependency g d n).
Proof.
  intros Hnd. unfold removeDependency. apply Forall_fmap.
  eapply Forall_impl; [exact Hnd|]. intros e He. simpl.
  destruct (decide (name e = d)); simpl; destruct (decide (name e = n)); simpl;
    try done; by apply remove_first_NoDup_preserved.
Qed.

Lemma removeNode_removeDependency g d n :
  n ∈ keys g → Forall (λ e, NoDup (outgoing e)) g →
  removeNode (removeDependency g d n) n = removeNode g n.
Proof.
  intros Hn Hnd. unfold removeNode.
  rewrite !(proj2 (hasNode_true _ n)) by by rewrite ?removeDependency_keys.
  clear Hn. unfold removeDependency. induction g as [|e g IH]; [done|].
  apply Forall_cons in Hnd as [He Hnd]. rewrite fmap_cons.
  destruct (decide (name e = n)) as [Hen|Hen].
  - rewrite (filter_cons_False _ e) by naive_solver.
    rewrite filter_cons_False; [by apply IH|].
    simpl. destruct (decide (name e = d)); simpl; rewrite decide_True by done;
      simpl; naive_solver.
  - rewrite (filter_cons_True _ e) by naive_solver.
    rewrite filter_cons_True.
    2:{ simpl. destruct (decide (name e = d)); simpl;
          rewrite decide_False by done; done. }
    rewrite !fmap_cons. f_equal; [|by apply IH].
    simpl. destruct (decide (name e = d)); simpl; rewrite decide_False by done;
      [|done].
    simpl. by rewrite remove_first_twice.
Qed.

Lemma removeNode_foldl_removeDependency n ds : ∀ g,
  n ∈ keys g → Forall (λ e, NoDup (outgoing e)) g →
  removeNode (foldl (λ g' d, removeDependency g' d n) g ds) n = removeNode g n.
Proof.
  induction ds as [|d ds IH]; intros g Hn Hnd; [done|]. simpl.
  rewrite IH.
  - by apply removeNode_removeDependency.
  - by rewrite removeDependency_keys.
  - by apply removeDependency_NoDup.
Qed.

Lemma wf_NoDup_outgoing g : wf g → Forall (λ e, NoDup (outgoing e)) g.
Proof. intros [_ Hwf]. eapply Forall_impl; [exact Hwf|]. naive_solver. Qed.
End Restrict_facts.
End GraphFacts.

(** * Facts about the scheduler *)

Module SchedulerFacts.
Import GraphSpec GraphWf Scheduler SchedulerSpec SchedulerExamples GraphFacts.

(** ** The results map *)

Section Map_facts.
Implicit Types m : ResultsMap.

Lemma map_get_Some m k v : map_get m k = Some v → (k, v) ∈ m.
Proof.
  induction m as [|[k' v'] m IH]; simpl; [done|].
  destruct (decide (k' = k)) as [->|]; [intros [= ->]; set_solver|].
  intros H. apply IH in H. set_solver.
Qed.

Lemma map_get_None m k : map_get m k = None ↔ k ∉ m.*1.
Proof.
  induction m as [|[k' v'] m IH]; simpl; [set_solver|].
  destruct (decide (k' = k)) as [->|]; [set_solver|]. rewrite IH. set_solver.
Qed.

Lemma map_get_is_Some m k : is_Some (map_get m k) ↔ k ∈ m.*1.
Proof.
  rewrite <- not_eq_None_Some, map_get_None. destruct (decide (k ∈ m.*1)); tauto.
Qed.

Lemma map_get_elem m k v : NoDup m.*1 → (k, v) ∈ m → map_get m k = Some v.
Proof.
  induction m as [|[k' v'] m IH]; csimpl; [set_solver|].
  intros [Hk Hnd]%NoDup_cons [[= -> ->]|Hin]%elem_of_cons.
  - by rewrite decide_True.
  - rewrite decide_False; [by apply IH|].
    intros ->. apply Hk. apply list_elem_of_fmap. by exists (k, v).
Qed.

Lemma map_set_fresh m k v : k ∉ m.*1 → map_set m k v = m ++ [(k, v)].
Proof.
  induction m as [|[k' v'] m IH]; simpl; [done|].
  intros [? ?]%not_elem_of_cons. rewrite decide_False by done. by rewrite IH.
Qed.

Lemma map_set_keys m k v : k ∈ m.*1 → (map_set m k v).*1 = m.*1.
Proof.
  induction m as [|[k' v'] m IH]; csimpl; [set_solver|].
  destruct (decide (k' = k)) as [->|]; [done|].
  intros [?|?]%elem_of_cons; [done|]. csimpl. by rewrite IH.
Qed.

Lemma map_get_set m k v k' :
  map_get (map_set m k v) k' = if decide (k = k') then Some v else map_get m k'.
Proof.
  induction m as [|[k0 v0] m IH]; simpl.
  { destruct (decide (k = k')); done. }
  destruct (decide (k0 = k)) as [->|Hne]; simpl.
  - destruct (decide (k = k')); done.
  - destruct (decide (k0 = k')) as [->|]; [by rewrite decide_False|done].
Qed.

Lemma elem_of_map_set m k v k' r :
  (k', r) ∈ map_set m k v → (k', r) ∈ m ∨ (k' = k ∧ r = v).
Proof.
  induction m as [|[k0 v0] m IH]; simpl; [set_solver|].
  destruct (decide (k0 = k)) as [->|Hne]; [set_solver|].
  intros [?|?]%elem_of_cons; [set_solver|]. destruct IH; set_solver.
Qed.

Lemma map_of_entries_NoDup (es : list (string * IntegrationStepResult)) :
  NoDup es.*1 → map_of_entries es = es.
Proof.
  unfold map_of_entries.
  assert (∀ acc, NoDup (acc.*1 ++ es.*1) →
            foldl (λ m e, map_set m e.1 e.2) acc es = acc ++ es) as Hgen.
  { induction es as [|[k v] es IH]; intros acc Hnd; simpl.
    { by rewrite app_nil_r. }
    rewrite map_set_fresh.
    - rewrite IH; [by rewrite <- app_assoc|].
      rewrite fmap_app. simpl. by rewrite <- app_assoc.
    - apply NoDup_app in Hnd as (_ & Hd & _). intros Hk. apply (Hd k Hk). set_solver. }
  intros Hnd. apply (Hgen []). done.
Qed.
End Map_facts.

Section Start_facts.
Local Set Default Proof Using "All".
Variable G : DepGraph.t Step.
Variable S : gmap string StepStartState.
Hypothesis Hwf : wf G.
Hypothesis Hid : keyed_by_id G.
Local Abbreviation seed := (SchedulerSpec.seed S).

Lemma getNodeData_id s step :
  DepGraph.getNodeData G s = Some step → id step = s ∧ s ∈ DepGraph.keys G.
Proof.
  unfold DepGraph.getNodeData. destruct (DepGraph.getNode G s) as [e|] eqn:He; [|done].
  intros [= <-]. apply getNode_Some in He as [He <-].
  unfold keyed_by_id in Hid. rewrite Forall_forall in Hid. split; [by apply Hid|].
  by apply list_elem_of_fmap_2.
Qed.

Lemma buildStepResult_spec s r :
  buildStepResult G S s = Some r →
  r_id r = s ∧ s ∈ DepGraph.keys G ∧ is_Some (S !! s) ∧
  ∃ deps, DepGraph.dependenciesOf G s = Some deps ∧
          (∀ d, d ∈ deps → is_Some (S !! d)) ∧
          status r = seed deps s.
Proof.
  unfold buildStepResult.
  destruct (DepGraph.getNodeData G s) as [step|] eqn:Hstep; [|done]. simpl.
  apply getNodeData_id in Hstep as [Hids Hs]. rewrite Hids.
  destruct (DepGraph.dependenciesOf G s) as [deps|] eqn:Hdeps; [|done]. simpl.
  destruct (mapM _ deps) as [depStates|] eqn:HdS; [|done]. simpl.
  destruct (S !! s) as [ss|] eqn:Hss; [|done]. simpl.
  destruct (getDeclaredTypesInStep step) as [declared partials].
  intros [= <-]. simpl. split_and!; [done..|].
  exists deps. apply mapM_Some in HdS. split_and!; [done| |].
  - intros d Hd. apply list_elem_of_lookup in Hd as [i Hi].
    destruct (Forall2_lookup_l _ _ _ _ _ HdS Hi) as (x & _ & ->). done.
  - unfold SchedulerSpec.seed, disabled_truthy at 1. rewrite Hss.
    assert (bool_decide (0 < length (filter (λ ss, Js.truthy (disabled ss) = true)
                                        depStates))
            = existsb (disabled_truthy S) deps) as ->; [|done].
    clear Hdeps. induction HdS as [|d x deps depStates Hd HdS IH]; [done|].
    simpl. unfold disabled_truthy at 1. rewrite Hd.
    destruct (Js.truthy (disabled x)) eqn:Ht.
    + rewrite filter_cons_True by done. simpl. done.
    + rewrite filter_cons_False by (rewrite Ht; done). by rewrite IH.
Qed.

Lemma buildStepResultsMap_spec m0 :
  buildStepResultsMap G S = Some m0 →
  ∃ order,
    DepGraph.overallOrder G false = Some order ∧ m0.*1 = order ∧ NoDup order ∧
    (∀ s, s ∈ order ↔ s ∈ DepGraph.keys G) ∧
    (∀ k r, (k, r) ∈ m0 → r_id r = k) ∧
    (∀ s, s ∈ DepGraph.keys G →
          is_Some (S !! s) ∧
          ∃ r deps, map_get m0 s = Some r ∧
                    DepGraph.dependenciesOf G s = Some deps ∧
                    (∀ d, d ∈ deps → is_Some (S !! d)) ∧
                    status r = seed deps s).
Proof.
  unfold buildStepResultsMap.
  destruct (DepGraph.overallOrder G false) as [order|] eqn:Ho; [|done]. simpl.
  destruct (mapM _ order) as [results|] eqn:Hr; [|done]. simpl.
  intros [= <-]. exists order.
  destruct (overallOrder_spec G false order Hwf Ho) as (Hnd & Hall & _).
  apply mapM_Some in Hr.
  assert (((λ r, (r_id r, r)) <$> results).*1 = order) as Hkeys.
  { clear Ho Hnd Hall. induction Hr as [|s r order results Hs Hr IH]; [done|].
    csimpl. rewrite IH. f_equal. by apply buildStepResult_spec in Hs as [-> _]. }
  rewrite map_of_entries_NoDup by by rewrite Hkeys.
  split_and!; [done|done|done|naive_solver| |].
  - intros k r (r' & [= -> ->] & _)%list_elem_of_fmap. done.
  - intros s Hs. assert (s ∈ order) as Hso by (apply Hall; done).
    apply list_elem_of_lookup in Hso as [i Hi].
    destruct (Forall2_lookup_l _ _ _ _ _ Hr Hi) as (r & Hri & Hb).
    apply buildStepResult_spec in Hb as (Hrid & Hk & HS & deps & Hd & HdS & Hst).
    split; [done|]. exists r, deps. split_and!; [|done..].
    apply map_get_elem; [by rewrite Hkeys|].
    apply list_elem_of_fmap. exists r. split; [by rewrite Hrid|].
    by eapply list_elem_of_lookup_2.
Qed.
End Start_facts.

Section Enqueue_facts.
Local Set Default Proof Using "All".
Variable G : DepGraph.t Step.
Variable S : gmap string StepStartState.
Variable m0 : ResultsMap.
Hypothesis Hwf : wf G.
Hypothesis Hid : keyed_by_id G.
Hypothesis Hstart : buildStepResultsMap G S = Some m0.

Lemma start_dag : dag (DepGraph.outgoingEdges G).
Proof.
  destruct (buildStepResultsMap_spec G S Hwf Hid m0 Hstart) as (order & Ho & _).
  by eapply overallOrder_dag.
Qed.

Lemma isStepEnabled_total s :
  s ∈ DepGraph.keys G → is_Some (isStepEnabled S s).
Proof.
  destruct (buildStepResultsMap_spec G S Hwf Hid m0 Hstart) as (_ & _ & _ & _ & _ & _ & H).
  intros Hs. destruct (H s Hs) as [[ss Hss] _].
  unfold isStepEnabled. rewrite Hss. done.
Qed.

Lemma stepDependenciesAreComplete_total m s :
  s ∈ DepGraph.keys G → is_Some (stepDependenciesAreComplete G m s).
Proof.
  intros Hs. unfold stepDependenciesAreComplete.
  destruct (dependenciesOf_total G s Hwf start_dag Hs) as [deps ->]. done.
Qed.

Lemma removeStep_restrict R n :
  n ∈ DepGraph.keys G → n ∉ R →
  removeStepFromWorkingGraph (restrict G R) n = Some (restrict G (n :: R)).
Proof.
  intros Hn HR. unfold removeStepFromWorkingGraph.
  assert (n ∈ DepGraph.keys (restrict G R)) as Hn'.
  { rewrite keys_restrict. by apply list_elem_of_filter. }
  destruct (dependantsOf_total (restrict G R) n (wf_restrict _ _ Hwf)
              (dag_restrict _ _ start_dag) Hn') as [ds ->].
  simpl. f_equal. rewrite removeNode_foldl_removeDependency.
  - by apply removeNode_restrict.
  - done.
  - by apply wf_NoDup_outgoing, wf_restrict.
Qed.

Lemma getNodeData_restrict R n :
  n ∉ R → DepGraph.getNodeData (restrict G R) n = DepGraph.getNodeData G n.
Proof.
  intros HR. unfold DepGraph.getNodeData. rewrite getNode_restrict.
  rewrite decide_False by done. by destruct (DepGraph.getNode G n).
Qed.

Lemma getNodeData_total n :
  n ∈ DepGraph.keys G → is_Some (DepGraph.getNodeData G n).
Proof. intros Hn. unfold DepGraph.getNodeData. by apply fmap_is_Some, getNode_is_Some. Qed.

Lemma enqueueLeaves_spec leaves : ∀ st R,
  workingGraph st = restrict G R → NoDup leaves →
  (∀ l, l ∈ leaves → l ∈ DepGraph.keys G ∧ l ∉ R) →
  ∃ D Ds,
    enqueueLeaves G S st leaves =
      inl (mkState (restrict G (reverse D ++ R)) (stepResultsMap st) (typeTracker st)
             (queued st ++ Ds) (inFlight st) (isPaused st) (settled st) (log st)) ∧
    Forall2 (λ l step, DepGraph.getNodeData G l = Some step) D Ds ∧ NoDup D ∧
    (∀ l, l ∈ D ↔ l ∈ leaves ∧ isStepEnabled S l = Some true ∧
                   stepDependenciesAreComplete G (stepResultsMap st) l = Some true).
Proof.
  induction leaves as [|l leaves IH]; intros st R Hwg Hnd Hl.
  { exists [], []. simpl. rewrite app_nil_r, <- Hwg. destruct st.
    split_and!; [done|done|apply NoDup_nil_2|]. set_solver. }
  apply NoDup_cons in Hnd as [Hlnotin Hnd].
  destruct (Hl l) as [Hlk HlR]; [set_solver|].
  simpl. unfold enqueueLeafStep. rewrite Hwg, getNodeData_restrict by done.
  destruct (getNodeData_total l Hlk) as [step Hstep]. rewrite Hstep.
  destruct (isStepEnabled_total l Hlk) as [en Hen]. rewrite Hen.
  destruct en.
  2:{ destruct (IH st R Hwg Hnd) as (D & Ds & HE & HF & HDn & HD); [set_solver|].
      exists D, Ds. split_and!; [done|done|done|].
      intros x. rewrite HD. split; [set_solver|].
      intros ([->|?]%elem_of_cons & ? & ?); [congruence|done]. }
  destruct (stepDependenciesAreComplete_total (stepResultsMap st) l Hlk) as [dc Hdc].
  rewrite Hdc. destruct dc.
  2:{ destruct (IH st R Hwg Hnd) as (D & Ds & HE & HF & HDn & HD); [set_solver|].
      exists D, Ds. split_and!; [done|done|done|].
      intros x. rewrite HD. split; [set_solver|].
      intros ([->|?]%elem_of_cons & ? & ?); [congruence|done]. }
  rewrite removeStep_restrict by done.
  edestruct (IH (mkState (restrict G (l :: R)) (stepResultsMap st) (typeTracker st)
              (queued st ++ [step]) (inFlight st) (isPaused st) (settled st) (log st))
              (l :: R)) as (D & Ds & HE & HF & HDn & HD); [done|done|set_solver|].
  exists (l :: D), (step :: Ds). simpl in *. rewrite HE. split_and!.
  - f_equal. f_equal; [|by rewrite <- app_assoc].
    by rewrite reverse_cons, <- app_assoc.
  - by constructor.
  - apply NoDup_cons. split; [|done]. rewrite HD. tauto.
  - intros x. rewrite elem_of_cons, HD. split; [|set_solver].
    intros [->|?]; [|set_solver]. set_solver.
Qed.
End Enqueue_facts.

Lemma filter_nil_Forall {A} (P : A → Prop) `{∀ x, Decision (P x)} (l : list A) :
  Forall (λ x, ¬ P x) l → filter P l = [].
Proof.
  induction 1 as [|x l Hx Hl IH]; [done|]. by rewrite filter_cons_False.
Qed.

Section Pass_facts.
Local Set Default Proof Using "All".
Variable G : DepGraph.t Step.
Variable S : gmap string StepStartState.
Variable m0 : ResultsMap.
Hypothesis Hwf : wf G.
Hypothesis Hid : keyed_by_id G.
Hypothesis Hstart : buildStepResultsMap G S = Some m0.

Local Abbreviation E := (DepGraph.outgoingEdges G).

Lemma leaves_spec R leaves :
  DepGraph.overallOrder (restrict G R) true = Some leaves →
  NoDup leaves ∧
  ∀ x, x ∈ leaves ↔ x ∈ DepGraph.keys G ∧ (x ∉ R) ∧ (∀ d, edge E x d → d ∈ R).
Proof.
  intros Ho.
  destruct (overallOrder_spec _ _ _ (wf_restrict G R Hwf) Ho) as (Hnd & Hall & _).
  split; [done|]. intros x. rewrite Hall, keys_restrict, list_elem_of_filter.
  rewrite outgoingEdges_restrict. split.
  - intros [[HR Hk] Hleaf]. split_and!; [done..|].
    specialize (Hleaf eq_refl). rewrite decide_False in Hleaf by done.
    intros d (es & Hes & Hd). rewrite Hes in Hleaf. simpl in Hleaf.
    destruct (decide (d ∈ R)) as [|Hn]; [done|].
    assert (d ∈ filter (λ d, d ∉ R) es) as Hin by by apply list_elem_of_filter.
    injection Hleaf as Hnil. rewrite Hnil in Hin. set_solver.
  - intros (Hk & HR & Hleaf). split; [done|]. intros _.
    rewrite decide_False by done.
    apply outgoingEdges_is_Some in Hk as [es Hes]. rewrite Hes. simpl. f_equal.
    apply filter_nil_Forall. apply Forall_forall. intros d Hd Hn. apply Hn.
    apply Hleaf. by exists es.
Qed.

Lemma deps_in_R (R : list string) s x :
  (∀ a b, a ∈ R → edge E a b → b ∈ R) →
  (∀ d, edge E s d → d ∈ R) → rtc (edge E) s x → x ≠ s → x ∈ R.
Proof.
  intros Hcl Hs Hr Hne. destruct Hr as [|s y x Hsy Hyx]; [done|].
  eapply closed_rtc; [exact Hcl| |done]. by apply Hs.
Qed.

Lemma enabled_not_disabled s :
  isStepEnabled S s = Some true → disabled_truthy S s = false.
Proof.
  unfold isStepEnabled, disabled_truthy. destruct (S !! s) as [ss|]; [|done].
  simpl. intros [= H]. apply bool_decide_eq_true in H. by rewrite H.
Qed.

Lemma seed_pending deps s :
  isStepEnabled S s = Some true →
  (∀ d, d ∈ deps → isStepEnabled S d = Some true) →
  seed S deps s = PENDING_EVALUATION.
Proof.
  intros Hs Hd. unfold seed. rewrite enabled_not_disabled by done. simpl.
  destruct (existsb _ deps) eqn:Hex; [|done].
  apply existsb_exists in Hex as (d & Hdi & Ht).
  rewrite enabled_not_disabled in Ht; [done|]. apply Hd. by apply list_elem_of_In.
Qed.

Lemma dependency_pending m n d :
  edge E n d → status_of m d = Some PENDING_EVALUATION →
  stepDependenciesAreComplete G m n ≠ Some true.
Proof.
  intros Hnd Hst. unfold stepDependenciesAreComplete.
  destruct (DepGraph.dependenciesOf G n) as [deps|] eqn:Hdeps; [|done]. simpl.
  apply dependenciesOf_spec in Hdeps as (_ & _ & Hdeps).
  assert (d ∈ deps) as Hd.
  { apply Hdeps. split; [by apply rtc_once|].
    destruct (start_dag G S m0 Hwf Hid Hstart) as [mr Hm].
    intros ->. specialize (Hm _ _ Hnd). lia. }
  intros [= H]. apply bool_decide_eq_true in H.
  apply length_zero_iff_nil in H.
  assert (map_get m d ∈ filter (λ r, status <$> r = Some PENDING_EVALUATION)
                             (map_get m <$> deps)) as Hin.
  { apply list_elem_of_filter. split; [done|]. by apply list_elem_of_fmap_2. }
  rewrite H in Hin. set_solver.
Qed.
End Pass_facts.

Section Pass_inv.
Local Set Default Proof Using "All".
Variable G : DepGraph.t Step.
Variable S : gmap string StepStartState.
Variable m0 : ResultsMap.
Hypothesis Hwf : wf G.
Hypothesis Hid : keyed_by_id G.
Hypothesis Hstart : buildStepResultsMap G S = Some m0.

Local Abbreviation E := (DepGraph.outgoingEdges G).

Lemma dispatched_ids D Ds :
  Forall2 (λ l step, DepGraph.getNodeData G l = Some step) D Ds → id <$> Ds = D.
Proof.
  induction 1 as [|l step D Ds Hl HF IH]; [done|]. csimpl. rewrite IH. f_equal.
  by apply (getNodeData_id G S Hwf Hid) in Hl as [-> _].
Qed.

Lemma seed_lookup s :
  s ∈ DepGraph.keys G →
  ∃ r deps, map_get m0 s = Some r ∧ DepGraph.dependenciesOf G s = Some deps ∧
            status r = seed S deps s.
Proof.
  intros Hs.
  destruct (buildStepResultsMap_spec G S Hwf Hid m0 Hstart) as (_ & _ & _ & _ & _ & _ & H).
  destruct (H s Hs) as (_ & r & deps & ? & ? & _ & ?). by exists r, deps.
Qed.

Lemma enqueueLeafSteps_Inv st R :
  PreInv G S m0 st R → (∀ v, settled st ≠ Some (Resolved v)) →
  ∃ st' R',
    enqueueLeafSteps G S st = inl st' ∧ Inv G S m0 st' R' ∧
    stepResultsMap st' = stepResultsMap st ∧ typeTracker st' = typeTracker st ∧
    inFlight st' = inFlight st ∧ isPaused st' = isPaused st ∧
    settled st' = settled st ∧ log st' = log st ∧ (∀ s, s ∈ R → s ∈ R').
Proof.
  intros HI Hres. unfold enqueueLeafSteps. destruct (isPaused st) eqn:Hp.
  { exists st, R. split_and!; try done. split; [done|congruence]. }
  destruct HI as [Hwg HRk HRnd HRen HRcl Hmk Hmi Hseed Hact Hactnd Hdata Hdone
                    Hpaused Hresolved Hlog Hphase].
  destruct (overallOrder_total (restrict G R) true (wf_restrict _ _ Hwf)
              (dag_restrict _ _ (start_dag G S m0 Hwf Hid Hstart))) as [leaves Hl].
  rewrite Hwg, Hl. destruct (leaves_spec G S m0 Hwf Hid Hstart R leaves Hl) as [Hlnd Hleaves].
  destruct (enqueueLeaves_spec G S m0 Hwf Hid Hstart leaves st R Hwg Hlnd)
    as (D & Ds & HE & HF & HDnd & HD).
  { intros l Hlin. apply Hleaves in Hlin. tauto. }
  rewrite HE. eexists _, (reverse D ++ R). split; [done|].
  pose proof (dispatched_ids D Ds HF) as HDs.
  assert (∀ s, s ∈ D → s ∈ DepGraph.keys G ∧ (s ∉ R) ∧ (∀ d, edge E s d → d ∈ R) ∧
                       isStepEnabled S s = Some true) as HDprop.
  { intros s Hs. apply HD in Hs as (Hs & ? & ?). apply Hleaves in Hs. tauto. }
  assert (∀ s, s ∈ D →
            status_of (stepResultsMap st) s = Some PENDING_EVALUATION) as HDpend.
  { intros s Hs. destruct (HDprop s Hs) as (Hk & HR & Hout & Hen).
    unfold status_of. rewrite Hseed by done.
    destruct (seed_lookup s Hk) as (r & deps & -> & Hdeps & Hst). simpl.
    rewrite Hst. f_equal.
    apply (seed_pending G S m0 Hwf Hid Hstart); [done|]. intros d Hd. apply HRen.
    apply dependenciesOf_spec in Hdeps as (_ & _ & Hdeps).
    apply Hdeps in Hd as [Hr Hne]. by eapply (deps_in_R G S m0 Hwf Hid Hstart R s d). }
  assert (∀ s, s ∈ reverse D ++ R ↔ s ∈ D ∨ s ∈ R) as Hrev.
  { intros s. by rewrite elem_of_app, elem_of_reverse. }
  assert (∀ s, s ∈ reverse D ↔ s ∈ D) as Hrev' by (intros; apply elem_of_reverse).
  assert (∀ q, (id <$> (queued st ++ Ds)) ++ q ≡ₚ D ++ (id <$> queued st) ++ q)
    as Hperm.
  { intros q. rewrite fmap_app, HDs. rewrite (Permutation_app_comm _ D).
    by rewrite <- app_assoc. }
  split_and!; simpl; try done.
  2:{ intros s. rewrite Hrev. tauto. }
  split.
  - constructor; simpl; try done.
    + intros s [Hs|Hs]%Hrev; [|by apply HRk].
      by destruct (HDprop s Hs) as (? & ? & ? & ?).
    + apply NoDup_app. split_and!; [by rewrite reverse_Permutation| |done].
      intros s Hs%Hrev'. by destruct (HDprop s Hs) as (? & ? & ? & ?).
    + intros s [Hs|Hs]%Hrev; [|by apply HRen].
      by destruct (HDprop s Hs) as (? & ? & ? & ?).
    + intros s d [Hs|Hs]%Hrev Hsd; apply Hrev; right.
      * destruct (HDprop s Hs) as (? & ? & Hout & ?). by apply Hout.
      * by eapply HRcl.
    + intros s Hs. apply Hseed. set_solver.
    + intros s. unfold active. simpl. rewrite Hperm.
      intros [Hs|Hs]%elem_of_app.
      * split; [|by apply HDpend]. apply Hrev. by left.
      * destruct (Hact s Hs). split; [|done]. set_solver.
    + unfold active. simpl. rewrite Hperm. apply NoDup_app. split_and!; [done| |done].
      intros s Hs Hs'. apply Hact in Hs' as [? _].
      by destruct (HDprop s Hs) as (? & ? & ? & ?).
    + intros step. rewrite <- !app_assoc. rewrite !elem_of_app.
      intros [?|[Hst|?]]; [apply Hdata; set_solver| |apply Hdata; set_solver].
      apply list_elem_of_lookup in Hst as [i Hi].
      destruct (Forall2_lookup_r _ _ _ _ _ HF Hi) as (l & _ & Hl').
      by apply (getNodeData_id G S Hwf Hid) in Hl' as Hl''; destruct Hl'' as [-> _].
    + intros _ s [Hs|Hs]%Hrev Hna.
      * exfalso. apply Hna. unfold active. simpl. rewrite Hperm. set_solver.
      * apply (Hdone Hp s Hs). intros Hin. apply Hna.
        unfold active. simpl. rewrite Hperm. set_solver.
    + intros v Hv. by destruct (Hres v).
    + intros ev Hev. apply Hrev. right. by apply Hlog.
  - intros _ n (Hnk & HnR & Hnout & Hnen & Hncomp).
    assert ((n ∉ D) ∧ n ∉ R) as [HnD HnR'] by (rewrite Hrev in HnR; tauto).
    destruct (E n) as [es|] eqn:Hes.
    2:{ apply outgoingEdges_is_Some in Hnk. rewrite Hes in Hnk. by destruct Hnk. }
    destruct (decide (Forall (λ d, d ∈ R) es)) as [Hall|Hex].
    + apply HnD, HD. split_and!; [|done..]. apply Hleaves. split_and!; [done..|].
      intros d (es' & ? & ?). simplify_eq. rewrite Forall_forall in Hall. by apply Hall.
    + apply not_Forall_Exists in Hex; [|apply _].
      apply Exists_exists in Hex as (d & Hd & HdR).
      assert (edge E n d) as Hnd by by exists es.
      eapply (dependency_pending G S m0 Hwf Hid Hstart); [exact Hnd| |exact Hncomp].
      apply HDpend. specialize (Hnout d Hnd).
      apply Hrev in Hnout as [?|?]; done.
Qed.
End Pass_inv.

Section Step_inv.
Local Set Default Proof Using "All".
Variable G : DepGraph.t Step.
Variable S : gmap string StepStartState.
Variable m0 : ResultsMap.
Hypothesis Hwf : wf G.
Hypothesis Hid : keyed_by_id G.
Hypothesis Hstart : buildStepResultsMap G S = Some m0.

Lemma take_task_spec sid r step p rest :
  take_task sid r = Some (step, p, rest) →
  id step = sid ∧ ∃ l1 l2, r = l1 ++ (step, p) :: l2 ∧ rest = l1 ++ l2.
Proof.
  revert rest. induction r as [|[s q] r IH]; intros rest; simpl; [done|].
  destruct (decide (id s = sid)) as [Hs|Hs].
  - intros [= -> -> ->]. split; [done|]. by exists [], rest.
  - destruct (take_task sid r) as [[[s' p'] r'']|] eqn:Ht; [|done]. simpl.
    intros [= -> -> <-]. destruct (IH r'' eq_refl) as (? & l1 & l2 & -> & ->).
    split; [done|]. by exists ((s, q) :: l1), l2.
Qed.

Lemma Inv_init st0 :
  executeStepDependencyGraph G S = Some st0 → ∃ R, Inv G S m0 st0 R.
Proof.
  unfold executeStepDependencyGraph. rewrite Hstart. simpl.
  destruct (enqueueLeafSteps_Inv G S m0 Hwf Hid Hstart
              (mkState (DepGraph.clone G) m0 ∅ [] [] false None []) [])
    as (st' & R' & -> & HI & _); [|done|].
  - constructor; simpl; try done; try set_solver; try apply NoDup_nil_2.
    + unfold DepGraph.clone. by rewrite restrict_nil.
    + by destruct (buildStepResultsMap_spec G S Hwf Hid m0 Hstart)
        as (_ & _ & _ & _ & _ & H & _).
  - intros [= <-]. by exists R'.
Qed.

Lemma executed_cases x :
  executed x ↔ x ∈ [SUCCESS; FAILURE; PARTIAL_SUCCESS_DUE_TO_DEPENDENCY_FAILURE; CACHED].
Proof. unfold executed. set_solver. Qed.

Ltac solve_log :=
  repeat first [ assumption | apply Forall_nil_2
               | apply Forall_cons_2; [reflexivity|] | apply Forall_app_2 ].

Ltac solve_phase :=
  split; [solve_log | intros ? ?; simplify_eq; try (unfold executed; tauto)].

Lemma maybeLogUndeclaredTypes_log tt step :
  Forall (λ ev, log_step ev = id step) (maybeLogUndeclaredTypes tt step).
Proof. unfold maybeLogUndeclaredTypes. case_bool_decide; solve_log. Qed.

Lemma loadCacheForStep_log tt sid run r tt' l :
  loadCacheForStep tt sid run = (r, tt', l) → Forall (λ ev, log_step ev = sid) l.
Proof.
  unfold loadCacheForStep. destruct (cacheError run).
  - intros [= <- <- <-]. solve_log.
  - intros [= <- <- <-]. case_bool_decide; solve_log.
Qed.

Lemma executeStepTry_spec m tt step run r tt' l :
  executeStepTry G S m tt step run = (r, tt', l) →
  Forall (λ ev, log_step ev = id step) l ∧ ∀ x, r = inr x → executed x.
Proof.
  unfold executeStepTry. destruct (hasCachePath S (id step)) as [cached|].
  2:{ intros [= <- <- <-]. solve_phase. }
  destruct (Js.truthy cached).
  - destruct (loadCacheForStep tt (id step) (cacheRun run)) as [[r1 tt1] l1] eqn:Hc.
    apply loadCacheForStep_log in Hc.
    pose proof (maybeLogUndeclaredTypes_log
                  (registerTypes tt1 (id step) (handlerTypes (handlerRun run))) step).
    destruct r1 as [e|x1]; [intros [= <- <- <-]; solve_phase|].
    destruct x1; (destruct (handlerError (handlerRun run));
      [|destruct (stepHasDependencyFailure G m (id step)) as [[]|]]);
      intros [= <- <- <-]; solve_phase.
  - pose proof (maybeLogUndeclaredTypes_log
                  (registerTypes tt (id step) (handlerTypes (handlerRun run))) step).
    destruct (handlerError (handlerRun run));
      [|destruct (stepHasDependencyFailure G m (id step)) as [[]|]];
      intros [= <- <- <-]; solve_phase.
Qed.

Lemma executeStepHandlerPhase_spec m tt step run r tt' l :
  executeStepHandlerPhase G S m tt step run = (r, tt', l) →
  Forall (λ ev, log_step ev = id step) l ∧ ∀ x, r = inr x → executed x.
Proof.
  unfold executeStepHandlerPhase.
  destruct (executeStepTry G S m tt step run) as [[r1 tt1] l1] eqn:Ht.
  apply executeStepTry_spec in Ht as [Hl Hx].
  destruct r1 as [err|x].
  - destruct (fatal err) as [[]|]; intros [= <- <- <-]; solve_phase.
  - intros [= <- <- <-]. split; [done|]. intros ? [= <-]. by apply Hx.
Qed.

Lemma executeStepFlushPhase_spec step x run r l :
  executeStepFlushPhase step x run = (r, l) →
  Forall (λ ev, log_step ev = id step) l ∧
  ∀ x', r = inr x' → executed x → executed x'.
Proof.
  unfold executeStepFlushPhase. destruct (flushError run).
  { intros [= <- <-]. solve_phase. }
  destruct (waitUntilUploadsComplete run) as [[err|]|]; intros [= <- <-];
    solve_phase.
Qed.

(** Transitions that leave the working graph and the results alone. *)
Lemma Inv_same_map st st' R extra :
  Inv G S m0 st R →
  workingGraph st' = workingGraph st →
  stepResultsMap st' = stepResultsMap st →
  active st ≡ₚ extra ++ active st' →
  (isPaused st' = false → extra = [] ∧ isPaused st = false) →
  (∀ step, step ∈ queued st' ++ (inFlight st').*1 →
           step ∈ queued st ++ (inFlight st).*1) →
  (∀ ev, ev ∈ log st' → ev ∈ log st ∨ log_step ev ∈ R) →
  (∀ step x, (step, AwaitingFlush x) ∈ inFlight st' →
             (step, AwaitingFlush x) ∈ inFlight st ∨ executed x) →
  (isPaused st' = true ↔ ∃ e, settled st' = Some (Rejected e)) →
  (∀ v, settled st' = Some (Resolved v) →
        queued st' = [] ∧ inFlight st' = [] ∧
        v = map_values (stepResultsMap st')) →
  Inv G S m0 st' R.
Proof.
  intros [[Hwg HRk HRnd HRen HRcl Hmk Hmi Hseed Hact Hactnd Hdata Hdone
             Hpaused Hresolved Hlog Hphase] Hready]
    Ewg Em Eact Ep Etasks Elog Ephase Epaused Eres.
  assert (∀ s, s ∈ active st' → s ∈ active st) as Hsub.
  { intros s Hs. rewrite Eact. set_solver. }
  split.
  - constructor; rewrite ?Ewg, ?Em; try done.
    + intros s Hs. by apply Hact, Hsub.
    + rewrite Eact in Hactnd. by apply NoDup_app in Hactnd as (_ & _ & ?).
    + intros step Hstep. by apply Hdata, Etasks.
    + intros Hp s Hs Hna. destruct (Ep Hp) as [-> Hp']. apply (Hdone Hp' s Hs).
      by rewrite Eact.
    + intros v Hv. rewrite <- Em. by apply Eres.
    + intros ev [?|?]%Elog; [by apply Hlog|done].
    + intros step x [?|?]%Ephase; [by eapply Hphase|done].
  - intros Hp. rewrite Em. destruct (Ep Hp) as [_ Hp']. by apply Hready.
Qed.

Lemma active_tasks st step :
  step ∈ queued st ++ (inFlight st).*1 → id step ∈ active st.
Proof.
  unfold active. rewrite !elem_of_app. intros [?|Hs]; [left|right].
  - by apply list_elem_of_fmap_2.
  - apply list_elem_of_fmap in Hs as ([s p] & -> & Hin).
    apply list_elem_of_fmap. by exists (s, p).
Qed.

Lemma Inv_next st R ev st' :
  Inv G S m0 st R → next G S st ev = Some st' →
  ∃ R', Inv G S m0 st' R' ∧ ∀ s, s ∈ R → s ∈ R'.
Proof.
  intros HI Hnext. pose proof HI as [HP Hready].
  destruct ev as [|sid run|sid run|]; simpl in Hnext.
  - (* the queue starts a task *)
    destruct (queued st) as [|step q] eqn:Hq; [done|].
    destruct (isPaused st) eqn:Hp; [done|]. simplify_eq.
    exists R. split; [|done].
    assert (id step ∈ R) as HsR.
    { apply (inv_active _ _ _ _ _ HP). unfold active. rewrite Hq. set_solver. }
    eapply (Inv_same_map st _ R []); simpl; [exact HI|done|done|..].
    + unfold active. simpl. rewrite Hq, fmap_app. simpl.
      rewrite (Permutation_app_comm _ [id step]). simpl.
      by rewrite Permutation_middle.
    + done.
    + rewrite Hq. intros s Hs. rewrite fmap_app in Hs. set_solver.
    + intros ev [?|Hx]%elem_of_app; [by left|].
      apply list_elem_of_singleton in Hx as ->. by right.
    + intros s x [?|Hx]%elem_of_app; [by left|].
      by apply list_elem_of_singleton in Hx.
    + rewrite <- Hp. apply (inv_paused _ _ _ _ _ HP).
    + intros v Hv. apply (inv_resolved _ _ _ _ _ HP) in Hv as [? _]. congruence.
  - (* a handler phase ends *)
    destruct (take_task sid (inFlight st)) as [[[step p] rest]|] eqn:Ht; [|done].
    simpl in Hnext. destruct p; [|done].
    destruct (executeStepHandlerPhase G S (stepResultsMap st) (typeTracker st)
                step run) as [[r tt'] l] eqn:Hph.
    apply take_task_spec in Ht as (<- & l1 & l2 & Hfl & ->).
    apply executeStepHandlerPhase_spec in Hph as [Hl Hx].
    assert (id step ∈ R) as HsR.
    { apply (inv_active _ _ _ _ _ HP). apply active_tasks. rewrite Hfl.
      rewrite fmap_app. set_solver. }
    assert (∀ v, settled st ≠ Some (Resolved v)) as Hnres.
    { intros v Hv. apply (inv_resolved _ _ _ _ _ HP) in Hv as (_ & Hv & _).
      rewrite Hv in Hfl. by destruct l1. }
    exists R. split; [|done]. destruct r as [err|x]; simplify_eq.
    + eapply (Inv_same_map st _ R [id step]); simpl; [exact HI|done|done|..].
      * unfold active. simpl. rewrite Hfl, !fmap_app. simpl.
        by rewrite <- !Permutation_middle.
      * done.
      * rewrite Hfl. intros s Hs. rewrite !fmap_app in *. set_solver.
      * intros ev [?|Hev]%elem_of_app; [by left|]. right.
        rewrite Forall_forall in Hl. by rewrite (Hl ev Hev).
      * rewrite Hfl. intros s x Hs. left. set_solver.
      * split; [intros _|done]. destruct (settled st) as [[v|e]|] eqn:Hst; eauto.
        by destruct (Hnres v).
      * intros v Hv. destruct (settled st) as [[v'|e]|] eqn:Hst; simplify_eq.
        by destruct (Hnres v).
    + eapply (Inv_same_map st _ R []); simpl; [exact HI|done|done|..].
      * unfold active. simpl. rewrite Hfl, !fmap_app. simpl.
        rewrite <- !Permutation_middle. by rewrite app_nil_r.
      * done.
      * rewrite Hfl. intros s Hs. rewrite !fmap_app in *. set_solver.
      * intros ev [?|Hev]%elem_of_app; [by left|]. right.
        rewrite Forall_forall in Hl. by rewrite (Hl ev Hev).
      * rewrite Hfl. intros s y [Hs|Hs]%elem_of_app; [left; set_solver|].
        apply list_elem_of_singleton in Hs as [= -> ->]. right. by apply Hx.
      * apply (inv_paused _ _ _ _ _ HP).
      * intros v Hv. by destruct (Hnres v).
  - (* a flush phase ends *)
    destruct (take_task sid (inFlight st)) as [[[step p] rest]|] eqn:Ht; [|done].
    simpl in Hnext. destruct p as [|x]; [done|].
    destruct (executeStepFlushPhase step x run) as [r l] eqn:Hph.
    apply take_task_spec in Ht as (<- & l1 & l2 & Hfl & ->).
    apply executeStepFlushPhase_spec in Hph as [Hl Hx].
    assert (id step ∈ active st) as Hsact.
    { apply active_tasks. rewrite Hfl. rewrite fmap_app. set_solver. }
    destruct (inv_active _ _ _ _ _ HP _ Hsact) as [HsR Hspend].
    assert (∀ v, settled st ≠ Some (Resolved v)) as Hnres.
    { intros v Hv. apply (inv_resolved _ _ _ _ _ HP) in Hv as (_ & Hv & _).
      rewrite Hv in Hfl. by destruct l1. }
    assert (executed x) as Hex.
    { apply (inv_phase _ _ _ _ _ HP step). rewrite Hfl. set_solver. }
    assert (active st ≡ₚ id step :: (id <$> queued st)
                                   ++ ((λ t, id t.1) <$> l1 ++ l2)) as Hact.
    { unfold active. rewrite Hfl, !fmap_app. simpl.
      by rewrite <- !Permutation_middle. }
    destruct r as [err|x']; simplify_eq.
    + exists R. split; [|done].
      eapply (Inv_same_map st _ R [id step]); simpl; [exact HI|done|done|..].
      * done.
      * done.
      * rewrite Hfl. intros s Hs. rewrite !fmap_app in *. set_solver.
      * intros ev [?|Hev]%elem_of_app; [by left|]. right.
        rewrite Forall_forall in Hl. by rewrite (Hl ev Hev).
      * rewrite Hfl. intros s y Hs. left. set_solver.
      * split; [intros _|done]. destruct (settled st) as [[v|e]|] eqn:Hst; eauto.
        by destruct (Hnres v).
      * intros v Hv. destruct (settled st) as [[v'|e]|] eqn:Hst; simplify_eq.
        by destruct (Hnres v).
    + simpl in Hnext.
      destruct (map_get (stepResultsMap st) (id step)) as [existing|] eqn:Hget.
      2:{ unfold status_of in Hspend. by rewrite Hget in Hspend. }
      pose proof HP as [Hwg HRk HRnd HRen HRcl Hmk Hmi Hseed Hactv Hactnd Hdata
                          Hdone Hpaused Hresolved Hlog Hphase].
      assert (id step ∉ (id <$> queued st) ++ ((λ t, id t.1) <$> l1 ++ l2)) as Hfresh.
      { rewrite Hact in Hactnd. by apply NoDup_cons in Hactnd as [? _]. }
      match type of Hnext with
      | match enqueueLeafSteps _ _ ?st2 with _ => _ end = _ =>
          destruct (enqueueLeafSteps_Inv G S m0 Hwf Hid Hstart st2 R)
            as (st3 & R' & HE & HI3 & _ & _ & _ & _ & _ & _ & Hsub)
      end.
      * unfold updateStepResultStatus. rewrite Hget.
        constructor; simpl; try done.
        -- rewrite map_set_keys; [done|]. apply map_get_is_Some. by rewrite Hget.
        -- intros k r [?|[-> ->]]%elem_of_map_set; [by apply Hmi|]. simpl.
           apply Hmi. by apply map_get_Some.
        -- intros s Hs. rewrite map_get_set. rewrite decide_False; [by apply Hseed|].
           by intros <-.
        -- intros s Hs. unfold active in Hs. simpl in Hs.
           assert (s ∈ active st) as Hs' by (rewrite Hact; set_solver).
           destruct (Hactv s Hs') as [? Hp']. split; [done|].
           unfold status_of. rewrite map_get_set. rewrite decide_False; [done|].
           by intros <-.
        -- unfold active. simpl. rewrite Hact in Hactnd.
           by apply NoDup_cons in Hactnd as [_ ?].
        -- intros s Hs. apply Hdata. rewrite Hfl. rewrite !fmap_app in *. set_solver.
        -- intros Hp s Hs Hna. unfold status_of. rewrite map_get_set.
           destruct (decide (id step = s)) as [<-|Hne].
           ++ simpl. eexists. split; [done|]. by apply Hx.
           ++ apply (Hdone Hp s Hs). rewrite Hact. set_solver.
        -- intros v Hv. by destruct (Hnres v).
        -- intros ev [?|Hev]%elem_of_app; [by apply Hlog|].
           rewrite Forall_forall in Hl. by rewrite (Hl ev Hev).
        -- intros s y Hs. apply (Hphase s y). rewrite Hfl. set_solver.
      * done.
      * rewrite HE in Hnext. simplify_eq. by exists R'.
  - (* the queue is idle *)
    destruct (queued st) eqn:Hq; [|done]. destruct (inFlight st) eqn:Hfl; [|done].
    simplify_eq. exists R. split; [|done].
    eapply (Inv_same_map st _ R []); simpl; [exact HI|done|done|..].
    + unfold active. simpl. by rewrite Hq, Hfl.
    + done.
    + by rewrite Hq, Hfl.
    + by left.
    + by left.
    + rewrite (inv_paused _ _ _ _ _ HP).
      destruct (settled st) as [[v|e]|]; split; intros [e' ?]; by eauto.
    + intros v Hv. destruct (settled st) as [[v'|e]|] eqn:Hst; simplify_eq.
      * by apply (inv_resolved _ _ _ _ _ HP).
      * done.
Qed.
End Step_inv.

Section Reachable.
Local Set Default Proof Using "All".
Variable G : DepGraph.t Step.
Variable S : gmap string StepStartState.
Hypothesis Hwf : wf G.
Hypothesis Hid : keyed_by_id G.

Lemma Inv_exec m0 evs : ∀ st R st',
  buildStepResultsMap G S = Some m0 →
  Inv G S m0 st R → exec G S st evs = Some st' →
  ∃ R', Inv G S m0 st' R' ∧ ∀ s, s ∈ R → s ∈ R'.
Proof.
  unfold exec.
  induction evs as [|ev evs IH]; intros st R st' Hm HI Hex; simpl in Hex.
  { simplify_eq. by exists R. }
  destruct (next G S st ev) as [st1|] eqn:Hn; [|done].
  destruct (Inv_next G S m0 Hwf Hid Hm st R ev st1 HI Hn) as (R1 & HI1 & Hsub).
  destruct (IH st1 R1 st' Hm HI1 Hex) as (R' & HI' & Hsub').
  exists R'. split; [done|]. auto.
Qed.

Lemma Inv_run evs st :
  run G S evs = Some st →
  ∃ m0 R, buildStepResultsMap G S = Some m0 ∧ Inv G S m0 st R.
Proof.
  unfold run. destruct (executeStepDependencyGraph G S) as [st0|] eqn:H0; [|done].
  simpl. intros Hex.
  assert (∃ m0, buildStepResultsMap G S = Some m0) as [m0 Hm].
  { unfold executeStepDependencyGraph in H0.
    destruct (buildStepResultsMap G S); [by eexists|done]. }
  destruct (Inv_init G S m0 Hwf Hid Hm st0 H0) as [R0 HI0].
  destruct (Inv_exec m0 evs st0 R0 st Hm HI0 Hex) as (R & HI & _).
  by exists m0, R.
Qed.
End Reachable.

Lemma map_values_ids (m : ResultsMap) :
  (∀ k r, (k, r) ∈ m → r_id r = k) → r_id <$> map_values m = m.*1.
Proof.
  unfold map_values. induction m as [|[k r] m IH]; intros Hids; [done|]. csimpl.
  rewrite IH.
  - f_equal. apply Hids. by left.
  - intros k' r' Hin. apply Hids. by right.
Qed.

Lemma rank_rtc (E : string → option (list string)) (m : string → nat) a b :
  (∀ a b, edge E a b → m b < m a) → rtc (edge E) a b → m b ≤ m a.
Proof.
  intros Hm. induction 1 as [|a c b Hac Hcb IH]; [done|].
  specialize (Hm _ _ Hac). lia.
Qed.

Lemma rank_tc (E : string → option (list string)) (m : string → nat) a b :
  (∀ a b, edge E a b → m b < m a) → tc (edge E) a b → m b < m a.
Proof.
  intros Hm. induction 1 as [a b Hab|a c b Hac Hcb IH]; [by apply Hm|].
  specialize (Hm _ _ Hac). lia.
Qed.

Lemma dependenciesOf_tc {A} (g : DepGraph.t A) s deps d :
  dag (DepGraph.outgoingEdges g) → DepGraph.dependenciesOf g s = Some deps →
  d ∈ deps ↔ tc (edge (DepGraph.outgoingEdges g)) s d.
Proof.
  intros [m Hm] (_ & _ & Hdeps)%dependenciesOf_spec. rewrite Hdeps. split.
  - intros [Hr Hne]. apply rtc_tc in Hr as [->|?]; done.
  - intros Htc. split; [by apply tc_rtc|].
    intros ->. apply (rank_tc _ m) in Htc; [lia|done].
Qed.

Lemma take_task_elem step p (r : list (Step * Phase)) :
  NoDup ((λ t, id t.1) <$> r) → (step, p) ∈ r →
  ∃ rest, take_task (id step) r = Some (step, p, rest).
Proof.
  induction r as [|[s q] r IH]; csimpl; [set_solver|].
  intros [Hs Hnd]%NoDup_cons [[= <- <-]|Hin]%elem_of_cons.
  - rewrite decide_True by done. by eexists.
  - rewrite decide_False.
    + destruct (IH Hnd Hin) as [rest ->]. simpl. by eexists.
    + intros Heq. apply Hs. rewrite Heq. apply list_elem_of_fmap. by exists (step, p).
Qed.

Section Finish.
Local Set Default Proof Using "All".
Variable G : DepGraph.t Step.
Variable S : gmap string StepStartState.
Hypothesis Hwf : wf G.
Hypothesis Hid : keyed_by_id G.

Lemma in_flight_take evs st step p :
  run G S evs = Some st → (step, p) ∈ inFlight st →
  ∃ rest, take_task (id step) (inFlight st) = Some (step, p, rest).
Proof.
  intros Hrun Hin.
  destruct (Inv_run G S Hwf Hid evs st Hrun) as (m0 & R & Hm & [HP _]).
  apply take_task_elem; [|done].
  pose proof (inv_active_nodup _ _ _ _ _ HP) as Hnd. unfold active in Hnd.
  by apply NoDup_app in Hnd as (_ & _ & ?).
Qed.

(** What the end of [executeStep] does to a reachable state, when the
    flush succeeds. *)
Lemma flush_ok evs st step x fr :
  run G S evs = Some st → (step, AwaitingFlush x) ∈ inFlight st →
  flushError fr = None →
  ∃ st',
    next G S st (EvFlushDone (id step) fr) = Some st' ∧
    status_of (stepResultsMap st') (id step) =
      Some (match waitUntilUploadsComplete fr with
            | Some (Some _) => FAILURE
            | _ => x
            end) ∧
    isPaused st' = isPaused st ∧ settled st' = settled st.
Proof.
  intros Hrun Hin Hflush.
  destruct (in_flight_take evs st step _ Hrun Hin) as [rest Htake].
  destruct (Inv_run G S Hwf Hid evs st Hrun) as (m0 & R & Hm & HI).
  pose proof HI as [HP _].
  assert (∃ st', next G S st (EvFlushDone (id step) fr) = Some st') as [st' Hn].
  { simpl. rewrite Htake. simpl. unfold executeStepFlushPhase. rewrite Hflush.
    destruct (waitUntilUploadsComplete fr) as [[e|]|];
      match goal with |- context [enqueueLeafSteps ?a ?b ?c] =>
        destruct (enqueueLeafSteps a b c) end; by eexists. }
  exists st'. split; [done|].
  assert (id step ∈ active st) as Hact.
  { apply (active_tasks G S m0 Hwf Hid Hm). rewrite elem_of_app. right.
    apply list_elem_of_fmap. by exists (step, AwaitingFlush x). }
  destruct (inv_active _ _ _ _ _ HP _ Hact) as [HsR Hpend].
  unfold status_of in Hpend.
  destruct (map_get (stepResultsMap st) (id step)) as [existing|] eqn:Hget; [|done].
  assert (∀ v, settled st ≠ Some (Resolved v)) as Hnres.
  { intros v Hv. apply (inv_resolved _ _ _ _ _ HP) in Hv as (_ & Hv & _).
    rewrite Hv in Hin. set_solver. }
  simpl in Hn. rewrite Htake in Hn. simpl in Hn.
  unfold executeStepFlushPhase in Hn. rewrite Hflush in Hn.
  apply (take_task_spec G S m0 Hwf Hid Hm) in Htake as (_ & l1 & l2 & Hfl & ->).
  assert (active st ≡ₚ id step :: (id <$> queued st)
                                 ++ ((λ t, id t.1) <$> l1 ++ l2)) as Hperm.
  { unfold active. rewrite Hfl, !fmap_app. simpl. by rewrite <- !Permutation_middle. }
  set (x' := match waitUntilUploadsComplete fr with
             | Some (Some _) => FAILURE
             | _ => x
             end).
  set (l := match waitUntilUploadsComplete fr with
            | Some (Some err) => [LFlush (id step); LWaitUploads (id step);
                                  LStepFailure (id step) err]
            | Some None => [LFlush (id step); LWaitUploads (id step)]
            | None => [LFlush (id step)]
            end).
  assert (match enqueueLeafSteps G S
                  (mkState (workingGraph st)
                     (updateStepResultStatus (stepResultsMap st) (id step) x'
                        (typeTracker st))
                     (typeTracker st) (queued st) (l1 ++ l2) (isPaused st)
                     (settled st) (log st ++ l)) with
          | inl st3 => Some st3
          | inr st3 => Some (handleUnexpectedError st3 TypeError)
          end = Some st') as Hn'.
  { subst x' l. by destruct (waitUntilUploadsComplete fr) as [[e|]|]. }
  clear Hn.
  match type of Hn' with
  | match enqueueLeafSteps _ _ ?st2 with _ => _ end = _ =>
      destruct (enqueueLeafSteps_Inv G S m0 Hwf Hid Hm st2 R)
        as (st3 & R' & HE & HI3 & Hmap & _ & _ & Hp3 & Hs3 & _)
  end.
  - pose proof HP as [Hwg HRk HRnd HRen HRcl Hmk Hmi Hseed Hactv Hactnd Hdata
                        Hdone Hpaused Hresolved Hlog Hphase].
    unfold updateStepResultStatus. rewrite Hget.
    constructor; simpl; try done.
    + rewrite map_set_keys; [done|]. apply map_get_is_Some. by rewrite Hget.
    + intros k r [?|[-> ->]]%elem_of_map_set; [by apply Hmi|]. simpl.
      apply Hmi. by apply map_get_Some.
    + intros s Hs. rewrite map_get_set. rewrite decide_False; [by apply Hseed|].
      by intros <-.
    + intros s Hs. unfold active in Hs. simpl in Hs.
      assert (s ∈ active st) as Hs' by (rewrite Hperm; set_solver).
      destruct (Hactv s Hs') as [? Hp']. split; [done|].
      unfold status_of. rewrite map_get_set. rewrite decide_False; [done|].
      intros <-. rewrite Hperm in Hactnd. apply NoDup_cons in Hactnd as [Hx _].
      by apply Hx.
    + unfold active. simpl. rewrite Hperm in Hactnd.
      by apply NoDup_cons in Hactnd as [_ ?].
    + intros s Hs. apply Hdata. rewrite Hfl. rewrite !fmap_app in *. set_solver.
    + intros Hp s Hs Hna. unfold status_of. rewrite map_get_set.
      destruct (decide (id step = s)) as [<-|Hne].
      * simpl. eexists. split; [done|]. subst x'.
        assert (executed x) by (apply (Hphase step); done).
        destruct (waitUntilUploadsComplete fr) as [[e|]|]; unfold executed; tauto.
      * apply (Hdone Hp s Hs). rewrite Hperm. set_solver.
    + intros v Hv. by destruct (Hnres v).
    + intros ev [?|Hev]%elem_of_app; [by apply Hlog|].
      assert (log_step ev = id step) as ->; [|done].
      subst l. destruct (waitUntilUploadsComplete fr) as [[e|]|];
        set_solver.
    + intros s y Hs. apply (Hphase s y). rewrite Hfl. set_solver.
  - done.
  - rewrite HE in Hn'. simplify_eq. rewrite Hmap, Hp3, Hs3. simpl.
    split; [|done]. unfold status_of, updateStepResultStatus. rewrite Hget.
    rewrite map_get_set, decide_True by done. done.
Qed.

(** A failed flush is handed to [handleUnexpectedError]. *)
Lemma flush_throws evs st step x fr err :
  run G S evs = Some st → (step, AwaitingFlush x) ∈ inFlight st →
  flushError fr = Some err →
  ∃ st',
    next G S st (EvFlushDone (id step) fr) = Some st' ∧
    isPaused st' = true ∧
    settled st' = Some (match settled st with Some o => o | None => Rejected err end) ∧
    stepResultsMap st' = stepResultsMap st ∧
    status_of (stepResultsMap st') (id step) = Some PENDING_EVALUATION.
Proof.
  intros Hrun Hin Hflush.
  destruct (in_flight_take evs st step _ Hrun Hin) as [rest Htake].
  destruct (Inv_run G S Hwf Hid evs st Hrun) as (m0 & R & Hm & [HP _]).
  simpl. rewrite Htake. simpl. unfold executeStepFlushPhase. rewrite Hflush.
  eexists. split; [done|]. simpl. split_and!; [done| |done|].
  - by destruct (settled st).
  - apply (inv_active _ _ _ _ _ HP). apply (active_tasks G S m0 Hwf Hid Hm). rewrite elem_of_app. right.
    apply list_elem_of_fmap. by exists (step, AwaitingFlush x).
Qed.
End Finish.

Section Stable.
Local Set Default Proof Using "All".
Variable G : DepGraph.t Step.
Variable S : gmap string StepStartState.
Hypothesis Hwf : wf G.
Hypothesis Hid : keyed_by_id G.

Lemma enqueueLeaves_map leaves : ∀ st st',
  enqueueLeaves G S st leaves = inl st' ∨ enqueueLeaves G S st leaves = inr st' →
  stepResultsMap st' = stepResultsMap st.
Proof.
  induction leaves as [|l leaves IH]; intros st st'; simpl.
  { intros [[= ->]|[=]]. done. }
  unfold enqueueLeafStep.
  repeat case_match; intros H'; simplify_eq;
    first [ apply IH in H'; by rewrite H'
          | by destruct H' as [?|?]; simplify_eq ].
Qed.

Lemma enqueueLeafSteps_map st st' :
  enqueueLeafSteps G S st = inl st' ∨ enqueueLeafSteps G S st = inr st' →
  stepResultsMap st' = stepResultsMap st.
Proof.
  unfold enqueueLeafSteps. repeat case_match; try (by intros [[= ->]|[= ->]]).
  apply enqueueLeaves_map.
Qed.

(** Only the entry of the step whose [executeStep] call ends is written. *)
Lemma next_map_get st ev st' s :
  next G S st ev = Some st' → s ∉ active st →
  map_get (stepResultsMap st') s = map_get (stepResultsMap st) s.
Proof.
  intros Hn Hs. destruct ev as [|sid hr|sid fr|]; simpl in Hn.
  - repeat case_match; by simplify_eq.
  - destruct (take_task sid (inFlight st)) as [[[step p] rest]|]; [|done].
    simpl in Hn. destruct p; [|done].
    destruct (executeStepHandlerPhase _ _ _ _ _ _) as [[[e|x] tt'] l];
      by simplify_eq.
  - destruct (take_task sid (inFlight st)) as [[[step p] rest]|] eqn:Ht; [|done].
    simpl in Hn. destruct p as [|x]; [done|].
    assert (id step ≠ s) as Hne.
    { intros <-. apply Hs. unfold active. rewrite elem_of_app. right.
      clear -Ht. revert rest Ht.
      induction (inFlight st) as [|[s q] r IH]; intros rest; simpl; [done|].
      destruct (decide (id s = sid)).
      - intros [= -> -> ->]. set_solver.
      - destruct (take_task sid r) as [[[s' p'] r'']|]; [|done]. simpl.
        intros [= -> -> <-]. csimpl. right. by eapply IH. }
    destruct (executeStepFlushPhase step x fr) as [[e|x'] l]; [by simplify_eq|].
    match type of Hn with
    | match enqueueLeafSteps _ _ ?st2 with _ => _ end = _ =>
        destruct (enqueueLeafSteps G S st2) as [st3|st3] eqn:HE;
        assert (stepResultsMap st3 = stepResultsMap st2) as Hmap
          by (apply enqueueLeafSteps_map; eauto)
    end; simplify_eq; simpl in *; rewrite Hmap;
      unfold updateStepResultStatus; (case_match; [|done]);
      rewrite map_get_set; by rewrite decide_False.
  - repeat case_match; by simplify_eq.
Qed.

(** A status written by [updateStepResultStatus] is never changed. *)
Lemma executed_stable m0 evs : ∀ st R st' s x,
  buildStepResultsMap G S = Some m0 → Inv G S m0 st R →
  status_of (stepResultsMap st) s = Some x → executed x →
  exec G S st evs = Some st' →
  status_of (stepResultsMap st') s = Some x.
Proof.
  unfold exec.
  induction evs as [|ev evs IH]; intros st R st' s x Hm HI Hst Hx Hex; simpl in Hex.
  { by simplify_eq. }
  destruct (next G S st ev) as [st1|] eqn:Hn; [|done].
  destruct (Inv_next G S m0 Hwf Hid Hm st R ev st1 HI Hn) as (R1 & HI1 & _).
  apply (IH st1 R1 st' s x Hm HI1); [|done|done].
  unfold status_of. rewrite (next_map_get st ev st1 s Hn); [done|].
  intros Ha. destruct HI as [HP _].
  apply (inv_active _ _ _ _ _ HP) in Ha as [_ Ha]. rewrite Hst in Ha.
  destruct Hx as [?|[?|[?|?]]]; congruence.
Qed.
End Stable.

Lemma run_app G S evs evs' :
  run G S (evs ++ evs') = run G S evs ≫= λ st, exec G S st evs'.
Proof.
  unfold run, exec. destruct (executeStepDependencyGraph G S) as [st0|]; [|done].
  simpl. apply foldM_app.
Qed.

Lemma run_snoc G S evs st ev st1 :
  run G S evs = Some st → next G S st ev = Some st1 →
  run G S (evs ++ [ev]) = Some st1.
Proof. intros Hr Hn. rewrite run_app, Hr. unfold exec. simpl. by rewrite Hn. Qed.

Lemma resolved_entry G S m0 st R v s x :
  Inv G S m0 st R → settled st = Some (Resolved v) →
  status_of (stepResultsMap st) s = Some x →
  ∃ r, r ∈ v ∧ r_id r = s ∧ status r = x.
Proof.
  intros [HP _] Hv Hst. destruct (inv_resolved _ _ _ _ _ HP v Hv) as (_ & _ & ->).
  unfold status_of in Hst.
  destruct (map_get (stepResultsMap st) s) as [r|] eqn:Hget; [|done].
  exists r. apply map_get_Some in Hget as Hin. split_and!.
  - unfold map_values. apply list_elem_of_fmap. by exists (s, r).
  - by apply (inv_map_ids _ _ _ _ _ HP).
  - by simplify_eq/=.
Qed.

Section Handler_facts.
Variable G : DepGraph.t Step.
Variable S : gmap string StepStartState.

(** The handler path of the [try] of [executeStep]. *)
Lemma handler_path_status m tt step hr deps :
  cache_miss S (id step) (cacheRun hr) →
  handlerError (handlerRun hr) = None →
  DepGraph.dependenciesOf G (id step) = Some deps →
  ∃ tt' l x,
    executeStepHandlerPhase G S m tt step hr = (inr x, tt', l) ∧
    LHandler (id step) ∈ l ∧
    (LCacheLoaded (id step) 0 0 ∉ l) ∧
    let undeclared :=
      filter (λ ty, ty ∉ (getDeclaredTypesInStep step).1)
        (getEncounteredTypesForStep tt' (id step)) in
    (dependency_failed m deps →
     x = PARTIAL_SUCCESS_DUE_TO_DEPENDENCY_FAILURE) ∧
    (¬ dependency_failed m deps →
     x = SUCCESS ∧
     (undeclared ≠ [] → LUndeclaredTypes (id step) undeclared ∈ l) ∧
     (undeclared = [] → ∀ u, LUndeclaredTypes (id step) u ∉ l)).
Proof.
  intros (v & Hv & Hmiss) Hh Hdeps.
  assert (stepHasDependencyFailure G m (id step) = Some true ↔
          dependency_failed m deps) as Hfail.
  { unfold stepHasDependencyFailure. rewrite Hdeps. simpl. split.
    - intros [= (r & Hr%list_elem_of_In & Hf)%existsb_exists].
      apply list_elem_of_fmap in Hr as (d & -> & Hd).
      destruct (map_get m d) as [res|] eqn:Hget; [|done].
      exists d, res. split_and!; [done..|]. unfold is_failure in Hf.
      by apply bool_decide_eq_true in Hf.
    - intros (d & r & Hd & Hget & Hst). f_equal. apply existsb_exists.
      exists (Some r). split.
      + apply list_elem_of_In, list_elem_of_fmap. by exists d.
      + unfold is_failure. by apply bool_decide_eq_true. }
  assert (∃ tt1 l1,
            (if Js.truthy v
             then let '(r, tt1, l) := loadCacheForStep tt (id step) (cacheRun hr) in
                  (match r with inl e => inl e | inr s => inr (Some s) end, tt1,
                   LCacheLoad (id step)
                     (default Js.VUndefined (stepCachePath <$> S !! id step)) :: l)
             else (inr None, tt, []))
            = (inr (if Js.truthy v then Some FAILURE else None), tt1, l1) ∧
            (LHandler (id step) ∉ l1) ∧ (LCacheLoaded (id step) 0 0 ∉ l1) ∧
            ∀ u, LUndeclaredTypes (id step) u ∉ l1)
    as (tt1 & l1 & Hload & Hl1 & Hl1' & Hl1'').
  { destruct (Js.truthy v) eqn:Htr.
    - destruct (Hmiss eq_refl) as [Hb He]. unfold loadCacheForStep.
      rewrite Hb, He. apply app_eq_nil in Hb as [-> ->]. simpl.
      eexists _, _. split; [done|]. set_solver.
    - eexists _, _. split; [done|]. set_solver. }
  unfold executeStepHandlerPhase, executeStepTry. rewrite Hv, Hload.
  assert (∀ o, o = Some FAILURE ∨ o = None →
               match o with
               | Some CACHED => true
               | _ => false
               end = false) as Hno by (by intros ? [-> | ->]).
  destruct (Js.truthy v); rewrite Hh;
    (destruct (stepHasDependencyFailure G m (id step)) as [[]|] eqn:Hf;
     [ eexists _, _, _; split; [done|]; split; [set_solver|];
       split; [set_solver|]; split; [done|];
       intros Hn; destruct Hn; by apply Hfail
     | unfold maybeLogUndeclaredTypes; case_bool_decide as Hu;
       eexists _, _, _; (split; [done|]); (split; [set_solver|]);
       (split; [set_solver|]); (split; [by intros [=]%Hfail|]);
       intros _; (split; [done|]); split;
       [ intros Hne; by destruct Hne
       | intros _ u; set_solver
       | intros _; set_solver
       | intros He'; by destruct Hu ]
     | unfold stepHasDependencyFailure in Hf; by rewrite Hdeps in Hf ]).
Qed.
End Handler_facts.

(** ** Every run can be brought to its end *)

Lemma pending_set (m : ResultsMap) k r r' :
  map_get m k = Some r → status r = PENDING_EVALUATION →
  status r' ≠ PENDING_EVALUATION →
  S (pending (map_set m k r')) = pending m.
Proof.
  intros Hget Hr Hr'. induction m as [|[k0 r0] m IH]; simpl in *; [done|].
  destruct (decide (k0 = k)) as [->|Hne]; simpl.
  - injection Hget as ->. rewrite Hr.
    destruct (status r'); done.
  - destruct (status r0); rewrite <- ?IH; done.
Qed.

Lemma handlers_pending_app r1 r2 :
  handlers_pending (r1 ++ r2) = handlers_pending r1 + handlers_pending r2.
Proof.
  induction r1 as [|[s [|x]] r1 IH]; simpl; [done| |done]. by rewrite IH.
Qed.

Section Progress.
Local Set Default Proof Using "All".
Variable G : DepGraph.t Step.
Variable S : gmap string StepStartState.
Hypothesis Hwf : wf G.
Hypothesis Hid : keyed_by_id G.

(** The handler of a dispatched step returns quietly. *)
Lemma quiet_handler evs st step :
  run G S evs = Some st → (step, AwaitingHandler) ∈ inFlight st →
  ∃ st',
    next G S st (EvHandlerDone (id step) quiet_body) = Some st' ∧
    isPaused st' = isPaused st ∧ settled st' = settled st ∧
    stepResultsMap st' = stepResultsMap st ∧ queued st' = queued st ∧
    Datatypes.S (handlers_pending (inFlight st')) = handlers_pending (inFlight st).
Proof.
  intros Hrun Hin.
  destruct (in_flight_take G S Hwf Hid evs st step _ Hrun Hin) as [rest Htake].
  destruct (Inv_run G S Hwf Hid evs st Hrun) as (m0 & R & Hm & [HP _]).
  assert (id step ∈ active st) as Hact.
  { apply (active_tasks G S m0 Hwf Hid Hm). rewrite elem_of_app. right.
    apply list_elem_of_fmap. by exists (step, AwaitingHandler). }
  destruct (inv_active _ _ _ _ _ HP _ Hact) as [HsR _].
  pose proof (inv_R_enabled _ _ _ _ _ HP _ HsR) as Hen.
  pose proof (inv_R_keys _ _ _ _ _ HP _ HsR) as Hk.
  unfold isStepEnabled in Hen.
  destruct (S !! id step) as [ss|] eqn:Hss; [|done].
  destruct (dependenciesOf_total G (id step) Hwf
              (start_dag G S m0 Hwf Hid Hm) Hk) as [deps Hdeps].
  destruct (handler_path_status G S (stepResultsMap st) (typeTracker st) step
              quiet_body deps) as (tt' & l & x & Hph & _); [|done|done|].
  { unfold cache_miss, hasCachePath. rewrite Hss. simpl. eauto. }
  apply (take_task_spec G S m0 Hwf Hid Hm) in Htake as Hspec.
  destruct Hspec as (_ & l1 & l2 & Hfl & ->).
  simpl. rewrite Htake. simpl. rewrite Hph. simpl.
  eexists. split; [done|]. simpl. split_and!; [done..|].
  rewrite Hfl, !handlers_pending_app. simpl. lia.
Qed.

(** The flush of a step whose handler is over returns quietly. *)
Lemma quiet_flush evs st step x :
  run G S evs = Some st → (step, AwaitingFlush x) ∈ inFlight st →
  ∃ st',
    next G S st (EvFlushDone (id step) quiet_finish) = Some st' ∧
    isPaused st' = isPaused st ∧ settled st' = settled st ∧
    Datatypes.S (pending (stepResultsMap st')) = pending (stepResultsMap st).
Proof.
  intros Hrun Hin.
  destruct (flush_ok G S Hwf Hid evs st step x quiet_finish Hrun Hin eq_refl)
    as (st' & Hn & Hst & Hp & Hs).
  exists st'. split_and!; [done..|].
  destruct (in_flight_take G S Hwf Hid evs st step _ Hrun Hin) as [rest Htake].
  destruct (Inv_run G S Hwf Hid evs st Hrun) as (m0 & R & Hm & [HP _]).
  assert (id step ∈ active st) as Hact.
  { apply (active_tasks G S m0 Hwf Hid Hm). rewrite elem_of_app. right.
    apply list_elem_of_fmap. by exists (step, AwaitingFlush x). }
  destruct (inv_active _ _ _ _ _ HP _ Hact) as [_ Hpend].
  unfold status_of in Hpend.
  destruct (map_get (stepResultsMap st) (id step)) as [r|] eqn:Hget; [|done].
  injection Hpend as Hpend.
  pose proof (inv_phase _ _ _ _ _ HP step x Hin) as Hx.
  assert (stepResultsMap st' =
          updateStepResultStatus (stepResultsMap st) (id step) x (typeTracker st))
    as ->.
  { clear Hst. simpl in Hn. rewrite Htake in Hn. simpl in Hn.
    match type of Hn with
    | match enqueueLeafSteps _ _ ?st2 with _ => _ end = _ =>
        destruct (enqueueLeafSteps G S st2) as [st3|st3] eqn:HE;
        assert (stepResultsMap st3 = stepResultsMap st2) as Hmap
          by (apply (enqueueLeafSteps_map G S Hwf Hid); eauto)
    end; simplify_eq; simpl in *; by rewrite Hmap. }
  unfold updateStepResultStatus. rewrite Hget.
  apply (pending_set _ _ r); [done|done|]. simpl.
  unfold executed in Hx. intros ->. destruct Hx as [?|[?|[?|?]]]; done.
Qed.

Lemma can_resolve p : ∀ k evs st,
  run G S evs = Some st → isPaused st = false → settled st = None →
  pending (stepResultsMap st) = p →
  2 * length (queued st) + handlers_pending (inFlight st) = k →
  ∃ evs' st' v,
    run G S (evs ++ evs') = Some st' ∧ settled st' = Some (Resolved v).
Proof.
  induction p as [p IHp] using lt_wf_ind.
  induction k as [k IHk] using lt_wf_ind.
  intros evs st Hrun Hp Hs Hpend Hk.
  destruct (queued st) as [|step q] eqn:Hq.
  - destruct (inFlight st) as [|[step [|x]] r] eqn:Hfl.
    + (* idle *)
      exists [EvIdle]. eexists _, _. split.
      * apply (run_snoc _ _ _ st); [done|]. simpl. by rewrite Hq, Hfl.
      * simpl. by rewrite Hs.
    + (* the handler of the first call returns *)
      destruct (quiet_handler evs st step Hrun)
        as (st1 & Hn & Hp1 & Hs1 & Hm1 & Hq1 & Hh1); [rewrite Hfl; set_solver|].
      pose proof (run_snoc _ _ _ _ _ _ Hrun Hn) as Hrun1.
      destruct (IHk (2 * length (queued st1) + handlers_pending (inFlight st1)))
        with (evs := evs ++ [EvHandlerDone (id step) quiet_body]) (st := st1)
        as (evs' & st' & v & Hrun' & Hv); try congruence.
      { rewrite Hq1, Hq. rewrite Hfl in Hh1. simpl in *. lia. }
      exists (EvHandlerDone (id step) quiet_body :: evs'), st', v.
      split; [|done]. by rewrite <- app_assoc in Hrun'.
    + (* the flush of the first call returns *)
      destruct (quiet_flush evs st step x Hrun)
        as (st1 & Hn & Hp1 & Hs1 & Hm1); [rewrite Hfl; set_solver|].
      pose proof (run_snoc _ _ _ _ _ _ Hrun Hn) as Hrun1.
      destruct (IHp (pending (stepResultsMap st1))) with
        (k := 2 * length (queued st1) + handlers_pending (inFlight st1))
        (evs := evs ++ [EvFlushDone (id step) quiet_finish]) (st := st1)
        as (evs' & st' & v & Hrun' & Hv); try congruence; [lia|].
      exists (EvFlushDone (id step) quiet_finish :: evs'), st', v.
      split; [|done]. by rewrite <- app_assoc in Hrun'.
  - (* the queue starts its first task *)
    assert (next G S st EvStart =
            Some (mkState (workingGraph st) (stepResultsMap st) (typeTracker st)
                    q (inFlight st ++ [(step, AwaitingHandler)]) (isPaused st)
                    (settled st) (log st ++ [LStepStart (id step)]))) as Hn.
    { simpl. by rewrite Hq, Hp. }
    pose proof (run_snoc _ _ _ _ _ _ Hrun Hn) as Hrun1.
    edestruct (IHk (2 * length q + Datatypes.S (handlers_pending (inFlight st))))
      with (evs := evs ++ [EvStart])
      as (evs' & st' & v & Hrun' & Hv); [|exact Hrun1|done|done|done| |].
    { rewrite <- Hk. simpl. lia. }
    { simpl. rewrite handlers_pending_app. simpl. lia. }
    exists (EvStart :: evs'), st', v.
    split; [|done]. by rewrite <- app_assoc in Hrun'.
Qed.

(** With a start state for every step of an acyclic graph,
    [executeStepDependencyGraph] returns its promise, pending. *)
Lemma run_starts :
  dag (DepGraph.outgoingEdges G) →
  (∀ s, s ∈ DepGraph.keys G → is_Some (S !! s)) →
  ∃ st0, run G S [] = Some st0 ∧ isPaused st0 = false ∧ settled st0 = None.
Proof.
  intros Hdag Hstates.
  assert (∃ m0, buildStepResultsMap G S = Some m0) as [m0 Hm].
  { unfold buildStepResultsMap.
    destruct (overallOrder_total G false Hwf Hdag) as [order Ho]. rewrite Ho.
    simpl.
    assert (is_Some (mapM (buildStepResult G S) order)) as [results ->]; [|by eexists].
    apply mapM_is_Some, Forall_forall. intros s Hs.
    apply (overallOrder_spec G false order Hwf Ho) in Hs as [Hs _].
    unfold buildStepResult, compose.
    destruct (proj2 (getNode_is_Some G s) Hs) as [e He].
    unfold DepGraph.getNodeData. rewrite He. simpl.
    apply getNode_Some in He as [He Hname].
    assert (id (DepGraph.data e) = s) as ->.
    { unfold keyed_by_id in Hid. rewrite Forall_forall in Hid.
      by rewrite (Hid e He). }
    destruct (dependenciesOf_total G s Hwf Hdag Hs) as [deps Hdeps].
    rewrite Hdeps. simpl.
    assert (is_Some (mapM (λ d, S !! d) deps)) as [depStates ->].
    { apply mapM_is_Some, Forall_forall. intros d Hd. simpl.
      apply Hstates.
      apply dependenciesOf_spec in Hdeps as (_ & _ & Hdeps).
      apply Hdeps in Hd as [Hd _].
      apply rtc_inv_r in Hd as [->|(c & _ & Hcd)]; [done|].
      by destruct (edge_out_keys G c d Hwf Hcd). }
    simpl. destruct (Hstates s Hs) as [ss ->]. simpl.
    by destruct (getDeclaredTypesInStep (DepGraph.data e)). }
  unfold run, executeStepDependencyGraph. rewrite Hm. simpl.
  destruct (enqueueLeafSteps_Inv G S m0 Hwf Hid Hm
              (mkState (DepGraph.clone G) m0 ∅ [] [] false None []) [])
    as (st' & R' & -> & _ & _ & _ & _ & Hp & Hs & _); [|done|].
  - constructor; simpl; try done; try set_solver; try apply NoDup_nil_2.
    + unfold DepGraph.clone. by rewrite restrict_nil.
    + by destruct (buildStepResultsMap_spec G S Hwf Hid m0 Hm)
        as (_ & _ & _ & _ & _ & H & _).
  - by exists st'.
Qed.

(** A run that was neither rejected nor resolved yet has a continuation
    that resolves. *)
Lemma run_can_resolve evs st :
  run G S evs = Some st → isPaused st = false → settled st = None →
  ∃ evs' st' v,
    run G S (evs ++ evs') = Some st' ∧ settled st' = Some (Resolved v).
Proof. intros Hrun Hp Hs. by eapply can_resolve. Qed.
End Progress.

(** ** Graphs made by [buildStepDependencyGraph] *)

Section Build_facts.
Context {A : Type}.
Implicit Types g : DepGraph.t A.
Import DepGraph.

(** [wf] without the [Forall]s. *)
Lemma wf_unfold g :
  wf g ↔
  NoDup (keys g) ∧
  ∀ e, e ∈ g →
    NoDup (outgoing e) ∧ NoDup (incoming e) ∧
    (∀ d, d ∈ outgoing e → ∃ e', e' ∈ g ∧ name e' = d ∧ name e ∈ incoming e') ∧
    (∀ d, d ∈ incoming e → ∃ e', e' ∈ g ∧ name e' = d ∧ name e ∈ outgoing e').
Proof.
  unfold wf. rewrite Forall_forall.
  split; intros [Hnd H]; (split; [done|]); intros e He;
    destruct (H e He) as (Ho & Hi & Hoo & Hii); split_and!; try done.
  - intros d Hd. rewrite Forall_forall in Hoo.
    by apply Exists_exists, Hoo.
  - intros d Hd. rewrite Forall_forall in Hii.
    by apply Exists_exists, Hii.
  - apply Forall_forall. intros d Hd. by apply Exists_exists, Hoo.
  - apply Forall_forall. intros d Hd. by apply Exists_exists, Hii.
Qed.

Lemma addNode_wf g n d : wf g → wf (addNode g n d).
Proof.
  unfold addNode. destruct (hasNode g n) eqn:Hn; [done|].
  assert (n ∉ keys g) as Hnk.
  { intros Hk%hasNode_true. congruence. }
  rewrite !wf_unfold. intros [Hnd H]. split.
  - unfold keys. rewrite fmap_app. apply NoDup_app. split_and!; [done| |].
    + intros x Hx ->%list_elem_of_singleton. done.
    + apply NoDup_singleton.
  - intros e [He| ->%list_elem_of_singleton]%elem_of_app.
    + destruct (H e He) as (Ho & Hi & Hoo & Hii). split_and!; [done|done| |].
      * intros x Hx. destruct (Hoo x Hx) as (e' & ? & ? & ?).
        exists e'. set_solver.
      * intros x Hx. destruct (Hii x Hx) as (e' & ? & ? & ?).
        exists e'. set_solver.
    + simpl. split_and!; [apply NoDup_nil_2|apply NoDup_nil_2| |];
        by intros x ?%elem_of_nil.
Qed.

Lemma addNode_keys g n d : n ∈ keys (addNode g n d).
Proof.
  unfold addNode. destruct (hasNode g n) eqn:Hn.
  - by apply hasNode_true.
  - unfold keys. rewrite fmap_app. set_solver.
Qed.

Lemma addNode_subseteq g n d : g ⊆ addNode g n d.
Proof. unfold addNode. destruct (hasNode g n); set_solver. Qed.

(** [push] unless it is there already. *)
Lemma NoDup_push (x : string) l :
  NoDup l → NoDup (if decide (x ∈ l) then l else l ++ [x]).
Proof.
  intros Hl. case_decide; [done|]. apply NoDup_app. split_and!; [done| |].
  - by intros y Hy ->%list_elem_of_singleton.
  - apply NoDup_singleton.
Qed.

Lemma elem_of_push (x y : string) l :
  y ∈ (if decide (x ∈ l) then l else l ++ [x]) ↔ y ∈ l ∨ y = x.
Proof. case_decide; set_solver. Qed.

Lemma addDependency_spec g from to g' :
  addDependency g from to = Some g' →
  from ∈ keys g ∧ to ∈ keys g ∧
  ∃ f : node A → node A,
    g' = f <$> g ∧
    ∀ e, name (f e) = name e ∧ data (f e) = data e ∧
         outgoing (f e) =
           (if decide (name e = from)
            then (if decide (to ∈ outgoing e) then outgoing e else outgoing e ++ [to])
            else outgoing e) ∧
         incoming (f e) =
           (if decide (name e = to)
            then (if decide (from ∈ incoming e) then incoming e
                  else incoming e ++ [from])
            else incoming e).
Proof.
  unfold addDependency.
  destruct (hasNode g from) eqn:Hf; [|done].
  destruct (hasNode g to) eqn:Ht; [|done]. simpl. intros [= <-].
  apply hasNode_true in Hf, Ht. split_and!; [done|done|].
  eexists. split; [reflexivity|]. intros e. simpl.
  destruct (decide (name e = from)); simpl;
    destruct (decide (name e = to)); simpl; done.
Qed.

Lemma addDependency_wf g from to g' :
  wf g → addDependency g from to = Some g' → wf g'.
Proof.
  intros Hwf (Hfrom & Hto & f & -> & Hf)%addDependency_spec.
  apply wf_unfold in Hwf as [Hnd H]. apply wf_unfold.
  assert (keys (f <$> g) = keys g) as Hkeys.
  { unfold keys. rewrite <- list_fmap_compose. apply list_fmap_ext.
    intros i e _. apply Hf. }
  split; [by rewrite Hkeys|].
  intros ? (e & -> & He)%list_elem_of_fmap.
  destruct (H e He) as (Ho & Hi & Hoo & Hii).
  destruct (Hf e) as (Hn & _ & Hout & Hin). rewrite Hn, Hout, Hin.
  split_and!.
  - destruct (decide (name e = from)); [by apply NoDup_push|done].
  - destruct (decide (name e = to)); [by apply NoDup_push|done].
  - intros d Hd.
    assert (d ∈ outgoing e ∨ (name e = from ∧ d = to)) as [Hd'|[Hef ->]].
    { destruct (decide (name e = from)); [|by left].
      apply elem_of_push in Hd. tauto. }
    + destruct (Hoo d Hd') as (e' & He' & Hn' & Hi').
      exists (f e'). destruct (Hf e') as (-> & _ & _ & ->).
      split_and!; [by apply list_elem_of_fmap_2|done|].
      destruct (decide (name e' = to)); [|done]. apply elem_of_push. by left.
    + apply list_elem_of_fmap in Hto as (e' & Hn' & He').
      exists (f e'). destruct (Hf e') as (-> & _ & _ & ->).
      split_and!; [by apply list_elem_of_fmap_2|done|].
      rewrite decide_True by done. apply elem_of_push. by right.
  - intros d Hd.
    assert (d ∈ incoming e ∨ (name e = to ∧ d = from)) as [Hd'|[Het ->]].
    { destruct (decide (name e = to)); [|by left].
      apply elem_of_push in Hd. tauto. }
    + destruct (Hii d Hd') as (e' & He' & Hn' & Ho').
      exists (f e'). destruct (Hf e') as (-> & _ & -> & _).
      split_and!; [by apply list_elem_of_fmap_2|done|].
      destruct (decide (name e' = from)); [|done]. apply elem_of_push. by left.
    + apply list_elem_of_fmap in Hfrom as (e' & Hn' & He').
      exists (f e'). destruct (Hf e') as (-> & _ & -> & _).
      split_and!; [by apply list_elem_of_fmap_2|done|].
      rewrite decide_True by done. apply elem_of_push. by right.
Qed.

Lemma addDependency_names g from to g' :
  addDependency g from to = Some g' →
  (λ e, (name e, data e)) <$> g' = (λ e, (name e, data e)) <$> g.
Proof.
  intros (_ & _ & f & -> & Hf)%addDependency_spec.
  rewrite <- list_fmap_compose. apply list_fmap_ext. intros i e _. simpl.
  by destruct (Hf e) as (-> & -> & _).
Qed.
End Build_facts.

Lemma keyed_by_id_names (g g' : DepGraph.t Step) :
  (λ e, (DepGraph.name e, DepGraph.data e)) <$> g'
  = (λ e, (DepGraph.name e, DepGraph.data e)) <$> g →
  keyed_by_id g → keyed_by_id g'.
Proof.
  unfold keyed_by_id. rewrite !Forall_forall. intros Heq H e He.
  assert ((DepGraph.name e, DepGraph.data e)
          ∈ (λ e, (DepGraph.name e, DepGraph.data e)) <$> g) as Hin.
  { rewrite <- Heq. by apply (list_elem_of_fmap_2 (λ e, (DepGraph.name e, DepGraph.data e))). }
  apply list_elem_of_fmap in Hin as (e0 & [= Hn Hd] & He0).
  rewrite Hn, Hd. by apply H.
Qed.

(** The graph [buildStepDependencyGraph] returns is consistent, keyed by
    the ids of its steps and free of cycles, and it has a node for every
    step. *)
Lemma buildStepDependencyGraph_wf steps g :
  buildStepDependencyGraph steps = Some g →
  wf g ∧ keyed_by_id g ∧ dag (DepGraph.outgoingEdges g) ∧
  ∀ step, step ∈ steps → id step ∈ DepGraph.keys g.
Proof.
  unfold buildStepDependencyGraph.
  set (nodes := foldl _ _ steps).
  assert (wf nodes ∧ keyed_by_id nodes ∧
          ∀ step, step ∈ steps → id step ∈ DepGraph.keys nodes)
    as (Hwf0 & Hid0 & Hall0).
  { subst nodes. induction steps as [|s steps IH] using rev_ind.
    - split_and!; [by apply (bool_decide_unpack _)|by apply Forall_nil|].
      by intros ? ?%elem_of_nil.
    - rewrite foldl_app. simpl. destruct IH as (Hwf & Hid & Hall).
      split_and!.
      + by apply addNode_wf.
      + unfold DepGraph.addNode. destruct (DepGraph.hasNode _ _); [done|].
        unfold keyed_by_id. apply Forall_app. split; [done|].
        by apply Forall_singleton.
      + intros step [Hs| ->%list_elem_of_singleton]%elem_of_app.
        * apply list_elem_of_fmap. specialize (Hall step Hs).
          apply list_elem_of_fmap in Hall as (e & -> & He). exists e.
          split; [done|]. by apply addNode_subseteq.
        * apply addNode_keys. }
  destruct (foldM _ steps nodes) as [g1|] eqn:Hfold; [|done]. simpl.
  destruct (DepGraph.overallOrder g1 false) as [order|] eqn:Ho; [|done]. simpl.
  intros [= <-].
  assert (wf g1 ∧ (λ e, (DepGraph.name e, DepGraph.data e)) <$> g1
                  = (λ e, (DepGraph.name e, DepGraph.data e)) <$> nodes)
    as [Hwf1 Hnames].
  { revert Hfold.
    apply (foldM_ind _ (λ _ t, wf t ∧
             (λ e, (DepGraph.name e, DepGraph.data e)) <$> t
             = (λ e, (DepGraph.name e, DepGraph.data e)) <$> nodes)); [done|].
    intros _ s t t' Ht _.
    apply (foldM_ind _ (λ _ t, wf t ∧
             (λ e, (DepGraph.name e, DepGraph.data e)) <$> t
             = (λ e, (DepGraph.name e, DepGraph.data e)) <$> nodes)); [done|].
    intros _ d u u' [Hu Hun] _ Hadd. split.
    - by eapply addDependency_wf.
    - by rewrite (addDependency_names _ _ _ _ Hadd). }
  split_and!.
  - done.
  - by apply (keyed_by_id_names nodes).
  - by eapply overallOrder_dag.
  - intros step Hs. specialize (Hall0 step Hs).
    unfold DepGraph.keys in *.
    replace (DepGraph.name <$> g1)
      with (fst <$> ((λ e, (DepGraph.name e, DepGraph.data e)) <$> g1))
      by (by rewrite <- list_fmap_compose).
    rewrite Hnames, <- list_fmap_compose. done.
Qed.

(** ** The properties of the scheduler *)

Section Scheduler_properties.
Variable G : DepGraph.t Step.
Variable S : gmap string StepStartState.
Local Abbreviation is_disabled := (SchedulerSpec.is_disabled S).

(** The ids of a resolved vector are those of [overallOrder], in its
    order. *)
Lemma resolved_ids evs st v :
  wf G → keyed_by_id G →
  run G S evs = Some st → settled st = Some (Resolved v) →
  DepGraph.overallOrder G false = Some (r_id <$> v).
Proof.
  intros Hwf Hid Hrun Hres.
  destruct (Inv_run G S Hwf Hid evs st Hrun) as (m0 & R & Hm & [HP _]).
  destruct (buildStepResultsMap_spec G S Hwf Hid m0 Hm)
    as (order & Ho & Hkeys & _).
  destruct (inv_resolved _ _ _ _ _ HP v Hres) as (_ & _ & ->).
  rewrite Ho. f_equal. symmetry.
  rewrite <- Hkeys, <- (inv_map_keys _ _ _ _ _ HP).
  apply map_values_ids, (inv_map_ids _ _ _ _ _ HP).
Qed.

(** When the run resolves, the results vector lists the steps in the
    order of [inputGraph.overallOrder()]: every step of the graph exactly
    once, each after the steps it depends on. *)
Lemma results_in_topological_order evs st v :
  wf G → keyed_by_id G →
  run G S evs = Some st → settled st = Some (Resolved v) →
  DepGraph.overallOrder G false = Some (r_id <$> v) ∧
  NoDup (r_id <$> v) ∧
  (∀ s, s ∈ r_id <$> v ↔ s ∈ DepGraph.keys G) ∧
  topo (DepGraph.outgoingEdges G) (r_id <$> v).
Proof.
  intros Hwf Hid Hrun Hres.
  pose proof (resolved_ids evs st v Hwf Hid Hrun Hres) as Ho.
  destruct (Inv_run G S Hwf Hid evs st Hrun) as (m0 & R & Hm & _).
  destruct (buildStepResultsMap_spec G S Hwf Hid m0 Hm)
    as (order & Ho' & _ & Hnd & Hall & _).
  rewrite Ho in Ho'. injection Ho' as <-.
  split_and!; [done|done|done|].
  by destruct (overallOrder_spec G false _ Hwf Ho) as (_ & _ & Ht); apply Ht.
Qed.

(** A step whose start state has [disabled = true], and a step that
    depends (directly or through other steps) on such a step, keeps the
    status [DISABLED] and is never dispatched. *)
Lemma disabled_never_dispatched evs st s :
  wf G → keyed_by_id G → run G S evs = Some st →
  s ∈ DepGraph.keys G →
  (is_disabled s ∨
   ∃ d, tc (edge (DepGraph.outgoingEdges G)) s d ∧ is_disabled d) →
  status_of (stepResultsMap st) s = Some DISABLED ∧
  (s ∉ active st) ∧
  (∀ ev, ev ∈ log st → log_step ev ≠ s) ∧
  (∀ v, settled st = Some (Resolved v) →
        ∃ r, r ∈ v ∧ r_id r = s ∧ status r = DISABLED).
Proof.
  intros Hwf Hid Hrun Hs Hdis.
  destruct (Inv_run G S Hwf Hid evs st Hrun) as (m0 & R & Hm & [HP _]).
  pose proof (start_dag G S m0 Hwf Hid Hm) as Hdag.
  assert (∀ x, is_disabled x → x ∉ R) as HdR.
  { intros x (ss & Hss & Hd) Hx. apply (inv_R_enabled _ _ _ _ _ HP) in Hx.
    unfold isStepEnabled in Hx. rewrite Hss in Hx. simpl in Hx. by rewrite Hd in Hx. }
  assert (∀ x, is_disabled x → disabled_truthy S x = true) as Hdt.
  { intros x (ss & Hss & Hd). unfold disabled_truthy. by rewrite Hss, Hd. }
  assert (s ∉ R) as HsR.
  { destruct Hdis as [?|(d & Hsd & Hd)]; [by apply HdR|].
    intros HsR. apply (HdR d Hd). eapply closed_rtc; [|exact HsR|by apply tc_rtc].
    intros a b. apply (inv_R_closed _ _ _ _ _ HP). }
  assert (status_of (stepResultsMap st) s = Some DISABLED) as Hst.
  { unfold status_of. rewrite (inv_seed _ _ _ _ _ HP s HsR).
    destruct (seed_lookup G S m0 Hwf Hid Hm s Hs) as (r & deps & -> & Hdeps & Hr).
    simpl. rewrite Hr. unfold seed.
    destruct Hdis as [Hd|(d & Hsd & Hd)]; [by rewrite (Hdt s Hd)|].
    assert (existsb (disabled_truthy S) deps = true) as ->.
    { apply existsb_exists. exists d. split; [|by apply Hdt].
      apply list_elem_of_In. by apply (dependenciesOf_tc G s deps d Hdag Hdeps). }
    by rewrite orb_true_r. }
  split_and!; [done| | |].
  - intros Ha. by apply (inv_active _ _ _ _ _ HP) in Ha as [? _].
  - intros ev Hev <-. by apply (inv_log _ _ _ _ _ HP) in Hev.
  - intros v Hv. destruct (inv_resolved _ _ _ _ _ HP v Hv) as (_ & _ & ->).
    unfold status_of in Hst.
    destruct (map_get (stepResultsMap st) s) as [r|] eqn:Hget; [|done].
    exists r. apply map_get_Some in Hget as Hin. split_and!.
    + unfold map_values. apply list_elem_of_fmap. by exists (s, r).
    + by apply (inv_map_ids _ _ _ _ _ HP).
    + by simplify_eq/=.
Qed.

(** If every step's start state sets [disabled] to a boolean, then in
    the results vector a run resolves with no entry is left in
    [PENDING_EVALUATION]. *)
Lemma all_terminal_when_resolved evs st v :
  wf G → keyed_by_id G →
  (∀ s ss, s ∈ DepGraph.keys G → S !! s = Some ss → Js.is_boolean (disabled ss)) →
  run G S evs = Some st → settled st = Some (Resolved v) →
  isPaused st = false ∧ ∀ r, r ∈ v → status r ≠ PENDING_EVALUATION.
Proof.
  intros Hwf Hid Hbool Hrun Hres.
  destruct (Inv_run G S Hwf Hid evs st Hrun) as (m0 & R & Hm & [HP Hready]).
  destruct (buildStepResultsMap_spec G S Hwf Hid m0 Hm)
    as (order & Ho & Hkeys & Hnd & Hall & _ & Hseeds).
  destruct (overallOrder_rank G false order Ho) as (rank & Hrank & _).
  pose proof (start_dag G S m0 Hwf Hid Hm) as Hdag.
  destruct (inv_resolved _ _ _ _ _ HP v Hres) as (Hq & Hfl & ->).
  assert (isPaused st = false) as Hp.
  { destruct (isPaused st) eqn:Hp; [|done].
    apply (inv_paused _ _ _ _ _ HP) in Hp as [e He]. congruence. }
  split; [done|]. specialize (Hready Hp).
  assert (active st = []) as Hact by (unfold active; by rewrite Hq, Hfl).
  assert (∀ n k, k ∈ DepGraph.keys G → rank k < n →
                 status_of (stepResultsMap st) k ≠ Some PENDING_EVALUATION) as Hnp.
  { induction n as [|n IH]; intros k Hk Hlt Hpend; [lia|].
    assert (k ∉ R) as HkR.
    { intros HkR. destruct (inv_done _ _ _ _ _ HP Hp k HkR) as (x & Hx & Hex).
      - rewrite Hact. set_solver.
      - rewrite Hx in Hpend. destruct Hex as [?|[?|[?|?]]]; congruence. }
    destruct (Hseeds k Hk) as ([ss Hss] & r & deps & Hget & Hdeps & _ & Hr).
    assert (seed S deps k = PENDING_EVALUATION) as Hseed.
    { unfold status_of in Hpend. rewrite (inv_seed _ _ _ _ _ HP k HkR), Hget in Hpend.
      simpl in Hpend. congruence. }
    unfold seed in Hseed.
    destruct (disabled_truthy S k) eqn:Hdk; [done|].
    destruct (existsb (disabled_truthy S) deps) eqn:Hdd; [done|]. clear Hseed.
    assert (∀ d, d ∈ deps → status_of (stepResultsMap st) d ≠ Some PENDING_EVALUATION)
      as Hdeps_done.
    { intros d Hd. apply (dependenciesOf_tc G k deps d Hdag Hdeps) in Hd.
      apply IH.
      - apply tc_rtc in Hd. clear -Hd Hk Hwf.
        induction Hd as [|a b c Hab Hbc IHd]; [done|].
        apply IHd. by destruct (edge_out_keys G a b Hwf Hab).
      - apply (rank_tc _ rank) in Hd; [lia|done]. }
    apply (Hready k). split_and!; [done|done| | |].
    - intros d Hkd. destruct (decide (d ∈ R)) as [|HdR]; [done|]. exfalso.
      assert (d ∈ deps) as Hd.
      { apply (dependenciesOf_tc G k deps d Hdag Hdeps). by apply tc_once. }
      destruct (edge_out_keys G k d Hwf Hkd) as [_ Hdk'].
      destruct (Hseeds d Hdk') as (_ & rd & depsd & Hgetd & Hdepsd & _ & Hrd).
      apply (Hdeps_done d Hd). unfold status_of.
      rewrite (inv_seed _ _ _ _ _ HP d HdR), Hgetd. simpl. rewrite Hrd. f_equal.
      unfold seed.
      assert (disabled_truthy S d = false) as ->.
      { destruct (disabled_truthy S d) eqn:Hx; [|done].
        apply not_true_iff_false in Hdd. exfalso. apply Hdd.
        apply existsb_exists. exists d. split; [by apply list_elem_of_In|done]. }
      destruct (existsb (disabled_truthy S) depsd) eqn:Hx; [|done].
      apply existsb_exists in Hx as (d' & Hd'%list_elem_of_In & Hx).
      apply not_true_iff_false in Hdd. exfalso. apply Hdd.
      apply existsb_exists. exists d'. split; [|done]. apply list_elem_of_In.
      apply (dependenciesOf_tc G k deps d' Hdag Hdeps).
      apply (dependenciesOf_tc G d depsd d' Hdag Hdepsd) in Hd'.
      by eapply tc_l.
    - unfold isStepEnabled. rewrite Hss. simpl. f_equal.
      specialize (Hbool k ss Hk Hss). unfold disabled_truthy in Hdk.
      rewrite Hss in Hdk. destruct (disabled ss) as [| |[]| |]; done.
    - unfold stepDependenciesAreComplete. rewrite Hdeps. simpl. f_equal.
      apply bool_decide_eq_true_2. apply length_zero_iff_nil.
      apply filter_nil_Forall. apply Forall_forall.
      intros x (d & -> & Hd)%list_elem_of_fmap. by apply Hdeps_done. }
  intros r (kr & -> & Hin)%list_elem_of_fmap Hst. destruct kr as [k r].
  assert (k ∈ DepGraph.keys G) as Hk.
  { apply Hall. rewrite <- Hkeys, <- (inv_map_keys _ _ _ _ _ HP).
    apply list_elem_of_fmap. by exists (k, r). }
  apply (Hnp (Datatypes.S (rank k)) k Hk); [lia|].
  unfold status_of. erewrite map_get_elem; [simpl; by f_equal| |done].
  rewrite (inv_map_keys _ _ _ _ _ HP), Hkeys. done.
Qed.

(** C1 (as amended). If [waitUntilUploadsComplete] throws after a
    successful flush, the step's status becomes [FAILURE] and nothing
    else happens to the run: the queue is not paused, the promise is not
    settled by it, the run can go on to its resolution, the status
    stays, and a resolution carries it in the ordered vector. If [flush] itself throws, the error goes to
    [handleUnexpectedError]: the queue is paused, the run is rejected
    with that error, and the step's entry is left as it was. *)
Theorem C1_upload_wait_failure_is_not_fatal evs st step x fr :
  wf G → keyed_by_id G →
  run G S evs = Some st → (step, AwaitingFlush x) ∈ inFlight st →
  (∀ err,
     flushError fr = None → waitUntilUploadsComplete fr = Some (Some err) →
     ∃ st1,
       next G S st (EvFlushDone (id step) fr) = Some st1 ∧
       status_of (stepResultsMap st1) (id step) = Some FAILURE ∧
       isPaused st1 = isPaused st ∧ settled st1 = settled st ∧
       (isPaused st = false → settled st = None →
        ∃ evs' st2 v,
          exec G S st1 evs' = Some st2 ∧ settled st2 = Some (Resolved v)) ∧
       ∀ evs' st2,
         exec G S st1 evs' = Some st2 →
         status_of (stepResultsMap st2) (id step) = Some FAILURE ∧
         ∀ v, settled st2 = Some (Resolved v) →
              DepGraph.overallOrder G false = Some (r_id <$> v) ∧
              ∃ r, r ∈ v ∧ r_id r = id step ∧ status r = FAILURE) ∧
  (∀ err,
     flushError fr = Some err →
     ∃ st1,
       next G S st (EvFlushDone (id step) fr) = Some st1 ∧
       isPaused st1 = true ∧
       settled st1 =
         Some (match settled st with Some o => o | None => Rejected err end) ∧
       status_of (stepResultsMap st1) (id step) = Some PENDING_EVALUATION).
Proof.
  intros Hwf Hid Hrun Hin. split.
  - intros err Hflush Hwait.
    destruct (flush_ok G S Hwf Hid evs st step x fr Hrun Hin Hflush)
      as (st1 & Hn & Hst & Hp & Hs).
    rewrite Hwait in Hst.
    pose proof (run_snoc G S evs st _ st1 Hrun Hn) as Hrun1.
    exists st1. do 4 (split; [done|]). split.
    { intros Hnp Hns.
      destruct (run_can_resolve G S Hwf Hid _ st1 Hrun1)
        as (evs' & st2 & v & Hr & Hv); [congruence|congruence|].
      exists evs', st2, v. split; [|done].
      by rewrite run_app, Hrun1 in Hr. }
    intros evs' st2 Hex.
    destruct (Inv_run G S Hwf Hid _ st1 Hrun1) as (m0 & R1 & Hm & HI1).
    assert (status_of (stepResultsMap st2) (id step) = Some FAILURE) as Hst2.
    { eapply (executed_stable G S Hwf Hid m0 evs' st1 R1); try done.
      unfold executed. tauto. }
    split; [done|]. intros v Hv.
    assert (run G S ((evs ++ [EvFlushDone (id step) fr]) ++ evs') = Some st2)
      as Hrun2 by (by rewrite run_app, Hrun1).
    split.
    + by apply (resolved_ids _ st2 v Hwf Hid Hrun2 Hv).
    + destruct (Inv_run G S Hwf Hid _ st2 Hrun2) as (m0' & R2 & Hm' & HI2).
      by eapply resolved_entry.
  - intros err Hflush.
    destruct (flush_throws G S Hwf Hid evs st step x fr err Hrun Hin Hflush)
      as (st1 & ? & ? & ? & ? & ?).
    by exists st1.
Qed.

(** C9. [hasCachePath] is the plain truthiness test of [stepCachePath]:
    the [?? false] never applies, its left operand being a boolean. *)
Theorem C9_hasCachePath_is_truthiness stepId :
  hasCachePath S stepId = hasCachePath_truthiness S stepId ∧
  ∀ v, Js.nullish (Js.not (Js.not v)) (Js.VBool false) = Js.not (Js.not v).
Proof.
  split; [|done]. unfold hasCachePath, hasCachePath_truthiness.
  destruct (S !! stepId) as [ss|]; [|done]. simpl. unfold Js.not. simpl.
  by rewrite negb_involutive.
Qed.

(** C6. When a dispatched step goes through its handler (no cache path,
    or a cache that yields nothing) and the handler returns, the status
    the [try] ends with is [PARTIAL_SUCCESS_DUE_TO_DEPENDENCY_FAILURE] if
    some dependency has a failed result, and [SUCCESS] otherwise; in the
    latter case the encountered types that are not declared are logged
    in one warning (and no such warning is logged when there are none).
    That status is the one written to the results when the flush and the
    upload wait that follow do not throw. *)
Theorem C6_handler_path_status evs st step hr deps :
  wf G → keyed_by_id G →
  run G S evs = Some st → (step, AwaitingHandler) ∈ inFlight st →
  cache_miss S (id step) (cacheRun hr) →
  handlerError (handlerRun hr) = None →
  DepGraph.dependenciesOf G (id step) = Some deps →
  ∃ st1 l x,
    next G S st (EvHandlerDone (id step) hr) = Some st1 ∧
    log st1 = log st ++ l ∧ LHandler (id step) ∈ l ∧
    (step, AwaitingFlush x) ∈ inFlight st1 ∧
    let undeclared :=
      filter (λ ty, ty ∉ (getDeclaredTypesInStep step).1)
        (getEncounteredTypesForStep (typeTracker st1) (id step)) in
    (dependency_failed (stepResultsMap st) deps →
     x = PARTIAL_SUCCESS_DUE_TO_DEPENDENCY_FAILURE) ∧
    (¬ dependency_failed (stepResultsMap st) deps →
     x = SUCCESS ∧
     (undeclared ≠ [] → LUndeclaredTypes (id step) undeclared ∈ l) ∧
     (undeclared = [] → ∀ u, LUndeclaredTypes (id step) u ∉ l)) ∧
    ∀ fr, flushError fr = None →
          (∀ err, waitUntilUploadsComplete fr ≠ Some (Some err)) →
          ∃ st2, next G S st1 (EvFlushDone (id step) fr) = Some st2 ∧
                 status_of (stepResultsMap st2) (id step) = Some x.
Proof.
  intros Hwf Hid Hrun Hin Hmiss Hh Hdeps.
  destruct (in_flight_take G S Hwf Hid evs st step _ Hrun Hin) as [rest Htake].
  destruct (handler_path_status G S (stepResultsMap st) (typeTracker st) step hr deps
              Hmiss Hh Hdeps) as (tt' & l & x & Hph & Hl & _ & Hfail & Hok).
  assert (∃ st1, next G S st (EvHandlerDone (id step) hr) = Some st1 ∧
                 (step, AwaitingFlush x) ∈ inFlight st1 ∧
                 log st1 = log st ++ l ∧ typeTracker st1 = tt')
    as (st1 & Hn1 & Hin1 & Hlog1 & Htt1).
  { simpl. rewrite Htake. simpl. rewrite Hph. simpl.
    eexists. split; [done|]. simpl. split; [set_solver|done]. }
  exists st1, l, x. rewrite Htt1. do 4 (split; [done|]). cbv zeta.
  do 2 (split; [done|]).
  intros fr Hflush Hwait.
  pose proof (run_snoc G S evs st _ st1 Hrun Hn1) as Hrun1.
  destruct (flush_ok G S Hwf Hid _ st1 step x fr Hrun1 Hin1 Hflush)
    as (st2 & Hn & Hst & _).
  exists st2. split; [done|]. rewrite Hst.
  destruct (waitUntilUploadsComplete fr) as [[err|]|]; [|done..].
  by destruct (Hwait err).
Qed.

(** C10 (as amended). When the cache loader reports [CACHED], the status
    the [try] ends with is [CACHED] whatever the results of the
    dependencies are, and neither the handler nor the undeclared-types
    warning runs; the status written in the end is [CACHED] provided the
    flush and the upload wait do not throw. *)
Theorem C10_cached_status_ignores_dependencies evs st step hr :
  wf G → keyed_by_id G →
  run G S evs = Some st → (step, AwaitingHandler) ∈ inFlight st →
  cache_hit S (id step) (cacheRun hr) →
  ∃ st1 l,
    next G S st (EvHandlerDone (id step) hr) = Some st1 ∧
    (step, AwaitingFlush CACHED) ∈ inFlight st1 ∧
    log st1 = log st ++ l ∧
    (LHandler (id step) ∉ l) ∧ (∀ u, LUndeclaredTypes (id step) u ∉ l) ∧
    ∀ fr, flushError fr = None →
          (∀ err, waitUntilUploadsComplete fr ≠ Some (Some err)) →
          ∃ st2, next G S st1 (EvFlushDone (id step) fr) = Some st2 ∧
                 status_of (stepResultsMap st2) (id step) = Some CACHED.
Proof.
  intros Hwf Hid Hrun Hin ((v & Hv & Htr) & Hb & He).
  destruct (in_flight_take G S Hwf Hid evs st step _ Hrun Hin) as [rest Htake].
  assert (∃ tt' l,
            executeStepHandlerPhase G S (stepResultsMap st) (typeTracker st) step hr
            = (inr CACHED, tt', l) ∧
            (LHandler (id step) ∉ l) ∧ ∀ u, LUndeclaredTypes (id step) u ∉ l)
    as (tt' & l & Hph & Hl1 & Hl2).
  { unfold executeStepHandlerPhase, executeStepTry. rewrite Hv, Htr.
    unfold loadCacheForStep. rewrite He.
    rewrite bool_decide_eq_false_2 by done. simpl.
    eexists _, _. split; [done|]. case_bool_decide; set_solver. }
  assert (∃ st1, next G S st (EvHandlerDone (id step) hr) = Some st1 ∧
                 (step, AwaitingFlush CACHED) ∈ inFlight st1 ∧
                 log st1 = log st ++ l) as (st1 & Hn1 & Hin1 & Hlog1).
  { simpl. rewrite Htake. simpl. rewrite Hph. simpl.
    eexists. split; [done|]. simpl. split; [set_solver|done]. }
  exists st1, l. split_and!; [done..|].
  intros fr Hflush Hwait.
  pose proof (run_snoc G S evs st _ st1 Hrun Hn1) as Hrun1.
  destruct (flush_ok G S Hwf Hid _ st1 step CACHED fr Hrun1 Hin1 Hflush)
    as (st2 & Hn & Hst & _).
  exists st2. split; [done|]. rewrite Hst.
  destruct (waitUntilUploadsComplete fr) as [[err|]|]; [|done..].
  by destruct (Hwait err).
Qed.
End Scheduler_properties.

(** ** The scheduler on the scenarios *)

(** C1 on the diamond: the upload wait of a throws. *)
Lemma C1_witness :
  ∃ st1,
    next diamond diamond_states diamond_flushing (EvFlushDone "a" upload_fails)
      = Some st1 ∧
    status_of (stepResultsMap st1) "a" = Some FAILURE ∧
    isPaused st1 = false ∧ settled st1 = None.
Proof.
  destruct (C1_upload_wait_failure_is_not_fatal diamond diamond_states
              [EvStart; EvHandlerDone "a" (handler_ok ["t"])] diamond_flushing
              (step "a" []) SUCCESS upload_fails) as [Hwait _].
  - by apply (bool_decide_unpack _).
  - by apply (bool_decide_unpack _).
  - vm_compute. reflexivity.
  - apply list_elem_of_here.
  - destruct (Hwait (mkErr "UPLOAD" false) eq_refl eq_refl)
      as (st1 & Hn & Hs & Hp & Hset & _ & _).
    exists st1. split_and!; [exact Hn|exact Hs|exact Hp|exact Hset].
Defined.

(** C1 as stated fails for [flush]: when the flush of a throws, the run
    is rejected with that error, a keeps [PENDING_EVALUATION] and no other
    step is ever started. *)
Lemma C1_counterexample :
  ∃ st,
    run diamond diamond_states
      [EvStart; EvHandlerDone "a" (handler_ok ["t"]); EvFlushDone "a" flush_fails;
       EvIdle] = Some st ∧
    settled st = Some (Rejected (mkErr "FLUSH" false)) ∧
    isPaused st = true ∧ queued st = [] ∧ inFlight st = [] ∧
    (λ kr, (kr.1, status kr.2)) <$> stepResultsMap st
    = [("a", PENDING_EVALUATION); ("b", PENDING_EVALUATION);
       ("c", PENDING_EVALUATION); ("d", PENDING_EVALUATION)].
Proof. eexists. split; [vm_compute; reflexivity|]. vm_compute. done. Qed.

(** C6 on the diamond: d runs after b has failed. *)
Lemma C6_witness :
  ∃ st1 st2,
    next diamond diamond_states diamond_d_running
      (EvHandlerDone "d" (handler_ok ["t"; "x"])) = Some st1 ∧
    (step "d" ["b"; "c"], AwaitingFlush PARTIAL_SUCCESS_DUE_TO_DEPENDENCY_FAILURE)
      ∈ inFlight st1 ∧
    next diamond diamond_states st1 (EvFlushDone "d" flush_fine) = Some st2 ∧
    status_of (stepResultsMap st2) "d"
    = Some PARTIAL_SUCCESS_DUE_TO_DEPENDENCY_FAILURE.
Proof.
  destruct (C6_handler_path_status diamond diamond_states (take 10 diamond_events)
              diamond_d_running (step "d" ["b"; "c"]) (handler_ok ["t"; "x"])
              diamond_dependencies_of_d)
    as (st1 & l & x & Hn & _ & _ & Hin & Hfail & _ & Hfl).
  - by apply (bool_decide_unpack _).
  - by apply (bool_decide_unpack _).
  - vm_compute. reflexivity.
  - apply list_elem_of_here.
  - exists (Js.VBool false). split; [vm_compute; reflexivity|]. intros [=].
  - reflexivity.
  - vm_compute. reflexivity.
  - assert (x = PARTIAL_SUCCESS_DUE_TO_DEPENDENCY_FAILURE) as ->.
    { apply Hfail.
      exists "b", (mkResult "b" "b" (Some ["a"]) ["t"] [] [] FAILURE).
      split_and!; [|vm_compute; reflexivity|by left].
      vm_compute. apply list_elem_of_further, list_elem_of_here. }
    destruct (Hfl flush_fine eq_refl) as (st2 & Hn2 & Hs2); [by intros err|].
    exists st1, st2. split_and!; [exact Hn|exact Hin|exact Hn2|exact Hs2].
Defined.

(** C10 on the pair: b is loaded from its cache after a has failed. *)
Lemma C10_witness :
  status_of (stepResultsMap pair_dispatched) "a" = Some FAILURE ∧
  ∃ st1 st2,
    next pair pair_states pair_dispatched (EvHandlerDone "b" cache_loaded)
      = Some st1 ∧
    (step "b" ["a"], AwaitingFlush CACHED) ∈ inFlight st1 ∧
    next pair pair_states st1 (EvFlushDone "b" flush_fine) = Some st2 ∧
    status_of (stepResultsMap st2) "b" = Some CACHED.
Proof.
  split; [vm_compute; reflexivity|].
  destruct (C10_cached_status_ignores_dependencies pair pair_states pair_events
              pair_dispatched (step "b" ["a"]) cache_loaded)
    as (st1 & l & Hn & Hin & _ & _ & _ & Hfl).
  - by apply (bool_decide_unpack _).
  - by apply (bool_decide_unpack _).
  - vm_compute. reflexivity.
  - apply list_elem_of_here.
  - split_and!; [|done|done].
    exists (Js.VBool true). split; [vm_compute; reflexivity|reflexivity].
  - destruct (Hfl flush_fine eq_refl) as (st2 & Hn2 & Hs2); [by intros err|].
    exists st1, st2. split_and!; [exact Hn|exact Hin|exact Hn2|exact Hs2].
Defined.

(** C10 as stated fails when the upload wait of the cached step throws:
    the cache loader has reported [CACHED], the final status is [FAILURE]. *)
Lemma C10_counterexample :
  cache_hit pair_states "b" (cacheRun cache_loaded) ∧
  ∃ st v,
    run pair pair_states
      (pair_events ++ [EvHandlerDone "b" cache_loaded;
                       EvFlushDone "b" upload_fails; EvIdle]) = Some st ∧
    settled st = Some (Resolved v) ∧
    (λ r, (r_id r, status r)) <$> v = [("a", FAILURE); ("b", FAILURE)].
Proof.
  split.
  - split_and!; [|done|done].
    exists (Js.VBool true). split; [vm_compute; reflexivity|reflexivity].
  - eexists _, _. split; [vm_compute; reflexivity|]. split; reflexivity.
Qed.

(** ** What a pass of [enqueueLeafSteps] dispatches *)

Section Dispatch_facts.
Local Set Default Proof Using "All".
Variable G : DepGraph.t Step.
Variable S : gmap string StepStartState.
Variable m0 : ResultsMap.
Hypothesis Hwf : wf G.
Hypothesis Hid : keyed_by_id G.
Hypothesis Hstart : buildStepResultsMap G S = Some m0.

Local Abbreviation E := (DepGraph.outgoingEdges G).

(** The state a pass leaves, when the queue is not paused. *)
Lemma enqueueLeafSteps_explicit st R :
  workingGraph st = restrict G R → isPaused st = false →
  ∃ D Ds,
    enqueueLeafSteps G S st =
      inl (mkState (restrict G (reverse D ++ R)) (stepResultsMap st) (typeTracker st)
             (queued st ++ Ds) (inFlight st) (isPaused st) (settled st) (log st)) ∧
    id <$> Ds = D ∧ NoDup D ∧
    ∀ l, l ∈ D →
         l ∈ DepGraph.keys G ∧ (l ∉ R) ∧ isStepEnabled S l = Some true ∧
         stepDependenciesAreComplete G (stepResultsMap st) l = Some true.
Proof.
  intros Hwg Hp. unfold enqueueLeafSteps. rewrite Hp.
  destruct (overallOrder_total (restrict G R) true (wf_restrict _ _ Hwf)
              (dag_restrict _ _ (start_dag G S m0 Hwf Hid Hstart))) as [leaves Hl].
  rewrite Hwg, Hl.
  destruct (leaves_spec G S m0 Hwf Hid Hstart R leaves Hl) as [Hlnd Hleaves].
  destruct (enqueueLeaves_spec G S m0 Hwf Hid Hstart leaves st R Hwg Hlnd)
    as (D & Ds & HE & HF & HDnd & HD).
  { intros l Hlin. apply Hleaves in Hlin. tauto. }
  exists D, Ds. split_and!; [by rewrite HE, Hp| |done|].
  - by apply (dispatched_ids G S m0 Hwf Hid Hstart).
  - intros l (Hl' & Hen & Hc)%HD. apply Hleaves in Hl'. tauto.
Qed.

(** The steps taken out of the working graph are those of [R]. *)
Lemma dispatched_R st R s :
  PreInv G S m0 st R → dispatched G st s ↔ s ∈ R.
Proof.
  intros HP. unfold dispatched. rewrite (inv_wg _ _ _ _ _ HP), keys_restrict.
  rewrite list_elem_of_filter. split.
  - intros [Hk Hn]. destruct (decide (s ∈ R)); [done|]. by destruct Hn.
  - intros HR. split; [by apply (inv_R_keys _ _ _ _ _ HP)|]. tauto.
Qed.

(** A transition dispatches a step only when the queue is not paused
    and none of its dependencies is pending. *)
Lemma next_dispatched st R ev st' s :
  Inv G S m0 st R → next G S st ev = Some st' →
  dispatched G st' s → ¬ dispatched G st s →
  isPaused st' = false ∧
  stepDependenciesAreComplete G (stepResultsMap st') s = Some true.
Proof.
  intros [HP _] Hn Hs' Hs.
  assert (workingGraph st' = workingGraph st → False) as Hsame.
  { intros Heq. apply Hs. unfold dispatched in *. by rewrite <- Heq. }
  destruct ev as [|sid hr|sid fr|]; simpl in Hn.
  - exfalso. apply Hsame. repeat case_match; by simplify_eq.
  - exfalso. apply Hsame.
    destruct (take_task sid (inFlight st)) as [[[step p] rest]|]; [|done].
    simpl in Hn. destruct p; [|done].
    destruct (executeStepHandlerPhase _ _ _ _ _ _) as [[[e|x] tt'] l];
      by simplify_eq.
  - destruct (take_task sid (inFlight st)) as [[[step p] rest]|] eqn:Ht; [|done].
    simpl in Hn. destruct p as [|x]; [done|].
    destruct (executeStepFlushPhase step x fr) as [[e|x'] l].
    { exfalso. apply Hsame. by simplify_eq. }
    destruct (isPaused st) eqn:Hp.
    { exfalso. apply Hsame. unfold enqueueLeafSteps in Hn. simpl in Hn.
      by simplify_eq. }
    match type of Hn with
    | match enqueueLeafSteps _ _ ?st2 with _ => _ end = _ =>
        destruct (enqueueLeafSteps_explicit st2 R) as (D & Ds & HE & HDs & HDnd & HD);
          [apply (inv_wg _ _ _ _ _ HP)|done|]
    end.
    rewrite HE in Hn. injection Hn as <-. simpl in *. split; [done|].
    apply HD. destruct Hs' as [Hk Hs']. simpl in Hs'.
    rewrite keys_restrict in Hs'.
    rewrite list_elem_of_filter in Hs'.
    destruct (decide (s ∈ reverse D ++ R)) as [Hin|Hin]; [|tauto].
    apply elem_of_app in Hin as [Hin|Hin].
    + by rewrite elem_of_reverse in Hin.
    + destruct Hs. by apply (dispatched_R st R).
  - exfalso. apply Hsame. repeat case_match; by simplify_eq.
Qed.

(** The first pass dispatches the steps without dependencies. *)
Lemma start_dispatched st0 s :
  executeStepDependencyGraph G S = Some st0 → dispatched G st0 s →
  isPaused st0 = false ∧
  stepDependenciesAreComplete G (stepResultsMap st0) s = Some true.
Proof.
  unfold executeStepDependencyGraph. rewrite Hstart. simpl.
  destruct (enqueueLeafSteps_explicit
              (mkState (DepGraph.clone G) m0 ∅ [] [] false None []) [])
    as (D & Ds & -> & HDs & HDnd & HD).
  { unfold DepGraph.clone. simpl. by rewrite restrict_nil. }
  { done. }
  intros [= <-] [Hk Hs]. simpl in *. split; [done|]. apply HD.
  rewrite keys_restrict, list_elem_of_filter in Hs.
  destruct (decide (s ∈ reverse D ++ [])) as [Hin|Hin]; [|tauto].
  rewrite app_nil_r in Hin. by rewrite elem_of_reverse in Hin.
Qed.
End Dispatch_facts.

(** ** Dependencies come first *)

Section Order_history.
Local Set Default Proof Using "All".
Variable G : DepGraph.t Step.
Variable S : gmap string StepStartState.
Hypothesis Hwf : wf G.
Hypothesis Hid : keyed_by_id G.

Local Abbreviation E := (DepGraph.outgoingEdges G).

(** A pending dependency keeps [stepDependenciesAreComplete] false,
    however far down it is. *)
Lemma pending_incomplete m s d :
  dag E → tc (edge E) s d → status_of m d = Some PENDING_EVALUATION →
  stepDependenciesAreComplete G m s ≠ Some true.
Proof.
  intros Hdag Hsd Hd. unfold stepDependenciesAreComplete.
  destruct (DepGraph.dependenciesOf G s) as [deps|] eqn:Hdeps; [|done]. simpl.
  intros [= Hlen%bool_decide_eq_true%length_zero_iff_nil].
  assert (map_get m d ∈ filter (λ r, status <$> r = Some PENDING_EVALUATION)
                          (map_get m <$> deps)) as Hin.
  { apply list_elem_of_filter. split; [done|].
    apply list_elem_of_fmap. exists d. split; [done|].
    by apply (dependenciesOf_tc G s deps d Hdag Hdeps). }
  rewrite Hlen in Hin. by apply elem_of_nil in Hin.
Qed.

(** What the test made at dispatch time says about the dependencies. *)
Lemma complete_executed m0 st R s d :
  buildStepResultsMap G S = Some m0 → Inv G S m0 st R →
  isPaused st = false → s ∈ R →
  stepDependenciesAreComplete G (stepResultsMap st) s = Some true →
  tc (edge E) s d →
  ∃ x, status_of (stepResultsMap st) d = Some x ∧ executed x.
Proof.
  intros Hm [HP _] Hp Hs Hc Hsd.
  pose proof (start_dag G S m0 Hwf Hid Hm) as Hdag.
  assert (d ∈ R) as Hd.
  { eapply closed_rtc; [|exact Hs|by apply tc_rtc].
    intros a b. apply (inv_R_closed _ _ _ _ _ HP). }
  destruct (decide (d ∈ active st)) as [Ha|Ha].
  - apply (inv_active _ _ _ _ _ HP) in Ha as [_ Ha].
    by destruct (pending_incomplete _ s d Hdag Hsd Ha).
  - by apply (inv_done _ _ _ _ _ HP).
Qed.

(** In every state, each dependency of a step that was dispatched has
    been executed. *)
Lemma dispatched_after_dependencies evs : ∀ st s d,
  run G S evs = Some st → dispatched G st s → tc (edge E) s d →
  ∃ x, status_of (stepResultsMap st) d = Some x ∧ executed x.
Proof.
  induction evs as [|ev evs IH] using rev_ind; intros st' s d Hrun Hs Hsd.
  - destruct (Inv_run G S Hwf Hid [] st' Hrun) as (m0 & R & Hm & HI).
    pose proof HI as [HP _].
    unfold run in Hrun.
    destruct (executeStepDependencyGraph G S) as [st0|] eqn:H0; [|done].
    simpl in Hrun. injection Hrun as ->.
    destruct (start_dispatched G S m0 Hwf Hid Hm st' s H0 Hs) as [Hp Hc].
    apply (complete_executed m0 st' R s d); try done.
    by apply (dispatched_R G S m0 Hwf Hid Hm st' R).
  - pose proof Hrun as Hrun'. rewrite run_app in Hrun'.
    destruct (run G S evs) as [st|] eqn:Hrun0; [|done]. simpl in Hrun'.
    unfold exec in Hrun'. simpl in Hrun'.
    destruct (next G S st ev) as [st1|] eqn:Hn; [|done]. injection Hrun' as ->.
    destruct (Inv_run G S Hwf Hid evs st Hrun0) as (m0 & R & Hm & HI).
    destruct (decide (s ∈ DepGraph.keys (workingGraph st))) as [Hk|Hk].
    + destruct (next_dispatched G S m0 Hwf Hid Hm st R ev st' s HI Hn Hs)
        as [Hp Hc]; [by intros [_ ?]|].
      destruct (Inv_run G S Hwf Hid _ st' Hrun) as (m0' & R' & Hm' & HI').
      pose proof HI' as [HP' _].
      apply (complete_executed m0' st' R' s d); try done.
      by apply (dispatched_R G S m0' Hwf Hid Hm' st' R').
    + destruct (IH st s d eq_refl) as (x & Hx & Hex); [by destruct Hs|done|].
      exists x. split; [|done].
      apply (executed_stable G S Hwf Hid m0 [ev] st R st' d x Hm HI Hx Hex). unfold exec. simpl. by rewrite Hn.
Qed.
End Order_history.

(** ** Every step is run once *)

Lemma elem_of_started l s : s ∈ started l ↔ LStepStart s ∈ l.
Proof.
  unfold started. rewrite list_elem_of_omap. split.
  - intros (ev & Hev & Hs). destruct ev; by simplify_eq.
  - intros Hs. by exists (LStepStart s).
Qed.

Lemma elem_of_invoked l s : s ∈ invoked l ↔ LHandler s ∈ l.
Proof.
  unfold invoked. rewrite list_elem_of_omap. split.
  - intros (ev & Hev & Hs). destruct ev; by simplify_eq.
  - intros Hs. by exists (LHandler s).
Qed.

Lemma started_app l1 l2 : started (l1 ++ l2) = started l1 ++ started l2.
Proof. apply omap_app. Qed.

Lemma invoked_app l1 l2 : invoked (l1 ++ l2) = invoked l1 ++ invoked l2.
Proof. apply omap_app. Qed.

Section Once_facts.
Variable G : DepGraph.t Step.
Variable S : gmap string StepStartState.

Lemma loadCacheForStep_calls tt sid c r tt' l :
  loadCacheForStep tt sid c = (r, tt', l) → started l = [] ∧ invoked l = [].
Proof.
  unfold loadCacheForStep. repeat case_match; by intros [= <- <- <-].
Qed.

Lemma maybeLogUndeclaredTypes_calls tt step :
  started (maybeLogUndeclaredTypes tt step) = [] ∧
  invoked (maybeLogUndeclaredTypes tt step) = [].
Proof. unfold maybeLogUndeclaredTypes. by case_bool_decide. Qed.

Lemma executeStepTry_calls m tt step hr r tt' l :
  executeStepTry G S m tt step hr = (r, tt', l) →
  started l = [] ∧ (invoked l = [] ∨ invoked l = [id step]).
Proof.
  unfold executeStepTry.
  destruct (hasCachePath S (id step)) as [cached|]; [|by intros [= <- <- <-]; auto].
  assert (∃ loaded tt1 log1,
            (if Js.truthy cached
             then let '(r, tt1, l) := loadCacheForStep tt (id step) (cacheRun hr) in
                  (match r with inl e => inl e | inr s => inr (Some s) end, tt1,
                   LCacheLoad (id step)
                     (default Js.VUndefined (stepCachePath <$> S !! id step)) :: l)
             else (inr None, tt, [])) = (loaded, tt1, log1) ∧
            started log1 = [] ∧ invoked log1 = [])
    as (loaded & tt1 & log1 & -> & Hs & Hh).
  { destruct (Js.truthy cached); [|by eexists _, _, _].
    destruct (loadCacheForStep tt (id step) (cacheRun hr)) as [[r0 tt0] l0] eqn:Hl.
    apply loadCacheForStep_calls in Hl as [Hs Hh].
    eexists _, _, _. split; [done|]. csimpl. by rewrite Hs, Hh. }
  destruct (maybeLogUndeclaredTypes_calls
              (registerTypes tt1 (id step) (handlerTypes (handlerRun hr))) step)
    as [Hm1 Hm2].
  repeat case_match; intros [= <- <- <-];
    repeat progress
      (rewrite ?started_app, ?invoked_app, ?Hs, ?Hh, ?Hm1, ?Hm2; csimpl); auto.
Qed.

(** The handler phase logs no start, and the handler at most once. *)
Lemma executeStepHandlerPhase_calls m tt step hr r tt' l :
  executeStepHandlerPhase G S m tt step hr = (r, tt', l) →
  started l = [] ∧ (invoked l = [] ∨ invoked l = [id step]).
Proof.
  unfold executeStepHandlerPhase.
  destruct (executeStepTry G S m tt step hr) as [[r0 tt0] l0] eqn:Ht.
  apply executeStepTry_calls in Ht as [Hs Hh].
  repeat case_match; intros [= <- <- <-];
    rewrite ?started_app, ?invoked_app, ?Hs; csimpl; rewrite ?app_nil_r; auto.
Qed.

Lemma executeStepFlushPhase_calls step x fr r l :
  executeStepFlushPhase step x fr = (r, l) → started l = [] ∧ invoked l = [].
Proof.
  unfold executeStepFlushPhase. repeat case_match; by intros [= <- <-].
Qed.
End Once_facts.

Section Once_history.
Local Set Default Proof Using "All".
Variable G : DepGraph.t Step.
Variable S : gmap string StepStartState.
Hypothesis Hwf : wf G.
Hypothesis Hid : keyed_by_id G.

(** Nothing was logged for a queued step, no handler was invoked for a
    call that awaits it, and no step was started or invoked twice. *)
Lemma once_next m0 st R ev st' :
  buildStepResultsMap G S = Some m0 → Inv G S m0 st R →
  next G S st ev = Some st' →
  (NoDup (started (log st)) ∧ NoDup (invoked (log st)) ∧
   (∀ s, s ∈ id <$> queued st →
         (s ∉ started (log st)) ∧ s ∉ invoked (log st)) ∧
   (∀ step, (step, AwaitingHandler) ∈ inFlight st → id step ∉ invoked (log st))) →
  NoDup (started (log st')) ∧ NoDup (invoked (log st')) ∧
  (∀ s, s ∈ id <$> queued st' →
        (s ∉ started (log st')) ∧ s ∉ invoked (log st')) ∧
  (∀ step, (step, AwaitingHandler) ∈ inFlight st' → id step ∉ invoked (log st')).
Proof.
  intros Hm [HP _] Hn (Hs & Hh & Hq & Ha).
  pose proof (inv_active_nodup _ _ _ _ _ HP) as Hnd. unfold active in Hnd.
  apply NoDup_app in Hnd as (Hndq & Hdisj & Hndf).
  destruct ev as [|sid hr|sid fr|]; simpl in Hn.
  - destruct (queued st) as [|step q] eqn:Hqu; [done|].
    destruct (isPaused st); [done|]. injection Hn as <-. simpl.
    rewrite started_app, invoked_app. csimpl. rewrite app_nil_r.
    csimpl in Hndq. apply NoDup_cons in Hndq as [Hfresh Hndq].
    destruct (Hq (id step)) as [Hs1 Hh1]; [set_solver|].
    split_and!.
    + apply NoDup_app. split_and!; [done| |apply NoDup_singleton].
      intros x Hx ->%list_elem_of_singleton. done.
    + done.
    + intros s Hsq. destruct (Hq s) as [? ?]; [set_solver|].
      split; [|done]. rewrite elem_of_app, list_elem_of_singleton.
      intros [?| ->]; done.
    + intros step' [?| [= ->]%list_elem_of_singleton]%elem_of_app; [by apply Ha|done].
  - destruct (take_task sid (inFlight st)) as [[[step p] rest]|] eqn:Ht; [|done].
    simpl in Hn. destruct p; [|done].
    destruct (executeStepHandlerPhase G S (stepResultsMap st) (typeTracker st)
                step hr) as [[r tt'] l] eqn:Hph.
    apply (take_task_spec G S m0 Hwf Hid Hm) in Ht as (<- & l1 & l2 & Hfl & ->).
    apply executeStepHandlerPhase_calls in Hph as [Hls Hlh].
    assert (id step ∉ invoked (log st)) as Hfresh.
    { apply Ha. rewrite Hfl. set_solver. }
    assert (∀ s, s ∈ id <$> queued st → s ≠ id step) as Hqne.
    { intros s Hsq ->. apply (Hdisj _ Hsq). rewrite Hfl, fmap_app. set_solver. }
    assert (∀ step', (step', AwaitingHandler) ∈ l1 ++ l2 → id step' ≠ id step)
      as Hfne.
    { intros step' Hin Heq. rewrite Hfl, fmap_app in Hndf. csimpl in Hndf.
      apply NoDup_app in Hndf as (_ & Hd & [Hn2 _]%NoDup_cons).
      apply elem_of_app in Hin as [Hin|Hin].
      - apply (Hd (id step')); [|rewrite Heq; by left].
        apply list_elem_of_fmap. by exists (step', AwaitingHandler).
      - apply Hn2. rewrite <- Heq. apply list_elem_of_fmap.
        by exists (step', AwaitingHandler). }
    assert (NoDup (invoked (log st) ++ invoked l)) as Hh'.
    { destruct Hlh as [-> | ->]; [by rewrite app_nil_r|].
      apply NoDup_app. split_and!; [done| |apply NoDup_singleton].
      intros x Hx ->%list_elem_of_singleton. done. }
    assert (∀ s, s ≠ id step → s ∉ invoked (log st) → s ∉ invoked (log st) ++ invoked l)
      as Hkeep.
    { intros s Hne Hns. rewrite elem_of_app. intros [?|Hl]; [done|].
      destruct Hlh as [Hlh|Hlh]; rewrite Hlh in Hl; set_solver. }
    assert (∀ step', (step', AwaitingHandler) ∈ l1 ++ l2 →
                     id step' ∉ invoked (log st) ++ invoked l) as Ha'.
    { intros step' Hin. apply Hkeep; [by apply Hfne|]. apply Ha. rewrite Hfl.
      set_solver. }
    destruct r as [err|x]; injection Hn as <-; simpl;
      rewrite started_app, invoked_app, Hls, app_nil_r.
    + split_and!; [done|done| |done].
      intros s Hsq. destruct (Hq s Hsq). split; [done|]. apply Hkeep; [|done].
      by apply Hqne.
    + split_and!; [done|done| |].
      * intros s Hsq. destruct (Hq s Hsq). split; [done|]. apply Hkeep; [|done].
        by apply Hqne.
      * intros step' [?|[=]%list_elem_of_singleton]%elem_of_app. by apply Ha'.
  - destruct (take_task sid (inFlight st)) as [[[step p] rest]|] eqn:Ht; [|done].
    simpl in Hn. destruct p as [|x]; [done|].
    destruct (executeStepFlushPhase step x fr) as [r l] eqn:Hph.
    apply (take_task_spec G S m0 Hwf Hid Hm) in Ht as (<- & l1 & l2 & Hfl & ->).
    apply executeStepFlushPhase_calls in Hph as [Hls Hlh].
    assert (∀ step', (step', AwaitingHandler) ∈ l1 ++ l2 →
                     id step' ∉ invoked (log st)) as Ha'.
    { intros step' Hin. apply Ha. rewrite Hfl. set_solver. }
    destruct r as [err|x'].
    { injection Hn as <-. simpl.
      rewrite started_app, invoked_app, Hls, Hlh, !app_nil_r. done. }
    destruct (isPaused st) eqn:Hp.
    { unfold enqueueLeafSteps in Hn. simpl in Hn.
      injection Hn as <-. simpl.
      rewrite started_app, invoked_app, Hls, Hlh, !app_nil_r. done. }
    match type of Hn with
    | match enqueueLeafSteps _ _ ?st2 with _ => _ end = _ =>
        destruct (enqueueLeafSteps_explicit G S m0 Hwf Hid Hm st2 R)
          as (D & Ds & HE & HDs & HDnd & HD);
          [apply (inv_wg _ _ _ _ _ HP)|done|]
    end.
    rewrite HE in Hn. injection Hn as <-. simpl.
    rewrite started_app, invoked_app, Hls, Hlh, !app_nil_r.
    split_and!; [done|done| |done].
    intros s. rewrite fmap_app, elem_of_app, HDs. intros [Hsq|HsD]; [by apply Hq|].
    destruct (HD s HsD) as (_ & HsR & _).
    split.
    + intros Hx%elem_of_started. apply HsR.
      by apply (inv_log _ _ _ _ _ HP _ Hx).
    + intros Hx%elem_of_invoked. apply HsR.
      by apply (inv_log _ _ _ _ _ HP _ Hx).
  - destruct (queued st) eqn:Hqu; [|done]. destruct (inFlight st) eqn:Hfl; [|done].
    injection Hn as <-. unfold set_settled. simpl. rewrite Hqu, Hfl.
    split_and!; [done|done| |]; set_solver.
Qed.

Lemma once_run evs : ∀ st,
  run G S evs = Some st →
  NoDup (started (log st)) ∧ NoDup (invoked (log st)) ∧
  (∀ s, s ∈ id <$> queued st →
        (s ∉ started (log st)) ∧ s ∉ invoked (log st)) ∧
  (∀ step, (step, AwaitingHandler) ∈ inFlight st → id step ∉ invoked (log st)).
Proof.
  induction evs as [|ev evs IH] using rev_ind; intros st' Hrun.
  - destruct (Inv_run G S Hwf Hid [] st' Hrun) as (m0 & R & Hm & HI).
    unfold run in Hrun.
    destruct (executeStepDependencyGraph G S) as [st0|] eqn:H0; [|done].
    simpl in Hrun. injection Hrun as ->.
    unfold executeStepDependencyGraph in H0. rewrite Hm in H0. simpl in H0.
    destruct (enqueueLeafSteps_explicit G S m0 Hwf Hid Hm
                (mkState (DepGraph.clone G) m0 ∅ [] [] false None []) [])
      as (D & Ds & HE & _).
    { unfold DepGraph.clone. simpl. by rewrite restrict_nil. }
    { done. }
    rewrite HE in H0. injection H0 as <-. simpl.
    split_and!; [apply NoDup_nil_2|apply NoDup_nil_2| |]; set_solver.
  - pose proof Hrun as Hrun'. rewrite run_app in Hrun'.
    destruct (run G S evs) as [st|] eqn:Hrun0; [|done]. simpl in Hrun'.
    unfold exec in Hrun'. simpl in Hrun'.
    destruct (next G S st ev) as [st1|] eqn:Hn; [|done]. injection Hrun' as ->.
    destruct (Inv_run G S Hwf Hid evs st Hrun0) as (m0 & R & Hm & HI).
    by apply (once_next m0 st R ev st' Hm HI Hn), IH.
Qed.
End Once_history.

(** ** How the statuses depend on each other *)

Section Status_history.
Local Set Default Proof Using "All".
Variable G : DepGraph.t Step.
Variable S : gmap string StepStartState.
Hypothesis Hwf : wf G.
Hypothesis Hid : keyed_by_id G.

Local Abbreviation E := (DepGraph.outgoingEdges G).

(** The only write to the results is the one at the end of
    [executeStep]. *)
Lemma next_map st ev st' :
  next G S st ev = Some st' →
  stepResultsMap st' = stepResultsMap st ∨
  ∃ step x fr,
    ev = EvFlushDone (id step) fr ∧ (step, AwaitingFlush x) ∈ inFlight st ∧
    flushError fr = None ∧
    stepResultsMap st' =
      updateStepResultStatus (stepResultsMap st) (id step)
        (match waitUntilUploadsComplete fr with
         | Some (Some _) => FAILURE
         | _ => x
         end) (typeTracker st).
Proof.
  intros Hn. destruct ev as [|sid hr|sid fr|]; simpl in Hn.
  - left. repeat case_match; by simplify_eq.
  - left. destruct (take_task sid (inFlight st)) as [[[step p] rest]|]; [|done].
    simpl in Hn. destruct p; [|done].
    destruct (executeStepHandlerPhase _ _ _ _ _ _) as [[[e|x] tt'] l];
      by simplify_eq.
  - destruct (take_task sid (inFlight st)) as [[[step p] rest]|] eqn:Ht; [|done].
    simpl in Hn. destruct p as [|x]; [done|].
    assert (id step = sid ∧ (step, AwaitingFlush x) ∈ inFlight st) as [<- Hin].
    { clear -Ht. revert rest Ht.
      induction (inFlight st) as [|[s q] r IH]; intros rest; simpl; [done|].
      destruct (decide (id s = sid)).
      - intros [= -> -> ->]. split; [done|]. by left.
      - destruct (take_task sid r) as [[[s' p'] r'']|]; [|done]. simpl.
        intros [= -> -> <-]. destruct (IH r'' eq_refl). split; [done|]. by right. }
    unfold executeStepFlushPhase in Hn.
    destruct (flushError fr) as [err|] eqn:Hflush.
    { left. by simplify_eq. }
    right. exists step, x, fr. split_and!; [done..|].
    destruct (waitUntilUploadsComplete fr) as [[err|]|];
      match type of Hn with
      | match enqueueLeafSteps _ _ ?st2 with _ => _ end = _ =>
          destruct (enqueueLeafSteps G S st2) as [st3|st3] eqn:HE;
          assert (stepResultsMap st3 = stepResultsMap st2) as Hmap
            by (apply (enqueueLeafSteps_map G S Hwf Hid); eauto)
      end; simplify_eq; simpl in *; by rewrite Hmap.
  - left. repeat case_match; by simplify_eq.
Qed.

(** A call comes to await its flush only through the end of its handler
    phase. *)
Lemma next_flushing st ev st' step y :
  next G S st ev = Some st' → (step, AwaitingFlush y) ∈ inFlight st' →
  (step, AwaitingFlush y) ∈ inFlight st ∨
  ∃ hr tt' l,
    (step, AwaitingHandler) ∈ inFlight st ∧
    executeStepHandlerPhase G S (stepResultsMap st) (typeTracker st) step hr
    = (inr y, tt', l).
Proof.
  intros Hn Hin. destruct ev as [|sid hr|sid fr|]; simpl in Hn.
  - left. destruct (queued st); [done|]. destruct (isPaused st); [done|].
    injection Hn as <-. simpl in Hin.
    apply elem_of_app in Hin as [?|[=]%list_elem_of_singleton]. done.
  - destruct (take_task sid (inFlight st)) as [[[step0 p] rest]|] eqn:Ht; [|done].
    simpl in Hn. destruct p; [|done].
    assert ((step0, AwaitingHandler) ∈ inFlight st ∧ ∀ t, t ∈ rest → t ∈ inFlight st)
      as [Hin0 Hrest].
    { clear -Ht. revert rest Ht.
      induction (inFlight st) as [|[s q] r IH]; intros rest; simpl; [done|].
      destruct (decide (id s = sid)).
      - intros [= -> -> ->]. split; [by left|]. intros t ?. by right.
      - destruct (take_task sid r) as [[[s' p'] r'']|]; [|done]. simpl.
        intros [= -> -> <-]. destruct (IH r'' eq_refl) as [? Hr].
        split; [by right|]. intros t [->|?]%elem_of_cons; [by left|].
        right. by apply Hr. }
    destruct (executeStepHandlerPhase _ _ _ _ _ _) as [[[e|x] tt'] l] eqn:Hph;
      injection Hn as <-; simpl in Hin.
    + left. by apply Hrest.
    + apply elem_of_app in Hin as [?|[= -> ->]%list_elem_of_singleton].
      * left. by apply Hrest.
      * right. by exists hr, tt', l.
  - left.
    destruct (take_task sid (inFlight st)) as [[[step0 p] rest]|] eqn:Ht; [|done].
    simpl in Hn. destruct p as [|x]; [done|].
    assert (∀ t, t ∈ rest → t ∈ inFlight st) as Hrest.
    { clear -Ht. revert rest Ht.
      induction (inFlight st) as [|[s q] r IH]; intros rest; simpl; [done|].
      destruct (decide (id s = sid)).
      - intros [= -> -> ->]. intros t ?. by right.
      - destruct (take_task sid r) as [[[s' p'] r'']|]; [|done]. simpl.
        intros [= -> -> <-]. pose proof (IH r'' eq_refl) as Hr.
        intros t [->|?]%elem_of_cons; [by left|]. right. by apply Hr. }
    apply Hrest.
    destruct (executeStepFlushPhase step0 x fr) as [[e|x'] l].
    { injection Hn as <-. done. }
    match type of Hn with
    | match enqueueLeafSteps _ _ ?st2 with _ => _ end = _ =>
        destruct (enqueueLeafSteps G S st2) as [st3|st3] eqn:HE
    end.
    + injection Hn as <-.
      assert (inFlight st3 = rest) as <-; [|done].
      unfold enqueueLeafSteps in HE. simpl in HE.
      destruct (isPaused st); [by injection HE as <-|].
      destruct (DepGraph.overallOrder (workingGraph st) true) as [leaves|]; [|done].
      match type of HE with
      | enqueueLeaves _ _ ?st2 _ = _ =>
          change rest with (inFlight st2); generalize dependent st2
      end.
      induction leaves as [|lf leaves IH]; intros st2 HE; simpl in HE.
      { by injection HE as <-. }
      destruct (enqueueLeafStep G S st2 lf) as [st4|st4] eqn:H4; [|done].
      rewrite (IH st4 HE). unfold enqueueLeafStep in H4.
      repeat case_match; by simplify_eq.
    + injection Hn as <-. simpl.
      assert (inFlight st3 = rest) as <-; [|done].
      unfold enqueueLeafSteps in HE. simpl in HE.
      destruct (isPaused st); [done|].
      destruct (DepGraph.overallOrder (workingGraph st) true) as [leaves|];
        [|by injection HE as <-].
      match type of HE with
      | enqueueLeaves _ _ ?st2 _ = _ =>
          change rest with (inFlight st2); generalize dependent st2
      end.
      induction leaves as [|lf leaves IH]; intros st2 HE; simpl in HE; [done|].
      destruct (enqueueLeafStep G S st2 lf) as [st4|st4] eqn:H4.
      * rewrite (IH st4 HE). unfold enqueueLeafStep in H4.
        repeat case_match; by simplify_eq.
      * injection HE as <-. unfold enqueueLeafStep in H4.
        repeat case_match; by simplify_eq.
  - left. destruct (queued st); [|done]. destruct (inFlight st) eqn:Hfl; [|done].
    injection Hn as <-. simpl in Hin. rewrite Hfl in Hin.
    by apply elem_of_nil in Hin.
Qed.
End Status_history.

Section Status_cause.
Local Set Default Proof Using "All".
Variable G : DepGraph.t Step.
Variable S : gmap string StepStartState.
Hypothesis Hwf : wf G.
Hypothesis Hid : keyed_by_id G.

Local Abbreviation E := (DepGraph.outgoingEdges G).
Local Abbreviation PARTIAL := PARTIAL_SUCCESS_DUE_TO_DEPENDENCY_FAILURE.

Local Abbreviation caused := (SchedulerSpec.caused G).

Lemma executeStepTry_cause m tt step hr x tt' l :
  executeStepTry G S m tt step hr = (inr x, tt', l) →
  (x = SUCCESS → stepHasDependencyFailure G m (id step) = Some false) ∧
  (x = PARTIAL → stepHasDependencyFailure G m (id step) = Some true).
Proof.
  unfold executeStepTry.
  destruct (hasCachePath S (id step)) as [cached|]; [|done].
  set (e := if Js.truthy cached then _ else _).
  destruct e as [[loaded tt1] log1].
  destruct loaded as [err|[[]|]]; try done;
    try (by intros [= <- <- <-]);
    destruct (handlerError (handlerRun hr)); try done;
    destruct (stepHasDependencyFailure G m (id step)) as [[]|]; try done;
    by intros [= <- <- <-].
Qed.

Lemma executeStepHandlerPhase_cause m tt step hr x tt' l :
  executeStepHandlerPhase G S m tt step hr = (inr x, tt', l) →
  (x = SUCCESS → stepHasDependencyFailure G m (id step) = Some false) ∧
  (x = PARTIAL → stepHasDependencyFailure G m (id step) = Some true).
Proof.
  unfold executeStepHandlerPhase.
  destruct (executeStepTry G S m tt step hr) as [[[err|x0] tt0] l0] eqn:Ht.
  - destruct (fatal err) as [[]|]; [done| |done]. by intros [= <- <- <-].
  - intros [= <- <- <-]. by apply executeStepTry_cause in Ht.
Qed.

Lemma status_of_update m k x tt s :
  status_of (updateStepResultStatus m k x tt) s =
    if decide (k = s) then status_of m s ≫= λ _, Some x else status_of m s.
Proof.
  unfold status_of, updateStepResultStatus.
  destruct (map_get m k) as [r|] eqn:Hk.
  - rewrite map_get_set. destruct (decide (k = s)) as [<-|]; [|done].
    by rewrite Hk.
  - destruct (decide (k = s)) as [<-|]; [|done]. by rewrite Hk.
Qed.

(** The test made by the handler phase, in terms of the statuses. *)
Lemma dependency_failure_cause m s x :
  dag E →
  (∀ d, tc (edge E) s d → ∃ y, status_of m d = Some y ∧ executed y) →
  (x = SUCCESS → stepHasDependencyFailure G m s = Some false) →
  (x = PARTIAL → stepHasDependencyFailure G m s = Some true) →
  caused m s x.
Proof.
  intros Hdag Hex Hs Hp. split.
  - intros Hx d Hd. specialize (Hs Hx). unfold stepHasDependencyFailure in Hs.
    destruct (DepGraph.dependenciesOf G s) as [deps|] eqn:Hdeps; [|done].
    simpl in Hs. injection Hs as Hs.
    destruct (Hex d Hd) as (y & Hy & Hey).
    assert (is_failure y = false) as Hf.
    { destruct (is_failure y) eqn:Hfy; [|done].
      rewrite <- Hs. symmetry. apply existsb_exists.
      unfold status_of in Hy. destruct (map_get m d) as [res|] eqn:Hget; [|done].
      exists (Some res). split.
      - apply list_elem_of_In, list_elem_of_fmap. exists d. split; [done|].
        by apply (dependenciesOf_tc G s deps d Hdag Hdeps).
      - simpl in Hy. by injection Hy as ->. }
    rewrite Hy. unfold is_failure in Hf. apply bool_decide_eq_false in Hf.
    destruct Hey as [-> | [-> | [-> | ->]]]; [by left| |  |by right].
    + destruct Hf. by left.
    + destruct Hf. by right.
  - intros Hx. specialize (Hp Hx). unfold stepHasDependencyFailure in Hp.
    destruct (DepGraph.dependenciesOf G s) as [deps|] eqn:Hdeps; [|done].
    simpl in Hp.
    injection Hp as (r & Hr%list_elem_of_In & Hf)%existsb_exists.
    apply list_elem_of_fmap in Hr as (d & -> & Hd).
    destruct (map_get m d) as [res|] eqn:Hget; [|done].
    exists d. split; [by apply (dependenciesOf_tc G s deps d Hdag Hdeps)|].
    unfold status_of. rewrite Hget. simpl.
    unfold is_failure in Hf. apply bool_decide_eq_true in Hf.
    destruct Hf as [Hf|Hf]; rewrite Hf; auto.
Qed.

(** Statuses, once written, do not change: what a status says stays
    true. *)
Lemma caused_stable m m' s x :
  (∀ d y, status_of m d = Some y → executed y → status_of m' d = Some y) →
  caused m s x → caused m' s x.
Proof.
  intros Hst [Hs Hp]. split.
  - intros Hx d Hd. destruct (Hs Hx d Hd) as [Hy|Hy]; [left|right];
      apply Hst; unfold executed; auto.
  - intros Hx. destruct (Hp Hx) as (d & Hd & [Hy|Hy]); exists d; (split; [done|]);
      [left|right]; apply Hst; unfold executed; auto.
Qed.

Lemma cause_run evs : ∀ st,
  run G S evs = Some st →
  (∀ step x, (step, AwaitingFlush x) ∈ inFlight st →
             caused (stepResultsMap st) (id step) x) ∧
  (∀ s x, status_of (stepResultsMap st) s = Some x → caused (stepResultsMap st) s x).
Proof.
  induction evs as [|ev evs IH] using rev_ind; intros st' Hrun.
  - destruct (Inv_run G S Hwf Hid [] st' Hrun) as (m0 & R & Hm & [HP _]).
    unfold run in Hrun.
    destruct (executeStepDependencyGraph G S) as [st0|] eqn:H0; [|done].
    simpl in Hrun. injection Hrun as ->.
    unfold executeStepDependencyGraph in H0. rewrite Hm in H0. simpl in H0.
    destruct (enqueueLeafSteps_explicit G S m0 Hwf Hid Hm
                (mkState (DepGraph.clone G) m0 ∅ [] [] false None []) [])
      as (D & Ds & HE & _).
    { unfold DepGraph.clone. simpl. by rewrite restrict_nil. }
    { done. }
    rewrite HE in H0. injection H0 as <-. simpl. split; [set_solver|].
    intros s x Hx. unfold status_of in Hx.
    destruct (map_get m0 s) as [r|] eqn:Hget; [|done].
    simpl in Hx. injection Hx as <-.
    destruct (buildStepResultsMap_spec G S Hwf Hid m0 Hm)
      as (order & _ & Hkeys & _ & Hord & _).
    assert (s ∈ DepGraph.keys G) as Hs.
    { apply Hord. rewrite <- Hkeys. apply list_elem_of_fmap.
      exists (s, r). split; [done|]. by apply map_get_Some. }
    destruct (seed_lookup G S m0 Hwf Hid Hm s Hs) as (r' & deps & Hr' & _ & Hseed).
    rewrite Hget in Hr'. injection Hr' as <-.
    unfold caused. rewrite Hseed. unfold seed. by case_match.
  - pose proof Hrun as Hrun'. rewrite run_app in Hrun'.
    destruct (run G S evs) as [st|] eqn:Hrun0; [|done]. simpl in Hrun'.
    unfold exec in Hrun'. simpl in Hrun'.
    destruct (next G S st ev) as [st1|] eqn:Hn; [|done]. injection Hrun' as ->.
    destruct (Inv_run G S Hwf Hid evs st Hrun0) as (m0 & R & Hm & HI).
    pose proof HI as [HP _].
    pose proof (start_dag G S m0 Hwf Hid Hm) as Hdag.
    destruct (IH st eq_refl) as [IHf IHs].
    assert (∀ d y, status_of (stepResultsMap st) d = Some y → executed y →
                   status_of (stepResultsMap st') d = Some y) as Hst.
    { intros d y Hy Hey.
      apply (executed_stable G S Hwf Hid m0 [ev] st R st' d y Hm HI Hy Hey).
      unfold exec. simpl. by rewrite Hn. }
    assert (∀ step p, (step, p) ∈ inFlight st →
              ∀ d, tc (edge E) (id step) d →
                   ∃ y, status_of (stepResultsMap st) d = Some y ∧ executed y)
      as Hdeps.
    { intros step p Hin d Hd.
      apply (dispatched_after_dependencies G S Hwf Hid evs st (id step) d Hrun0);
        [|done].
      apply (dispatched_R G S m0 Hwf Hid Hm st R); [done|].
      apply (inv_active _ _ _ _ _ HP). apply (active_tasks G S m0 Hwf Hid Hm).
      apply elem_of_app. right. apply list_elem_of_fmap. by exists (step, p). }
    assert (∀ step x, (step, AwaitingFlush x) ∈ inFlight st' →
              caused (stepResultsMap st') (id step) x) as Hf'.
    { intros step x Hin.
      apply (caused_stable (stepResultsMap st)); [done|].
      destruct (next_flushing G S Hwf Hid st ev st' step x Hn Hin)
        as [Hold|(hr & tt' & l & Hin0 & Hph)].
      - by apply IHf.
      - apply executeStepHandlerPhase_cause in Hph as [Hs Hp].
        apply dependency_failure_cause; try done.
        by apply (Hdeps step AwaitingHandler). }
    split; [done|].
    intros s x Hx.
    destruct (next_map G S Hwf Hid st ev st' Hn)
      as [Hsame|(step & x0 & fr & -> & Hin & Hfl & Hmap)].
    { rewrite Hsame in Hx |- *. by apply IHs. }
    apply (caused_stable (stepResultsMap st)); [done|].
    rewrite Hmap, status_of_update in Hx.
    destruct (decide (id step = s)) as [<-|Hne]; [|by apply IHs].
    destruct (status_of (stepResultsMap st) (id step)); [|done].
    simpl in Hx. injection Hx as <-.
    specialize (IHf step x0 Hin).
    destruct (waitUntilUploadsComplete fr) as [[err|]|]; [|done..].
    by split.
Qed.
End Status_cause.

(** ** After a fatal error *)

Lemma take_task_rest sid (r : list (Step * Phase)) step p rest :
  take_task sid r = Some (step, p, rest) →
  (step, p) ∈ r ∧ ∀ t, t ∈ rest → t ∈ r.
Proof.
  revert rest. induction r as [|[s q] r IH]; intros rest; simpl; [done|].
  destruct (decide (id s = sid)).
  - intros [= -> -> ->]. set_solver.
  - destruct (take_task sid r) as [[[s' p'] r'']|]; [|done]. simpl.
    intros [= -> -> <-]. destruct (IH r'' eq_refl). set_solver.
Qed.

Section Paused_history.
Local Set Default Proof Using "All".
Variable G : DepGraph.t Step.
Variable S : gmap string StepStartState.
Hypothesis Hwf : wf G.
Hypothesis Hid : keyed_by_id G.

(** With the queue paused and the promise settled, a transition starts
    nothing, queues nothing and settles nothing. *)
Lemma next_paused st ev st' o :
  next G S st ev = Some st' → isPaused st = true → settled st = Some o →
  isPaused st' = true ∧ settled st' = Some o ∧ queued st' = queued st ∧
  workingGraph st' = workingGraph st ∧ started (log st') = started (log st) ∧
  ∀ s, s ∈ active st' → s ∈ active st.
Proof.
  intros Hn Hp Ho. destruct ev as [|sid hr|sid fr|]; simpl in Hn.
  - destruct (queued st); [done|]. by rewrite Hp in Hn.
  - destruct (take_task sid (inFlight st)) as [[[step p] rest]|] eqn:Ht; [|done].
    simpl in Hn. destruct p; [|done].
    apply take_task_rest in Ht as [Hin Hrest].
    assert (id step ∈ active st) as Hact.
    { unfold active. apply elem_of_app. right.
      apply list_elem_of_fmap. by exists (step, AwaitingHandler). }
    assert (∀ s, s ∈ (λ t : Step * Phase, id t.1) <$> rest → s ∈ active st) as Hsub.
    { intros s ([s0 p0] & -> & H0)%list_elem_of_fmap. unfold active.
      apply elem_of_app. right. apply list_elem_of_fmap.
      exists (s0, p0). split; [done|]. by apply Hrest. }
    destruct (executeStepHandlerPhase _ _ _ _ _ _) as [[[e|x] tt'] l] eqn:Hph;
      apply executeStepHandlerPhase_calls in Hph as [Hls _];
      injection Hn as <-; unfold handleUnexpectedError, set_settled; simpl;
      rewrite ?Ho, started_app, Hls, app_nil_r; split_and!; try done.
    + intros s. unfold active at 1. simpl.
      intros [?|?]%elem_of_app; [|by apply Hsub].
      unfold active. apply elem_of_app. by left.
    + intros s. unfold active at 1. simpl. rewrite fmap_app.
      intros [?|[?|Hs]%elem_of_app]%elem_of_app; [|by apply Hsub|].
      * unfold active. apply elem_of_app. by left.
      * apply list_elem_of_singleton in Hs as ->. done.
  - destruct (take_task sid (inFlight st)) as [[[step p] rest]|] eqn:Ht; [|done].
    simpl in Hn. destruct p as [|x]; [done|].
    apply take_task_rest in Ht as [Hin Hrest].
    assert (∀ s, s ∈ id <$> queued st ∨ s ∈ (λ t : Step * Phase, id t.1) <$> rest →
                 s ∈ active st) as Hsub.
    { intros s [?|([s0 p0] & -> & H0)%list_elem_of_fmap]; unfold active;
        apply elem_of_app; [by left|right].
      apply list_elem_of_fmap. exists (s0, p0). split; [done|]. by apply Hrest. }
    destruct (executeStepFlushPhase step x fr) as [[e|x'] l] eqn:Hph;
      apply executeStepFlushPhase_calls in Hph as [Hls _].
    + injection Hn as <-. unfold handleUnexpectedError, set_settled, add_log.
      simpl. rewrite Ho, started_app, Hls, app_nil_r. split_and!; try done.
      intros s. unfold active at 1. simpl. rewrite elem_of_app. apply Hsub.
    + unfold enqueueLeafSteps in Hn. simpl in Hn. rewrite Hp in Hn.
      injection Hn as <-. simpl. rewrite started_app, Hls, app_nil_r.
      split_and!; try done.
      intros s. unfold active at 1. simpl. rewrite elem_of_app. apply Hsub.
  - destruct (queued st) eqn:Hq; [|done]. destruct (inFlight st) eqn:Hf; [|done].
    injection Hn as <-. unfold set_settled. simpl. rewrite Ho, Hq.
    split_and!; try done. unfold active. simpl. by rewrite Hq, Hf.
Qed.

Lemma exec_paused evs : ∀ st st' o,
  exec G S st evs = Some st' → isPaused st = true → settled st = Some o →
  isPaused st' = true ∧ settled st' = Some o ∧ queued st' = queued st ∧
  workingGraph st' = workingGraph st ∧ started (log st') = started (log st) ∧
  (∀ s, s ∈ active st' → s ∈ active st) ∧
  ∀ s, s ∉ active st →
       map_get (stepResultsMap st') s = map_get (stepResultsMap st) s.
Proof.
  unfold exec.
  induction evs as [|ev evs IH]; intros st st' o Hex Hp Ho; simpl in Hex.
  { by simplify_eq. }
  destruct (next G S st ev) as [st1|] eqn:Hn; [|done].
  destruct (next_paused st ev st1 o Hn Hp Ho) as (Hp1 & Ho1 & Hq1 & Hw1 & Hs1 & Ha1).
  destruct (IH st1 st' o Hex Hp1 Ho1) as (Hp' & Ho' & Hq' & Hw' & Hs' & Ha' & Hm').
  split_and!; try congruence.
  - intros s Hs. by apply Ha1, Ha'.
  - intros s Hs. rewrite Hm'; [|by intros ?%Ha1].
    by apply (next_map_get G S Hwf Hid st ev st1).
Qed.

(** The [try] of [executeStep] when the handler throws. *)
Lemma handler_throws_phase m tt step hr err :
  cache_miss S (id step) (cacheRun hr) →
  handlerError (handlerRun hr) = Some err →
  ∃ tt' l,
    LHandler (id step) ∈ l ∧ LStepFailure (id step) err ∈ l ∧
    (LStepSuccess (id step) ∉ l) ∧
    executeStepHandlerPhase G S m tt step hr =
      (match fatal err with
       | None => inl TypeError
       | Some true => inl err
       | Some false => inr FAILURE
       end, tt', l).
Proof.
  intros (v & Hv & Hmiss) Hh.
  assert (∃ tt1 l1,
            (if Js.truthy v
             then let '(r, tt1, l) := loadCacheForStep tt (id step) (cacheRun hr) in
                  (match r with inl e => inl e | inr s => inr (Some s) end, tt1,
                   LCacheLoad (id step)
                     (default Js.VUndefined (stepCachePath <$> S !! id step)) :: l)
             else (inr None, tt, []))
            = (inr (if Js.truthy v then Some FAILURE else None), tt1, l1) ∧
            (LStepSuccess (id step) ∉ l1))
    as (tt1 & l1 & Hload & Hl1).
  { destruct (Js.truthy v) eqn:Htr.
    - destruct (Hmiss eq_refl) as [Hb He]. unfold loadCacheForStep.
      rewrite Hb, He. apply app_eq_nil in Hb as [-> ->]. simpl.
      eexists _, _. split; [done|]. set_solver.
    - eexists _, _. split; [done|]. set_solver. }
  unfold executeStepHandlerPhase, executeStepTry. rewrite Hv, Hload.
  destruct (Js.truthy v); rewrite Hh; destruct (fatal err) as [[]|];
    eexists _, _; (split_and!; [| | |done]); set_solver.
Qed.
End Paused_history.

(** ** The edges [buildStepDependencyGraph] makes *)

Section Edge_facts.
Context {A : Type}.
Implicit Types g : DepGraph.t A.
Import DepGraph.

Lemma getNode_fmap (f : node A → node A) g n :
  (∀ e, name (f e) = name e) → getNode (f <$> g) n = f <$> getNode g n.
Proof.
  intros Hf. induction g as [|e g IH]; csimpl; [done|].
  rewrite Hf. by destruct (decide (name e = n)).
Qed.

Lemma addDependency_keys g from to g' :
  addDependency g from to = Some g' → keys g' = keys g.
Proof.
  intros Hadd%addDependency_names. unfold keys.
  replace (name <$> g') with (fst <$> ((λ e, (name e, data e)) <$> g'))
    by (by rewrite <- list_fmap_compose).
  by rewrite Hadd, <- list_fmap_compose.
Qed.

Lemma addDependency_is_Some g from to :
  is_Some (addDependency g from to) ↔ from ∈ keys g ∧ to ∈ keys g.
Proof.
  unfold addDependency. rewrite <- !hasNode_true.
  destruct (hasNode g from), (hasNode g to); simpl; split;
    try (by intros [? [=]]); try (by intros [[=] [=]]); try done.
Qed.

Lemma addDependency_edge g from to g' :
  addDependency g from to = Some g' →
  ∀ a b, edge (outgoingEdges g') a b ↔
         edge (outgoingEdges g) a b ∨ (a = from ∧ b = to).
Proof.
  intros (Hfrom & _ & f & -> & Hf)%addDependency_spec a b.
  unfold edge, outgoingEdges.
  rewrite getNode_fmap by (intros e; apply Hf).
  destruct (getNode g a) as [e|] eqn:He; simpl.
  - apply getNode_Some in He as [_ Hn].
    destruct (Hf e) as (_ & _ & Hout & _). rewrite Hout, Hn.
    destruct (decide (a = from)) as [->|Hne].
    + split.
      * intros (es & [= <-] & Hb). apply elem_of_push in Hb as [Hb| ->]; [|by right].
        left. by eexists.
      * intros [(es & [= <-] & Hb)|[_ ->]]; eexists; (split; [done|]);
          apply elem_of_push; auto.
    + split.
      * intros (es & [= <-] & Hb). left. by eexists.
      * intros [(es & [= <-] & Hb)|[? _]]; [|done]. by eexists.
  - split.
    + by intros (es & [=] & _).
    + intros [(es & [=] & _)|[-> _]].
      apply getNode_None in He. done.
Qed.
End Edge_facts.

(** The two nested [forEach] loops, as one loop on the pairs. *)
Lemma foldM_nested {X Y T} (f : X → Y → T → option T) (h : X → list Y) l : ∀ t,
  foldM (λ x t, foldM (f x) (h x) t) l t
  = foldM (λ p t, f p.1 p.2 t) (l ≫= λ x, (x,.) <$> h x) t.
Proof.
  induction l as [|x l IH]; intros t; csimpl; [done|].
  rewrite foldM_app.
  assert (∀ ys t0, foldM (λ p t, f p.1 p.2 t) ((x,.) <$> ys) t0 = foldM (f x) ys t0)
    as ->.
  { induction ys as [|y ys IHy]; intros t0; csimpl; [done|].
    destruct (f x y t0); [apply IHy|done]. }
  destruct (foldM (f x) (h x) t); simpl; [apply IH|done].
Qed.

Section Pairs_facts.
Context {A : Type}.
Implicit Types g : DepGraph.t A.
Import DepGraph.

Lemma addDependencies_Some (ps : list (string * string)) : ∀ g g',
  foldM (λ p t, addDependency t p.1 p.2) ps g = Some g' →
  keys g' = keys g ∧
  (∀ p, p ∈ ps → p.1 ∈ keys g ∧ p.2 ∈ keys g) ∧
  ∀ a b, edge (outgoingEdges g') a b ↔ edge (outgoingEdges g) a b ∨ (a, b) ∈ ps.
Proof.
  induction ps as [|[from to] ps IH]; intros g g'; simpl.
  { intros [= <-]. split_and!; [done|set_solver|set_solver]. }
  destruct (addDependency g from to) as [g1|] eqn:Hadd; [|done].
  intros (Hk & Hin & He)%IH.
  pose proof (addDependency_keys _ _ _ _ Hadd) as Hk1.
  pose proof (addDependency_edge _ _ _ _ Hadd) as He1.
  assert (from ∈ keys g ∧ to ∈ keys g) as Hft.
  { apply addDependency_is_Some. by rewrite Hadd. }
  split_and!.
  - congruence.
  - intros p [->|Hp]%elem_of_cons; [done|]. rewrite <- Hk1. by apply Hin.
  - intros a b. rewrite He, He1, elem_of_cons. split.
    + intros [[?|[-> ->]]|?]; auto.
    + intros [?|[[= -> ->]|?]]; auto.
Qed.

Lemma addDependencies_is_Some (ps : list (string * string)) : ∀ g,
  (∀ p, p ∈ ps → p.1 ∈ keys g ∧ p.2 ∈ keys g) →
  is_Some (foldM (λ p t, addDependency t p.1 p.2) ps g).
Proof.
  induction ps as [|[from to] ps IH]; intros g Hin; simpl; [done|].
  destruct (proj2 (addDependency_is_Some g from to)) as [g1 Hadd].
  { apply (Hin (from, to)). by left. }
  rewrite Hadd. apply IH. intros p Hp.
  rewrite (addDependency_keys _ _ _ _ Hadd). apply Hin. by right.
Qed.
End Pairs_facts.

(** The nodes made by the first loop. *)
Lemma addNodes_keys (steps : list Step) :
  ∀ s, s ∈ DepGraph.keys (foldl (λ g step, DepGraph.addNode g (id step) step) [] steps)
       ↔ s ∈ id <$> steps.
Proof.
  induction steps as [|step steps IH] using rev_ind; intros s; [done|].
  rewrite foldl_app, fmap_app, elem_of_app. simpl. rewrite <- IH.
  unfold DepGraph.addNode.
  destruct (DepGraph.hasNode _ _) eqn:Hn.
  - apply hasNode_true in Hn. split; [by left|].
    intros [?| ->%list_elem_of_singleton]; done.
  - unfold DepGraph.keys. rewrite fmap_app, elem_of_app. done.
Qed.

(** The first loop makes no edge. *)
Lemma addNodes_outgoing (steps : list Step) a es :
  DepGraph.outgoingEdges
    (foldl (λ g step, DepGraph.addNode g (id step) step) [] steps) a = Some es →
  es = [].
Proof.
  revert a. induction steps as [|s st IH] using rev_ind; intros a; [done|].
  rewrite foldl_app. simpl.
  set (nodes := foldl _ _ st) in *. unfold DepGraph.addNode.
  destruct (DepGraph.hasNode _ _); [apply IH|].
  unfold DepGraph.outgoingEdges in *.
  assert (∀ g (e e' : DepGraph.node Step) n,
            DepGraph.getNode (g ++ [e]) n = Some e' →
            DepGraph.getNode g n = Some e' ∨ e' = e) as Happ.
  { induction g as [|e0 g IHg]; simpl; intros e e' n.
    - destruct (decide (DepGraph.name e = n)); [|done]. intros [= <-]. by right.
    - destruct (decide (DepGraph.name e0 = n)); [by left|]. apply IHg. }
  destruct (DepGraph.getNode (_ ++ _) a) as [e'|] eqn:Hg; [|done].
  simpl. intros [= <-].
  apply Happ in Hg as [Hg| ->]; [|done].
  apply (IH a). by rewrite Hg.
Qed.

(** The first step with an id is the one its node holds. *)
Lemma addNodes_data (steps : list Step) step :
  NoDup (id <$> steps) → step ∈ steps →
  DepGraph.getNodeData (foldl (λ g step, DepGraph.addNode g (id step) step) [] steps)
    (id step) = Some step.
Proof.
  induction steps as [|s steps IH] using rev_ind; [by intros _ ?%elem_of_nil|].
  rewrite fmap_app. intros (Hnd & Hfresh & _)%NoDup_app Hin.
  rewrite foldl_app. simpl. unfold DepGraph.addNode.
  assert (id s ∉ id <$> steps) as Hs.
  { intros Hx. apply (Hfresh _ Hx). set_solver. }
  destruct (DepGraph.hasNode _ _) eqn:Hn.
  { apply hasNode_true, addNodes_keys in Hn. done. }
  apply elem_of_app in Hin as [Hin| ->%list_elem_of_singleton].
  - specialize (IH Hnd Hin). unfold DepGraph.getNodeData in *.
    destruct (DepGraph.getNode _ (id step)) as [e|] eqn:He; [|done].
    assert (∀ g g' n (e : DepGraph.node Step),
              DepGraph.getNode g n = Some e → DepGraph.getNode (g ++ g') n = Some e)
      as Happ.
    { induction g as [|e0 g IHg]; simpl; [done|]. intros g' n e1.
      destruct (decide (DepGraph.name e0 = n)); [done|]. apply IHg. }
    by rewrite (Happ _ _ _ _ He).
  - unfold DepGraph.getNodeData.
    assert (∀ g (e : DepGraph.node Step),
              DepGraph.name e ∉ DepGraph.keys g →
              DepGraph.getNode (g ++ [e]) (DepGraph.name e) = Some e) as Happ.
    { induction g as [|e0 g IHg]; simpl; intros e He.
      - by rewrite decide_True.
      - apply not_elem_of_cons in He as [? ?]. rewrite decide_False by done.
        by apply IHg. }
    rewrite (Happ _ (DepGraph.mkNode (id s) s [] [])); [done|].
    simpl. by rewrite addNodes_keys.
Qed.

Lemma foldM_ext_fmap {X Y T} (f : Y → T → option T) (k : X → Y) l : ∀ t,
  foldM (λ x t, f (k x) t) l t = foldM f (k <$> l) t.
Proof.
  induction l as [|x l IH]; intros t; csimpl; [done|].
  destruct (f (k x) t); [apply IH|done].
Qed.

(** The second loop of [buildStepDependencyGraph], on the pairs
    (step id, dependency). *)
Lemma buildStepDependencyGraph_unfold steps :
  buildStepDependencyGraph steps =
    (g ← foldM (λ p t, DepGraph.addDependency t p.1 p.2)
           ((λ p : Step * string, (id p.1, p.2)) <$>
              (steps ≫= λ step, (step,.) <$> default [] (dependsOn step)))
           (foldl (λ g step, DepGraph.addNode g (id step) step) [] steps);
     _ ← DepGraph.overallOrder g false; Some g).
Proof.
  unfold buildStepDependencyGraph.
  rewrite (foldM_nested (λ step dependency g',
             DepGraph.addDependency g' (id step) dependency)
             (λ step, default [] (dependsOn step))).
  by rewrite <- (foldM_ext_fmap (λ p t, DepGraph.addDependency t p.1 p.2)
                   (λ p : Step * string, (id p.1, p.2))).
Qed.

Lemma depends_pairs_fmap steps a b :
  depends steps a b ↔
  (a, b) ∈ (λ p : Step * string, (id p.1, p.2)) <$>
             (steps ≫= λ step, (step,.) <$> default [] (dependsOn step)).
Proof.
  unfold depends. rewrite list_elem_of_fmap. split.
  - intros (step & Hs & <- & Hb). exists (step, b). split; [done|].
    apply list_elem_of_bind. exists step. split; [|done].
    apply list_elem_of_fmap. by exists b.
  - intros ([step d] & [= -> ->] & Hin).
    apply list_elem_of_bind in Hin as (step' & Hd & Hs).
    apply list_elem_of_fmap in Hd as (d' & [= <- <-] & Hd). by exists step.
Qed.

(** What the graph of [buildStepDependencyGraph] holds. *)
Lemma buildStepDependencyGraph_edges steps g :
  buildStepDependencyGraph steps = Some g →
  (∀ s, s ∈ DepGraph.keys g ↔ s ∈ id <$> steps) ∧
  (∀ a b, edge (DepGraph.outgoingEdges g) a b ↔ depends steps a b) ∧
  (∀ step d, step ∈ steps → d ∈ default [] (dependsOn step) → d ∈ id <$> steps) ∧
  (NoDup (id <$> steps) →
   ∀ step, step ∈ steps → DepGraph.getNodeData g (id step) = Some step).
Proof.
  rewrite buildStepDependencyGraph_unfold.
  set (nodes := foldl _ _ steps). set (ps := _ <$> _).
  destruct (foldM _ ps nodes) as [g1|] eqn:Hfold; [|done]. simpl.
  destruct (DepGraph.overallOrder g1 false); [|done]. simpl. intros [= <-].
  pose proof Hfold as Hnames.
  apply addDependencies_Some in Hfold as (Hk & Hin & He).
  split_and!.
  - intros s. rewrite Hk. apply addNodes_keys.
  - intros a b. rewrite He, depends_pairs_fmap. fold ps. split; [|by right].
    intros [(es & Hes & Hb)|?]; [|done]. exfalso.
    apply addNodes_outgoing in Hes. subst es. by apply elem_of_nil in Hb.
  - intros step d Hs Hd. apply addNodes_keys.
    apply (Hin (id step, d)). apply depends_pairs_fmap. by exists step.
  - intros Hnd step Hs. pose proof (addNodes_data steps step Hnd Hs) as Hdata.
    fold nodes in Hdata. unfold DepGraph.getNodeData in *.
    destruct (DepGraph.getNode nodes (id step)) as [e|] eqn:Hget; [|done].
    simpl in Hdata. injection Hdata as Hdata.
    clear Hk Hin He.
    assert (∀ ps g g' n (e : DepGraph.node Step),
              foldM (λ p t, DepGraph.addDependency t p.1 p.2) ps g = Some g' →
              DepGraph.getNode g n = Some e →
              ∃ e', DepGraph.getNode g' n = Some e' ∧
                    DepGraph.data e' = DepGraph.data e) as Hkeep.
    { clear. induction ps as [|[from to] ps IH]; intros g g' n e; simpl.
      { intros [= <-] ?. by exists e. }
      destruct (DepGraph.addDependency g from to) as [g1|] eqn:Hadd; [|done].
      intros Hf Hg.
      apply addDependency_spec in Hadd as (_ & _ & f & -> & Hfe).
      apply (IH _ g' n (f e)) in Hf as (e' & He' & Hd).
      - exists e'. split; [done|]. rewrite Hd. apply Hfe.
      - rewrite getNode_fmap by (intros e0; apply Hfe). by rewrite Hg. }
    destruct (Hkeep ps nodes g1 (id step) e Hnames Hget) as (e' & -> & Hd).
    simpl. by rewrite Hd, Hdata.
Qed.

(** When [buildStepDependencyGraph] returns. *)
Lemma buildStepDependencyGraph_is_Some steps :
  is_Some (buildStepDependencyGraph steps) ↔
  (∀ step d, step ∈ steps → d ∈ default [] (dependsOn step) → d ∈ id <$> steps) ∧
  acyclic steps.
Proof.
  split.
  - intros [g Hg].
    destruct (buildStepDependencyGraph_edges steps g Hg) as (_ & He & Hknown & _).
    split; [done|].
    destruct (buildStepDependencyGraph_wf steps g Hg) as (_ & _ & [m Hm] & _).
    exists m. intros a b Hab. by apply Hm, He.
  - intros [Hknown [m Hm]].
    rewrite buildStepDependencyGraph_unfold.
    set (nodes := foldl _ _ steps). set (ps := _ <$> _).
    assert (wf nodes) as Hwf0.
    { subst nodes. clear. induction steps as [|s steps IH] using rev_ind.
      - by apply (bool_decide_unpack _).
      - rewrite foldl_app. simpl. by apply addNode_wf. }
    destruct (addDependencies_is_Some ps nodes) as [g1 Hfold].
    { intros [a b] Hp. apply depends_pairs_fmap in Hp as (step & Hs & <- & Hb).
      simpl. split; apply addNodes_keys.
      - by apply list_elem_of_fmap_2.
      - by apply (Hknown step). }
    rewrite Hfold. simpl.
    assert (wf g1) as Hwf1.
    { revert Hfold. generalize ps nodes Hwf0. clear.
      induction ps as [|[from to] ps IH]; intros g Hwf; simpl.
      { by intros [= <-]. }
      destruct (DepGraph.addDependency g from to) as [g2|] eqn:Hadd; [|done].
      apply IH. by eapply addDependency_wf. }
    apply addDependencies_Some in Hfold as (_ & _ & He).
    assert (dag (DepGraph.outgoingEdges g1)) as Hdag.
    { exists m. intros a b Hab. apply Hm, depends_pairs_fmap. fold ps.
      apply He in Hab as [(es & Hes & Hb)|?]; [|done]. exfalso.
      apply addNodes_outgoing in Hes. subst es. by apply elem_of_nil in Hb. }
    destruct (overallOrder_total g1 false Hwf1 Hdag) as [order ->]. by eexists.
Qed.

(** ** The results map at the start *)

Section Seed_facts.
Local Set Default Proof Using "All".
Variable G : DepGraph.t Step.
Variable S : gmap string StepStartState.
Hypothesis Hwf : wf G.
Hypothesis Hid : keyed_by_id G.

(** Every entry of the map is the result made for its key. *)
Lemma seed_entry m0 s r :
  buildStepResultsMap G S = Some m0 → map_get m0 s = Some r →
  buildStepResult G S s = Some r.
Proof.
  unfold buildStepResultsMap.
  destruct (DepGraph.overallOrder G false) as [order|] eqn:Ho; [|done]. simpl.
  destruct (mapM _ order) as [results|] eqn:Hr; [|done]. simpl.
  intros [= <-].
  destruct (overallOrder_spec G false order Hwf Ho) as (Hnd & _).
  apply mapM_Some in Hr.
  assert (((λ r, (r_id r, r)) <$> results).*1 = order) as Hkeys.
  { clear Ho Hnd. induction Hr as [|k r0 order results Hs Hr IH]; [done|].
    csimpl. rewrite IH. f_equal.
    by apply (buildStepResult_spec G S Hwf Hid) in Hs as [-> _]. }
  rewrite map_of_entries_NoDup by by rewrite Hkeys.
  intros (r' & [= -> ->] & Hin)%map_get_Some%list_elem_of_fmap.
  apply list_elem_of_lookup in Hin as [i Hi].
  destruct (Forall2_lookup_r _ _ _ _ _ Hr Hi) as (k & _ & Hk).
  by apply (buildStepResult_spec G S Hwf Hid) in Hk as Hspec; destruct Hspec as [-> _].
Qed.

(** What [buildStepResult] copies from the step. *)
Lemma buildStepResult_fields s r :
  buildStepResult G S s = Some r →
  ∃ step,
    DepGraph.getNodeData G s = Some step ∧
    r_id r = id step ∧ r_name r = name step ∧ r_dependsOn r = dependsOn step ∧
    declaredTypes r = (getDeclaredTypesInStep step).1 ∧
    partialTypes r = (getDeclaredTypesInStep step).2 ∧
    encounteredTypes r = [].
Proof.
  unfold buildStepResult.
  destruct (DepGraph.getNodeData G s) as [step|] eqn:Hstep; [|done]. simpl.
  destruct (DepGraph.dependenciesOf G (id step)) as [deps|]; [|done]. simpl.
  destruct (mapM _ deps) as [depStates|]; [|done]. simpl.
  destruct (S !! id step) as [ss|]; [|done]. simpl.
  destruct (getDeclaredTypesInStep step) as [declared partials].
  intros [= <-]. by exists step.
Qed.

(** When the first status is [DISABLED]. *)
Lemma seed_disabled deps s :
  dag (DepGraph.outgoingEdges G) → DepGraph.dependenciesOf G s = Some deps →
  seed S deps s = DISABLED ↔
  disabled_truthy S s = true ∨
  ∃ d, tc (edge (DepGraph.outgoingEdges G)) s d ∧ disabled_truthy S d = true.
Proof.
  intros Hdag Hdeps. unfold seed.
  destruct (disabled_truthy S s) eqn:Hs; simpl; [by split; auto|].
  destruct (existsb (disabled_truthy S) deps) eqn:Hex.
  - split; [|done]. intros _. right.
    apply existsb_exists in Hex as (d & Hd%list_elem_of_In & Ht).
    exists d. split; [|done]. by apply (dependenciesOf_tc G s deps d).
  - split; [done|]. intros [?|(d & Hd & Ht)]; [done|].
    assert (existsb (disabled_truthy S) deps = true) as Hex'; [|congruence].
    apply existsb_exists. exists d. split; [|done].
    apply list_elem_of_In. by apply (dependenciesOf_tc G s deps d).
Qed.
End Seed_facts.

(** ** More on the scheduler *)

Section Scheduler_histories.
Variable G : DepGraph.t Step.
Variable S : gmap string StepStartState.

Local Abbreviation E := (DepGraph.outgoingEdges G).

(** X1. A step is queued, in flight or mentioned in the log only after
    every step it depends on, directly or through other steps, has been
    executed: each of them has a final status then ([SUCCESS], [FAILURE],
    [PARTIAL_SUCCESS_DUE_TO_DEPENDENCY_FAILURE] or [CACHED]) and is no
    longer queued or in flight. *)
Theorem X1_dependencies_are_executed_first evs st s d :
  wf G → keyed_by_id G → run G S evs = Some st →
  s ∈ active st ∨ (∃ ev, ev ∈ log st ∧ log_step ev = s) →
  tc (edge E) s d →
  (∃ x, status_of (stepResultsMap st) d = Some x ∧ executed x) ∧ d ∉ active st.
Proof.
  intros Hwf Hid Hrun Hs Hsd.
  destruct (Inv_run G S Hwf Hid evs st Hrun) as (m0 & R & Hm & [HP _]).
  assert (s ∈ R) as HsR.
  { destruct Hs as [Hs|(ev & Hev & <-)].
    - by apply (inv_active _ _ _ _ _ HP) in Hs as [? _].
    - by apply (inv_log _ _ _ _ _ HP). }
  assert (dispatched G st s) as Hdisp
    by (by apply (dispatched_R G S m0 Hwf Hid Hm st R)).
  destruct (dispatched_after_dependencies G S Hwf Hid evs st s d Hrun Hdisp Hsd)
    as (x & Hx & Hex).
  split; [by exists x|].
  intros [_ Hpend]%(inv_active _ _ _ _ _ HP).
  rewrite Hx in Hpend. injection Hpend as ->.
  by destruct Hex as [?|[?|[?|?]]].
Qed.

(** X2. Whatever the events and their order, no step is started twice
    and no handler is invoked twice; a step that is started is a step of
    the graph whose start state has [disabled === false]. *)
Theorem X2_each_step_runs_at_most_once evs st :
  wf G → keyed_by_id G → run G S evs = Some st →
  NoDup (started (log st)) ∧ NoDup (invoked (log st)) ∧
  ∀ s, s ∈ started (log st) ∨ s ∈ invoked (log st) →
       s ∈ DepGraph.keys G ∧ isStepEnabled S s = Some true.
Proof.
  intros Hwf Hid Hrun.
  destruct (once_run G S Hwf Hid evs st Hrun) as (Hs & Hh & _).
  split_and!; [done..|].
  destruct (Inv_run G S Hwf Hid evs st Hrun) as (m0 & R & Hm & [HP _]).
  intros s Hin.
  assert (s ∈ R) as HsR.
  { destruct Hin as [Hin%elem_of_started|Hin%elem_of_invoked];
      by apply (inv_log _ _ _ _ _ HP) in Hin. }
  split.
  - by apply (inv_R_keys _ _ _ _ _ HP).
  - by apply (inv_R_enabled _ _ _ _ _ HP).
Qed.

(** X3. A step has the status [SUCCESS] only if every step it depends
    on, directly or through other steps, has the status [SUCCESS] or
    [CACHED]. *)
Theorem X3_success_has_clean_dependencies evs st s d :
  wf G → keyed_by_id G → run G S evs = Some st →
  status_of (stepResultsMap st) s = Some SUCCESS →
  tc (edge E) s d →
  status_of (stepResultsMap st) d = Some SUCCESS ∨
  status_of (stepResultsMap st) d = Some CACHED.
Proof.
  intros Hwf Hid Hrun Hs Hsd.
  destruct (cause_run G S Hwf Hid evs st Hrun) as [_ Hcause].
  destruct (Hcause s SUCCESS Hs) as [Hclean _]. by apply Hclean.
Qed.

(** X4. A step has the status
    [PARTIAL_SUCCESS_DUE_TO_DEPENDENCY_FAILURE] only if some step it
    depends on, directly or through other steps, has the status
    [FAILURE]. *)
Theorem X4_partial_success_has_a_failed_dependency evs st s :
  wf G → keyed_by_id G → run G S evs = Some st →
  status_of (stepResultsMap st) s = Some PARTIAL_SUCCESS_DUE_TO_DEPENDENCY_FAILURE →
  ∃ d, tc (edge E) s d ∧ status_of (stepResultsMap st) d = Some FAILURE.
Proof.
  intros Hwf Hid Hrun.
  destruct (cause_run G S Hwf Hid evs st Hrun) as [_ Hcause].
  destruct (Inv_run G S Hwf Hid evs st Hrun) as (m0 & R & Hm & _).
  destruct (start_dag G S m0 Hwf Hid Hm) as [rank Hrank].
  assert (∀ n s, rank s < n →
            status_of (stepResultsMap st) s
            = Some PARTIAL_SUCCESS_DUE_TO_DEPENDENCY_FAILURE →
            ∃ d, tc (edge E) s d ∧ status_of (stepResultsMap st) d = Some FAILURE)
    as Hind.
  { induction n as [|n IH]; intros s' Hlt Hs'; [lia|].
    destruct (Hcause s' _ Hs') as [_ Hp].
    destruct (Hp eq_refl) as (d & Hd & [Hf|Hpart]); [by exists d|].
    destruct (IH d) as (d' & Hd' & Hf'); [|done|].
    - pose proof (rank_tc E rank s' d Hrank Hd). lia.
    - exists d'. split; [|done]. by etrans. }
  by apply (Hind (Datatypes.S (rank s))); lia.
Qed.

(** A step whose start state has a [disabled] that is not the
    boolean [false] is never dispatched: it is never queued or in flight
    and nothing is logged for it. When that value is falsy ([undefined],
    [null], [0], the empty string) and no dependency of the step is
    disabled, its status stays [PENDING_EVALUATION], and a run that
    resolves returns it so. *)
Lemma unset_disabled_flag_blocks_the_step evs st s ss :
  wf G → keyed_by_id G → run G S evs = Some st →
  s ∈ DepGraph.keys G → S !! s = Some ss → disabled ss ≠ Js.VBool false →
  (s ∉ active st) ∧
  (∀ ev, ev ∈ log st → log_step ev ≠ s) ∧
  (Js.truthy (disabled ss) = false →
   (∀ d, tc (edge E) s d → disabled_truthy S d = false) →
   status_of (stepResultsMap st) s = Some PENDING_EVALUATION ∧
   ∀ v, settled st = Some (Resolved v) →
        ∃ r, r ∈ v ∧ r_id r = s ∧ status r = PENDING_EVALUATION).
Proof.
  intros Hwf Hid Hrun Hs Hss Hdis.
  destruct (Inv_run G S Hwf Hid evs st Hrun) as (m0 & R & Hm & HI).
  pose proof HI as [HP _].
  pose proof (start_dag G S m0 Hwf Hid Hm) as Hdag.
  assert (s ∉ R) as HsR.
  { intros Hx%(inv_R_enabled _ _ _ _ _ HP).
    unfold isStepEnabled in Hx. rewrite Hss in Hx. simpl in Hx.
    injection Hx as Hx. unfold Js.strict_eq in Hx.
    by apply bool_decide_eq_true in Hx. }
  split_and!.
  - intros Ha. by apply (inv_active _ _ _ _ _ HP) in Ha as [? _].
  - intros ev Hev <-. by apply (inv_log _ _ _ _ _ HP) in Hev.
  - intros Hfalsy Hdeps.
    assert (status_of (stepResultsMap st) s = Some PENDING_EVALUATION) as Hst.
    { unfold status_of. rewrite (inv_seed _ _ _ _ _ HP s HsR).
      destruct (seed_lookup G S m0 Hwf Hid Hm s Hs) as (r & deps & -> & Hd & Hr).
      simpl. rewrite Hr. unfold seed.
      assert (disabled_truthy S s = false) as ->.
      { unfold disabled_truthy. by rewrite Hss. }
      assert (existsb (disabled_truthy S) deps = false) as ->; [|done].
      destruct (existsb (disabled_truthy S) deps) eqn:Hex; [|done].
      apply existsb_exists in Hex as (d & Hin%list_elem_of_In & Htr).
      rewrite Hdeps in Htr; [done|].
      by apply (dependenciesOf_tc G s deps d Hdag Hd). }
    split; [done|]. intros v Hv. by apply (resolved_entry G S m0 st R v s).
Qed.

(** X6. When the handler of a step throws an error marked fatal, the
    queue is paused and the run is rejected with that error; the step's
    status is not written and stays [PENDING_EVALUATION]. Whatever
    happens afterwards, the rejection stands, no further step is started
    and none is added to the queue. *)
Theorem X6_fatal_error_stops_the_run evs st step hr err :
  wf G → keyed_by_id G → run G S evs = Some st →
  (step, AwaitingHandler) ∈ inFlight st → isPaused st = false →
  cache_miss S (id step) (cacheRun hr) →
  handlerError (handlerRun hr) = Some err → err_fatal err = true →
  ∃ st1,
    next G S st (EvHandlerDone (id step) hr) = Some st1 ∧
    isPaused st1 = true ∧ settled st1 = Some (Rejected err) ∧
    next G S st1 EvStart = None ∧
    ∀ evs' st2,
      exec G S st1 evs' = Some st2 →
      settled st2 = Some (Rejected err) ∧
      started (log st2) = started (log st1) ∧ queued st2 = queued st1 ∧
      status_of (stepResultsMap st2) (id step) = Some PENDING_EVALUATION.
Proof.
  intros Hwf Hid Hrun Hin Hp Hmiss Hh Hfatal.
  destruct (Inv_run G S Hwf Hid evs st Hrun) as (m0 & R & Hm & [HP _]).
  destruct (in_flight_take G S Hwf Hid evs st step _ Hrun Hin) as [rest Htake].
  destruct (handler_throws_phase G S Hwf Hid (stepResultsMap st) (typeTracker st)
              step hr err Hmiss Hh) as (tt' & l & _ & _ & _ & Hph).
  assert (fatal err = Some true) as Hf by (by destruct err as [? []|]).
  rewrite Hf in Hph.
  assert (settled st = None) as Hset.
  { destruct (settled st) as [[v|e]|] eqn:Hset; [| |done].
    - destruct (inv_resolved _ _ _ _ _ HP v Hset) as (_ & Hfl & _).
      rewrite Hfl in Hin. by apply elem_of_nil in Hin.
    - assert (isPaused st = true) by (apply (inv_paused _ _ _ _ _ HP); by exists e).
      congruence. }
  assert (id step ∈ active st) as Hact.
  { apply (active_tasks G S m0 Hwf Hid Hm). rewrite elem_of_app. right.
    apply list_elem_of_fmap. by exists (step, AwaitingHandler). }
  eexists. split.
  { simpl. rewrite Htake. simpl. by rewrite Hph. }
  unfold handleUnexpectedError, set_settled. simpl. rewrite Hset.
  split_and!; [done|done|by destruct (queued st)|].
  intros evs' st2 Hex.
  apply (exec_paused G S Hwf Hid) with (o := Rejected err) in Hex
    as (_ & Ho & Hq & _ & Hs & _ & Hmap); [|done|done].
  split_and!; [done..|].
  unfold status_of. rewrite Hmap.
  - simpl. by apply (inv_active _ _ _ _ _ HP).
  - unfold active. simpl.
    apply (take_task_spec G S m0 Hwf Hid Hm) in Htake as (_ & l1 & l2 & Hfl & ->).
    pose proof (inv_active_nodup _ _ _ _ _ HP) as Hnd.
    unfold active in Hnd. rewrite Hfl in Hnd.
    rewrite fmap_app, fmap_cons in Hnd. simpl in Hnd.
    rewrite fmap_app.
    apply NoDup_app in Hnd as (_ & Hqd & Hnd).
    apply NoDup_app in Hnd as (_ & H1 & [H2 _]%NoDup_cons).
    intros [Ha|[Ha|Ha]%elem_of_app]%elem_of_app.
    + apply (Hqd _ Ha). set_solver.
    + apply (H1 _ Ha). set_solver.
    + done.
Qed.

(** X7. When the handler of a step throws an error value that is not
    marked fatal, the failure is logged and nothing else happens to the
    run: the queue is not paused and the promise is not settled. The
    step goes on to its flush with the status [FAILURE], which is written
    to the results when the flush does not throw, whatever the upload
    wait does. When the handler throws [undefined] or [null], the test
    [err.fatal] is itself a [TypeError]: the failure is logged, then the
    queue is paused and the run is rejected with the [TypeError] (unless
    it was settled before), and the status of the step is not written. *)
Theorem X7_handler_error_fails_the_step_only evs st step hr err :
  wf G → keyed_by_id G → run G S evs = Some st →
  (step, AwaitingHandler) ∈ inFlight st →
  cache_miss S (id step) (cacheRun hr) →
  handlerError (handlerRun hr) = Some err →
  (fatal err = Some false →
   ∃ st1 l,
     next G S st (EvHandlerDone (id step) hr) = Some st1 ∧
     (step, AwaitingFlush FAILURE) ∈ inFlight st1 ∧
     log st1 = log st ++ l ∧
     LStepFailure (id step) err ∈ l ∧ (LStepSuccess (id step) ∉ l) ∧
     isPaused st1 = isPaused st ∧ settled st1 = settled st ∧
     ∀ fr, flushError fr = None →
           ∃ st2, next G S st1 (EvFlushDone (id step) fr) = Some st2 ∧
                  status_of (stepResultsMap st2) (id step) = Some FAILURE ∧
                  isPaused st2 = isPaused st ∧ settled st2 = settled st) ∧
  (fatal err = None →
   ∃ st1 l,
     next G S st (EvHandlerDone (id step) hr) = Some st1 ∧
     log st1 = log st ++ l ∧ LStepFailure (id step) err ∈ l ∧
     isPaused st1 = true ∧
     settled st1 =
       Some (match settled st with Some o => o | None => Rejected TypeError end) ∧
     (∀ x, (step, AwaitingFlush x) ∉ inFlight st1) ∧
     status_of (stepResultsMap st1) (id step) = Some PENDING_EVALUATION).
Proof.
  intros Hwf Hid Hrun Hin Hmiss Hh.
  destruct (Inv_run G S Hwf Hid evs st Hrun) as (m0 & R & Hm & [HP _]).
  destruct (in_flight_take G S Hwf Hid evs st step _ Hrun Hin) as [rest Htake].
  destruct (handler_throws_phase G S Hwf Hid (stepResultsMap st) (typeTracker st)
              step hr err Hmiss Hh) as (tt' & l & _ & Hl & Hl' & Hph).
  split; intros Hfatal; rewrite Hfatal in Hph.
  - assert (∃ st1, next G S st (EvHandlerDone (id step) hr) = Some st1 ∧
                   inFlight st1 = rest ++ [(step, AwaitingFlush FAILURE)] ∧
                   log st1 = log st ++ l ∧
                   isPaused st1 = isPaused st ∧ settled st1 = settled st)
      as (st1 & Hn & Hfl & Hlog & Hp1 & Hs1).
    { eexists. split; [simpl; rewrite Htake; simpl; by rewrite Hph|done]. }
    assert ((step, AwaitingFlush FAILURE) ∈ inFlight st1) as Hin1.
    { rewrite Hfl. set_solver. }
    exists st1, l. split_and!; try done.
    intros fr Hflush.
    pose proof (run_snoc G S evs st _ st1 Hrun Hn) as Hrun1.
    destruct (flush_ok G S Hwf Hid _ st1 step FAILURE fr Hrun1 Hin1 Hflush)
      as (st2 & Hn2 & Hst & Hp2 & Hs2).
    exists st2. split_and!; [done| |congruence|congruence].
    rewrite Hst. by destruct (waitUntilUploadsComplete fr) as [[?|]|].
  - assert (id step ∈ active st) as Hact.
    { apply (active_tasks G S m0 Hwf Hid Hm). rewrite elem_of_app. right.
      apply list_elem_of_fmap. by exists (step, AwaitingHandler). }
    eexists _, l. split.
    { simpl. rewrite Htake. simpl. by rewrite Hph. }
    unfold handleUnexpectedError, set_settled. simpl.
    split_and!; [done|done|done|by destruct (settled st)| |].
    + intros x Hx.
      apply (take_task_spec G S m0 Hwf Hid Hm) in Htake as (_ & l1 & l2 & Hfl & ->).
      pose proof (inv_active_nodup _ _ _ _ _ HP) as Hnd.
      unfold active in Hnd. rewrite Hfl in Hnd.
      rewrite fmap_app, fmap_cons in Hnd. simpl in Hnd.
      apply NoDup_app in Hnd as (_ & _ & Hnd).
      apply NoDup_app in Hnd as (_ & H1 & [H2 _]%NoDup_cons).
      apply elem_of_app in Hx as [Hx|Hx].
      * apply (H1 (id step)); [|set_solver].
        apply list_elem_of_fmap. by exists (step, AwaitingFlush x).
      * apply H2. apply list_elem_of_fmap. by exists (step, AwaitingFlush x).
    + by apply (inv_active _ _ _ _ _ HP).
Qed.

(** X8. The scheduler cannot get stuck: from every state of a run whose
    promise is not settled yet, some continuation (handlers that return
    and flushes that succeed) leads to the resolution, with the results
    in the order of [inputGraph.overallOrder()]. *)
Theorem X8_an_unsettled_run_can_resolve evs st :
  wf G → keyed_by_id G → run G S evs = Some st → settled st = None →
  ∃ evs' st' v,
    run G S (evs ++ evs') = Some st' ∧ settled st' = Some (Resolved v) ∧
    DepGraph.overallOrder G false = Some (r_id <$> v).
Proof.
  intros Hwf Hid Hrun Hset.
  destruct (Inv_run G S Hwf Hid evs st Hrun) as (m0 & R & Hm & [HP _]).
  assert (isPaused st = false) as Hp.
  { destruct (isPaused st) eqn:Hp; [|done].
    apply (inv_paused _ _ _ _ _ HP) in Hp as [e He]. congruence. }
  destruct (run_can_resolve G S Hwf Hid evs st Hrun Hp Hset)
    as (evs' & st' & v & Hrun' & Hres).
  exists evs', st', v. split_and!; [done..|].
  by apply (resolved_ids G S (evs ++ evs') st' v).
Qed.

(** [executeStepDependencyGraph] gets through its synchronous part
    (building the results map and enqueueing the first leaves) exactly
    when the input graph has no cycle and every step of it has a start
    state; otherwise it throws before any step is queued. When it gets
    through, the queue is not paused and nothing is settled. *)
Lemma when_the_run_starts :
  wf G → keyed_by_id G →
  (is_Some (executeStepDependencyGraph G S) ↔
   dag E ∧ ∀ s, s ∈ DepGraph.keys G → is_Some (S !! s)) ∧
  ∀ st0, executeStepDependencyGraph G S = Some st0 →
         isPaused st0 = false ∧ settled st0 = None ∧ inFlight st0 = [] ∧
         log st0 = [].
Proof.
  intros Hwf Hid.
  assert (∀ st0, executeStepDependencyGraph G S = Some st0 →
            (dag E ∧ ∀ s, s ∈ DepGraph.keys G → is_Some (S !! s)) ∧
            isPaused st0 = false ∧ settled st0 = None ∧ inFlight st0 = [] ∧
            log st0 = []) as Hstart.
  { intros st0 H0. unfold executeStepDependencyGraph in H0.
    destruct (buildStepResultsMap G S) as [m0|] eqn:Hm; [|done]. simpl in H0.
    split.
    - split; [by apply (start_dag G S m0)|].
      intros s Hs.
      destruct (buildStepResultsMap_spec G S Hwf Hid m0 Hm)
        as (_ & _ & _ & _ & _ & _ & Hseeds).
      by destruct (Hseeds s Hs).
    - destruct (enqueueLeafSteps_explicit G S m0 Hwf Hid Hm
                  (mkState (DepGraph.clone G) m0 ∅ [] [] false None []) [])
        as (D & Ds & HE & _).
      { unfold DepGraph.clone. simpl. by rewrite restrict_nil. }
      { done. }
      rewrite HE in H0. by injection H0 as <-. }
  split.
  - split.
    + intros [st0 H0]. by destruct (Hstart st0 H0).
    + intros [Hdag Hstates].
      destruct (run_starts G S Hwf Hid Hdag Hstates) as (st0 & Hrun & _).
      unfold run in Hrun.
      destruct (executeStepDependencyGraph G S); [by eexists|done].
  - intros st0 H0. by destruct (Hstart st0 H0) as (_ & ? & ? & ? & ?).
Qed.

(** No step is left waiting: in every state of a run whose queue is
    not paused, a step that is enabled and whose dependencies, direct
    and through other steps, have all been executed has been dispatched;
    it is queued, in flight or executed itself. *)
Lemma ready_steps_are_dispatched evs st s :
  wf G → keyed_by_id G → run G S evs = Some st → isPaused st = false →
  s ∈ DepGraph.keys G → isStepEnabled S s = Some true →
  (∀ d, tc (edge E) s d →
        ∃ x, status_of (stepResultsMap st) d = Some x ∧ executed x) →
  dispatched G st s ∧
  (s ∈ active st ∨ ∃ x, status_of (stepResultsMap st) s = Some x ∧ executed x).
Proof.
  intros Hwf Hid Hrun Hp Hs Hen Hdeps.
  destruct (Inv_run G S Hwf Hid evs st Hrun) as (m0 & R & Hm & [HP Hready]).
  pose proof (start_dag G S m0 Hwf Hid Hm) as Hdag.
  assert (∀ d, tc (edge E) s d → d ∈ R) as HdR.
  { intros d Hd. destruct (Hdeps d Hd) as (x & Hx & Hex).
    destruct (decide (d ∈ R)) as [|HnR]; [done|]. exfalso.
    assert (d ∈ DepGraph.keys G) as Hdk.
    { apply tc_rtc, rtc_inv_r in Hd as [->|(c & _ & Hcd)]; [done|].
      by destruct (edge_out_keys G c d Hwf Hcd). }
    unfold status_of in Hx. rewrite (inv_seed _ _ _ _ _ HP d HnR) in Hx.
    destruct (seed_lookup G S m0 Hwf Hid Hm d Hdk) as (r & deps & Hr & _ & Hst).
    rewrite Hr in Hx. simpl in Hx. rewrite Hst in Hx. unfold seed in Hx.
    injection Hx as <-.
    by destruct Hex as [?|[?|[?|?]]]; case_match. }
  assert (s ∈ R) as HsR.
  { destruct (decide (s ∈ R)) as [|HnR]; [done|]. exfalso.
    apply (Hready Hp s). split_and!; [done|done| |done|].
    - intros d Hd. apply HdR. by apply tc_once.
    - unfold stepDependenciesAreComplete.
      destruct (dependenciesOf_total G s Hwf Hdag Hs) as [deps Hd].
      rewrite Hd. simpl. f_equal. apply bool_decide_eq_true.
      apply length_zero_iff_nil, filter_nil_Forall, Forall_forall.
      intros r (d & -> & Hin)%list_elem_of_fmap Hpend.
      apply (dependenciesOf_tc G s deps d Hdag Hd) in Hin.
      destruct (Hdeps d Hin) as (x & Hx & Hex).
      unfold status_of in Hx. rewrite Hx in Hpend. injection Hpend as ->.
      by destruct Hex as [?|[?|[?|?]]]. }
  split; [by apply (dispatched_R G S m0 Hwf Hid Hm st R)|].
  destruct (decide (s ∈ active st)) as [|Hna]; [by left|right].
  by apply (inv_done _ _ _ _ _ HP).
Qed.

(** X23. An entry of the results whose status is not
    [PENDING_EVALUATION] is final: whatever happens later, the entry
    keeps its status and its encountered types. *)
Theorem X23_final_statuses_stay evs st s r evs' st' :
  wf G → keyed_by_id G → run G S evs = Some st →
  map_get (stepResultsMap st) s = Some r → status r ≠ PENDING_EVALUATION →
  exec G S st evs' = Some st' →
  map_get (stepResultsMap st') s = Some r.
Proof.
  intros Hwf Hid Hrun Hget Hfinal.
  destruct (Inv_run G S Hwf Hid evs st Hrun) as (m0 & R & Hm & HI).
  clear Hrun. revert st R HI Hget. unfold exec.
  induction evs' as [|ev evs' IH]; intros st R HI Hget Hex; simpl in Hex.
  { by simplify_eq. }
  destruct (next G S st ev) as [st1|] eqn:Hn; [|done].
  destruct (Inv_next G S m0 Hwf Hid Hm st R ev st1 HI Hn) as (R1 & HI1 & _).
  apply (IH st1 R1 HI1); [|done].
  rewrite (next_map_get G S Hwf Hid st ev st1 s Hn); [done|].
  intros Ha. destruct HI as [HP _].
  apply (inv_active _ _ _ _ _ HP) in Ha as [_ Ha].
  unfold status_of in Ha. rewrite Hget in Ha. simpl in Ha. congruence.
Qed.
End Scheduler_histories.

(** ** The graph and the results map a run starts from *)

(** The graph [buildStepDependencyGraph] returns has one node for
    each step id, and an edge from a step to exactly the ids its
    [dependsOn] lists; with distinct ids, each node holds its step. The
    graph can be ordered: [overallOrder()] returns every id once, each
    after the ids its step depends on. *)
Lemma buildStepDependencyGraph_result steps g :
  buildStepDependencyGraph steps = Some g →
  wf g ∧ keyed_by_id g ∧
  (∀ s, s ∈ DepGraph.keys g ↔ s ∈ id <$> steps) ∧
  (∀ a b, edge (DepGraph.outgoingEdges g) a b ↔ depends steps a b) ∧
  (NoDup (id <$> steps) →
   ∀ step, step ∈ steps → DepGraph.getNodeData g (id step) = Some step) ∧
  ∃ order,
    DepGraph.overallOrder g false = Some order ∧ NoDup order ∧
    (∀ s, s ∈ order ↔ s ∈ id <$> steps) ∧
    ∀ l1 a l2 b, order = l1 ++ a :: l2 → depends steps a b → b ∈ l1.
Proof.
  intros Hg.
  destruct (buildStepDependencyGraph_wf steps g Hg) as (Hwf & Hid & Hdag & _).
  destruct (buildStepDependencyGraph_edges steps g Hg) as (Hk & He & _ & Hdata).
  split_and!; [done..|].
  destruct (overallOrder_total g false Hwf Hdag) as [order Ho].
  destruct (overallOrder_spec g false order Hwf Ho) as (Hnd & Hall & Htopo).
  exists order. split_and!; [done|done| |].
  - intros s. rewrite <- Hk, Hall. naive_solver.
  - intros l1 a l2 b Hl Hab. apply (Htopo eq_refl l1 a l2 b Hl). by apply He.
Qed.

(** [buildStepDependencyGraph] throws exactly when some [dependsOn]
    names an id that no step has, or the [dependsOn] lists have a cycle;
    in particular it throws when a step depends on itself, directly or
    through other steps. *)
Lemma buildStepDependencyGraph_throws steps :
  (buildStepDependencyGraph steps = None ↔
   (∃ step d, step ∈ steps ∧ d ∈ default [] (dependsOn step) ∧ d ∉ id <$> steps) ∨
   ¬ acyclic steps) ∧
  ((∃ a, tc (depends steps) a a) → buildStepDependencyGraph steps = None).
Proof.
  pose proof (buildStepDependencyGraph_is_Some steps) as Hsome.
  assert (buildStepDependencyGraph steps = None ↔
          (∃ step d, step ∈ steps ∧ d ∈ default [] (dependsOn step) ∧
                     d ∉ id <$> steps) ∨ ¬ acyclic steps) as Hnone.
  { split.
    - intros Hnone.
      destruct (decide (Exists (λ step, Exists (λ d, d ∉ id <$> steps)
                                          (default [] (dependsOn step))) steps))
        as [Hex|Hall].
      + left. apply Exists_exists in Hex as (step & Hs & Hex).
        apply Exists_exists in Hex as (d & Hd & Hn). by exists step, d.
      + right. intros Hacyclic.
        destruct (proj2 Hsome) as [g Hg]; [|congruence].
        split; [|done]. intros step d Hs Hd.
        destruct (decide (d ∈ id <$> steps)) as [|Hn]; [done|].
        destruct Hall. apply Exists_exists. exists step. split; [done|].
        apply Exists_exists. by exists d.
    - intros Hbad.
      destruct (buildStepDependencyGraph steps) as [g|] eqn:Hg; [|done].
      destruct (proj1 Hsome) as [Hknown Hacyclic]; [by eexists|].
      destruct Hbad as [(step & d & Hs & Hd & Hn)|Hn]; [|done].
      destruct Hn. by apply (Hknown step). }
  split; [done|].
  intros [a Ha]. apply Hnone. right. intros [m Hm].
  assert (∀ x y, tc (depends steps) x y → m y < m x) as Hlt.
  { intros x y Hxy. induction Hxy as [x y Hxy|x y z Hxy _ IH].
    - by apply Hm.
    - apply Hm in Hxy. lia. }
  specialize (Hlt a a Ha). lia.
Qed.

Section Initial_results.
Variable G : DepGraph.t Step.
Variable S : gmap string StepStartState.

(** The results map a run starts from lists the steps in the order
    of [overallOrder()]. Each entry copies the id, the name, [dependsOn]
    and the declared types of its step, and has no encountered type. Its
    status is [DISABLED] exactly when the start state of the step, or of
    a step it depends on directly or through other steps, has a truthy
    [disabled]; otherwise it is [PENDING_EVALUATION]. *)
Lemma initial_results m0 :
  wf G → keyed_by_id G → buildStepResultsMap G S = Some m0 →
  DepGraph.overallOrder G false = Some m0.*1 ∧
  (∀ s, s ∈ DepGraph.keys G → is_Some (map_get m0 s)) ∧
  ∀ s r, map_get m0 s = Some r →
    (∃ step,
       DepGraph.getNodeData G s = Some step ∧ id step = s ∧
       r_id r = s ∧ r_name r = name step ∧ r_dependsOn r = dependsOn step ∧
       declaredTypes r = (getDeclaredTypesInStep step).1 ∧
       partialTypes r = (getDeclaredTypesInStep step).2 ∧
       encounteredTypes r = []) ∧
    (status r = DISABLED ∨ status r = PENDING_EVALUATION) ∧
    (status r = DISABLED ↔
     disabled_truthy S s = true ∨
     ∃ d, tc (edge (DepGraph.outgoingEdges G)) s d ∧ disabled_truthy S d = true).
Proof.
  intros Hwf Hid Hm.
  destruct (buildStepResultsMap_spec G S Hwf Hid m0 Hm)
    as (order & Ho & Hkeys & _ & Hall & _ & Hseeds).
  pose proof (start_dag G S m0 Hwf Hid Hm) as Hdag.
  split_and!.
  - by rewrite Hkeys.
  - intros s Hs. destruct (Hseeds s Hs) as (_ & r & _ & -> & _). done.
  - intros s r Hget.
    pose proof (seed_entry G S Hwf Hid m0 s r Hm Hget) as Hr.
    destruct (buildStepResult_fields G S Hwf Hid s r Hr)
      as (step & Hstep & Hrid & Hname & Hdep & Hdecl & Hpart & Henc).
    destruct (getNodeData_id G S Hwf Hid s step Hstep) as [Hids Hs].
    destruct (Hseeds s Hs) as (_ & r' & deps & Hget' & Hdeps & _ & Hst).
    rewrite Hget in Hget'. injection Hget' as <-.
    split_and!.
    + exists step. split_and!; try done. congruence.
    + rewrite Hst. unfold seed. case_match; auto.
    + rewrite Hst. by apply seed_disabled.
Qed.

(** X13. [updateStepResultStatus] does nothing for an id without an
    entry. Otherwise it replaces the status and the encountered types of
    that entry and nothing else: the other fields and the other entries
    stay, and so does the order of the entries. *)
Theorem X13_updateStepResultStatus_writes_one_entry m stepId x tt :
  (updateStepResultStatus m stepId x tt).*1 = m.*1 ∧
  (map_get m stepId = None → updateStepResultStatus m stepId x tt = m) ∧
  (∀ r, map_get m stepId = Some r →
        map_get (updateStepResultStatus m stepId x tt) stepId =
          Some (mkResult (r_id r) (r_name r) (r_dependsOn r) (declaredTypes r)
                  (partialTypes r) (getEncounteredTypesForStep tt stepId) x)) ∧
  ∀ k, k ≠ stepId →
       map_get (updateStepResultStatus m stepId x tt) k = map_get m k.
Proof.
  unfold updateStepResultStatus.
  destruct (map_get m stepId) as [r|] eqn:Hget.
  - split_and!.
    + apply map_set_keys. apply map_get_is_Some. by rewrite Hget.
    + done.
    + intros ? [= <-]. rewrite map_get_set. by rewrite decide_True.
    + intros k Hk. rewrite map_get_set. by rewrite decide_False.
  - by split_and!.
Qed.
End Initial_results.

(** ** More of the scheduler on the scenarios *)

(** X1 on the diamond: when d runs, a (a dependency of d through b) has
    been executed. *)
Lemma X1_witness :
  (∃ x, status_of (stepResultsMap diamond_d_running) "a" = Some x ∧ executed x) ∧
  "a" ∉ active diamond_d_running.
Proof.
  apply (X1_dependencies_are_executed_first diamond diamond_states
           (take 10 diamond_events) diamond_d_running "d" "a").
  - by apply (bool_decide_unpack _).
  - by apply (bool_decide_unpack _).
  - vm_compute. reflexivity.
  - left. vm_compute. apply list_elem_of_here.
  - apply tc_l with "b"; [|apply tc_once]; eexists; (split; [vm_compute; reflexivity|]);
      by apply list_elem_of_here.
Defined.

(** X2 on the diamond. *)
Lemma X2_witness :
  NoDup (started (log diamond_final)) ∧ NoDup (invoked (log diamond_final)) ∧
  ∀ s, s ∈ started (log diamond_final) ∨ s ∈ invoked (log diamond_final) →
       s ∈ DepGraph.keys diamond ∧ isStepEnabled diamond_states s = Some true.
Proof.
  apply (X2_each_step_runs_at_most_once diamond diamond_states diamond_events
           diamond_final).
  - by apply (bool_decide_unpack _).
  - by apply (bool_decide_unpack _).
  - vm_compute. reflexivity.
Defined.

(** X3 on the diamond: c succeeded, so did a. *)
Lemma X3_witness :
  status_of (stepResultsMap diamond_final) "a" = Some SUCCESS ∨
  status_of (stepResultsMap diamond_final) "a" = Some CACHED.
Proof.
  apply (X3_success_has_clean_dependencies diamond diamond_states diamond_events
           diamond_final "c" "a").
  - by apply (bool_decide_unpack _).
  - by apply (bool_decide_unpack _).
  - vm_compute. reflexivity.
  - vm_compute. reflexivity.
  - apply tc_once. eexists. split; [vm_compute; reflexivity|].
    by apply list_elem_of_here.
Defined.

(** X4 on the diamond: d is a partial success, b has failed. *)
Lemma X4_witness :
  ∃ d, tc (edge (DepGraph.outgoingEdges diamond)) "d" d ∧
       status_of (stepResultsMap diamond_final) d = Some FAILURE.
Proof.
  apply (X4_partial_success_has_a_failed_dependency diamond diamond_states
           diamond_events diamond_final "d").
  - by apply (bool_decide_unpack _).
  - by apply (bool_decide_unpack _).
  - vm_compute. reflexivity.
  - vm_compute. reflexivity.
Defined.

(** X6 on the diamond: the handler of b throws a fatal error while c is
    running. *)
Lemma X6_witness :
  ∃ st1,
    next diamond diamond_states diamond_bc_running
      (EvHandlerDone "b" (handler_throws (mkErr "boom" true))) = Some st1 ∧
    isPaused st1 = true ∧ settled st1 = Some (Rejected (mkErr "boom" true)) ∧
    next diamond diamond_states st1 EvStart = None.
Proof.
  destruct (X6_fatal_error_stops_the_run diamond diamond_states
              (take 5 diamond_events) diamond_bc_running (step "b" ["a"])
              (handler_throws (mkErr "boom" true)) (mkErr "boom" true))
    as (st1 & Hn & Hp & Hs & Hq & _).
  - by apply (bool_decide_unpack _).
  - by apply (bool_decide_unpack _).
  - vm_compute. reflexivity.
  - apply list_elem_of_here.
  - reflexivity.
  - exists (Js.VBool false). split; [vm_compute; reflexivity|]. discriminate.
  - reflexivity.
  - reflexivity.
  - exists st1. split_and!; [exact Hn|exact Hp|exact Hs|exact Hq].
Defined.

(** X7 on the diamond: the handler of b throws an ordinary error; and
    the handler of b throws [undefined]. *)
Lemma X7_witness :
  (∃ st1 l,
     next diamond diamond_states diamond_bc_running
       (EvHandlerDone "b" (handler_throws (mkErr "boom" false))) = Some st1 ∧
     (step "b" ["a"], AwaitingFlush FAILURE) ∈ inFlight st1 ∧
     log st1 = log diamond_bc_running ++ l ∧
     LStepFailure "b" (mkErr "boom" false) ∈ l ∧
     isPaused st1 = false ∧ settled st1 = None) ∧
  (∃ st1,
     next diamond diamond_states diamond_bc_running
       (EvHandlerDone "b" handler_throws_undefined) = Some st1 ∧
     isPaused st1 = true ∧ settled st1 = Some (Rejected TypeError) ∧
     status_of (stepResultsMap st1) "b" = Some PENDING_EVALUATION).
Proof.
  split.
  - destruct (X7_handler_error_fails_the_step_only diamond diamond_states
                (take 5 diamond_events) diamond_bc_running (step "b" ["a"])
                (handler_throws (mkErr "boom" false)) (mkErr "boom" false))
      as [Hobject _].
    + by apply (bool_decide_unpack _).
    + by apply (bool_decide_unpack _).
    + vm_compute. reflexivity.
    + apply list_elem_of_here.
    + exists (Js.VBool false). split; [vm_compute; reflexivity|]. discriminate.
    + reflexivity.
    + destruct (Hobject eq_refl) as (st1 & l & Hn & Hin & Hl & Hf & _ & Hp & Hs & _).
      exists st1, l.
      split_and!; [exact Hn|exact Hin|exact Hl|exact Hf|exact Hp|exact Hs].
  - destruct (X7_handler_error_fails_the_step_only diamond diamond_states
                (take 5 diamond_events) diamond_bc_running (step "b" ["a"])
                handler_throws_undefined Nullish)
      as [_ Hnullish].
    + by apply (bool_decide_unpack _).
    + by apply (bool_decide_unpack _).
    + vm_compute. reflexivity.
    + apply list_elem_of_here.
    + exists (Js.VBool false). split; [vm_compute; reflexivity|]. discriminate.
    + reflexivity.
    + destruct (Hnullish eq_refl) as (st1 & l & Hn & _ & _ & Hp & Hs & _ & Hst).
      exists st1. split_and!; [exact Hn|exact Hp|exact Hs|exact Hst].
Defined.

(** X8 on the diamond, while b and c are running. *)
Lemma X8_witness :
  ∃ evs' st' v,
    run diamond diamond_states (take 5 diamond_events ++ evs') = Some st' ∧
    settled st' = Some (Resolved v) ∧
    DepGraph.overallOrder diamond false = Some (r_id <$> v).
Proof.
  apply (X8_an_unsettled_run_can_resolve diamond diamond_states
           (take 5 diamond_events) diamond_bc_running).
  - by apply (bool_decide_unpack _).
  - by apply (bool_decide_unpack _).
  - vm_compute. reflexivity.
  - reflexivity.
Defined.

(** X23 on the diamond: the failure of b is still there at the end. *)
Lemma X23_witness :
  ∃ r, map_get (stepResultsMap diamond_d_running) "b" = Some r ∧
       status r = FAILURE ∧
       map_get (stepResultsMap diamond_final) "b" = Some r.
Proof.
  eexists. split; [vm_compute; reflexivity|]. split; [reflexivity|].
  apply (X23_final_statuses_stay diamond diamond_states (take 10 diamond_events)
           diamond_d_running "b" _ (drop 10 diamond_events) diamond_final).
  - by apply (bool_decide_unpack _).
  - by apply (bool_decide_unpack _).
  - vm_compute. reflexivity.
  - vm_compute. reflexivity.
  - discriminate.
  - vm_compute. reflexivity.
Defined.

(** ** Ordinary names: the two readings of a plain object agree *)

Section Inherited_names.
Context {A : Type}.
Implicit Types g : DepGraph.t A.
Import DepGraph.

Local Abbreviation P := Js.objectPrototype.
Local Abbreviation lift :=
  (λ st : list string * list string, (st.1 ++ P, st.2)).

Lemma foldM_inherited (f : string → list string * list string
                           → option (list string * list string)) ns v r :
  (∀ n v r, n ∈ ns → f n (v ++ P, r) = lift <$> f n (v, r)) →
  foldM f ns (v ++ P, r) = lift <$> foldM f ns (v, r).
Proof.
  revert v r. induction ns as [|n ns IH]; intros v r Hf; [done|].
  simpl. rewrite Hf by set_solver.
  destruct (f n (v, r)) as [[v' r']|]; [|done]. simpl.
  apply IH. intros. apply Hf. set_solver.
Qed.

(** A search that meets no inherited name does not see that the visited
    set inherits some. *)
Lemma DFS_inherited fuel E lo path n v r :
  (∀ a es, E a = Some es → Forall (λ d, d ∉ P) es) → n ∉ P →
  DFS fuel E lo path n (v ++ P, r) = lift <$> DFS fuel E lo path n (v, r).
Proof.
  intros HE. revert path n v r.
  induction fuel as [|fuel IH]; intros path n v r Hn; [done|].
  simpl.
  destruct (decide (n ∈ v)) as [Hv|Hv].
  { rewrite decide_True by set_solver. done. }
  rewrite decide_False by set_solver.
  destruct (decide (n ∈ path)); [done|].
  destruct (E n) as [es|] eqn:Hes; [|done].
  rewrite foldM_inherited.
  - destruct (foldM _ es (v, r)) as [[v' r']|]; done.
  - intros d v' r' Hd. apply IH.
    by apply (proj1 (Forall_forall _ _) (HE n es Hes)).
Qed.

Lemma ordinary_names_keys g n : ordinary_names g → n ∈ keys g → n ∉ P.
Proof.
  intros Hg (e & -> & He)%list_elem_of_fmap.
  by destruct (proj1 (Forall_forall _ _) Hg e He).
Qed.

Lemma ordinary_names_outgoing g a es :
  ordinary_names g → outgoingEdges g a = Some es → Forall (λ d, d ∉ P) es.
Proof.
  intros Hg. unfold outgoingEdges.
  destruct (getNode g a) as [e|] eqn:He; [|done]. intros [= <-].
  apply getNode_Some in He as [He _].
  by destruct (proj1 (Forall_forall _ _) Hg e He) as (_ & ? & _).
Qed.

Lemma ordinary_names_incoming g a es :
  ordinary_names g → incomingEdges g a = Some es → Forall (λ d, d ∉ P) es.
Proof.
  intros Hg. unfold incomingEdges.
  destruct (getNode g a) as [e|] eqn:He; [|done]. intros [= <-].
  apply getNode_Some in He as [He _].
  by destruct (proj1 (Forall_forall _ _) Hg e He) as (_ & _ & ?).
Qed.

(** A consistent graph with ordinary nodes has ordinary edges. *)
Lemma ordinary_ordinary_names g : wf g → ordinary g → ordinary_names g.
Proof.
  intros Hwf Ho. apply Forall_forall. intros e He.
  assert (∀ n, n ∈ keys g → n ∉ P) as Hk
    by (intros n; apply (proj1 (Forall_forall _ _) Ho)).
  split_and!.
  - apply Hk. apply list_elem_of_fmap. by exists e.
  - apply Forall_forall. intros d Hd. apply Hk.
    destruct Hwf as [_ Hwf].
    destruct (proj1 (Forall_forall _ _) Hwf e He) as (_ & _ & Hout & _).
    apply (proj1 (Forall_forall _ _) Hout) in Hd.
    apply Exists_exists in Hd as (e' & He' & <- & _).
    apply list_elem_of_fmap. by exists e'.
  - apply Forall_forall. intros d Hd. apply Hk.
    destruct Hwf as [_ Hwf].
    destruct (proj1 (Forall_forall _ _) Hwf e He) as (_ & _ & _ & Hinc).
    apply (proj1 (Forall_forall _ _) Hinc) in Hd.
    apply Exists_exists in Hd as (e' & He' & <- & _).
    apply list_elem_of_fmap. by exists e'.
Qed.

Lemma overallOrder_javascript g lo :
  ordinary_names g →
  overallOrder (reading := javascript) g lo = overallOrder g lo.
Proof.
  intros Hg. unfold overallOrder.
  change (@Js.inherited ownProperties) with (@nil string).
  change (@Js.inherited javascript) with ([] ++ P).
  destruct (keys g) as [|k ks] eqn:Hk; [done|]. rewrite <- Hk.
  rewrite !foldM_inherited.
  - destruct (foldM _ (keys g) ([], [])) as [st1|]; [|done]. simpl.
    by destruct (foldM _ (filter _ (keys g)) ([], [])) as [st2|].
  - intros n v r [_ Hn]%list_elem_of_filter. apply DFS_inherited.
    + intros a es. by apply ordinary_names_outgoing.
    + by apply (ordinary_names_keys g).
  - intros n v r Hn. apply DFS_inherited.
    + intros a es. by apply ordinary_names_outgoing.
    + by apply (ordinary_names_keys g).
Qed.

Lemma dependenciesOf_javascript g n :
  ordinary_names g →
  dependenciesOf (reading := javascript) g n = dependenciesOf g n.
Proof.
  intros Hg. unfold dependenciesOf.
  change (@Js.inherited ownProperties) with (@nil string).
  change (@Js.inherited javascript) with ([] ++ P).
  destruct (hasNode g n) eqn:Hn; [|done]. apply hasNode_true in Hn.
  rewrite DFS_inherited.
  - by destruct (DFS _ _ _ _ _ ([], [])).
  - intros a es. by apply ordinary_names_outgoing.
  - by apply (ordinary_names_keys g).
Qed.

Lemma dependantsOf_javascript g n :
  ordinary_names g →
  dependantsOf (reading := javascript) g n = dependantsOf g n.
Proof.
  intros Hg. unfold dependantsOf.
  change (@Js.inherited ownProperties) with (@nil string).
  change (@Js.inherited javascript) with ([] ++ P).
  destruct (hasNode g n) eqn:Hn; [|done]. apply hasNode_true in Hn.
  rewrite DFS_inherited.
  - by destruct (DFS _ _ _ _ _ ([], [])).
  - intros a es. by apply ordinary_names_incoming.
  - by apply (ordinary_names_keys g).
Qed.

Lemma Forall_remove_first (Q : string → Prop) x l :
  Forall Q l → Forall Q (remove_first x l).
Proof.
  induction 1 as [|y l Hy Hl IH]; simpl; [done|].
  destruct (decide (x = y)); [done|]. by constructor.
Qed.

Lemma removeDependency_ordinary_names g a b :
  ordinary_names g → ordinary_names (removeDependency g a b).
Proof.
  intros Hg. unfold removeDependency. apply Forall_fmap.
  eapply Forall_impl; [exact Hg|]. intros e (Hn & Ho & Hi). simpl.
  repeat case_decide; simpl; split_and!; auto using Forall_remove_first.
Qed.

Lemma removeNode_ordinary_names g n :
  ordinary_names g → ordinary_names (removeNode g n).
Proof.
  intros Hg. unfold removeNode. destruct (hasNode g n); [|done].
  apply Forall_fmap. apply Forall_forall.
  intros e [_ He]%list_elem_of_filter.
  destruct (proj1 (Forall_forall _ _) Hg e He) as (Hn & Ho & Hi). simpl.
  split_and!; auto using Forall_remove_first.
Qed.
End Inherited_names.

Section Javascript_run.
Variable G : DepGraph.t Step.
Variable S : gmap string StepStartState.
Hypothesis HG : ordinary_names G.

Lemma stepHasDependencyFailure_javascript m s :
  stepHasDependencyFailure (reading := javascript) G m s
  = stepHasDependencyFailure G m s.
Proof. unfold stepHasDependencyFailure. by rewrite dependenciesOf_javascript. Qed.

Lemma stepDependenciesAreComplete_javascript m s :
  stepDependenciesAreComplete (reading := javascript) G m s
  = stepDependenciesAreComplete G m s.
Proof. unfold stepDependenciesAreComplete. by rewrite dependenciesOf_javascript. Qed.

Lemma removeStepFromWorkingGraph_javascript wg s :
  ordinary_names wg →
  removeStepFromWorkingGraph (reading := javascript) wg s
  = removeStepFromWorkingGraph wg s.
Proof.
  intros Hwg. unfold removeStepFromWorkingGraph.
  by rewrite dependantsOf_javascript.
Qed.

Lemma removeStepFromWorkingGraph_ordinary wg s wg' :
  ordinary_names wg → removeStepFromWorkingGraph wg s = Some wg' →
  ordinary_names wg'.
Proof.
  intros Hwg. unfold removeStepFromWorkingGraph.
  destruct (DepGraph.dependantsOf wg s) as [ds|]; [|done]. simpl.
  intros [= <-]. apply removeNode_ordinary_names.
  revert wg Hwg. induction ds as [|d ds IH]; intros wg Hwg; [done|].
  simpl. apply IH. by apply removeDependency_ordinary_names.
Qed.

Lemma enqueueLeafStep_javascript st s :
  ordinary_names (workingGraph st) →
  enqueueLeafStep (reading := javascript) G S st s = enqueueLeafStep G S st s.
Proof.
  intros Hwg. unfold enqueueLeafStep.
  rewrite stepDependenciesAreComplete_javascript.
  by rewrite removeStepFromWorkingGraph_javascript.
Qed.

Lemma enqueueLeafStep_ordinary st s r :
  ordinary_names (workingGraph st) → enqueueLeafStep G S st s = r →
  ordinary_names (workingGraph (match r with inl st' | inr st' => st' end)).
Proof.
  intros Hwg <-. unfold enqueueLeafStep.
  destruct (DepGraph.getNodeData _ _); [|done].
  destruct (isStepEnabled S s) as [[]|]; [|done..].
  destruct (stepDependenciesAreComplete G _ s) as [[]|]; [|done..].
  destruct (removeStepFromWorkingGraph _ s) eqn:Hr; [|done]. simpl.
  by apply (removeStepFromWorkingGraph_ordinary (workingGraph st) s).
Qed.

Lemma enqueueLeaves_javascript st leaves :
  ordinary_names (workingGraph st) →
  enqueueLeaves (reading := javascript) G S st leaves = enqueueLeaves G S st leaves ∧
  ordinary_names
    (workingGraph (match enqueueLeaves G S st leaves with
                   | inl st' | inr st' => st' end)).
Proof.
  revert st. induction leaves as [|s leaves IH]; intros st Hwg; [done|].
  simpl. rewrite enqueueLeafStep_javascript by done.
  pose proof (enqueueLeafStep_ordinary st s _ Hwg eq_refl) as Hs.
  destruct (enqueueLeafStep G S st s) as [st'|st']; [|done].
  by apply IH.
Qed.

Lemma enqueueLeafSteps_javascript st :
  ordinary_names (workingGraph st) →
  enqueueLeafSteps (reading := javascript) G S st = enqueueLeafSteps G S st ∧
  ordinary_names
    (workingGraph (match enqueueLeafSteps G S st with
                   | inl st' | inr st' => st' end)).
Proof.
  intros Hwg. unfold enqueueLeafSteps. destruct (isPaused st); [done|].
  rewrite overallOrder_javascript by done.
  destruct (DepGraph.overallOrder (workingGraph st) true); [|done].
  by apply enqueueLeaves_javascript.
Qed.

Lemma executeStepHandlerPhase_javascript m tt step run :
  executeStepHandlerPhase (reading := javascript) G S m tt step run
  = executeStepHandlerPhase G S m tt step run.
Proof.
  unfold executeStepHandlerPhase, executeStepTry.
  by rewrite stepHasDependencyFailure_javascript.
Qed.

Lemma next_javascript st ev :
  ordinary_names (workingGraph st) →
  next (reading := javascript) G S st ev = next G S st ev ∧
  ∀ st', next G S st ev = Some st' → ordinary_names (workingGraph st').
Proof.
  intros Hwg. destruct ev as [|s run|s run|]; simpl.
  - split; [done|]. destruct (queued st); [done|].
    destruct (isPaused st); [done|]. by intros ? [= <-].
  - destruct (take_task s (inFlight st)) as [[[step p] rest]|]; [|done]. simpl.
    destruct p; [|done]. rewrite executeStepHandlerPhase_javascript.
    split; [done|].
    destruct (executeStepHandlerPhase G S _ _ step run) as [[[e|x] tt'] l];
      by intros ? [= <-].
  - destruct (take_task s (inFlight st)) as [[[step p] rest]|]; [|done]. simpl.
    destruct p as [|x]; [done|].
    destruct (executeStepFlushPhase step x run) as [[e|x'] l].
    { split; [done|]. by intros ? [= <-]. }
    match goal with
    | |- context [enqueueLeafSteps G S ?st2] =>
        destruct (enqueueLeafSteps_javascript st2 Hwg) as [-> Ho];
        destruct (enqueueLeafSteps G S st2)
    end; (split; [done|]); by intros ? [= <-].
  - split; [done|]. destruct (queued st), (inFlight st); try done.
    by intros ? [= <-].
Qed.

Lemma exec_javascript st evs :
  ordinary_names (workingGraph st) →
  exec (reading := javascript) G S st evs = exec G S st evs.
Proof.
  unfold exec. revert st. induction evs as [|ev evs IH]; intros st Hwg; [done|].
  simpl. destruct (next_javascript st ev Hwg) as [-> Ho].
  destruct (next G S st ev) as [st'|]; [|done]. apply IH. by apply Ho.
Qed.

Lemma buildStepResult_javascript s :
  buildStepResult (reading := javascript) G S s = buildStepResult G S s.
Proof.
  unfold buildStepResult.
  destruct (DepGraph.getNodeData G s) as [step|]; [|done]. simpl.
  by rewrite dependenciesOf_javascript.
Qed.

Lemma buildStepResultsMap_javascript :
  buildStepResultsMap (reading := javascript) G S = buildStepResultsMap G S.
Proof.
  unfold buildStepResultsMap. rewrite overallOrder_javascript by done.
  destruct (DepGraph.overallOrder G false) as [order|]; [|done]. simpl.
  assert (mapM (buildStepResult (reading := javascript) G S) order
          = mapM (buildStepResult G S) order) as ->; [|done].
  induction order as [|s order IH]; [done|].
  simpl. by rewrite buildStepResult_javascript, IH.
Qed.

Lemma executeStepDependencyGraph_javascript :
  executeStepDependencyGraph (reading := javascript) G S
  = executeStepDependencyGraph G S ∧
  ∀ st0, executeStepDependencyGraph G S = Some st0 →
         ordinary_names (workingGraph st0).
Proof.
  unfold executeStepDependencyGraph. rewrite buildStepResultsMap_javascript.
  destruct (buildStepResultsMap G S) as [m|]; [|done]. simpl.
  match goal with
  | |- context [enqueueLeafSteps G S ?st0] =>
      destruct (enqueueLeafSteps_javascript st0 HG) as [-> Ho];
      destruct (enqueueLeafSteps G S st0)
  end; (split; [done|]); by intros ? [= <-].
Qed.

(** On a graph with ordinary names a run is the same under both
    readings. *)
Lemma run_javascript evs : run (reading := javascript) G S evs = run G S evs.
Proof.
  unfold run. destruct executeStepDependencyGraph_javascript as [-> Ho].
  destruct (executeStepDependencyGraph G S) as [st0|]; [|done]. simpl.
  apply exec_javascript. by apply Ho.
Qed.
End Javascript_run.

(** The graph the two loops of [buildStepDependencyGraph] make is
    consistent and has the ids of the steps as its nodes. *)
Lemma addDependencies_nodes steps g1 :
  foldM (λ step g,
           foldM (λ dependency g', DepGraph.addDependency g' (id step) dependency)
             (default [] (dependsOn step)) g)
    steps (foldl (λ g step, DepGraph.addNode g (id step) step) [] steps) = Some g1 →
  wf g1 ∧ ∀ s, s ∈ DepGraph.keys g1 → s ∈ id <$> steps.
Proof.
  set (nodes := foldl _ _ steps). intros Hfold.
  assert (wf nodes) as Hwf0.
  { subst nodes. clear. induction steps as [|s steps IH] using rev_ind.
    - by apply (bool_decide_unpack _).
    - rewrite foldl_app. simpl. by apply addNode_wf. }
  assert (wf g1 ∧ (λ e, (DepGraph.name e, DepGraph.data e)) <$> g1
                  = (λ e, (DepGraph.name e, DepGraph.data e)) <$> nodes)
    as [Hwf1 Hnames].
  { revert Hfold.
    apply (foldM_ind _ (λ _ t, wf t ∧
             (λ e, (DepGraph.name e, DepGraph.data e)) <$> t
             = (λ e, (DepGraph.name e, DepGraph.data e)) <$> nodes)); [done|].
    intros _ s t t' Ht _.
    apply (foldM_ind _ (λ _ t, wf t ∧
             (λ e, (DepGraph.name e, DepGraph.data e)) <$> t
             = (λ e, (DepGraph.name e, DepGraph.data e)) <$> nodes)); [done|].
    intros _ d u u' [Hu Hun] _ Hadd. split.
    - by eapply addDependency_wf.
    - by rewrite (addDependency_names _ _ _ _ Hadd). }
  split; [done|]. intros s Hs. apply addNodes_keys. fold nodes.
  unfold DepGraph.keys in *.
  replace (DepGraph.name <$> nodes)
    with (fst <$> ((λ e, (DepGraph.name e, DepGraph.data e)) <$> nodes))
    by (by rewrite <- list_fmap_compose).
  rewrite <- Hnames, <- list_fmap_compose. done.
Qed.

Lemma buildStepDependencyGraph_javascript steps :
  ordinary_ids steps →
  buildStepDependencyGraph (reading := javascript) steps = buildStepDependencyGraph steps.
Proof.
  intros Hids. unfold buildStepDependencyGraph.
  destruct (foldM _ steps _) as [g1|] eqn:Hfold; [|done]. simpl.
  apply addDependencies_nodes in Hfold as [Hwf Hkeys].
  rewrite overallOrder_javascript; [done|].
  apply ordinary_ordinary_names; [done|].
  apply Forall_forall. intros s Hs.
  apply Hkeys, list_elem_of_fmap in Hs as (step & -> & Hstep).
  by apply (proj1 (Forall_forall _ _) Hids).
Qed.

(** ** The engine as JavaScript runs it, on steps with ordinary ids

    The statements of this section read the plain objects of the graph
    library the way the language does ([javascript]); they hold for the
    graphs none of whose nodes is named like a member of
    [Object.prototype]. *)

Section Ordinary_ids.
Variable G : DepGraph.t Step.
Variable S : gmap string StepStartState.

Local Abbreviation E := (DepGraph.outgoingEdges G).




(** X5. On a graph none of whose steps is named like a member of
    [Object.prototype]: a step whose start state has a [disabled] that is
    not the boolean [false] is never dispatched: it is never queued or in
    flight and nothing is logged for it. When that value is falsy
    ([undefined], [null], [0], the empty string) and no dependency of the
    step is disabled, its status stays [PENDING_EVALUATION], and a run
    that resolves returns it so. *)
Theorem X5_unset_disabled_flag_blocks_the_step evs st s ss :
  wf G → keyed_by_id G → ordinary G →
  run (reading := javascript) G S evs = Some st →
  s ∈ DepGraph.keys G → S !! s = Some ss → disabled ss ≠ Js.VBool false →
  (s ∉ active st) ∧
  (∀ ev, ev ∈ log st → log_step ev ≠ s) ∧
  (Js.truthy (disabled ss) = false →
   (∀ d, tc (edge E) s d → disabled_truthy S d = false) →
   status_of (stepResultsMap st) s = Some PENDING_EVALUATION ∧
   ∀ v, settled st = Some (Resolved v) →
        ∃ r, r ∈ v ∧ r_id r = s ∧ status r = PENDING_EVALUATION).
Proof.
  intros Hwf Hid Hord Hrun.
  pose proof (ordinary_ordinary_names G Hwf Hord) as Hnames.
  rewrite run_javascript in Hrun by done.
  by apply (unset_disabled_flag_blocks_the_step G S evs st s ss).
Qed.

(** X9. On a graph none of whose steps is named like a member of
    [Object.prototype], [executeStepDependencyGraph] gets through its
    synchronous part (building the results map and handing the first
    leaves to the queue) exactly when the input graph has no cycle and
    every step of it has a start state; otherwise it throws before any
    step is handed to the queue. When it gets through, the queue is not
    paused and nothing is settled. *)
Theorem X9_when_the_run_starts :
  wf G → keyed_by_id G → ordinary G →
  (is_Some (executeStepDependencyGraph (reading := javascript) G S) ↔
   dag E ∧ ∀ s, s ∈ DepGraph.keys G → is_Some (S !! s)) ∧
  ∀ st0, executeStepDependencyGraph (reading := javascript) G S = Some st0 →
         isPaused st0 = false ∧ settled st0 = None.
Proof.
  intros Hwf Hid Hord.
  pose proof (ordinary_ordinary_names G Hwf Hord) as Hnames.
  destruct (executeStepDependencyGraph_javascript G S Hnames) as [-> _].
  destruct (when_the_run_starts G S Hwf Hid) as [Hiff Hst].
  split; [done|]. intros st0 H0. by destruct (Hst st0 H0) as (? & ? & _).
Qed.

(** X22. On a graph none of whose steps is named like a member of
    [Object.prototype], no step is left waiting: in every state of a run
    whose queue is not paused, a step that is enabled and whose
    dependencies, direct and through other steps, have all been executed
    has been dispatched; it is queued, in flight or executed itself. *)
Theorem X22_ready_steps_are_dispatched evs st s :
  wf G → keyed_by_id G → ordinary G →
  run (reading := javascript) G S evs = Some st → isPaused st = false →
  s ∈ DepGraph.keys G → isStepEnabled S s = Some true →
  (∀ d, tc (edge E) s d →
        ∃ x, status_of (stepResultsMap st) d = Some x ∧ executed x) →
  dispatched G st s ∧
  (s ∈ active st ∨ ∃ x, status_of (stepResultsMap st) s = Some x ∧ executed x).
Proof.
  intros Hwf Hid Hord Hrun.
  pose proof (ordinary_ordinary_names G Hwf Hord) as Hnames.
  rewrite run_javascript in Hrun by done.
  by apply (ready_steps_are_dispatched G S evs st s).
Qed.

(** X12. On a graph none of whose steps is named like a member of
    [Object.prototype], the results map a run starts from lists the steps
    in the order of [overallOrder()]. Each entry copies the id, the name,
    [dependsOn] and the declared types of its step, and has no
    encountered type. Its status is [DISABLED] exactly when the start
    state of the step, or of a step it depends on directly or through
    other steps, has a truthy [disabled]; otherwise it is
    [PENDING_EVALUATION]. *)
Theorem X12_initial_results m0 :
  wf G → keyed_by_id G → ordinary G →
  buildStepResultsMap (reading := javascript) G S = Some m0 →
  DepGraph.overallOrder (reading := javascript) G false = Some m0.*1 ∧
  (∀ s, s ∈ DepGraph.keys G → is_Some (map_get m0 s)) ∧
  ∀ s r, map_get m0 s = Some r →
    (∃ step,
       DepGraph.getNodeData G s = Some step ∧ id step = s ∧
       r_id r = s ∧ r_name r = name step ∧ r_dependsOn r = dependsOn step ∧
       declaredTypes r = (getDeclaredTypesInStep step).1 ∧
       partialTypes r = (getDeclaredTypesInStep step).2 ∧
       encounteredTypes r = []) ∧
    (status r = DISABLED ∨ status r = PENDING_EVALUATION) ∧
    (status r = DISABLED ↔
     disabled_truthy S s = true ∨
     ∃ d, tc (edge (DepGraph.outgoingEdges G)) s d ∧ disabled_truthy S d = true).
Proof.
  intros Hwf Hid Hord Hm.
  pose proof (ordinary_ordinary_names G Hwf Hord) as Hnames.
  rewrite buildStepResultsMap_javascript in Hm by done.
  rewrite overallOrder_javascript by done.
  by apply (initial_results G S m0).
Qed.
End Ordinary_ids.

(** X10. For steps none of which has the name of a member of
    [Object.prototype] as its id: the graph [buildStepDependencyGraph]
    returns has one node for each step id, and an edge from a step to
    exactly the ids its [dependsOn] lists; with distinct ids, each node
    holds its step. The graph can be ordered: [overallOrder()] returns
    every id once, each after the ids its step depends on. *)
Theorem X10_buildStepDependencyGraph_result steps g :
  ordinary_ids steps →
  buildStepDependencyGraph (reading := javascript) steps = Some g →
  wf g ∧ keyed_by_id g ∧ ordinary g ∧
  (∀ s, s ∈ DepGraph.keys g ↔ s ∈ id <$> steps) ∧
  (∀ a b, edge (DepGraph.outgoingEdges g) a b ↔ depends steps a b) ∧
  (NoDup (id <$> steps) →
   ∀ step, step ∈ steps → DepGraph.getNodeData g (id step) = Some step) ∧
  ∃ order,
    DepGraph.overallOrder (reading := javascript) g false = Some order ∧ NoDup order ∧
    (∀ s, s ∈ order ↔ s ∈ id <$> steps) ∧
    ∀ l1 a l2 b, order = l1 ++ a :: l2 → depends steps a b → b ∈ l1.
Proof.
  intros Hids Hg. rewrite buildStepDependencyGraph_javascript in Hg by done.
  destruct (buildStepDependencyGraph_result steps g Hg)
    as (Hwf & Hid & Hkeys & Hedges & Hdata & Horder).
  assert (ordinary g) as Hord.
  { apply Forall_forall. intros s Hs.
    apply Hkeys, list_elem_of_fmap in Hs as (step & -> & Hstep).
    by apply (proj1 (Forall_forall _ _) Hids). }
  rewrite overallOrder_javascript by (by apply ordinary_ordinary_names).
  by split_and!.
Qed.

(** X11. For steps none of which has the name of a member of
    [Object.prototype] as its id: [buildStepDependencyGraph] throws exactly
    when some [dependsOn] names an id that no step has, or the [dependsOn]
    lists have a cycle; in particular it throws when a step depends on
    itself, directly or through other steps. *)
Theorem X11_buildStepDependencyGraph_throws steps :
  ordinary_ids steps →
  (buildStepDependencyGraph (reading := javascript) steps = None ↔
   (∃ step d, step ∈ steps ∧ d ∈ default [] (dependsOn step) ∧ d ∉ id <$> steps) ∨
   ¬ acyclic steps) ∧
  ((∃ a, tc (depends steps) a a) →
   buildStepDependencyGraph (reading := javascript) steps = None).
Proof.
  intros Hids. rewrite buildStepDependencyGraph_javascript by done.
  apply buildStepDependencyGraph_throws.
Qed.

(** ** The scenarios as JavaScript runs them *)







(** X5 on the pair: the start state of a leaves [disabled] undefined. *)
Lemma X5_witness :
  ("a" ∉ active unset_final) ∧
  (∀ ev, ev ∈ log unset_final → log_step ev ≠ "a") ∧
  (Js.truthy (disabled unset) = false →
   (∀ d, tc (edge (DepGraph.outgoingEdges pair)) "a" d →
         disabled_truthy unset_states d = false) →
   status_of (stepResultsMap unset_final) "a" = Some PENDING_EVALUATION ∧
   ∀ v, settled unset_final = Some (Resolved v) →
        ∃ r, r ∈ v ∧ r_id r = "a" ∧ status r = PENDING_EVALUATION).
Proof.
  apply (X5_unset_disabled_flag_blocks_the_step pair unset_states [EvIdle]
           unset_final "a" unset).
  - by apply (bool_decide_unpack _).
  - by apply (bool_decide_unpack _).
  - by apply (bool_decide_unpack _).
  - vm_compute. reflexivity.
  - by apply (bool_decide_unpack _).
  - vm_compute. reflexivity.
  - discriminate.
Defined.

(** X9 on the diamond. *)
Lemma X9_witness :
  (is_Some (executeStepDependencyGraph (reading := javascript) diamond diamond_states) ↔
   dag (DepGraph.outgoingEdges diamond) ∧
   ∀ s, s ∈ DepGraph.keys diamond → is_Some (diamond_states !! s)) ∧
  ∀ st0, executeStepDependencyGraph (reading := javascript) diamond diamond_states
         = Some st0 →
         isPaused st0 = false ∧ settled st0 = None.
Proof.
  apply (X9_when_the_run_starts diamond diamond_states).
  - by apply (bool_decide_unpack _).
  - by apply (bool_decide_unpack _).
  - by apply (bool_decide_unpack _).
Defined.

(** X10 on the steps of the diamond. *)
Lemma X10_witness :
  wf diamond ∧ keyed_by_id diamond ∧ ordinary diamond ∧
  (∀ s, s ∈ DepGraph.keys diamond ↔ s ∈ id <$> diamond_steps) ∧
  (∀ a b, edge (DepGraph.outgoingEdges diamond) a b ↔ depends diamond_steps a b) ∧
  (NoDup (id <$> diamond_steps) →
   ∀ step, step ∈ diamond_steps →
           DepGraph.getNodeData diamond (id step) = Some step) ∧
  ∃ order,
    DepGraph.overallOrder (reading := javascript) diamond false = Some order ∧
    NoDup order ∧
    (∀ s, s ∈ order ↔ s ∈ id <$> diamond_steps) ∧
    ∀ l1 a l2 b, order = l1 ++ a :: l2 → depends diamond_steps a b → b ∈ l1.
Proof.
  apply (X10_buildStepDependencyGraph_result diamond_steps diamond).
  - by apply (bool_decide_unpack _).
  - vm_compute. reflexivity.
Defined.

(** X11 on the steps of the diamond. *)
Lemma X11_witness :
  (buildStepDependencyGraph (reading := javascript) diamond_steps = None ↔
   (∃ step d, step ∈ diamond_steps ∧ d ∈ default [] (dependsOn step) ∧
              d ∉ id <$> diamond_steps) ∨
   ¬ acyclic diamond_steps) ∧
  ((∃ a, tc (depends diamond_steps) a a) →
   buildStepDependencyGraph (reading := javascript) diamond_steps = None).
Proof.
  apply (X11_buildStepDependencyGraph_throws diamond_steps).
  by apply (bool_decide_unpack _).
Defined.

(** X12 on the barrier. *)
Lemma X12_witness :
  DepGraph.overallOrder (reading := javascript) barrier false = Some barrier_seed.*1 ∧
  (∀ s, s ∈ DepGraph.keys barrier → is_Some (map_get barrier_seed s)) ∧
  ∀ s r, map_get barrier_seed s = Some r →
    (∃ step,
       DepGraph.getNodeData barrier s = Some step ∧ id step = s ∧
       r_id r = s ∧ r_name r = name step ∧ r_dependsOn r = dependsOn step ∧
       declaredTypes r = (getDeclaredTypesInStep step).1 ∧
       partialTypes r = (getDeclaredTypesInStep step).2 ∧
       encounteredTypes r = []) ∧
    (status r = DISABLED ∨ status r = PENDING_EVALUATION) ∧
    (status r = DISABLED ↔
     disabled_truthy barrier_states s = true ∨
     ∃ d, tc (edge (DepGraph.outgoingEdges barrier)) s d ∧
          disabled_truthy barrier_states d = true).
Proof.
  apply (X12_initial_results barrier barrier_states barrier_seed).
  - by apply (bool_decide_unpack _).
  - by apply (bool_decide_unpack _).
  - by apply (bool_decide_unpack _).
  - vm_compute. reflexivity.
Defined.

(** X22 on the diamond at its start: a depends on nothing. *)
Lemma X22_witness :
  dispatched diamond diamond_start "a" ∧
  ("a" ∈ active diamond_start ∨
   ∃ x, status_of (stepResultsMap diamond_start) "a" = Some x ∧ executed x).
Proof.
  apply (X22_ready_steps_are_dispatched diamond diamond_states [] diamond_start "a").
  - by apply (bool_decide_unpack _).
  - by apply (bool_decide_unpack _).
  - by apply (bool_decide_unpack _).
  - vm_compute. reflexivity.
  - reflexivity.
  - by apply (bool_decide_unpack _).
  - vm_compute. reflexivity.
  - intros d Hd. exfalso.
    inversion Hd as [? ? Hedge|? ? ? Hedge _]; subst;
      destruct Hedge as (es & Hes & Hin);
      vm_compute in Hes; injection Hes as <-; by apply elem_of_nil in Hin.
Defined.
End SchedulerFacts.

(** * Facts about shrinking and uploading *)

Module SyncFacts.
Import Sync ShrinkSpec UploadSpec SyncExamples.
Local Open Scope Z_scope.

(** ** Sizes of serialized sequences *)

Section Size_facts.
Lemma sum_app l1 l2 : Json.sum (l1 ++ l2) = Json.sum l1 + Json.sum l2.
Proof. unfold Json.sum. induction l1 as [|x l1 IH]; simpl; lia. Qed.

Lemma sum_insert (l : list Z) i x y :
  l !! i = Some x → Json.sum (<[i := y]> l) = Json.sum l - x + y.
Proof.
  revert i. induction l as [|z l IH]; intros [|i]; simpl; try done.
  - intros [= ->]. unfold Json.sum. simpl. lia.
  - intros Hi. apply IH in Hi. unfold Json.sum in *. simpl. lia.
Qed.

Lemma sequenceLength_insert (l : list Z) i x y :
  l !! i = Some x →
  Json.sequenceLength (<[i := y]> l) = Json.sequenceLength l - x + y.
Proof.
  intros Hi. unfold Json.sequenceLength.
  rewrite length_insert, (sum_insert l i x y Hi). lia.
Qed.

Lemma sequenceLength_snoc (l : list Z) y :
  0 ≤ y → Json.sequenceLength l ≤ Json.sequenceLength (l ++ [y]).
Proof.
  intros Hy. unfold Json.sequenceLength. rewrite sum_app, length_app.
  change (Json.sum [y]) with (y + 0). simpl length. lia.
Qed.

Lemma sequenceLength_last (l : list Z) y y' :
  Json.sequenceLength (l ++ [y']) = Json.sequenceLength (l ++ [y]) - y + y'.
Proof.
  unfold Json.sequenceLength. rewrite !sum_app, !length_app.
  change (Json.sum [y]) with (y + 0). change (Json.sum [y']) with (y' + 0).
  simpl length. lia.
Qed.
End Size_facts.

(** ** Members of an object *)

Section Member_facts.
Implicit Types ms : list (string * Json.value).

Lemma get_Some_elem ms k v : Json.get ms k = Some v → k ∈ ms.*1.
Proof.
  induction ms as [|[k' v'] ms IH]; csimpl; [done|].
  destruct (decide (k' = k)) as [->|]; [set_solver|]. intros H. set_solver.
Qed.

Lemma get_None ms k : Json.get ms k = None ↔ k ∉ ms.*1.
Proof.
  induction ms as [|[k' v'] ms IH]; csimpl; [set_solver|].
  destruct (decide (k' = k)) as [->|]; [set_solver|]. rewrite IH. set_solver.
Qed.

Lemma set_new ms k v : Json.get ms k = None → Json.set ms k v = ms ++ [(k, v)].
Proof.
  induction ms as [|[k' v'] ms IH]; simpl; [done|].
  destruct (decide (k' = k)); [done|]. intros H. by rewrite IH.
Qed.

Lemma set_same ms k v : Json.get ms k = Some v → Json.set ms k v = ms.
Proof.
  induction ms as [|[k' v'] ms IH]; simpl; [done|].
  destruct (decide (k' = k)); [by intros [= ->]|]. intros H. by rewrite IH.
Qed.

Lemma get_set ms k v k' :
  Json.get (Json.set ms k v) k' = if decide (k = k') then Some v else Json.get ms k'.
Proof.
  induction ms as [|[k0 v0] ms IH]; simpl.
  { destruct (decide (k = k')); done. }
  destruct (decide (k0 = k)) as [->|Hne]; simpl.
  - destruct (decide (k = k')); done.
  - destruct (decide (k0 = k')) as [->|]; [by rewrite decide_False|done].
Qed.

Lemma set_keys ms k v :
  (Json.set ms k v).*1 = if decide (k ∈ ms.*1) then ms.*1 else ms.*1 ++ [k].
Proof.
  induction ms as [|[k0 v0] ms IH]; csimpl; [done|].
  destruct (decide (k0 = k)) as [->|Hne]; csimpl.
  - rewrite decide_True by set_solver. done.
  - rewrite IH. destruct (decide (k ∈ ms.*1)).
    + rewrite decide_True by set_solver. done.
    + rewrite decide_False by set_solver. done.
Qed.

(** Overwriting a member changes the size by the difference of the two
    values. *)
Lemma set_existing_length ms k v v' :
  Json.get ms k = Some v →
  Json.sequenceLength (Json.memberLength <$> Json.set ms k v') =
  Json.sequenceLength (Json.memberLength <$> ms)
  - Json.byteLength v + Json.byteLength v'.
Proof.
  induction ms as [|[k0 v0] ms IH]; simpl; [done|].
  destruct (decide (k0 = k)) as [->|Hne].
  - intros [= ->]. csimpl. unfold Json.sequenceLength, Json.sum, Json.memberLength.
    simpl. lia.
  - intros Hget. specialize (IH Hget). csimpl.
    unfold Json.sequenceLength, Json.sum in *. simpl. rewrite !length_fmap in *.
    assert (length (Json.set ms k v') = length ms) as Hlen.
    { clear -Hget. revert Hget. induction ms as [|[k1 v1] ms IH]; simpl; [done|].
      destruct (decide (k1 = k)); [done|]. intros H. simpl. by rewrite IH. }
    rewrite Hlen in *. lia.
Qed.

End Member_facts.

(** ** The [getLargest...] loops *)

Section Largest_facts.
Context {A : Type} (size : A → Z).

Lemma largestFrom_keep items : ∀ pos best bs,
  (∀ y, y ∈ items → size y ≤ bs) → largestFrom size items pos best bs = best.
Proof.
  induction items as [|item rest IH]; intros pos best bs Hall; simpl; [done|].
  assert (size item ≤ bs) as Hle by (apply Hall; set_solver).
  destruct (Z.gtb_spec (size item) bs); [lia|]. apply IH. set_solver.
Qed.

(** The result is the candidate the loop started with, or an item of
    the list at its position. *)
Lemma largestFrom_range items : ∀ pos best bs i x,
  largestFrom size items pos best bs = Some (i, x) →
  (best = Some (i, x) ∧ ∀ y, y ∈ items → size y ≤ bs) ∨
  ((pos ≤ i)%nat ∧ items !! (i - pos)%nat = Some x ∧ bs < size x).
Proof.
  induction items as [|item rest IH]; intros pos best bs i x; simpl.
  { intros ->. left. set_solver. }
  destruct (Z.gtb_spec (size item) bs) as [Hgt|Hle]; intros H; apply IH in H.
  - right. destruct H as [[[= <- <-] Hall]|(Hpos & Hl & Hs)].
    + split_and!; [lia| |done]. by rewrite Nat.sub_diag.
    + split_and!; [lia| |lia].
      replace (i - pos)%nat with (S (i - S pos)) by lia. done.
  - destruct H as [[-> Hall]|(Hpos & Hl & Hs)].
    + left. split; [done|]. intros y [->|?]%elem_of_cons; [done|by apply Hall].
    + right. split_and!; [lia| |done].
      replace (i - pos)%nat with (S (i - S pos)) by lia. done.
Qed.

(** Making the chosen item larger does not change the choice. *)
Lemma largestFrom_stable items : ∀ pos best bs i x x',
  (∀ j y, best = Some (j, y) → (j < pos)%nat) →
  largestFrom size items pos best bs = Some (i, x) → (pos ≤ i)%nat →
  size x ≤ size x' →
  largestFrom size (<[(i - pos)%nat := x']> items) pos best bs = Some (i, x').
Proof.
  induction items as [|item rest IH]; intros pos best bs i x x' Hbest; simpl.
  { intros -> Hpos. specialize (Hbest i x eq_refl). lia. }
  destruct (Z.gtb_spec (size item) bs) as [Hgt|Hle]; intros H Hpos Hx.
  - destruct (decide (i = pos)) as [->|Hne].
    + apply largestFrom_range in H as [[[= <-] Hall]|(Hlt & _)]; [|lia].
      rewrite Nat.sub_diag. simpl.
      destruct (Z.gtb_spec (size x') bs); [|lia].
      apply largestFrom_keep. intros y Hy. specialize (Hall y Hy). lia.
    + replace (i - pos)%nat with (S (i - S pos)) by lia. simpl.
      destruct (Z.gtb_spec (size item) bs); [|lia].
      eapply IH; [|done|lia|done]. intros j y [= <- <-]. lia.
  - destruct (decide (i = pos)) as [->|Hne].
    + apply largestFrom_range in H as [[Hb _]|(Hlt & _)]; [|lia].
      apply Hbest in Hb. lia.
    + replace (i - pos)%nat with (S (i - S pos)) by lia. simpl.
      destruct (Z.gtb_spec (size item) bs); [lia|].
      eapply IH; [|done|lia|done]. intros j y Hb. apply Hbest in Hb. lia.
Qed.

Lemma largest_lookup items i x :
  largestFrom size items 0 None 0 = Some (i, x) → items !! i = Some x.
Proof.
  intros [[? _]|(_ & Hl & _)]%largestFrom_range; [done|].
  by rewrite Nat.sub_0_r in Hl.
Qed.

Lemma largest_stable items i x x' :
  largestFrom size items 0 None 0 = Some (i, x) → size x ≤ size x' →
  largestFrom size (<[i := x']> items) 0 None 0 = Some (i, x').
Proof.
  intros H Hx. rewrite <- (Nat.sub_0_r i) at 1.
  eapply largestFrom_stable; [done|done|lia|done].
Qed.
End Largest_facts.

Section Item_facts.
Implicit Types data : list (string * Json.value).

Lemma largestItem_fold (f : string → Z) ks : ∀ k0 s0,
  let r := foldl (λ acc item, if (f item >? acc.2) then (item, f item) else acc)
             (k0, s0) ks in
  (r = (k0, s0) ∧ ∀ x, x ∈ ks → f x ≤ s0) ∨
  (s0 < r.2 ∧ r.1 ∈ ks ∧ f r.1 = r.2).
Proof.
  induction ks as [|k ks IH]; intros k0 s0; simpl.
  { left. set_solver. }
  destruct (Z.gtb_spec (f k) s0) as [Hgt|Hle].
  - right. destruct (IH k (f k)) as [[-> Hall]|(Hlt & Hin & Heq)]; simpl.
    + split_and!; [lia|set_solver|done].
    + split_and!; [lia|set_solver|done].
  - destruct (IH k0 s0) as [[-> Hall]|(Hlt & Hin & Heq)]; simpl.
    + left. split; [done|]. intros x [->|?]%elem_of_cons; [done|by apply Hall].
    + right. split_and!; [done|set_solver|done].
Qed.

(** Either no value is truthy and the lookup is [("", 0)], or it names a
    member with a truthy value and gives the size of that value. *)
Lemma getLargestItem_spec data :
  let r := getLargestItemKeyAndByteSize data in
  (r = ("", 0) ∧ ∀ x, x ∈ data.*1 → itemLength data x ≤ 0) ∨
  (0 < r.2 ∧ ∃ v, Json.get data r.1 = Some v ∧ Json.byteLength v = r.2).
Proof.
  unfold getLargestItemKeyAndByteSize.
  destruct (largestItem_fold (itemLength data) data.*1 "" 0)
    as [[-> Hall]|(Hlt & Hin & Heq)]; [by left|].
  right. split; [done|]. unfold itemLength in Heq at 1.
  destruct (Json.get data _) as [v|]; [|lia].
  destruct (Json.truthy v); [|lia]. by exists v.
Qed.

(** Once the only truthy value is a ["TRUNCATED"] under the key [""],
    the lookup finds that one. *)
Lemma getLargestItem_truncated data :
  Json.get data "" = Some (Json.JStr "TRUNCATED") →
  (∀ x, x ∈ data.*1 → x ≠ "" → itemLength data x ≤ 0) →
  getLargestItemKeyAndByteSize data = ("", sizeOfTruncated).
Proof.
  intros Hget Hall. unfold getLargestItemKeyAndByteSize.
  assert ("" ∈ data.*1) as Hin by by eapply get_Some_elem.
  assert (itemLength data "" = sizeOfTruncated) as Hlen.
  { unfold itemLength. rewrite Hget. done. }
  revert Hin Hall. generalize (data.*1) as ks.
  assert (∀ ks, (∀ x, x ∈ ks → x ≠ "" → itemLength data x ≤ 0) →
            foldl (λ acc item, if (itemLength data item >? acc.2)
                               then (item, itemLength data item) else acc)
              ("", sizeOfTruncated) ks = ("", sizeOfTruncated)) as Hkeep.
  { induction ks as [|k ks IH]; intros Hall; simpl; [done|].
    destruct (decide (k = "")) as [->|Hne].
    - rewrite Hlen. destruct (Z.gtb_spec sizeOfTruncated sizeOfTruncated); [lia|].
      apply IH. set_solver.
    - assert (itemLength data k ≤ 0) by (apply Hall; set_solver).
      destruct (Z.gtb_spec (itemLength data k) sizeOfTruncated) as [Hgt|_].
      + change sizeOfTruncated with 11 in Hgt. lia.
      + apply IH. set_solver. }
  induction ks as [|k ks IH]; intros Hin Hall; simpl; [set_solver|].
  destruct (decide (k = "")) as [->|Hne].
  - rewrite Hlen. destruct (Z.gtb_spec sizeOfTruncated 0) as [_|Hle].
    + apply Hkeep. set_solver.
    + change sizeOfTruncated with 11 in Hle. lia.
  - assert (itemLength data k ≤ 0) by (apply Hall; set_solver).
    destruct (Z.gtb_spec (itemLength data k) 0); [lia|].
    apply IH; set_solver.
Qed.
End Item_facts.

(** ** [shrinkRawData] *)

Section Shrink_facts.
Implicit Types data : list Entity.

Lemma write_length data i ent entries j entry members :
  data !! i = Some ent → _rawData ent = Some entries →
  entries !! j = Some entry →
  let delta := Json.sequenceLength (Json.memberLength <$> members)
               - Json.sequenceLength (Json.memberLength <$> rawData entry) in
  rawDataEntryLength (mkRawData (rd_name entry) members)
    = rawDataEntryLength entry + delta ∧
  entityLength (mkEntity (properties ent)
                  (Some (<[j := mkRawData (rd_name entry) members]> entries)))
    = entityLength ent + delta ∧
  batchLength (write data i ent entries j entry members) = batchLength data + delta.
Proof.
  intros Hi Hraw Hj delta.
  assert (rawDataEntryLength (mkRawData (rd_name entry) members)
          = rawDataEntryLength entry + delta) as He.
  { unfold rawDataEntryLength, Json.sequenceLength, Json.sum. simpl. subst delta.
    unfold Json.sequenceLength, Json.sum. lia. }
  assert (entityLength (mkEntity (properties ent)
                          (Some (<[j := mkRawData (rd_name entry) members]> entries)))
          = entityLength ent + delta) as Hent.
  { unfold entityLength. simpl. rewrite Hraw, list_fmap_insert.
    rewrite (sequenceLength_insert _ j (rawDataEntryLength entry)).
    2:{ by rewrite list_lookup_fmap, Hj. }
    rewrite He.
    rewrite (sequenceLength_last _
               (Json.stringLength "_rawData" + 1
                + Json.sequenceLength (rawDataEntryLength <$> entries))).
    lia. }
  split_and!; [done|done|].
  unfold batchLength, write. rewrite list_fmap_insert.
  rewrite (sequenceLength_insert _ i (entityLength ent)).
  2:{ by rewrite list_lookup_fmap, Hi. }
  rewrite Hent. lia.
Qed.

Lemma truncated_length : Json.byteLength (Json.JStr "TRUNCATED") = sizeOfTruncated.
Proof. reflexivity. Qed.

Lemma sizeOfTruncated_eq : sizeOfTruncated = 11.
Proof. reflexivity. Qed.

Lemma falsy_length v : Json.truthy v = false → Json.byteLength v ≤ sizeOfTruncated.
Proof.
  destruct v as [|[]|z|s| |]; simpl; try done.
  - intros Hz. apply negb_false_iff, Z.eqb_eq in Hz as ->. done.
  - intros Hs. apply negb_false_iff, String.eqb_eq in Hs as ->. done.
Qed.

(** An iteration that finds no truthy value writes a new ["TRUNCATED"]
    and leaves a batch that later iterations do not change. *)
Lemma zero_step_fixed data i ent entries j entry :
  getLargestEntityFromBatch data = Some (i, ent) →
  _rawData ent = Some entries →
  getLargestRawDataEntryFromEntity entries = Some (j, entry) →
  (∀ x, x ∈ (rawData entry).*1 → itemLength (rawData entry) x ≤ 0) →
  fixed (write data i ent entries j entry
           (Json.set (rawData entry) "" (Json.JStr "TRUNCATED"))).
Proof.
  intros Hi Hraw Hj Hzero.
  set (members := Json.set (rawData entry) "" (Json.JStr "TRUNCATED")).
  pose proof (largest_lookup _ _ _ _ Hi) as Hil.
  pose proof (largest_lookup _ _ _ _ Hj) as Hjl.
  destruct (write_length data i ent entries j entry members Hil Hraw Hjl)
    as (He & Hent & _).
  assert (0 ≤ Json.sequenceLength (Json.memberLength <$> members)
              - Json.sequenceLength (Json.memberLength <$> rawData entry))
    as Hdelta.
  { subst members. destruct (Json.get (rawData entry) "") as [v0|] eqn:Hget.
    - rewrite (set_existing_length _ _ v0) by done. rewrite truncated_length.
      assert (Json.byteLength v0 ≤ sizeOfTruncated); [|lia].
      specialize (Hzero "" (get_Some_elem _ _ _ Hget)).
      unfold itemLength in Hzero. rewrite Hget in Hzero.
      destruct (Json.truthy v0) eqn:Ht; [|by apply falsy_length].
      rewrite sizeOfTruncated_eq. lia.
    - rewrite set_new by done. rewrite fmap_app.
      pose proof (sequenceLength_snoc (Json.memberLength <$> rawData entry)
                    (Json.memberLength ("", Json.JStr "TRUNCATED"))) as Hs.
      specialize (Hs ltac:(vm_compute; discriminate)).
      change (Json.memberLength <$> [("", Json.JStr "TRUNCATED")])
        with [Json.memberLength ("", Json.JStr "TRUNCATED")]. lia. }
  exists i, (mkEntity (properties ent)
               (Some (<[j := mkRawData (rd_name entry) members]> entries))),
         (<[j := mkRawData (rd_name entry) members]> entries), j,
         (mkRawData (rd_name entry) members).
  split_and!; simpl.
  - unfold write, getLargestEntityFromBatch.
    apply (largest_stable entityLength data i ent); [done|]. rewrite Hent. lia.
  - done.
  - apply (largest_stable rawDataEntryLength entries j entry); [done|].
    rewrite He. lia.
  - apply getLargestItem_truncated.
    + subst members. rewrite get_set. by rewrite decide_True.
    + intros x Hx Hne. subst members. unfold itemLength. rewrite get_set.
      rewrite decide_False by done.
      destruct (decide (x ∈ (rawData entry).*1)) as [Hin|Hnin].
      * by apply Hzero.
      * apply get_None in Hnin. by rewrite Hnin.
  - subst members. rewrite get_set. by rewrite decide_True.
Qed.

Lemma fixed_loops maxSize data total fuel : ∀ n,
  fixed data → maxSize < total → shrinkLoop fuel maxSize data total n = inl None.
Proof.
  intros n (i & ent & entries & j & entry & Hi & Hraw & Hj & Hk & Hget) Hlt.
  revert n. induction fuel as [|fuel IH]; intros n; simpl; [done|].
  destruct (Z.gtb_spec total maxSize); [|lia].
  rewrite Hi, Hraw, Hj, Hk. simpl.
  rewrite set_same by done.
  assert (mkRawData (rd_name entry) (rawData entry) = entry) as -> by by destruct entry.
  rewrite (list_insert_id entries) by by eapply largest_lookup.
  assert (mkEntity (properties ent) (Some entries) = ent) as ->.
  { destruct ent. simpl in *. by subst. }
  rewrite (list_insert_id data) by by eapply largest_lookup.
  replace (total - sizeOfTruncated + sizeOfTruncated) with total by lia.
  apply IH.
Qed.

(** While the loop runs and comes back, [totalSize] is the size of the
    serialized batch. *)
Lemma shrinkLoop_exact maxSize fuel : ∀ data total n data' total' n',
  shrinkLoop fuel maxSize data total n = inl (Some (data', total', n')) →
  total = batchLength data →
  total' ≤ maxSize ∧ total' = batchLength data'.
Proof.
  induction fuel as [|fuel IH]; intros data total n data' total' n'; simpl; [done|].
  destruct (Z.gtb_spec total maxSize) as [Hgt|Hle].
  2:{ intros [= <- <- <-] ->. done. }
  destruct (getLargestEntityFromBatch data) as [[i ent]|] eqn:Hi; [|done].
  destruct (_rawData ent) as [entries|] eqn:Hraw; [|done].
  destruct (getLargestRawDataEntryFromEntity entries) as [[j entry]|] eqn:Hj; [|done].
  intros Hloop Htotal.
  pose proof (largest_lookup _ _ _ _ Hi) as Hil.
  pose proof (largest_lookup _ _ _ _ Hj) as Hjl.
  destruct (getLargestItem_spec (rawData entry)) as [[Hr Hzero]|(Hpos & v & Hget & Hv)].
  - exfalso. rewrite Hr in Hloop. simpl in Hloop.
    rewrite (fixed_loops maxSize) in Hloop; [done| |rewrite sizeOfTruncated_eq; lia].
    by apply zero_step_fixed.
  - apply IH in Hloop; [done|].
    destruct (write_length data i ent entries j entry
                (Json.set (rawData entry) (getLargestItemKeyAndByteSize (rawData entry)).1
                   (Json.JStr "TRUNCATED")) Hil Hraw Hjl) as (_ & _ & Hb).
    unfold write in Hb. rewrite Hb.
    rewrite (set_existing_length _ _ v) by done.
    rewrite truncated_length, Hv, Htotal. lia.
Qed.
End Shrink_facts.

(** C3. When [shrinkRawData(batch, maxSize)] returns, the [totalSize] it
    reports is at most [maxSize], and it is the byte length of the
    serialized batch as the call left it. *)
Theorem C3_shrinkRawData_fits fuel now data maxSize results data' :
  shrinkRawData fuel now data maxSize = ShrinkReturned results data' →
  totalSize results ≤ maxSize ∧ batchLength data' ≤ maxSize ∧
  totalSize results = batchLength data'.
Proof.
  unfold shrinkRawData.
  destruct (shrinkLoop fuel maxSize data (batchLength data) 0)
    as [[[[d t] n]|]|[e d]] eqn:Hloop; [|done..].
  intros [= <- <-]. simpl.
  apply shrinkLoop_exact in Hloop as [? ?]; [|done]. lia.
Qed.

Section Upload_facts.
Variables (fuel : nat) (now : Z * Z).
Variable server : nat → list Entity → option ApiError.

Lemma posts_app l k : posts (l ++ k) = posts l ++ posts k.
Proof. apply omap_app. Qed.

Lemma sleeps_app l k : sleeps (l ++ k) = sleeps l ++ sleeps k.
Proof. apply omap_app. Qed.

Lemma posts_attempt msg n b l :
  posts (LogInfo msg :: Post n b :: l) = (n, b) :: posts l.
Proof. reflexivity. Qed.

Lemma sleeps_attempt msg n b l :
  sleeps (LogInfo msg :: Post n b :: l) = sleeps l.
Proof. reflexivity. Qed.

Lemma posts_pause ms : posts (if ms =? 0 then [] else [Sleep ms]) = [].
Proof. by destruct (ms =? 0). Qed.

Lemma sleeps_pause ms l :
  sleeps (if ms =? 0 then [] else [Sleep ms]) ++ filter (λ ms, ms ≠ 0) l
  = filter (λ ms, ms ≠ 0) (ms :: l).
Proof.
  destruct (Z.eqb_spec ms 0) as [Hz|Hz].
  - by rewrite filter_cons_False by (intros ?; done).
  - by rewrite filter_cons_True by done.
Qed.

Lemma handler_spec err ctx b h evs :
  handleUploadDataChunkError fuel now err ctx b = (h, evs) →
  posts evs = [] ∧ sleeps evs = [] ∧
  match h with
  | HandlerReturned b' => handled fuel now err b b'
  | HandlerThrew e b' =>
      if isRequestUploadTooLargeError err
      then shrinkRawData fuel now b UPLOAD_SIZE_MAX = ShrinkThrew e b'
      else jobNotAwaitingUploads err ∧ e = uploadAfterJobEnded err ∧ b' = b
  | HandlerOutOfFuel =>
      isRequestUploadTooLargeError err = true ∧
      shrinkRawData fuel now b UPLOAD_SIZE_MAX = ShrinkOutOfFuel
  end.
Proof.
  unfold handleUploadDataChunkError, handled, jobNotAwaitingUploads.
  destruct (isRequestUploadTooLargeError err) eqn:Hbig.
  - destruct (shrinkRawData fuel now b UPLOAD_SIZE_MAX) eqn:Hs;
      try destruct (negb _ && negb _); intros [= <- <-];
      rewrite ?posts_app, ?sleeps_app; cbn; eauto 6.
  - case_bool_decide as Hjob.
    + intros [= <- <-]. done.
    + destruct (negb _ && negb _); intros [= <- <-];
        rewrite ?posts_app, ?sleeps_app; cbn; eauto 6.
Qed.

Lemma attempts_S r n b :
  attempts fuel now server (S r) n b =
  let evs := [LogInfo "Uploading data..."; Post n b] in
  match server n b with
  | None => (RetryResolved b, evs)
  | Some err =>
      let '(h, evs') := handleUploadDataChunkError fuel now err (mkContext n r) b in
      match h with
      | HandlerOutOfFuel => (RetryOutOfFuel, evs ++ evs')
      | HandlerThrew e b' => (RetryRejected e b', evs ++ evs')
      | HandlerReturned b' =>
          match r with
          | O => (RetryRejected (ThrownApi err) b', evs ++ evs')
          | S _ =>
              let ms := calculateDelay uploadOptions (S n) in
              let '(outcome, rest) := attempts fuel now server r (S n) b' in
              (outcome, evs ++ evs' ++ (if ms =? 0 then [] else [Sleep ms]) ++ rest)
          end
      end
  end.
Proof. reflexivity. Qed.

(** The trace of [remaining] attempts that start at attempt number [n]. *)
Lemma attempts_spec remaining : ∀ n b out evs,
  attempts fuel now server remaining n b = (out, evs) →
  (0 < remaining)%nat →
  ∃ bs,
    posts evs = zip (seq n (S (length bs))) (b :: bs) ∧
    (length bs < remaining)%nat ∧
    sleeps evs = filter (λ ms, ms ≠ 0)
                   (calculateDelay uploadOptions <$> seq (S n) (length bs)) ∧
    (∀ k c c', (b :: bs) !! k = Some c → bs !! k = Some c' →
       ∃ err, server (n + k)%nat c = Some err ∧ handled fuel now err c c') ∧
    (∀ c, last (b :: bs) = Some c →
       match server (n + length bs)%nat c with
       | None => out = RetryResolved c
       | Some err =>
           match out with
           | RetryResolved _ => False
           | RetryRejected e c' =>
               if isRequestUploadTooLargeError err
               then shrinkRawData fuel now c UPLOAD_SIZE_MAX = ShrinkThrew e c' ∨
                    (S (length bs) = remaining ∧ e = ThrownApi err ∧
                     handled fuel now err c c')
               else c' = c ∧
                    if decide (jobNotAwaitingUploads err)
                    then e = uploadAfterJobEnded err
                    else S (length bs) = remaining ∧ e = ThrownApi err
           | RetryOutOfFuel =>
               isRequestUploadTooLargeError err = true ∧
               shrinkRawData fuel now c UPLOAD_SIZE_MAX = ShrinkOutOfFuel
           end
       end).
Proof.
  induction remaining as [|r IH]; intros n b out evs Hrun Hpos; [lia|].
  rewrite attempts_S in Hrun.
  destruct (server n b) as [err|] eqn:Hsrv.
  2:{ injection Hrun as <- <-. exists []. cbn.
      split_and!; [done|lia|done|intros ??? _ [=]|].
      intros c [= <-]. by rewrite Nat.add_0_r, Hsrv. }
  destruct (handleUploadDataChunkError fuel now err (mkContext n r) b)
    as [h hevs] eqn:Hh.
  apply handler_spec in Hh as (Hp & Hs & Hh).
  destruct h as [b'|e b'|].
  - destruct r as [|r'].
    + injection Hrun as <- <-. exists []. rewrite posts_attempt, sleeps_attempt, Hp, Hs.
      cbn. split_and!; [done|lia|done|intros ??? _ [=]|].
      intros c [= <-]. rewrite Nat.add_0_r, Hsrv.
      destruct (isRequestUploadTooLargeError err) eqn:Hbig; [by right|].
      unfold handled in Hh. rewrite Hbig in Hh. destruct Hh as [-> Hjob].
      split; [done|]. by case_decide.
    + cbv zeta in Hrun. destruct (attempts fuel now server (S r') (S n) b') as [out' rest] eqn:Hrest.
      injection Hrun as <- <-.
      apply IH in Hrest as (bs & Hposts & Hlen & Hsleeps & Hchain & Hlast); [|lia].
      exists (b' :: bs).
      rewrite posts_attempt, sleeps_attempt, !posts_app, !sleeps_app, Hp, Hs,
        posts_pause, Hposts, Hsleeps, !app_nil_l, sleeps_pause.
      split_and!.
      * done.
      * simpl. lia.
      * change (length (b' :: bs)) with (S (length bs)).
        rewrite <-cons_seq, fmap_cons. done.
      * intros [|k] c c' Hk Hk'.
        -- injection Hk as <-. injection Hk' as <-.
           exists err. by rewrite Nat.add_0_r.
        -- destruct (Hchain k c c' Hk Hk') as (err' & Hsrv' & Hh').
           exists err'. split; [|done].
           by replace (n + S k)%nat with (S n + k)%nat by lia.
      * intros c Hc. change (last (b :: b' :: bs)) with (last (b' :: bs)) in Hc.
        specialize (Hlast c Hc).
        replace (n + length (b' :: bs))%nat with (S n + length bs)%nat
          by (simpl; lia).
        destruct (server (S n + length bs)%nat c); [|done].
        destruct out'; [done| |done].
        destruct (isRequestUploadTooLargeError a).
        -- destruct Hlast as [?|(? & ? & ?)]; [by left|right].
           split_and!; [simpl; lia|done|done].
        -- destruct Hlast as [-> Hlast]. split; [done|].
           case_decide; [done|]. destruct Hlast as [? ->].
           split; [simpl; lia|done].
  - injection Hrun as <- <-. exists []. rewrite posts_attempt, sleeps_attempt, Hp, Hs.
    cbn. split_and!; [done|lia|done|intros ??? _ [=]|].
    intros c [= <-]. rewrite Nat.add_0_r, Hsrv.
    destruct (isRequestUploadTooLargeError err); [by left|].
    destruct Hh as (Hjob & -> & ->). split; [done|]. by case_decide.
  - injection Hrun as <- <-. exists []. rewrite posts_attempt, sleeps_attempt, Hp, Hs.
    cbn. split_and!; [done|lia|done|intros ??? _ [=]|].
    intros c [= <-]. by rewrite Nat.add_0_r, Hsrv.
Qed.
End Upload_facts.

Section Sync_facts.
Variable env : SyncEnv.

Lemma synchronize_upload_throws job e :
  initiateSynchronization env = inr job →
  uploadCollectedData env = Some e →
  ∃ r rest,
    synchronizeCollectedData env =
      (inl r,
       [CallInitiate; CallUpload;
        CallLogError e "Error occurred while synchronizing collected data";
        CallAbort (messageOf e)] ++ rest ++ [CallOnIdle]) ∧
    (∀ c, c ∈ rest → ∃ abortError, abortSynchronization env = inl abortError ∧
       c = CallLogError abortError
             "Error occurred while aborting synchronization job.") ∧
    (onIdle env = None →
     r = match abortSynchronization env with inl abortError => abortError | inr _ => e end).
Proof.
  intros Hinit Hup. unfold synchronizeCollectedData, synchronizeTry.
  rewrite Hinit, Hup.
  destruct (abortSynchronization env) as [abortError|j] eqn:Habort;
    destruct (onIdle env) as [idleError|] eqn:Hidle; cbn.
  - exists idleError, [CallLogError abortError
      "Error occurred while aborting synchronization job."].
    split_and!; [done| |done]. intros c ->%list_elem_of_singleton. eauto.
  - exists abortError, [CallLogError abortError
      "Error occurred while aborting synchronization job."].
    split_and!; [done| |done]. intros c ->%list_elem_of_singleton. eauto.
  - exists idleError, []. split_and!; [done| |done]. intros c []%elem_of_nil.
  - exists e, []. split_and!; [done| |done]. intros c []%elem_of_nil.
Qed.
End Sync_facts.

Lemma upload_delays n :
  (n < 5)%nat →
  filter (λ ms, ms ≠ 0) (calculateDelay uploadOptions <$> seq 1 n)
  = take n [200; 210; 221; 232].
Proof.
  intros Hn. do 5 (destruct n as [|n]; [vm_compute; reflexivity|]). lia.
Qed.

Lemma zip_seq_lookup {A} (l : list A) n k x :
  (k, x) ∈ zip (seq n (length l)) l → (n ≤ k)%nat ∧ l !! (k - n)%nat = Some x.
Proof.
  revert n. induction l as [|y l IH]; intros n; cbn.
  - by intros ?%elem_of_nil.
  - intros [[= -> ->]|Hin]%elem_of_cons.
    + by rewrite Nat.sub_diag.
    + apply IH in Hin as [Hle Hl]. split; [lia|].
      by replace (k - n)%nat with (S (k - S n)) by lia.
Qed.

(** C8. An [uploadDataChunk] call posts at most 5 times, attempt [k]
    carrying the number [k]; the pauses between the attempts are 200 ms
    times 1.05 to the power of the number of retries so far, rounded (200,
    210, 221, 232). After a failed attempt the error handler runs: after a
    failure that is too large (status 413 or code
    [RequestEntityTooLargeException]) it applies [shrinkRawData] to the
    batch, and the next attempt posts the batch as [shrinkRawData] left
    it; after any other failure the next attempt posts the batch as it
    was. A failed attempt is followed by another unless it was the fifth
    or the handler did not return: the last attempt either was accepted
    (the call returns), or was the fifth (the call throws its error, after
    the handler has shrunk the batch if the error was too large), or had
    [shrinkRawData] throw or not come back, or was answered that the job
    has ended. *)
Theorem C8_upload_retry_policy fuel now server batch outcome evs :
  uploadDataChunk fuel now server batch = (outcome, evs) →
  ∃ bs : list (list Entity),
    posts evs = zip (seq 0 (S (length bs))) (batch :: bs) ∧
    (length (posts evs) ≤ 5)%nat ∧
    sleeps evs = take (length bs) [200; 210; 221; 232] ∧
    (∀ k c c',
       (batch :: bs) !! k = Some c → bs !! k = Some c' →
       ∃ err, server k c = Some err ∧
         if isRequestUploadTooLargeError err
         then ∃ results,
                shrinkRawData fuel now c UPLOAD_SIZE_MAX = ShrinkReturned results c'
         else c' = c ∧ ¬ jobNotAwaitingUploads err) ∧
    ∃ c, last (batch :: bs) = Some c ∧
      match server (length bs) c with
      | None => outcome = RetryResolved c
      | Some err =>
          match outcome with
          | RetryResolved _ => False
          | RetryRejected e c' =>
              if isRequestUploadTooLargeError err
              then shrinkRawData fuel now c UPLOAD_SIZE_MAX = ShrinkThrew e c' ∨
                   (length bs = 4%nat ∧ e = ThrownApi err ∧
                    ∃ results,
                      shrinkRawData fuel now c UPLOAD_SIZE_MAX
                      = ShrinkReturned results c')
              else c' = c ∧
                   if decide (jobNotAwaitingUploads err)
                   then e = uploadAfterJobEnded err
                   else length bs = 4%nat ∧ e = ThrownApi err
          | RetryOutOfFuel =>
              isRequestUploadTooLargeError err = true ∧
              shrinkRawData fuel now c UPLOAD_SIZE_MAX = ShrinkOutOfFuel
          end
      end.
Proof.
  intros Hrun.
  apply attempts_spec in Hrun as (bs & Hposts & Hlen & Hsleeps & Hchain & Hlast);
    [|simpl; lia].
  exists bs. simpl in Hlen. split_and!.
  - done.
  - rewrite Hposts, length_zip, length_seq. simpl. lia.
  - rewrite Hsleeps. by apply upload_delays.
  - intros k c c' Hk Hk'. destruct (Hchain k c c' Hk Hk') as (err & Hsrv & Hh).
    exists err. split; [done|]. unfold handled in Hh.
    by destruct (isRequestUploadTooLargeError err).
  - destruct (last (batch :: bs)) as [c|] eqn:Hc.
    2:{ by rewrite last_cons in Hc; destruct (last bs). }
    exists c. split; [done|]. specialize (Hlast c eq_refl). simpl in Hlast.
    destruct (server (length bs) c) as [err|]; [|done].
    destruct outcome as [|e c'|]; [done| |done].
    destruct (isRequestUploadTooLargeError err) eqn:Hbig.
    + destruct Hlast as [?|(Hn & -> & Hh)]; [by left|right].
      split_and!; [simpl in Hn; lia|done|].
      unfold handled in Hh. by rewrite Hbig in Hh.
    + destruct Hlast as [-> Hlast]. split; [done|].
      case_decide; [done|]. destruct Hlast as [Hn ->]. simpl in Hn.
      split; [lia|done].
Qed.

(** C7 (as amended). If an attempt fails with an error that is not a
    too-large error and whose response body has the error code
    [JOB_NOT_AWAITING_UPLOADS], [uploadDataChunk] throws the fatal
    [IntegrationError] with code [INTEGRATION_UPLOAD_AFTER_JOB_ENDED] and
    that attempt is the last one. The error does not leave the upload
    phase as it is: [uploadData] passes it on when this batch is the first
    of its array not to be uploaded, [uploadGraphObjectData] catches it and
    throws [synchronizationApiError(err, 'Error uploading collected data')]
    in its place, and [uploadCollectedData] passes that on when the files
    before were uploaded. When [uploadCollectedData] throws it,
    [synchronizeCollectedData] logs it, calls [abortSynchronization] with
    the message of the error thrown, never finalizes, waits for the event
    queue and throws: the error thrown by the upload phase, unless the
    abort itself threw. *)
Theorem C7_upload_after_job_ended fuel now server batch outcome evs k b err :
  uploadDataChunk fuel now server batch = (outcome, evs) →
  (k, b) ∈ posts evs →
  server k b = Some err →
  isRequestUploadTooLargeError err = false →
  jobNotAwaitingUploads err →
  outcome = RetryRejected (uploadAfterJobEnded err) b ∧
  last (posts evs) = Some (k, b) ∧
  ∀ synchronizationApiError : Thrown → string → Thrown,
    let thrown :=
      synchronizationApiError (uploadAfterJobEnded err)
        "Error uploading collected data" in
    (∀ servers first type data uploadBatchSize position,
       uploadDataBatches data uploadBatchSize !! position = Some batch →
       servers type position = server → first type = position →
       Upload.uploadData fuel now servers first type data uploadBatchSize
       = Upload.RejectedWith (uploadAfterJobEnded err)) ∧
    (∀ servers first graphObjectData uploadBatchSize,
       Upload.uploadGraphObjectDataTry fuel now servers first graphObjectData
         uploadBatchSize = Upload.RejectedWith (uploadAfterJobEnded err) →
       Upload.uploadGraphObjectData synchronizationApiError fuel now servers first
         graphObjectData uploadBatchSize = Upload.RejectedWith thrown) ∧
    (∀ servers first before parsedData after,
       (∀ file uploaded, before !! file = Some uploaded →
          Upload.uploadGraphObjectData synchronizationApiError fuel now
            (servers file) (first file) uploaded None = Upload.Fulfilled) →
       Upload.uploadGraphObjectData synchronizationApiError fuel now
         (servers (length before)) (first (length before)) parsedData None
       = Upload.RejectedWith thrown →
       Upload.uploadCollectedData synchronizationApiError fuel now servers first
         (before ++ parsedData :: after) = Upload.RejectedWith thrown) ∧
    ∀ env job,
      initiateSynchronization env = inr job →
      uploadCollectedData env = Some thrown →
      ∃ r rest,
        synchronizeCollectedData env =
          (inl r,
           [CallInitiate; CallUpload;
            CallLogError thrown "Error occurred while synchronizing collected data";
            CallAbort (messageOf thrown)]
           ++ rest ++ [CallOnIdle]) ∧
        (CallFinalize ∉ rest) ∧
        (onIdle env = None →
         r = match abortSynchronization env with
             | inl abortError => abortError
             | inr _ => thrown
             end).
Proof.
  intros Hrun Hin Hsrv Hbig Hjob. pose proof Hrun as Hchunk.
  apply attempts_spec in Hrun as (bs & Hposts & Hlen & Hsleeps & Hchain & Hlast);
    [|simpl; lia].
  rewrite Hposts in Hin |- *.
  change (S (length bs)) with (length (batch :: bs)) in Hin |- *.
  apply zip_seq_lookup in Hin as [_ Hk]. rewrite Nat.sub_0_r in Hk.
  assert (k = length bs) as ->.
  { destruct (decide (k < length bs)%nat) as [Hlt|Hge].
    - destruct (lookup_lt_is_Some_2 bs k Hlt) as [c' Hc'].
      destruct (Hchain k b c' Hk Hc') as (err' & Hsrv' & Hh).
      simpl in Hsrv'. rewrite Hsrv in Hsrv'. injection Hsrv' as <-.
      unfold handled in Hh. rewrite Hbig in Hh. by destruct Hh.
    - apply lookup_lt_Some in Hk. simpl in Hk. lia. }
  assert (last (batch :: bs) = Some b) as Hb.
  { rewrite last_lookup. exact Hk. }
  specialize (Hlast b Hb). simpl in Hlast. rewrite Hsrv in Hlast.
  assert (outcome = RetryRejected (uploadAfterJobEnded err) b) as Hout.
  { destruct outcome as [|e c'|]; [done| |by destruct Hlast as [? _]; congruence].
    rewrite Hbig in Hlast. destruct Hlast as [-> Hlast].
    case_decide; [by subst|done]. }
  split_and!.
  - done.
  - rewrite last_lookup, length_zip, length_seq, Nat.min_id.
    change (pred (length (batch :: bs))) with (length bs).
    apply lookup_zip_with_Some. exists (length bs), b. split_and!; [done| |done].
    apply lookup_seq. simpl. lia.
  - intros wrap thrown. split_and!.
    + intros servers first type data size position Hbatch Hserver Hfirst.
      unfold Upload.uploadData, Upload.pMap.
      rewrite Hfirst, list_lookup_imap, Hbatch. simpl.
      by rewrite Hserver, Hchunk, Hout.
    + intros servers first d size Htry. unfold Upload.uploadGraphObjectData.
      by rewrite Htry.
    + intros servers first before parsedData after Hbefore Hfile.
      unfold Upload.uploadCollectedData.
      assert (∀ n,
                (∀ file uploaded, before !! file = Some uploaded →
                   Upload.uploadGraphObjectData wrap fuel now
                     (servers (n + file)%nat) (first (n + file)%nat) uploaded None
                   = Upload.Fulfilled) →
                Upload.uploadGraphObjectData wrap fuel now
                  (servers (n + length before)%nat) (first (n + length before)%nat)
                  parsedData None
                = Upload.RejectedWith thrown →
                Upload.iterateParsedGraphFiles
                  (λ file parsedData,
                     Upload.uploadGraphObjectData wrap fuel now (servers file)
                       (first file) parsedData None)
                  n (before ++ parsedData :: after) = Upload.RejectedWith thrown)
        as Hiter.
      { clear. induction before as [|d before IH]; intros n Hbefore Hfile; simpl.
        - rewrite Nat.add_0_r in Hfile. by rewrite Hfile.
        - pose proof (Hbefore 0%nat d eq_refl) as Hd. rewrite Nat.add_0_r in Hd.
          rewrite Hd. apply IH.
          + intros file u Hu. specialize (Hbefore (S file) u Hu).
            by replace (S n + file)%nat with (n + S file)%nat by lia.
          + simpl in Hfile.
            by replace (S n + length before)%nat
              with (n + S (length before))%nat by lia. }
      by apply (Hiter 0%nat).
    + intros env job Hinit Hup.
      destruct (synchronize_upload_throws env job _ Hinit Hup)
        as (r & rest & Hs & Hrest & Hr).
      exists r, rest. split_and!; [done| |done].
      intros (abortError & _ & [=])%Hrest.
Qed.

(** ** Shrinking and uploading on the scenarios *)

(** C3 on a batch of 165 bytes shrunk to fit 100. *)
Lemma C3_witness :
  totalSize bulky_results ≤ 100 ∧ batchLength bulky_shrunk ≤ 100 ∧
  totalSize bulky_results = batchLength bulky_shrunk.
Proof.
  apply (C3_shrinkRawData_fits 10 (0, 5) bulky 100 bulky_results bulky_shrunk).
  vm_compute. reflexivity.
Defined.

(** C7 when the job ends between the first and the second attempt of the
    only batch of the only file. *)
Lemma C7_witness :
  ended_run.1 = RetryRejected (uploadAfterJobEnded err_ended) tiny ∧
  last (posts ended_run.2) = Some (1%nat, tiny) ∧
  let thrown := wrap (uploadAfterJobEnded err_ended) "Error uploading collected data" in
  Upload.uploadCollectedData wrap 5 (0, 0) (λ _ _ _, server_ended) (λ _ _, 0%nat)
    ended_files = Upload.RejectedWith thrown ∧
  uploadCollectedData env_ended = Some thrown ∧
  ∃ r rest,
    synchronizeCollectedData env_ended =
      (inl r,
       [CallInitiate; CallUpload;
        CallLogError thrown "Error occurred while synchronizing collected data";
        CallAbort "Error uploading collected data"]
       ++ rest ++ [CallOnIdle]) ∧
    (CallFinalize ∉ rest) ∧ r = thrown.
Proof.
  destruct (C7_upload_after_job_ended 5 (0, 0) server_ended tiny
              ended_run.1 ended_run.2 1 tiny err_ended)
    as (Hout & Hlast & Hphase).
  - vm_compute. reflexivity.
  - vm_compute. apply list_elem_of_further, list_elem_of_here.
  - reflexivity.
  - vm_compute. reflexivity.
  - reflexivity.
  - split; [exact Hout|]. split; [exact Hlast|].
    destruct (Hphase wrap) as (Hdata & Hwrap & Hfiles & Hsync).
    assert (Upload.uploadCollectedData wrap 5 (0, 0) (λ _ _ _, server_ended)
              (λ _ _, 0%nat) ended_files
            = Upload.RejectedWith
                (wrap (uploadAfterJobEnded err_ended) "Error uploading collected data"))
      as Hupload.
    { apply (Hfiles (λ _ _ _, server_ended) (λ _ _, 0%nat) []
               (Upload.mkFlushed (Some tiny) None) []).
      - intros file uploaded Hnone. discriminate Hnone.
      - apply Hwrap.
        exact (Hdata (λ _ _, server_ended) (λ _, 0%nat) "entities" tiny None 0%nat
                 eq_refl eq_refl eq_refl). }
    split; [exact Hupload|]. split; [reflexivity|].
    destruct (Hsync env_ended job eq_refl eq_refl) as (r & rest & Hs & Hfin & Hr).
    exists r, rest. split; [exact Hs|]. split; [exact Hfin|]. exact (Hr eq_refl).
Defined.

(** C7 as stated fails when the answer that carries
    [JOB_NOT_AWAITING_UPLOADS] is also a 413: the batch is shrunk and the
    upload is tried again, here with success. *)
Lemma C7_counterexample :
  server_both 0%nat tiny = Some err_both ∧ jobNotAwaitingUploads err_both ∧
  ∃ evs,
    uploadDataChunk 5 (0, 0) server_both tiny = (RetryResolved tiny, evs) ∧
    posts evs = [(0%nat, tiny); (1%nat, tiny)].
Proof.
  split; [reflexivity|]. split; [reflexivity|].
  eexists. split; [vm_compute; reflexivity|]. reflexivity.
Qed.

(** C8 on an upload that is too large, then refused, then accepted. *)
Lemma C8_witness :
  ∃ bs : list (list Entity),
    posts large_run.2 = zip (seq 0 (S (length bs))) (tiny :: bs) ∧
    (length (posts large_run.2) ≤ 5)%nat ∧
    sleeps large_run.2 = take (length bs) [200; 210; 221; 232] ∧
    (∀ k c c',
       (tiny :: bs) !! k = Some c → bs !! k = Some c' →
       ∃ err, server_large k c = Some err ∧
         if isRequestUploadTooLargeError err
         then ∃ results,
                shrinkRawData 5 (0, 0) c UPLOAD_SIZE_MAX = ShrinkReturned results c'
         else c' = c ∧ ¬ jobNotAwaitingUploads err) ∧
    ∃ c, last (tiny :: bs) = Some c ∧
      match server_large (length bs) c with
      | None => large_run.1 = RetryResolved c
      | Some err =>
          match large_run.1 with
          | RetryResolved _ => False
          | RetryRejected e c' =>
              if isRequestUploadTooLargeError err
              then shrinkRawData 5 (0, 0) c UPLOAD_SIZE_MAX = ShrinkThrew e c' ∨
                   (length bs = 4%nat ∧ e = ThrownApi err ∧
                    ∃ results,
                      shrinkRawData 5 (0, 0) c UPLOAD_SIZE_MAX
                      = ShrinkReturned results c')
              else c' = c ∧
                   if decide (jobNotAwaitingUploads err)
                   then e = uploadAfterJobEnded err
                   else length bs = 4%nat ∧ e = ThrownApi err
          | RetryOutOfFuel =>
              isRequestUploadTooLargeError err = true ∧
              shrinkRawData 5 (0, 0) c UPLOAD_SIZE_MAX = ShrinkOutOfFuel
          end
      end.
Proof.
  apply (C8_upload_retry_policy 5 (0, 0) server_large tiny large_run.1 large_run.2).
  vm_compute. reflexivity.
Defined.

(** ** What [shrinkRawData] leaves in the batch *)

Section Fold_facts.
Variable f : string → Z.

Local Abbreviation F g :=
  (foldl (λ (acc : string * Z) item, if (g item >? acc.2)%Z then (item, g item) else acc)).

Lemma largestItem_keep ks : ∀ k0 s0,
  (∀ x, x ∈ ks → f x ≤ s0) → F f (k0, s0) ks = (k0, s0).
Proof.
  induction ks as [|x ks IH]; intros k0 s0 Hall; simpl; [done|].
  assert (f x ≤ s0) by (apply Hall; set_solver).
  destruct (Z.gtb_spec (f x) s0); [lia|]. apply IH. set_solver.
Qed.

Lemma largestItem_max ks : ∀ k0 s0,
  s0 ≤ (F f (k0, s0) ks).2 ∧ ∀ x, x ∈ ks → f x ≤ (F f (k0, s0) ks).2.
Proof.
  induction ks as [|x ks IH]; intros k0 s0; simpl; [set_solver|].
  destruct (Z.gtb_spec (f x) s0) as [Hgt|Hle].
  - destruct (IH x (f x)) as [Hs Hall]. split; [lia|].
    intros y [->|Hy]%elem_of_cons; [done|by apply Hall].
  - destruct (IH k0 s0) as [Hs Hall]. split; [done|].
    intros y [->|Hy]%elem_of_cons; [lia|by apply Hall].
Qed.

(** Writing a value of 11 bytes over the largest item, itself of at most
    11 bytes, makes that the largest item. *)
Lemma largestItem_truncate (f' : string → Z) k ks : ∀ k0 s0,
  (∀ x, x ≠ k → f' x = f x) → f' k = sizeOfTruncated → f k ≤ sizeOfTruncated →
  F f (k0, s0) ks = (k, f k) → s0 < f k →
  F f' (k0, s0) ks = (k, sizeOfTruncated).
Proof.
  intros k0 s0 Hne Hk Hsmall. revert k0 s0.
  induction ks as [|x ks IH]; intros k0 s0; simpl.
  { intros [= -> ->]. lia. }
  destruct (Z.gtb_spec (f x) s0) as [Hgt|Hle]; intros Hr Hlt.
  - destruct (decide (x = k)) as [->|Hx].
    + rewrite Hk. destruct (Z.gtb_spec sizeOfTruncated s0); [|lia].
      clear IH. pose proof (largestItem_max ks k (f k)) as [_ Hmax].
      rewrite Hr in Hmax. simpl in Hmax.
      assert (∀ ks', (∀ y, y ∈ ks' → f' y ≤ sizeOfTruncated) →
                F f' (k, sizeOfTruncated) ks' = (k, sizeOfTruncated)) as Hkeep.
      { induction ks' as [|y ks' IH']; intros Hall; simpl; [done|].
        assert (f' y ≤ sizeOfTruncated) by (apply Hall; set_solver).
        destruct (Z.gtb_spec (f' y) sizeOfTruncated); [lia|].
        apply IH'. set_solver. }
      apply Hkeep. intros y Hy. destruct (decide (y = k)) as [->|Hyk]; [lia|].
      rewrite (Hne y Hyk). specialize (Hmax y Hy). lia.
    + rewrite (Hne x Hx). destruct (Z.gtb_spec (f x) s0); [|lia].
      apply IH; [done|].
      destruct (largestItem_fold f ks x (f x)) as [[Heq _]|(Hlt' & _)].
      * rewrite Hr in Heq. by injection Heq as ->.
      * by rewrite Hr in Hlt'.
  - destruct (decide (x = k)) as [->|Hx]; [lia|].
    rewrite (Hne x Hx). destruct (Z.gtb_spec (f x) s0); [lia|]. by apply IH.
Qed.
End Fold_facts.

Section Members_facts.
Implicit Types ms : list (string * Json.value).

Lemma truncatedMembers_refl ms : truncatedMembers ms ms.
Proof. apply Forall2_same_length_lookup_2; [done|]. intros i m m' ? ?. by simplify_eq; auto. Qed.

Lemma truncatedMembers_set ms k v :
  Json.get ms k = Some v →
  truncatedMembers ms (Json.set ms k (Json.JStr "TRUNCATED")).
Proof.
  unfold truncatedMembers.
  induction ms as [|[k0 v0] ms IH]; simpl; [done|].
  destruct (decide (k0 = k)) as [->|Hne].
  - intros _. constructor; [by auto|]. apply truncatedMembers_refl.
  - intros Hget. constructor; [by auto|]. by apply IH.
Qed.

Lemma truncatedMembers_trans ms1 ms2 ms3 :
  truncatedMembers ms1 ms2 → truncatedMembers ms2 ms3 → truncatedMembers ms1 ms3.
Proof.
  unfold truncatedMembers. intros H12. revert ms3.
  induction H12 as [|m1 m2 ms1 ms2 [Hk Hv] _ IH]; intros ms3 H23.
  { by inversion H23. }
  inversion H23 as [|? m3 ? ms3' [Hk' Hv'] H23']; subst.
  constructor; [|by apply IH]. split; [congruence|].
  destruct Hv' as [->| ->]; auto.
Qed.

(** The largest item after a truncation that does not shrink it. *)
Lemma getLargestItem_small ms k s :
  getLargestItemKeyAndByteSize ms = (k, s) → 0 < s → s ≤ sizeOfTruncated →
  ∃ v, Json.get ms k = Some v ∧ Json.byteLength v = s ∧
       getLargestItemKeyAndByteSize (Json.set ms k (Json.JStr "TRUNCATED"))
       = (k, sizeOfTruncated).
Proof.
  intros Hr Hpos Hsmall.
  destruct (getLargestItem_spec ms) as [[Hz _]|(_ & v & Hget & Hv)].
  { rewrite Hr in Hz. injection Hz as -> ->. lia. }
  rewrite Hr in Hget, Hv. simpl in Hget, Hv.
  exists v. split_and!; [done..|].
  assert (itemLength ms k = s) as Hlen.
  { unfold getLargestItemKeyAndByteSize in Hr.
    destruct (largestItem_fold (itemLength ms) ms.*1 "" 0) as [[Heq _]|(_ & _ & Heq)];
      rewrite Hr in Heq.
    - injection Heq as -> ->. lia.
    - done. }
  unfold getLargestItemKeyAndByteSize in *.
  rewrite set_keys, decide_True by by eapply get_Some_elem.
  apply (largestItem_truncate (itemLength ms)).
  - intros x Hx. unfold itemLength. rewrite get_set. by rewrite decide_False.
  - unfold itemLength. rewrite get_set. by rewrite decide_True.
  - lia.
  - by rewrite Hlen.
  - lia.
Qed.
End Members_facts.

Section Batch_facts.
Implicit Types data : list Entity.

Lemma truncatedEntry_refl e : truncatedEntry e e.
Proof. split; [done|apply truncatedMembers_refl]. Qed.

Lemma truncatedEntries_refl (entries : list EntityRawData) :
  Forall2 truncatedEntry entries entries.
Proof.
  apply Forall2_same_length_lookup_2; [done|].
  intros i e e' ? ?. simplify_eq. apply truncatedEntry_refl.
Qed.

Lemma truncatedEntity_refl ent : truncatedEntity ent ent.
Proof.
  split; [done|]. destruct (_rawData ent); [|done]. apply truncatedEntries_refl.
Qed.

Lemma truncatedBatch_refl data : truncatedBatch data data.
Proof.
  apply Forall2_same_length_lookup_2; [done|].
  intros i e e' ? ?. simplify_eq. apply truncatedEntity_refl.
Qed.

Lemma truncatedEntries_trans (l1 l2 l3 : list EntityRawData) :
  Forall2 truncatedEntry l1 l2 → Forall2 truncatedEntry l2 l3 →
  Forall2 truncatedEntry l1 l3.
Proof.
  intros H12. revert l3.
  induction H12 as [|e1 e2 l1 l2 [Hn Hm] _ IH]; intros l3 H23.
  { by inversion H23. }
  inversion H23 as [|? e3 ? l3' [Hn' Hm'] H23']; subst.
  constructor; [|by apply IH]. split; [congruence|].
  by eapply truncatedMembers_trans.
Qed.

Lemma truncatedBatch_trans data1 data2 data3 :
  truncatedBatch data1 data2 → truncatedBatch data2 data3 →
  truncatedBatch data1 data3.
Proof.
  unfold truncatedBatch. intros H12. revert data3.
  induction H12 as [|e1 e2 l1 l2 [Hp Hr] _ IH]; intros l3 H23.
  { by inversion H23. }
  inversion H23 as [|? e3 ? l3' [Hp' Hr'] H23']; subst.
  constructor; [|by apply IH]. split; [congruence|].
  destruct (_rawData e1), (_rawData e2), (_rawData e3); try done.
  by eapply truncatedEntries_trans.
Qed.

(** One iteration of the loop that overwrites a value. *)
Lemma truncatedBatch_write data i ent entries j entry k v :
  data !! i = Some ent → _rawData ent = Some entries →
  entries !! j = Some entry → Json.get (rawData entry) k = Some v →
  truncatedBatch data
    (write data i ent entries j entry
       (Json.set (rawData entry) k (Json.JStr "TRUNCATED"))).
Proof.
  intros Hi Hraw Hj Hget. unfold truncatedBatch, write.
  rewrite <- (list_insert_id data i ent Hi) at 1.
  apply Forall2_insert; [apply truncatedBatch_refl|].
  split; [done|]. rewrite Hraw. simpl.
  rewrite <- (list_insert_id entries j entry Hj) at 1.
  apply Forall2_insert; [apply truncatedEntries_refl|].
  split; [done|]. simpl. by eapply truncatedMembers_set.
Qed.

(** An iteration that overwrites a value of at most 11 bytes leaves a
    batch that later iterations do not change. *)
Lemma small_step_stuck data i ent entries j entry k s :
  getLargestEntityFromBatch data = Some (i, ent) →
  _rawData ent = Some entries →
  getLargestRawDataEntryFromEntity entries = Some (j, entry) →
  getLargestItemKeyAndByteSize (rawData entry) = (k, s) →
  s ≤ sizeOfTruncated →
  stuck (write data i ent entries j entry
           (Json.set (rawData entry) k (Json.JStr "TRUNCATED"))).
Proof.
  intros Hi Hraw Hj Hk Hsmall.
  destruct (getLargestItem_spec (rawData entry)) as [[Hr Hzero]|(Hpos & _)].
  { rewrite Hk in Hr. injection Hr as -> ->.
    destruct (zero_step_fixed data i ent entries j entry Hi Hraw Hj Hzero)
      as (i' & ent' & entries' & j' & entry' & ? & ? & ? & ? & ?).
    by exists i', ent', entries', j', entry', "". }
  rewrite Hk in Hpos. simpl in Hpos.
  destruct (getLargestItem_small (rawData entry) k s Hk Hpos Hsmall)
    as (v & Hget & Hv & Hnext).
  set (members := Json.set (rawData entry) k (Json.JStr "TRUNCATED")) in *.
  pose proof (largest_lookup _ _ _ _ Hi) as Hil.
  pose proof (largest_lookup _ _ _ _ Hj) as Hjl.
  destruct (write_length data i ent entries j entry members Hil Hraw Hjl)
    as (He & Hent & _).
  assert (0 ≤ Json.sequenceLength (Json.memberLength <$> members)
              - Json.sequenceLength (Json.memberLength <$> rawData entry))
    as Hdelta.
  { subst members. rewrite (set_existing_length _ _ v) by done.
    rewrite truncated_length. lia. }
  exists i, (mkEntity (properties ent)
               (Some (<[j := mkRawData (rd_name entry) members]> entries))),
         (<[j := mkRawData (rd_name entry) members]> entries), j,
         (mkRawData (rd_name entry) members), k.
  split_and!; simpl.
  - unfold write, getLargestEntityFromBatch.
    apply (largest_stable entityLength data i ent); [done|]. rewrite Hent. lia.
  - done.
  - apply (largest_stable rawDataEntryLength entries j entry); [done|].
    rewrite He. lia.
  - done.
  - subst members. rewrite get_set. by rewrite decide_True.
Qed.

Lemma stuck_loops maxSize data total fuel : ∀ n,
  stuck data → maxSize < total → shrinkLoop fuel maxSize data total n = inl None.
Proof.
  intros n (i & ent & entries & j & entry & k & Hi & Hraw & Hj & Hk & Hget) Hlt.
  revert n. induction fuel as [|fuel IH]; intros n; simpl; [done|].
  destruct (Z.gtb_spec total maxSize); [|lia].
  rewrite Hi, Hraw, Hj, Hk. simpl.
  rewrite set_same by done.
  assert (mkRawData (rd_name entry) (rawData entry) = entry) as -> by by destruct entry.
  rewrite (list_insert_id entries) by by eapply largest_lookup.
  assert (mkEntity (properties ent) (Some entries) = ent) as ->.
  { destruct ent. simpl in *. by subst. }
  rewrite (list_insert_id data) by by eapply largest_lookup.
  replace (total - sizeOfTruncated + sizeOfTruncated) with total by lia.
  apply IH.
Qed.

(** Every way the loop can end. *)
Lemma shrinkLoop_outcome maxSize fuel : ∀ data total n,
  total = batchLength data →
  match shrinkLoop fuel maxSize data total n with
  | inl None => True
  | inl (Some (data', total', n')) =>
      total' ≤ maxSize ∧ total' = batchLength data' ∧ truncatedBatch data data' ∧
      n ≤ n' ∧ total' + (n' - n) ≤ total ∧
      (maxSize < total → n < n') ∧ (total ≤ maxSize → data' = data ∧ n' = n)
  | inr (e, data') =>
      maxSize < batchLength data' ∧ batchLength data' ≤ total ∧
      truncatedBatch data data' ∧
      match getLargestEntityFromBatch data' with
      | None => e = cannotShrink
      | Some (_, largestEntity) =>
          match _rawData largestEntity with
          | None => e = cannotShrink
          | Some entries =>
              getLargestRawDataEntryFromEntity entries = None ∧ e = ThrownTypeError
          end
      end
  end.
Proof.
  induction fuel as [|fuel IH]; intros data total n Htotal; simpl; [done|].
  destruct (Z.gtb_spec total maxSize) as [Hgt|Hle].
  2:{ split_and!; try done; try lia. apply truncatedBatch_refl. }
  destruct (getLargestEntityFromBatch data) as [[i ent]|] eqn:Hi.
  2:{ rewrite Hi. split_and!; try done; try lia. apply truncatedBatch_refl. }
  destruct (_rawData ent) as [entries|] eqn:Hraw.
  2:{ rewrite Hi, Hraw. split_and!; try done; try lia. apply truncatedBatch_refl. }
  destruct (getLargestRawDataEntryFromEntity entries) as [[j entry]|] eqn:Hj.
  2:{ rewrite Hi, Hraw. split_and!; try done; try lia. apply truncatedBatch_refl. }
  pose proof (largest_lookup _ _ _ _ Hi) as Hil.
  pose proof (largest_lookup _ _ _ _ Hj) as Hjl.
  destruct (getLargestItemKeyAndByteSize (rawData entry)) as [k s] eqn:Hk. simpl.
  destruct (decide (s ≤ sizeOfTruncated)) as [Hsmall|Hbig].
  { rewrite (stuck_loops maxSize); [done| |lia].
    by apply (small_step_stuck data i ent entries j entry k s). }
  destruct (getLargestItem_spec (rawData entry)) as [[Hr _]|(_ & v & Hget & Hv)].
  { rewrite Hk in Hr. injection Hr as -> ->. rewrite sizeOfTruncated_eq in Hbig. lia. }
  rewrite Hk in Hget, Hv. simpl in Hget, Hv.
  destruct (write_length data i ent entries j entry
              (Json.set (rawData entry) k (Json.JStr "TRUNCATED")) Hil Hraw Hjl)
    as (_ & _ & Hb).
  rewrite (set_existing_length _ _ v) in Hb by done.
  rewrite truncated_length, Hv in Hb.
  pose proof (truncatedBatch_write data i ent entries j entry k v Hil Hraw Hjl Hget)
    as Hshape.
  unfold write in Hb, Hshape.
  specialize (IH (<[i := mkEntity (properties ent)
                        (Some (<[j := mkRawData (rd_name entry)
                                        (Json.set (rawData entry) k
                                           (Json.JStr "TRUNCATED"))]> entries))]> data)
                (total - s + sizeOfTruncated) (n + 1)).
  destruct (shrinkLoop fuel maxSize _ _ _) as [[[[d t] n']|]|[e d]]; [|done|].
  - destruct IH as (? & ? & ? & ? & ? & ? & ?); [lia|].
    split_and!; try done; try lia. by eapply truncatedBatch_trans.
  - destruct IH as (? & ? & ? & ?); [lia|].
    split_and!; try done; try lia. by eapply truncatedBatch_trans.
Qed.
End Batch_facts.

(** ** More on shrinking and uploading *)

(** X14. When [shrinkRawData] returns, the batch holds the same elements
    in the same order, with the same properties and the same raw data
    entries and keys: only values inside [rawData] objects were replaced by
    ["TRUNCATED"]. The result reports the size of the batch as it was
    handed over; every truncation saved at least one byte; and a batch that
    is within the limit is returned as it is, with no item removed. *)
Theorem X14_shrinkRawData_only_truncates fuel now data maxSize results data' :
  shrinkRawData fuel now data maxSize = ShrinkReturned results data' →
  truncatedBatch data data' ∧
  initialSize results = batchLength data ∧
  totalTime results = now.2 - now.1 ∧
  0 ≤ itemsRemoved results ∧
  totalSize results + itemsRemoved results ≤ initialSize results ∧
  (itemsRemoved results = 0 ↔ batchLength data ≤ maxSize) ∧
  (batchLength data ≤ maxSize → data' = data).
Proof.
  unfold shrinkRawData.
  pose proof (shrinkLoop_outcome maxSize fuel data (batchLength data) 0 eq_refl)
    as Hout.
  destruct (shrinkLoop fuel maxSize data (batchLength data) 0)
    as [[[[d t] n]|]|[e d]]; [|done..].
  intros [= <- <-]. simpl.
  destruct Hout as (Hfit & Ht & Hshape & Hn & Hsaved & Hsome & Hnone).
  do 4 (split; [done || lia|]). split; [lia|]. split.
  - split.
    + intros ->. destruct (decide (batchLength data ≤ maxSize)); [done|].
      assert (0 < 0); [apply Hsome|]; lia.
    + intros Hle. by destruct (Hnone Hle).
  - intros Hle. by destruct (Hnone Hle).
Qed.

(** X15. When [shrinkRawData] throws, the batch is still above the limit,
    and the truncations made before stay in it (nothing else was changed).
    It throws the non-fatal [INTEGRATION_UPLOAD_FAILED] error when the
    largest element left has no [_rawData] (or the batch has no element),
    and a [TypeError] when the [_rawData] of the largest element has no
    entry. *)
Theorem X15_shrinkRawData_throws fuel now data maxSize e data' :
  shrinkRawData fuel now data maxSize = ShrinkThrew e data' →
  truncatedBatch data data' ∧
  maxSize < batchLength data' ∧ batchLength data' ≤ batchLength data ∧
  match getLargestEntityFromBatch data' with
  | None => e = cannotShrink
  | Some (_, largestEntity) =>
      match _rawData largestEntity with
      | None => e = cannotShrink
      | Some entries =>
          getLargestRawDataEntryFromEntity entries = None ∧ e = ThrownTypeError
      end
  end.
Proof.
  unfold shrinkRawData.
  pose proof (shrinkLoop_outcome maxSize fuel data (batchLength data) 0 eq_refl)
    as Hout.
  destruct (shrinkLoop fuel maxSize data (batchLength data) 0)
    as [[[[d t] n]|]|[e0 d]]; [done..|].
  intros [= <- <-]. by destruct Hout as (? & ? & ? & ?).
Qed.

(** X16. [shrinkRawData] does not terminate on a batch above the limit in
    which the largest value of the largest raw data entry of the largest
    element takes at most 11 bytes when serialized (a short value, one
    that was truncated before, or no truthy value at all): the iteration
    writes ["TRUNCATED"] there, which frees nothing, and every later
    iteration finds the same item again. *)
Theorem X16_shrinkRawData_loops_forever fuel now data maxSize
    i largestEntity entries j largestRawDataEntry :
  maxSize < batchLength data →
  getLargestEntityFromBatch data = Some (i, largestEntity) →
  _rawData largestEntity = Some entries →
  getLargestRawDataEntryFromEntity entries = Some (j, largestRawDataEntry) →
  (getLargestItemKeyAndByteSize (rawData largestRawDataEntry)).2 ≤ sizeOfTruncated →
  shrinkRawData fuel now data maxSize = ShrinkOutOfFuel.
Proof.
  intros Hbig Hi Hraw Hj Hsmall. unfold shrinkRawData.
  destruct fuel as [|fuel]; [done|]. simpl.
  destruct (Z.gtb_spec (batchLength data) maxSize); [|lia].
  rewrite Hi, Hraw, Hj.
  destruct (getLargestItemKeyAndByteSize (rawData largestRawDataEntry))
    as [k s] eqn:Hk.
  simpl in *. rewrite (stuck_loops maxSize); [done| |lia].
  by apply (small_step_stuck data i largestEntity entries j largestRawDataEntry k s).
Qed.

Lemma last_zip_seq {A} (l : list A) : ∀ n b,
  last (zip (seq n (S (length l))) (b :: l))
  = Some ((n + length l)%nat, default b (last l)).
Proof.
  induction l as [|x l IH]; intros n b.
  - cbn. by rewrite Nat.add_0_r.
  - change (zip (seq n (S (length (x :: l)))) (b :: x :: l))
      with ((n, b) :: zip (seq (S n) (S (length l))) (x :: l)).
    rewrite last_cons, IH, (last_cons x l).
    replace (n + length (x :: l))%nat with (S n + length l)%nat by (simpl; lia).
    by destruct (last l).
Qed.

(** X17. How an [uploadDataChunk] call ends. It resolves exactly when its
    last POST is accepted. It rejects with the error of the fifth POST
    when all five attempts failed; with the fatal
    [INTEGRATION_UPLOAD_AFTER_JOB_ENDED] error as soon as an answer that is
    not a too-large error says [JOB_NOT_AWAITING_UPLOADS]; and with the
    error of [shrinkRawData] as soon as a too-large batch cannot be
    shrunk. It never comes back when [shrinkRawData] does not. *)
Theorem X17_uploadDataChunk_outcome fuel now server batch outcome evs :
  uploadDataChunk fuel now server batch = (outcome, evs) →
  ∃ k c,
    last (posts evs) = Some (k, c) ∧ (k < 5)%nat ∧
    match outcome with
    | RetryResolved b' => b' = c ∧ server k c = None
    | RetryRejected e b' =>
        ∃ err, server k c = Some err ∧
          ((k = 4%nat ∧ e = ThrownApi err ∧ handled fuel now err c b') ∨
           (isRequestUploadTooLargeError err = false ∧ jobNotAwaitingUploads err ∧
            e = uploadAfterJobEnded err ∧ b' = c) ∨
           (isRequestUploadTooLargeError err = true ∧
            shrinkRawData fuel now c UPLOAD_SIZE_MAX = ShrinkThrew e b'))
    | RetryOutOfFuel =>
        ∃ err, server k c = Some err ∧ isRequestUploadTooLargeError err = true ∧
               shrinkRawData fuel now c UPLOAD_SIZE_MAX = ShrinkOutOfFuel
    end.
Proof.
  intros Hrun.
  apply attempts_spec in Hrun as (bs & Hposts & Hlen & _ & _ & Hlast);
    [|simpl; lia].
  simpl in Hlen.
  exists (length bs), (default batch (last bs)).
  rewrite Hposts, last_zip_seq. split_and!; [done|lia|].
  specialize (Hlast (default batch (last bs))).
  rewrite last_cons in Hlast. simpl in Hlast.
  assert (Some (default batch (last bs)) =
          Some (match last bs with Some y => y | None => batch end)) as Heq
    by by destruct (last bs).
  destruct (last bs) as [c|] eqn:Hc; simpl in *; specialize (Hlast eq_refl);
    (destruct (server (length bs) _) as [err|] eqn:Hsrv;
     [|by subst outcome];
     destruct outcome as [b'|e b'|]; [done| |by exists err];
     exists err; split; [done|];
     destruct (isRequestUploadTooLargeError err) eqn:Hbig;
     [ destruct Hlast as [?|(Hk & -> & Hh)]; [by right; right|];
       left; split_and!; [lia|done|done]
     | destruct Hlast as [-> Hlast]; case_decide as Hjob;
       [ right; left; by subst
       | destruct Hlast as [Hk ->]; left; split_and!; [lia|done|];
         unfold handled; by rewrite Hbig ] ]).
Qed.

Section Warn_facts.
Variables (fuel : nat) (now : Z * Z).
Variable server : nat → list Entity → option ApiError.

Lemma elem_of_posts evs k c : (k, c) ∈ posts evs ↔ Post k c ∈ evs.
Proof.
  unfold posts. rewrite list_elem_of_omap. split.
  - intros (ev & Hev & Hp). destruct ev; by simplify_eq.
  - intros Hp. by exists (Post k c).
Qed.

(** The warning of the error handler. *)
Lemma handler_warns err ctx b h evs k e :
  handleUploadDataChunkError fuel now err ctx b = (h, evs) →
  LogWarn k e ∈ evs →
  k = attemptNum ctx ∧ e = err ∧ attemptsRemaining ctx ≠ 0%nat ∧
  code err ≠ Some "CredentialsError" ∧ ∃ b', h = HandlerReturned b'.
Proof.
  unfold handleUploadDataChunkError.
  destruct (isRequestUploadTooLargeError err).
  - destruct (shrinkRawData fuel now b UPLOAD_SIZE_MAX) as [results b'|e0 b'|].
    + destruct (Nat.eqb_spec (attemptsRemaining ctx) 0) as [Hz|Hnz]; simpl.
      { intros [= <- <-] Hin. set_solver. }
      case_bool_decide as Hc; simpl; intros [= <- <-] Hin; [set_solver|].
      assert (LogWarn k e = LogWarn (attemptNum ctx) err) as [= -> ->]
        by set_solver.
      split_and!; try done. by eexists.
    + intros [= <- <-] Hin. set_solver.
    + intros [= <- <-] Hin. set_solver.
  - case_bool_decide as Hjob.
    + intros [= <- <-] Hin. set_solver.
    + destruct (Nat.eqb_spec (attemptsRemaining ctx) 0) as [Hz|Hnz]; simpl.
      { intros [= <- <-] Hin. set_solver. }
      case_bool_decide as Hc; simpl; intros [= <- <-] Hin; [set_solver|].
      assert (LogWarn k e = LogWarn (attemptNum ctx) err) as [= -> ->]
        by set_solver.
      split_and!; try done. by eexists.
Qed.

Lemma attempts_first r n b out evs :
  attempts fuel now server (S r) n b = (out, evs) → Post n b ∈ evs.
Proof.
  rewrite attempts_S. cbv zeta.
  destruct (server n b) as [err|]; [|intros [= <- <-]; set_solver].
  destruct (handleUploadDataChunkError fuel now err (mkContext n r) b) as [h hevs].
  destruct h as [b'|e0 b'|]; try (intros [= <- <-]; set_solver).
  destruct r as [|r']; [intros [= <- <-]; set_solver|].
  destruct (attempts fuel now server (S r') (S n) b') as [out' rest].
  intros [= <- <-]. set_solver.
Qed.

Lemma attempts_warns remaining : ∀ n b out evs k e,
  attempts fuel now server remaining n b = (out, evs) →
  LogWarn k e ∈ evs →
  (n ≤ k)%nat ∧ (S k < n + remaining)%nat ∧
  code e ≠ Some "CredentialsError" ∧
  ∃ c c', Post k c ∈ evs ∧ server k c = Some e ∧ Post (S k) c' ∈ evs.
Proof.
  induction remaining as [|r IH]; intros n b out evs k e Hrun Hin.
  { simpl in Hrun. injection Hrun as <- <-. by apply elem_of_nil in Hin. }
  rewrite attempts_S in Hrun.
  destruct (server n b) as [err|] eqn:Hsrv.
  2:{ injection Hrun as <- <-. set_solver. }
  destruct (handleUploadDataChunkError fuel now err (mkContext n r) b)
    as [h hevs] eqn:Hh.
  pose proof (handler_warns err (mkContext n r) b h hevs k e Hh) as Hw.
  simpl in Hw.
  assert (LogWarn k e ∈ hevs →
          (n ≤ k)%nat ∧ (S k < n + S r)%nat ∧ code e ≠ Some "CredentialsError" ∧
          server k b = Some e ∧ k = n) as Hhere.
  { intros Hk. destruct (Hw Hk) as (-> & -> & Hr & Hc & _).
    split_and!; try done; lia. }
  destruct h as [b'|e0 b'|].
  - destruct r as [|r'].
    + injection Hrun as <- <-.
      assert (LogWarn k e ∈ hevs) as Hk by set_solver.
      destruct (Hw Hk) as (_ & _ & Hr & _). done.
    + cbv zeta in Hrun.
      destruct (attempts fuel now server (S r') (S n) b') as [out' rest] eqn:Hrest.
      injection Hrun as <- <-.
      assert (LogWarn k e ∈ hevs ∨ LogWarn k e ∈ rest) as [Hk|Hk].
      { destruct (calculateDelay uploadOptions (S n) =? 0); set_solver. }
      * destruct (Hhere Hk) as (? & ? & ? & ? & ->).
        split_and!; try done. exists b, b'. split_and!; [set_solver|done|].
        pose proof (attempts_first _ _ _ _ _ Hrest).
        destruct (calculateDelay uploadOptions (S n) =? 0); set_solver.
      * destruct (IH (S n) b' out' rest k e Hrest Hk)
          as (? & ? & ? & c & c' & Hc & ? & Hc').
        split_and!; try done; try lia. exists c, c'.
        destruct (calculateDelay uploadOptions (S n) =? 0); set_solver.
  - injection Hrun as <- <-.
    assert (LogWarn k e ∈ hevs) as Hk by set_solver.
    by destruct (Hw Hk) as (_ & _ & _ & _ & ? & ?).
  - injection Hrun as <- <-.
    assert (LogWarn k e ∈ hevs) as Hk by set_solver.
    by destruct (Hw Hk) as (_ & _ & _ & _ & ? & ?).
Qed.
End Warn_facts.

(** X24. [uploadDataChunk] logs the warning that announces a retry only
    for an attempt that failed and is followed by another one: never for
    the fifth attempt, and never for an error with the code
    [CredentialsError]. *)
Theorem X24_uploadDataChunk_warns fuel now server batch outcome evs k err :
  uploadDataChunk fuel now server batch = (outcome, evs) →
  LogWarn k err ∈ evs →
  (k < 4)%nat ∧ code err ≠ Some "CredentialsError" ∧
  ∃ c c', (k, c) ∈ posts evs ∧ server k c = Some err ∧ (S k, c') ∈ posts evs.
Proof.
  intros Hrun Hin.
  destruct (attempts_warns fuel now server 5 0 batch outcome evs k err Hrun Hin)
    as (_ & Hk & Hc & c & c' & Hpost & Hsrv & Hnext).
  split_and!; [lia|done|]. exists c, c'. by rewrite !elem_of_posts.
Qed.

Section Sync_calls.
Variable env : SyncEnv.

(** X18. The calls of [synchronizeCollectedData]. When the job cannot be
    initiated nothing else is called and that error is thrown. Otherwise
    the last call waits for the event queue; the job is finalized only
    after the upload and the reading of the partial datasets went
    through; the job is aborted exactly when the upload, that reading or
    the finalization threw, with the message of that error as the
    reason; the job returned is the finalized one; and an error of the
    event queue replaces any other outcome. *)
Theorem X18_synchronizeCollectedData_calls r calls :
  synchronizeCollectedData env = (r, calls) →
  head calls = Some CallInitiate ∧
  (∀ e, initiateSynchronization env = inl e → r = inl e ∧ calls = [CallInitiate]) ∧
  (∀ job0, initiateSynchronization env = inr job0 →
     last calls = Some CallOnIdle ∧
     (CallFinalize ∈ calls ↔
      uploadCollectedData env = None ∧ getPartialDatasets env = None) ∧
     (∀ reason, CallAbort reason ∈ calls ↔
                ∃ e, (synchronizeTry env).1 = inl e ∧ reason = messageOf e) ∧
     (∀ job, r = inr job ↔
             uploadCollectedData env = None ∧ getPartialDatasets env = None ∧
             finalizeSynchronization env = inr job ∧ onIdle env = None) ∧
     (∀ e, onIdle env = Some e → r = inl e) ∧
     (onIdle env = None → ∀ e, (synchronizeTry env).1 = inl e →
        r = inl (match abortSynchronization env with
                 | inl abortError => abortError
                 | inr _ => e
                 end))).
Proof.
  unfold synchronizeCollectedData, synchronizeTry.
  destruct (initiateSynchronization env) as [e0|job0] eqn:Hinit.
  { intros [= <- <-]. split_and!; [done| |done]. by intros ? [= <-]. }
  destruct (uploadCollectedData env) as [eu|] eqn:Hup;
    [|destruct (getPartialDatasets env) as [ep|] eqn:Hpart;
      [|destruct (finalizeSynchronization env) as [ef|jobf] eqn:Hfin]];
    destruct (abortSynchronization env) as [ea|joba] eqn:Habort;
    destruct (onIdle env) as [ei|] eqn:Hidle;
    intros [= <- <-]; (split_and!; [done|done|]); intros ? _;
    split_and!; try done;
    try (split; [set_solver|naive_solver]);
    try (intros reason; split;
         [ intros Hin; repeat (apply elem_of_cons in Hin as [Hin|Hin]; try done);
           try (by apply elem_of_nil in Hin);
           injection Hin as ->; by eexists
         | intros (e & [= <-] & ->); set_solver ]);
    try (intros job; split; [by intros [= <-]|naive_solver]);
    try naive_solver;
    (split; [done|intros _; set_solver]).
Qed.
End Sync_calls.

(** ** The batches of [uploadData] *)

Section Chunk_facts.
Context {A : Type}.
Implicit Types l : list A.

Local Abbreviation slices n l m :=
  ((λ resIndex, take n (drop (resIndex * n) l)) <$> seq 0 m).

Lemma slices_S (n : nat) l (m : nat) :
  slices n l (S m) = take n l :: slices n (drop n l) m.
Proof.
  rewrite <- cons_seq, fmap_cons. simpl. f_equal.
  rewrite <- fmap_S_seq, <- list_fmap_compose. apply list_fmap_ext.
  intros i k _. simpl. by rewrite drop_drop.
Qed.

Lemma slices_concat (n : nat) (m : nat) : ∀ l,
  (length l ≤ m * n)%nat → concat (slices n l m) = l.
Proof.
  induction m as [|m IH]; intros l Hlen.
  - destruct l; [done|simpl in Hlen; lia].
  - rewrite slices_S. simpl. rewrite IH.
    + apply take_drop.
    + rewrite length_drop. lia.
Qed.

Lemma slices_lookup (n : nat) l (m i : nat) batch :
  slices n l m !! i = Some batch →
  (i < m)%nat ∧ batch = take n (drop (i * n) l) ∧
  length batch = Nat.min n (length l - i * n).
Proof.
  rewrite list_lookup_fmap.
  destruct (seq 0 m !! i) as [k|] eqn:Hk; [|done].
  apply lookup_seq in Hk as [-> Hlt]. simpl. intros [= <-].
  split_and!; [done|done|]. by rewrite length_take, length_drop.
Qed.

Lemma ceil_spec (len n : nat) :
  (0 < n)%nat →
  (len ≤ ((len + n - 1) / n) * n)%nat ∧
  ∀ i, (i < (len + n - 1) / n)%nat → (i * n < len)%nat.
Proof.
  intros Hn. pose proof (Nat.div_mod_eq (len + n - 1) n) as Hdm.
  pose proof (Nat.mod_upper_bound (len + n - 1) n ltac:(lia)) as Hmod.
  split; [nia|]. intros i Hi. nia.
Qed.

Lemma chunk_positive l (size : Z) :
  0 < size → l ≠ [] →
  chunk l size = slices (Z.to_nat size) l
                   ((length l + Z.to_nat size - 1) / Z.to_nat size)%nat.
Proof.
  intros Hsize Hl. unfold chunk.
  replace (Z.max size 0) with size by lia.
  destruct (Nat.eqb_spec (length l) 0) as [Hz|_].
  { by destruct l. }
  destruct (Nat.ltb_spec (Z.to_nat size) 1); [lia|]. done.
Qed.

Lemma chunk_nil (size : Z) : chunk (@nil A) size = [].
Proof. done. Qed.

Lemma chunk_negative l (size : Z) : size ≤ 0 → chunk l size = [].
Proof.
  intros Hsize. unfold chunk. replace (Z.max size 0) with 0 by lia.
  simpl. by rewrite orb_true_r.
Qed.
End Chunk_facts.

(** X19. The batches [uploadData] makes and hands to [uploadDataChunk].
    With a positive batch size they are the data cut in order into pieces
    of that size, the last one possibly shorter: no batch is empty and
    their concatenation is the data. A batch size left out or equal to 0
    stands for 250. With a negative batch size there is no batch: nothing
    is uploaded, whatever the data. *)
Theorem X19_uploadData_batches {A : Type} (data : list A) (uploadBatchSize : option Z) :
  let size := uploadBatchSizeOrDefault uploadBatchSize in
  let batches := uploadDataBatches data uploadBatchSize in
  (uploadBatchSize = None ∨ uploadBatchSize = Some 0 → size = UPLOAD_BATCH_SIZE) ∧
  (0 < size →
   concat batches = data ∧
   length batches = ((length data + Z.to_nat size - 1) / Z.to_nat size)%nat ∧
   ∀ i batch, batches !! i = Some batch →
     batch = take (Z.to_nat size) (drop (i * Z.to_nat size) data) ∧
     (0 < length batch ≤ Z.to_nat size)%nat ∧
     (S i < length batches → length batch = Z.to_nat size)%nat) ∧
  (size < 0 → batches = []).
Proof.
  intros size batches. split_and!.
  - intros [-> | ->]; done.
  - intros Hsize. subst batches. unfold uploadDataBatches. fold size.
    destruct (decide (data = [])) as [->|Hne].
    { rewrite chunk_nil. simpl. split_and!; [done| |by intros ? ? ?].
      symmetry. apply Nat.div_small. lia. }
    rewrite chunk_positive by done.
    set (n := Z.to_nat size). assert (0 < n)%nat as Hn by lia.
    set (m := ((length data + n - 1) / n)%nat).
    destruct (ceil_spec (length data) n Hn) as [Hcover Hin]. fold m in Hcover, Hin.
    assert (List.filter (λ batch : list A, negb (length batch =? 0)%nat)
              ((λ resIndex, take n (drop (resIndex * n) data)) <$> seq 0 m)
            = (λ resIndex, take n (drop (resIndex * n) data)) <$> seq 0 m) as ->.
    { apply forallb_filter_id, forallb_forall. intros batch Hb%list_elem_of_In.
      apply list_elem_of_lookup in Hb as [i Hi].
      apply slices_lookup in Hi as (Hi & _ & Hlen). specialize (Hin i Hi).
      apply negb_true_iff, Nat.eqb_neq. lia. }
    split_and!.
    + by apply slices_concat.
    + by rewrite length_fmap, length_seq.
    + intros i batch Hi. rewrite length_fmap, length_seq.
      apply slices_lookup in Hi as (Hi & Hb & Hlen). pose proof (Hin i Hi).
      split_and!; [done|lia|lia|].
      intros Hnext. specialize (Hin (S i) Hnext). lia.
  - intros Hsize. subst batches. unfold uploadDataBatches. fold size.
    by rewrite chunk_negative by lia.
Qed.

(** ** More of shrinking and uploading on the scenarios *)

(** X14 on the batch of 165 bytes shrunk to fit 100. *)
Lemma X14_witness :
  truncatedBatch bulky bulky_shrunk ∧
  initialSize bulky_results = batchLength bulky ∧
  totalTime bulky_results = 5 - 0 ∧
  0 ≤ itemsRemoved bulky_results ∧
  totalSize bulky_results + itemsRemoved bulky_results ≤ initialSize bulky_results ∧
  (itemsRemoved bulky_results = 0 ↔ batchLength bulky ≤ 100) ∧
  (batchLength bulky ≤ 100 → bulky_shrunk = bulky).
Proof.
  apply (X14_shrinkRawData_only_truncates 10 (0, 5) bulky 100 bulky_results
           bulky_shrunk).
  vm_compute. reflexivity.
Defined.

(** X15 on a batch of 240 bytes that must fit 100: the raw data of the
    entity is truncated, then the relationship is the largest element. *)
Lemma X15_witness :
  truncatedBatch mixed mixed_left ∧
  100 < batchLength mixed_left ∧ batchLength mixed_left ≤ batchLength mixed ∧
  match getLargestEntityFromBatch mixed_left with
  | None => cannotShrink = cannotShrink
  | Some (_, largestEntity) =>
      match _rawData largestEntity with
      | None => cannotShrink = cannotShrink
      | Some entries =>
          getLargestRawDataEntryFromEntity entries = None ∧
          cannotShrink = ThrownTypeError
      end
  end.
Proof.
  apply (X15_shrinkRawData_throws 10 (0, 5) mixed 100 cannotShrink mixed_left).
  vm_compute. reflexivity.
Defined.

(** X16 on a batch of 72 bytes that must fit 10: its only raw data value
    takes 4 bytes. *)
Lemma X16_witness : shrinkRawData 1000 (0, 5) tiny 10 = ShrinkOutOfFuel.
Proof.
  eapply (X16_shrinkRawData_loops_forever 1000 (0, 5) tiny 10).
  - vm_compute. reflexivity.
  - vm_compute. reflexivity.
  - reflexivity.
  - vm_compute. reflexivity.
  - vm_compute. discriminate.
Defined.

(** X17 on the upload that is too large, then refused, then accepted. *)
Lemma X17_witness :
  ∃ k c,
    last (posts large_run.2) = Some (k, c) ∧ (k < 5)%nat ∧
    match large_run.1 with
    | RetryResolved b' => b' = c ∧ server_large k c = None
    | RetryRejected e b' =>
        ∃ err, server_large k c = Some err ∧
          ((k = 4%nat ∧ e = ThrownApi err ∧ handled 5 (0, 0) err c b') ∨
           (isRequestUploadTooLargeError err = false ∧ jobNotAwaitingUploads err ∧
            e = uploadAfterJobEnded err ∧ b' = c) ∨
           (isRequestUploadTooLargeError err = true ∧
            shrinkRawData 5 (0, 0) c UPLOAD_SIZE_MAX = ShrinkThrew e b'))
    | RetryOutOfFuel =>
        ∃ err, server_large k c = Some err ∧ isRequestUploadTooLargeError err = true ∧
               shrinkRawData 5 (0, 0) c UPLOAD_SIZE_MAX = ShrinkOutOfFuel
    end.
Proof.
  apply (X17_uploadDataChunk_outcome 5 (0, 0) server_large tiny
           large_run.1 large_run.2).
  vm_compute. reflexivity.
Defined.

(** X18 on a synchronization in which nothing fails. *)
Lemma X18_witness :
  ∃ r calls,
    synchronizeCollectedData env_fine = (r, calls) ∧
    head calls = Some CallInitiate ∧ last calls = Some CallOnIdle ∧
    (∀ job, r = inr job ↔
            uploadCollectedData env_fine = None ∧
            getPartialDatasets env_fine = None ∧
            finalizeSynchronization env_fine = inr job ∧ onIdle env_fine = None).
Proof.
  eexists _, _. split; [vm_compute; reflexivity|].
  destruct (X18_synchronizeCollectedData_calls env_fine _ _ eq_refl)
    as (Hhead & _ & Hrest).
  destruct (Hrest job eq_refl) as (Hlast & _ & _ & Hjob & _).
  split; [exact Hhead|]. split; [exact Hlast|exact Hjob].
Defined.

(** X24 on the same upload: the 413 of the first attempt is warned about,
    and the second attempt follows. *)
Lemma X24_witness :
  (0 < 4)%nat ∧ code err_large ≠ Some "CredentialsError" ∧
  ∃ c c', (0%nat, c) ∈ posts large_run.2 ∧ server_large 0 c = Some err_large ∧
          (1%nat, c') ∈ posts large_run.2.
Proof.
  apply (X24_uploadDataChunk_warns 5 (0, 0) server_large tiny
           large_run.1 large_run.2 0 err_large).
  - vm_compute. reflexivity.
  - vm_compute. do 4 apply list_elem_of_further. apply list_elem_of_here.
Defined.
End SyncFacts.

(** * Facts about the configuration *)

Module ConfigFacts.
Import Config ConfigSpec ConfigExamples.

(** ** The configuration read from the environment *)

Lemma lowerCaseByte_letter c x :
  lowerCaseLetter x → lowerCaseByte c = x ↔ c = x ∨ c = upperCaseByte x.
Proof.
  unfold lowerCaseLetter, lowerCaseByte, upperCaseByte. intros Hx.
  pose proof (Ascii.N_ascii_bounded c) as Hc.
  pose proof (Ascii.N_ascii_bounded x) as Hxb.
  destruct (N.leb_spec 65 (Ascii.N_of_ascii c)) as [Hlo|Hlo]; simpl.
  - destruct (N.leb_spec (Ascii.N_of_ascii c) 90) as [Hhi|Hhi]; simpl.
    + split.
      * intros <-. right.
        rewrite Ascii.N_ascii_embedding by lia.
        replace (Ascii.N_of_ascii c + 32 - 32)%N with (Ascii.N_of_ascii c) by lia.
        by rewrite Ascii.ascii_N_embedding.
      * intros [->| ->]; [lia|].
        rewrite Ascii.N_ascii_embedding by lia.
        replace (Ascii.N_of_ascii x - 32 + 32)%N with (Ascii.N_of_ascii x) by lia.
        by rewrite Ascii.ascii_N_embedding.
    + split; [by left|]. intros [->| ->]; [done|].
      rewrite Ascii.N_ascii_embedding in Hhi by lia. lia.
  - split; [by left|]. intros [->| ->]; [done|].
    rewrite Ascii.N_ascii_embedding in Hlo by lia. lia.
Qed.

(** The strings [toLowerCase] sends to a lower-case word. *)
Lemma toLowerCase_spellings word : ∀ value,
  lowerCaseWord word → toLowerCase value = word ↔ value ∈ spellings word.
Proof.
  induction word as [|x word IH]; intros value Hword; simpl.
  - rewrite list_elem_of_singleton. by destruct value.
  - destruct Hword as [Hx Hword]. rewrite list_elem_of_bind.
    destruct value as [|c value]; simpl.
    + split; [done|]. intros (rest & Hin & _).
      repeat (apply elem_of_cons in Hin as [Hin|Hin]; [done|]).
      by apply elem_of_nil in Hin.
    + split.
      * intros [= Hc Hv]. exists value. split; [|by apply IH].
        apply (lowerCaseByte_letter c x Hx) in Hc as [->| ->]; set_solver.
      * intros (rest & Hin & Hrest). apply IH in Hrest; [|done].
        assert (value = rest ∧ (c = x ∨ c = upperCaseByte x)) as [-> Hc].
        { repeat (apply elem_of_cons in Hin as [Hin|Hin]);
            [by injection Hin as -> ->; auto..|by apply elem_of_nil in Hin]. }
        f_equal; [|done]. by apply lowerCaseByte_letter.
Qed.

(** X20. A field of type ['boolean'] accepts exactly the spellings of
    [true] and of [false] that differ by the case of their letters, and
    converts them to the boolean; any other value, the empty string
    included, is rejected with the type mismatch error that names the
    field and the value. A field of any other type, or of none, takes the
    value as it is, the empty string included. *)
Theorem X20_convertEnvironmentVariableValueForField field fieldConfig value :
  (∀ b, convertEnvironmentVariableValueForField field fieldConfig value
        = inr (CBoolean b) ↔
        type fieldConfig = Some "boolean" ∧
        value ∈ spellings (if b then "true" else "false")) ∧
  (∀ s, convertEnvironmentVariableValueForField field fieldConfig value
        = inr (CString s) ↔
        type fieldConfig ≠ Some "boolean" ∧ s = value) ∧
  (∀ e, convertEnvironmentVariableValueForField field fieldConfig value = inl e ↔
        type fieldConfig = Some "boolean" ∧
        (value ∉ spellings "true") ∧ (value ∉ spellings "false") ∧
        e = IntegrationLocalConfigFieldTypeMismatchError field value) ∧
  length (spellings "true") = 16 ∧ length (spellings "false") = 32.
Proof.
  assert (lowerCaseWord "true") as Htrue by (vm_compute; intuition discriminate).
  assert (lowerCaseWord "false") as Hfalse by (vm_compute; intuition discriminate).
  pose proof (toLowerCase_spellings "true" value Htrue) as Ht.
  pose proof (toLowerCase_spellings "false" value Hfalse) as Hf.
  unfold convertEnvironmentVariableValueForField.
  split_and!; [| | |done|done].
  - intros [|]; simpl; [rewrite <- Ht|rewrite <- Hf];
      repeat case_decide; split; try done; try (by intros [? ?]); try congruence;
      intros [_ ?]; congruence.
  - intros s. repeat case_decide; split; try done; try (by intros [? ?]);
      try (by intros [= <-]); by intros [_ ->].
  - intros e. rewrite <- Ht, <- Hf.
    repeat case_decide; split; try done; try (by intros (? & ? & ? & ?));
      try (by intros [= <-]); by intros (_ & _ & _ & ->).
Qed.

Section Load_facts.
Variable environmentVariableName : string → string.
Variable env : gmap string string.

Local Abbreviation loadField := (Config.loadField environmentVariableName env).
Local Abbreviation mapFields := (Config.mapFields environmentVariableName env).

Lemma loadField_field entry fv : loadField entry = inr fv → fv.1 = entry.1.
Proof.
  destruct entry as [field config]. simpl.
  destruct (env !! environmentVariableName field); [|done].
  destruct (convertEnvironmentVariableValueForField _ _ _); [done|].
  by intros [= <-].
Qed.

Lemma mapFields_inr entries : ∀ converted,
  mapFields entries = inr converted →
  Forall2 (λ entry fv, loadField entry = inr fv) entries converted.
Proof.
  induction entries as [|entry rest IH]; intros converted; simpl.
  { intros [= <-]. constructor. }
  destruct (loadField entry) as [e|fv] eqn:Hentry; [done|].
  destruct (mapFields rest) as [e|convertedRest]; [done|].
  intros [= <-]. constructor; [done|]. by apply IH.
Qed.

Lemma mapFields_inl entries e :
  mapFields entries = inl e →
  ∃ before entry after,
    entries = before ++ entry :: after ∧ loadField entry = inl e ∧
    ∀ x, x ∈ before → ∃ fv, loadField x = inr fv.
Proof.
  induction entries as [|entry rest IH]; simpl; [done|].
  destruct (loadField entry) as [e0|fv] eqn:Hentry.
  - intros [= <-]. exists [], entry, rest. split_and!; [done|done|].
    by intros ? ?%elem_of_nil.
  - destruct (mapFields rest) as [e1|convertedRest]; [|done].
    intros [= <-]. destruct (IH eq_refl) as (before & x & after & -> & Hx & Hb).
    exists (entry :: before), x, after. split_and!; [done|done|].
    intros y [->|Hy]%elem_of_cons; [by exists fv|by apply Hb].
Qed.

(** The object built by the [reduce]. *)
Lemma reduce_lookup_notin (converted : list (string * ConfigValue)) :
  ∀ (acc : gmap string ConfigValue) field,
  field ∉ converted.*1 →
  foldl (λ acc fv, <[fv.1 := fv.2]> acc) acc converted !! field = acc !! field.
Proof.
  induction converted as [|[f v] converted IH]; intros acc field Hn; simpl; [done|].
  csimpl in Hn. apply not_elem_of_cons in Hn as [Hne Hn].
  rewrite IH by done. by rewrite lookup_insert_ne.
Qed.

Lemma reduce_lookup_in (converted : list (string * ConfigValue)) :
  ∀ (acc : gmap string ConfigValue) field v,
  NoDup converted.*1 → (field, v) ∈ converted →
  foldl (λ acc fv, <[fv.1 := fv.2]> acc) acc converted !! field = Some v.
Proof.
  induction converted as [|[f w] converted IH]; intros acc field v Hnd Hin; simpl.
  { by apply elem_of_nil in Hin. }
  csimpl in Hnd. apply NoDup_cons in Hnd as [Hf Hnd].
  apply elem_of_cons in Hin as [[= -> ->]|Hin].
  - rewrite reduce_lookup_notin by done. by rewrite lookup_insert_eq.
  - by apply IH.
Qed.

End Load_facts.

(** ** The configuration of the scenario *)

End ConfigFacts.
